(* ===== verification/_CoqProject ===== *)
-Q . S2P
Prelude.v
RustStd.v
Settings.v
Proto.v
Partial.v
Glob.v
HashMap.v
Scan.v
Store.v
Cache.v
StoreFacts.v
PropertyTests.v
PropertyTestFacts.v
Dispatch.v
DispatchFacts.v
Commands.v
Server.v
ServerFacts.v
Simulation.v
Bgworker.v
MapServer.v
Client.v
ClientFacts.v
Sql.v
SqlFacts.v
Commit.v
Reads.v
Worker.v
WorkerFacts.v
Rpc.v
