(* ===== verification/Prelude.v ===== *)
(** * pg_resp: a RESP2 cache server inside Postgres, verified

    pg_resp runs a Redis-compatible cache in a Postgres background worker.  One
    thread serves TCP clients from an in-memory store; SQL sessions of the same
    database reach that store as RESP clients over the loopback interface, and
    their writes take effect when the transaction commits.  The source is under
    src/crates/.

    ** Parts, files and source

    - [Prelude], [RustStd], [HashMap]: notation, machine integers, tactics, and
      what the program uses of the Rust standard library (decimal integers,
      UTF-8, letter case, [Instant] and [SystemTime], the unspecified iteration
      order of a hash map as the class [HashIter]).
    - [Settings] (pg_resp/src/lib.rs): the configuration variables, what
      [_PG_init] registers, how each setting is read, [loopback_target].
    - [Proto] (resp-proto/src/lib.rs): replies, [write_to], [encode_command],
      and the two incremental parsers [parse_command] and [parse_reply].
      [Partial]: both parsers on input that has not all arrived.
    - [Glob] (pg_resp/src/glob.rs): [glob_match], with the patterns' denotation
      [matches] to compare it with.
    - [Scan] (resp-store/src/scan.rs): the SCAN cursor registry.
    - [Store] (resp-store/src/lib.rs): the key-value store, every operation, with
      lazy expiry, the active sweep, byte accounting and CLOCK eviction.
      [Cache]: the abstract expiring map, and the refinement; the class
      [Inserting] states what a store with or without a budget promises its
      clients.  [StoreFacts]: further properties of single operations.
    - [PropertyTests], [PropertyTestFacts] (resp-store/src/proptests.rs and
      resp-proto/fuzz/fuzz_targets): the repository's property tests and fuzz
      targets, each a definition that returns whether its assertions hold.
    - [Dispatch], [DispatchFacts] (pg_resp/src/dispatch.rs): one definition per
      arm of the command [match], over a monad of store, connection state, early
      return and panic.  [Commands]: the specification of every command, a table
      of plans that do not look at the store, and that [dispatch] follows it.
    - [Server], [ServerFacts] (pg_resp/src/lib.rs): the event loop (accept, read,
      run, flush, re-register, the panic fence).  The loop is written against the
      class [Service]; [Bgworker] instantiates it with [dispatch] and the store.
      [Simulation] relates runs of the loop on two services; [MapServer]
      instantiates it with the abstract map and the plans of [Commands].
    - [Worker], [WorkerFacts] (pg_resp/src/lib.rs): [background_worker_main]: the
      server thread and the watchdog as two threads whose steps interleave, with
      the flags they share, until the worker stops, is restarted or panics.
    - [Client], [ClientFacts] (resp-client/src/lib.rs): the loopback client, its
      connection, framing and reconnect-once policy.
    - [Sql], [SqlFacts] (pg_resp/src/sql.rs): the SQL functions, the
      commit queue with its transaction callbacks, statistics, the evict trigger.
    - [Commit]: SQL, client, dispatcher and store together.  [Rpc]: one command
      of the client through the event loop, however its bytes are cut and
      whatever else the server does meanwhile.  [Reads]: the SQL read functions
      against the abstract map, and what one session reads after another's COMMIT.

    Component state is a record of the same fields as the Rust struct, an
    operation a function of the same name that takes and returns it.  A panic
    is [None] (in [Dispatch], the ending [Panic]); [Result] is a sum.  Integers
    are [Z]; the wrap-around of 64-bit arithmetic in the release profile is
    written out where the code's operator wraps, and checked or saturating
    operators are modelled as such.  A string is its UTF-8 bytes.

    ** The environment

    Sockets, clocks and the kernel are inputs: a read, a write, an accept, a
    dial or a clock reading is an element of a script that the theorems
    quantify over ([ReadResult], [WriteRoom], [AcceptResult], [Turn],
    [ReadEvent], [Dial]).  A ghost field records what the environment got:
    [sent], the bytes the kernel accepted from a server connection;
    [delivered], the requests a client's sockets accepted.  The case mapping of
    non-ASCII characters ([UnicodeCase]), the iteration order of hash maps
    ([HashIter]) and the [Debug] text of replies ([ReplyDebug]) are class
    arguments without laws, except that iteration visits every entry once.

    ** What the theorems show

    - The whole server: whatever its clients send, in whatever pieces, and
      however the sockets behave, every connection receives the bytes that an
      event loop over an expiring map would send it ([server_refines_map]); what
      the map leaves open (listing orders, statistics, evictions) is a list of
      choices, and without a budget nothing is forgotten.
    - The wire: what one side writes the other reads back, arguments and replies
      alike, whatever bytes they contain; the parsers are total, make progress,
      accept only what the wire can carry, and decide no differently when more
      input arrives (three length limits excepted); inline commands.
    - Patterns and cursors: [glob_match] decides the patterns' meaning; a scan
      followed to its end misses no key that was there all along, an
      uninterrupted one returns its snapshot, and the table of cursors is
      bounded.
    - The store: the byte counter is exact and the budget kept in every reachable
      state; without a budget the store refines the expiring map (RANDOMKEY, which
      may answer an expired key, with a weaker promise); with one, it is
      a map that may forget; eviction never takes the key being written; TTLs; the
      sweep.
    - Commands: at most one store call each, no panic while deadlines fit, the
      password gate, the grammar of SET's options, SET then GET, the framing of
      replies.
    - The event loop: a pipeline is served in order and its replies arrive whole
      however reads and writes are cut, a flush keeps every byte, write buffers
      are bounded, connections do not disturb each other even when a command
      panics, poll interest follows pending bytes.  A request is executed exactly
      once, by the event that brings its last byte: no earlier or later event on
      its connection runs a command ([executed], [quiet_on]); and the client is
      given the reply of that execution.
    - The worker: an invariant of its flags, log and phases, exactly when the
      watchdog ends the process, that a dead server thread is noticed at the next
      turn, and that a server which answers its probes is never restarted.
    - The tests: every property test and fuzz target of the repository passes on
      every input it can generate, for every iteration order of the maps.
    - The client: when a command may run twice, replies split over reads,
      and for which clients and servers a timed-out retry loses the framing.
    - SQL: a committed transaction's writes end up in the server's cache (with a
      budget, what the server keeps is what the transaction wrote), and any session
      reads them there; the read functions return what the map holds, the seconds of
      [resp.ttl] exactly while they fit the code's words ([near_deadline]); the
      queue follows nested transactions, is applied in order with the refusals
      counted, [resp.stats()] is INFO, and the trigger deletes exactly the keys
      of its rows.

    Further lemmas worth reading: [sweep_blind_spot],
    [random_key_expired], [far_deadline_negative] ([StoreFacts]),
    [inline_limit_not_final] ([Proto]), [crlf_name_splits_reply]
    ([DispatchFacts]), [long_line_rejected] ([Partial]), [bind_failure_returns]
    ([WorkerFacts]), [budget_is_megabytes] ([Settings]), [eof_discards_input] ([ServerFacts]),
    [quit_does_not_stop_pipeline] ([Bgworker]) and [leftover_refused]
    ([ClientFacts]), most of them on behaviour that no comment of the source
    announces.

    ** Fuel

    Structural recursion is used where the code's loop consumes a list.  These
    loops have fuel: [find_crlf_loop] (one turn per byte), [parse_reply_at]
    (nesting depth, [MAX_REPLY_DEPTH + 2] turns; [parse_reply_fuel_enough]), the
    printing of integers (one turn per binary digit; the round-trip lemmas would
    fail on a digit lost), [glob_loop] (one turn per pattern byte;
    [glob_fuel_enough]), [evict_loop] (one turn per entry, since each that goes on
    removes one; [evict_loop_terminates]), [evict_oldest] (one turn per cursor,
    each removing one; [registry_scan_total] has the bound it reaches) and
    [command_loop] (one turn per byte read, since each command consumes one;
    [parse_command_progress]).

    ** Not modelled

    What pgrx and Postgres do themselves: the storage of the settings and of the
    shared-memory counter, the delivery of signals and latches (events of the
    worker), the restart of a worker that ended with an error, and the SQL text of
    the extension with its privileges; the conversion of a column's datum to text
    inside pgrx; the lines the server thread prints; the DEBUG command and its
    panic flag, which only a test feature compiles; the random generation of test
    inputs (the theorems quantify over them); unit tests, benches, demos. *)

From Stdlib Require Export ZArith Lia.
From Stdlib Require Export Strings.Byte.
From stdpp Require Export prelude gmap list strings sorting relations.

#[global] Open Scope Z_scope.

(** ** Bytes *)

(** A Rust [u8] is a [byte] of the standard library; [&[u8]], [Vec<u8>] and
    [String] are lists of them. *)
Abbreviation byte := Byte.byte.
Abbreviation bytes := (list byte).

#[export] Instance byte_eq_decision : EqDecision byte := Byte.byte_eq_dec.

#[export] Program Instance byte_countable : Countable byte :=
  inj_countable Byte.to_N Byte.of_N _.
Next Obligation. intros b. apply Byte.of_to_N. Qed.

Declare Scope resp_scope.
Delimit Scope resp_scope with resp.
#[global] Open Scope resp_scope.

(** The bytes of a string literal: Rust's [b"..."] and ["..."]. *)
Definition lit (s : string) : bytes := String.list_byte_of_string s.

Abbreviation CR := Byte.x0d.
Abbreviation LF := Byte.x0a.
Abbreviation CRLF := [Byte.x0d; Byte.x0a].

(** The numeric value of a byte. *)
Definition bval (b : byte) : Z := Z.of_N (Byte.to_N b).

(** The byte of a value below 256. *)
Definition byte_of (z : Z) : byte := default Byte.x00 (Byte.of_N (Z.to_N z)).

(** Lengths as integers: [slice.len()]. *)
Definition len {A} (l : list A) : Z := Z.of_nat (length l).

(** [&l[a..b]]: Rust panics ([None]) when [a > b] or [b > l.len()]. *)
Definition slice {A} (l : list A) (a b : nat) : option (list A) :=
  if decide (a ≤ b ∧ b ≤ length l)%nat then Some (take (b - a) (drop a l)) else None.

(** Rust's [Result]. *)
Inductive Result (A E : Type) : Type :=
| Ok (a : A)
| Err (e : E).
Arguments Ok {A E} _.
Arguments Err {A E} _.

(** ** Machine integers *)

Definition i64_min : Z := - 2 ^ 63.
Definition i64_max : Z := 2 ^ 63 - 1.
Definition u64_max : Z := 2 ^ 64 - 1.

(** [as u64], and 64-bit unsigned arithmetic of the release profile. *)
Definition wrap_u64 (z : Z) : Z := z mod 2 ^ 64.

(** [as i64], and 64-bit signed arithmetic of the release profile. *)
Definition wrap_i64 (z : Z) : Z := (z + 2 ^ 63) mod 2 ^ 64 - 2 ^ 63.

Definition in_i64 (z : Z) : bool := (i64_min <=? z) && (z <=? i64_max).

(** ** Tactics *)

(** Case analysis on the boolean tests of the goal and of the context. *)
Ltac bools :=
  repeat match goal with
  | H : _ && _ = true |- _ => apply andb_true_iff in H as [? ?]
  | H : _ || _ = false |- _ => apply orb_false_iff in H as [? ?]
  | H : negb _ = true |- _ => apply negb_true_iff in H
  | H : negb _ = false |- _ => apply negb_false_iff in H
  | H : bool_decide _ = true |- _ => apply bool_decide_eq_true in H
  | H : bool_decide _ = false |- _ => apply bool_decide_eq_false in H
  | H : (_ <? _)%Z = true |- _ => apply Z.ltb_lt in H
  | H : (_ <? _)%Z = false |- _ => apply Z.ltb_ge in H
  | H : (_ <=? _)%Z = true |- _ => apply Z.leb_le in H
  | H : (_ <=? _)%Z = false |- _ => apply Z.leb_gt in H
  | H : (_ =? _)%Z = true |- _ => apply Z.eqb_eq in H
  | H : (_ =? _)%Z = false |- _ => apply Z.eqb_neq in H
  end.

(** Split every [match] and [if] of the goal, discharging what computes. *)
Ltac split_cases := repeat (case_match; simplify_eq/=; try done).

(** Normal form of concatenations, and equality of lists up to it. *)
Ltac app_norm := repeat (progress (rewrite <- ?app_assoc; cbn [app])).
Ltac app_eq := app_norm; reflexivity.

(** ** Shared lemmas *)

Create HintDb resp.
Create Rewrite HintDb resp.

Lemma range_true lo hi x : lo <= x <= hi → (lo <=? x) && (x <=? hi) = true.
Proof. intros [??]. apply andb_true_iff. by rewrite !Z.leb_le. Qed.

Lemma len_app {A} (l k : list A) : len (l ++ k) = len l + len k.
Proof. unfold len. rewrite length_app. lia. Qed.

Lemma len_nonneg {A} (l : list A) : 0 <= len l.
Proof. unfold len. lia. Qed.

Lemma slice_Some {A} (l : list A) a b :
  (a ≤ b)%nat → (b ≤ length l)%nat → slice l a b = Some (take (b - a) (drop a l)).
Proof. intros. unfold slice. by rewrite decide_True. Qed.

Lemma slice_length {A} (l k : list A) a b :
  slice l a b = Some k → length k = (b - a)%nat.
Proof.
  unfold slice. case_decide; intros; simplify_eq. rewrite length_take, length_drop. lia.
Qed.

Lemma slice_app {A} (l k : list A) a b s :
  slice l a b = Some s → slice (l ++ k) a b = Some s.
Proof.
  unfold slice. case_decide as Hd; intros; simplify_eq.
  rewrite decide_True by (rewrite length_app; lia).
  rewrite drop_app_le, take_app_le by (rewrite ?length_drop; lia). done.
Qed.

Lemma slice_mid {A} (l m r : list A) :
  slice (l ++ m ++ r) (length l) (length l + length m) = Some m.
Proof.
  rewrite slice_Some by (rewrite ?length_app; lia).
  rewrite drop_app_length. replace (_ + _ - _)%nat with (length m) by lia.
  by rewrite take_app_length.
Qed.

#[export] Hint Rewrite @len_app : resp.
