(* ===== verification/RustStd.v ===== *)
(** * What the program uses of the Rust standard library

    Decimal printing and parsing of integers ([to_string], [str::parse]),
    UTF-8 validation and lossy decoding ([str::from_utf8],
    [String::from_utf8_lossy]), upper-casing, and the arithmetic of
    [Instant], [SystemTime] and [Duration].  A Rust [String] is the list of
    its UTF-8 bytes. *)

From S2P Require Import Prelude.

(** ** Integers in decimal *)

Definition digit_byte (d : Z) : byte := byte_of (48 + d).

(** [n.to_string()] for [n >= 0], least significant digit first onto [acc]. *)
Fixpoint dec_digits (fuel : nat) (n : Z) (acc : bytes) : bytes :=
  match fuel with
  | O => acc
  | S fuel' =>
      let acc := digit_byte (n mod 10) :: acc in
      if n <? 10 then acc else dec_digits fuel' (n / 10) acc
  end.

Definition u_to_string (n : Z) : bytes :=
  dec_digits (S (Z.to_nat (Z.log2 n))) n [].

Definition i_to_string (n : Z) : bytes :=
  if n <? 0 then "-"%byte :: u_to_string (- n) else u_to_string n.

(** [usize::to_string] of a length. *)
Definition len_to_string {A} (l : list A) : bytes := u_to_string (len l).

Definition digit_value (b : byte) : option Z :=
  if (48 <=? bval b) && (bval b <=? 57) then Some (bval b - 48) else None.

(** The accumulation loop of [from_str_radix]: [checked_mul], then
    [checked_add] (or [checked_sub] after a minus sign, [sgn = -1]). *)
Fixpoint dec_loop (lo hi sgn acc : Z) (ds : bytes) : option Z :=
  match ds with
  | [] => Some acc
  | d :: ds' =>
      k ← digit_value d;
      let acc' := acc * 10 + sgn * k in
      if (lo <=? acc') && (acc' <=? hi) then dec_loop lo hi sgn acc' ds' else None
  end.

(** [from_str_radix(_, 10)] for a type with range [lo, hi]. *)
Definition parse_int (lo hi : Z) (s : bytes) : option Z :=
  match s with
  | [] => None
  | b :: ds =>
      if decide (ds = [] ∧ (b = "+"%byte ∨ b = "-"%byte)) then None
      else if decide (b = "+"%byte) then dec_loop lo hi 1 0 ds
      else if decide (b = "-"%byte ∧ lo < 0) then dec_loop lo hi (-1) 0 ds
      else dec_loop lo hi 1 0 s
  end.

(** ** UTF-8 *)

Definition in_range (lo hi : Z) (b : byte) : bool := (lo <=? bval b) && (bval b <=? hi).

(** A continuation byte, [10xxxxxx]. *)
Definition is_cont : byte → bool := in_range 128 191.

(** The second byte allowed after a lead byte of a 3- or 4-byte sequence
    (this excludes overlong forms, surrogates and code points above 10FFFF). *)
Definition second_ok (lead : byte) : byte → bool :=
  if bval lead =? 224 then in_range 160 191
  else if bval lead =? 237 then in_range 128 159
  else if bval lead =? 240 then in_range 144 191
  else if bval lead =? 244 then in_range 128 143
  else is_cont.

(** The maximal subparts of a byte string, as [Utf8Chunks] splits it: a
    well-formed character ([true]) or an ill-formed subsequence ([false]). *)
Fixpoint utf8_chunks (s : bytes) : list (bool * bytes) :=
  match s with
  | [] => []
  | a :: s1 =>
      if bval a <? 128 then (true, [a]) :: utf8_chunks s1
      else if in_range 194 223 a then
        match s1 with
        | b :: s2 =>
            if is_cont b then (true, [a; b]) :: utf8_chunks s2
            else (false, [a]) :: utf8_chunks s1
        | [] => [(false, [a])]
        end
      else if in_range 224 239 a then
        match s1 with
        | b :: s2 =>
            if second_ok a b then
              match s2 with
              | c :: s3 =>
                  if is_cont c then (true, [a; b; c]) :: utf8_chunks s3
                  else (false, [a; b]) :: utf8_chunks s2
              | [] => [(false, [a; b])]
              end
            else (false, [a]) :: utf8_chunks s1
        | [] => [(false, [a])]
        end
      else if in_range 240 244 a then
        match s1 with
        | b :: s2 =>
            if second_ok a b then
              match s2 with
              | c :: s3 =>
                  if is_cont c then
                    match s3 with
                    | d :: s4 =>
                        if is_cont d then (true, [a; b; c; d]) :: utf8_chunks s4
                        else (false, [a; b; c]) :: utf8_chunks s3
                    | [] => [(false, [a; b; c])]
                    end
                  else (false, [a; b]) :: utf8_chunks s2
              | [] => [(false, [a; b])]
              end
            else (false, [a]) :: utf8_chunks s1
        | [] => [(false, [a])]
        end
      else (false, [a]) :: utf8_chunks s1
  end.

(** [str::from_utf8(s).ok()]. *)
Definition from_utf8 (s : bytes) : option bytes :=
  if forallb fst (utf8_chunks s) then Some s else None.

(** U+FFFD REPLACEMENT CHARACTER. *)
Definition replacement : bytes := [Byte.xef; Byte.xbf; Byte.xbd].

(** [String::from_utf8_lossy(s)]. *)
Definition from_utf8_lossy (s : bytes) : bytes :=
  concat (map (λ c : bool * bytes, if c.1 then c.2 else replacement) (utf8_chunks s)).

(** [str::from_utf8(s).ok()?.parse::<i64>().ok()], the program's way to read
    a signed argument, and its [u64] counterpart. *)
Definition parse_i64_utf8 (s : bytes) : option Z :=
  t ← from_utf8 s; parse_int i64_min i64_max t.

Definition parse_u64_utf8 (s : bytes) : option Z :=
  t ← from_utf8 s; parse_int 0 u64_max t.

(** ** Letter case *)

Definition ascii_upper (b : byte) : byte :=
  if in_range 97 122 b then byte_of (bval b - 32) else b.
Definition ascii_lower (b : byte) : byte :=
  if in_range 65 90 b then byte_of (bval b + 32) else b.

(** Unicode's case mapping of a character outside ASCII (its UTF-8 bytes), a
    table of the standard library that follows the Unicode version in use.
    No law is assumed: what the program does with ASCII does not read it. *)
Class UnicodeCase := unicode_upper : bytes → bytes.

(** [str::to_uppercase]. *)
Definition to_uppercase `{UnicodeCase} (s : bytes) : bytes :=
  concat (map (λ c : bool * bytes,
    match c.2 with [b] => [ascii_upper b] | cs => unicode_upper cs end) (utf8_chunks s)).

(** [<[u8]>::eq_ignore_ascii_case]. *)
Definition eq_ignore_ascii_case (a b : bytes) : bool :=
  bool_decide (ascii_lower <$> a = ascii_lower <$> b).

(** [b as char], encoded in UTF-8. *)
Definition u8_as_char (b : byte) : bytes :=
  if bval b <? 128 then [b]
  else [byte_of (Z.lor 192 (Z.shiftr (bval b) 6)); byte_of (Z.lor 128 (Z.land (bval b) 63))].

Definition hex_digit (d : Z) : byte := byte_of (if d <? 10 then 48 + d else 87 + d).

(** [{:02x}] of a byte. *)
Definition hex02 (b : byte) : bytes := [hex_digit (bval b / 16); hex_digit (bval b mod 16)].

(** ** Time *)

(** An [Instant], a [SystemTime] and a [Duration] count nanoseconds (from the
    clock's origin, from the Unix epoch).  The seconds of an [Instant] are an
    [i64]; [Instant + Duration] panics ([None]) past its end. *)
Abbreviation Instant := Z (only parsing).
Abbreviation SystemTime := Z (only parsing).
Abbreviation Duration := Z (only parsing).

Definition NS_PER_SEC : Z := 1000000000.
Definition NS_PER_MS : Z := 1000000.

Definition instant_end : Z := 2 ^ 63 * NS_PER_SEC.

Definition instant_add (t : Instant) (d : Duration) : option Instant :=
  if t + d <? instant_end then Some (t + d) else None.

(** [Instant::duration_since] and [saturating_duration_since]. *)
Definition duration_since (t earlier : Instant) : Duration := Z.max 0 (t - earlier).

(** [Duration::from_secs(n as u64)], [Duration::from_millis(n as u64)]. *)
Definition from_secs (n : Z) : Duration := wrap_u64 n * NS_PER_SEC.
Definition from_millis (n : Z) : Duration := wrap_u64 n * NS_PER_MS.

(** [d.as_millis() as i64]. *)
Definition as_millis_i64 (d : Duration) : Z := wrap_i64 (d / NS_PER_MS).

(** [i64::saturating_mul]. *)
Definition saturating_mul (a b : Z) : Z := Z.max i64_min (Z.min i64_max (a * b)).

(** ** Lemmas *)

Lemma bval_range b : 0 <= bval b < 256.
Proof. unfold bval. pose proof (Byte.to_N_bounded b). lia. Qed.

Lemma bval_byte_of z : 0 <= z < 256 → bval (byte_of z) = z.
Proof.
  intros Hz. unfold bval, byte_of.
  destruct (Byte.of_N (Z.to_N z)) as [b|] eqn:E; simpl.
  - apply Byte.to_of_N in E. rewrite E. lia.
  - apply Byte.of_N_None_iff in E. lia.
Qed.

Lemma bval_inj a b : bval a = bval b → a = b.
Proof.
  unfold bval. intros H. apply N2Z.inj in H.
  pose proof (Byte.of_to_N a) as Ha. pose proof (Byte.of_to_N b) as Hb. congruence.
Qed.

Lemma byte_of_bval b : byte_of (bval b) = b.
Proof. apply bval_inj, bval_byte_of, bval_range. Qed.

(** *** Decimal round trip *)

Definition is_digit (b : byte) : Prop := 48 <= bval b <= 57.

Lemma digit_value_digit_byte d : 0 <= d < 10 → digit_value (digit_byte d) = Some d.
Proof.
  intros Hd. unfold digit_value, digit_byte. rewrite bval_byte_of by lia.
  rewrite range_true by lia. f_equal; lia.
Qed.

Lemma digit_byte_is_digit d : 0 <= d < 10 → is_digit (digit_byte d).
Proof. intros. unfold is_digit, digit_byte. rewrite bval_byte_of; lia. Qed.

Lemma digit_value_Some b k : digit_value b = Some k → is_digit b ∧ 0 <= k < 10.
Proof. unfold digit_value, is_digit. case_match; intros; simplify_eq; bools; lia. Qed.

Lemma log2_div10 n : 10 <= n → Z.log2 (n / 10) < Z.log2 n.
Proof.
  intros Hn. assert (0 < n / 10) by (apply Z.div_str_pos; lia).
  apply Z.lt_le_trans with (Z.log2 (2 * (n / 10))).
  - rewrite Z.log2_double by lia. lia.
  - apply Z.log2_le_mono. pose proof (Z.mul_div_le n 10). lia.
Qed.

Lemma dec_digits_app fuel n acc tl :
  dec_digits fuel n (acc ++ tl) = dec_digits fuel n acc ++ tl.
Proof.
  revert n acc; induction fuel as [|fuel IH]; intros n acc; simpl; [done|].
  rewrite app_comm_cons, IH. by case_match.
Qed.

Lemma dec_digits_digits fuel n acc :
  0 <= n → Forall is_digit acc → Forall is_digit (dec_digits fuel n acc).
Proof.
  revert n acc; induction fuel as [|fuel IH]; intros n acc Hn Hacc; simpl; [done|].
  assert (Forall is_digit (digit_byte (n mod 10) :: acc)).
  { constructor; [|done]. apply digit_byte_is_digit, Z.mod_pos_bound. lia. }
  case_match; [done|]. apply IH; [|done]. apply Z.div_pos; lia.
Qed.

Lemma u_to_string_digits n : 0 <= n → Forall is_digit (u_to_string n).
Proof. intros. by apply dec_digits_digits. Qed.

Lemma dec_digits_ne_nil fuel n acc : acc ≠ [] → dec_digits fuel n acc ≠ [].
Proof.
  revert n acc; induction fuel as [|fuel IH]; intros n acc Hacc; simpl; [done|].
  case_match; [done|]. by apply IH.
Qed.

Lemma u_to_string_ne_nil n : u_to_string n ≠ [].
Proof. unfold u_to_string; simpl. case_match; [done|]. by apply dec_digits_ne_nil. Qed.

Lemma dec_loop_digits lo hi sgn fuel n acc :
  0 <= n → Z.log2 n < Z.of_nat fuel → sgn = 1 ∨ sgn = -1 →
  lo <= 0 <= hi → lo <= sgn * n <= hi →
  dec_loop lo hi sgn 0 (dec_digits fuel n acc) = dec_loop lo hi sgn (sgn * n) acc.
Proof.
  intros Hn Hfuel Hsgn H0. revert n acc Hn Hfuel.
  induction fuel as [|fuel IH]; intros n acc Hn Hfuel Hr.
  { pose proof (Z.log2_nonneg n). lia. }
  assert (Hd : 0 <= n mod 10 < 10) by (apply Z.mod_pos_bound; lia).
  cbn [dec_digits]. destruct (Z.ltb_spec n 10) as [Hlt|Hge].
  - cbn [dec_loop]. rewrite digit_value_digit_byte by done. simpl.
    rewrite (Z.mod_small n 10), Z.mul_0_l, Z.add_0_l by lia. by rewrite range_true.
  - pose proof (Z.div_mod n 10 ltac:(lia)) as Hdm.
    assert (0 <= n / 10) by (apply Z.div_pos; lia).
    rewrite IH; [| done | pose proof (log2_div10 n Hge); lia
      | destruct Hsgn; subst; lia].
    cbn [dec_loop]. rewrite digit_value_digit_byte by done. simpl.
    replace (sgn * (n / 10) * 10 + sgn * (n mod 10)) with (sgn * n) by nia.
    by rewrite range_true.
Qed.

Lemma dec_loop_u_to_string lo hi sgn n :
  0 <= n → sgn = 1 ∨ sgn = -1 → lo <= 0 <= hi → lo <= sgn * n <= hi →
  dec_loop lo hi sgn 0 (u_to_string n) = Some (sgn * n).
Proof.
  intros. unfold u_to_string. rewrite dec_loop_digits; try done.
  pose proof (Z.log2_nonneg n). lia.
Qed.

Lemma is_digit_not_sign b : is_digit b → b ≠ "+"%byte ∧ b ≠ "-"%byte.
Proof. intros Hb. split; intros ->; destruct Hb as [H1 H2]; by apply Z.leb_le in H1. Qed.

Lemma parse_int_u_to_string lo hi n :
  lo <= 0 → 0 <= n <= hi → parse_int lo hi (u_to_string n) = Some n.
Proof.
  intros Hlo Hn. pose proof (u_to_string_digits n ltac:(lia)) as Hd.
  pose proof (u_to_string_ne_nil n) as Hne.
  pose proof (dec_loop_u_to_string lo hi 1 n) as Hl.
  destruct (u_to_string n) as [|b ds] eqn:E; [done|].
  apply Forall_cons in Hd as [Hb _]. apply is_digit_not_sign in Hb as [??].
  unfold parse_int. rewrite !decide_False by tauto.
  rewrite Hl by lia. f_equal; lia.
Qed.

Lemma parse_int_i_to_string lo hi n :
  lo <= n <= hi → lo <= 0 <= hi → parse_int lo hi (i_to_string n) = Some n.
Proof.
  intros Hn H0. unfold i_to_string. destruct (Z.ltb_spec n 0).
  - pose proof (u_to_string_ne_nil (- n)) as Hne. unfold parse_int.
    rewrite decide_False by tauto. rewrite decide_False by done.
    rewrite decide_True by (split; [done|lia]).
    rewrite dec_loop_u_to_string by lia. f_equal; lia.
  - apply parse_int_u_to_string; lia.
Qed.

(** *** What a successful parse says *)

Lemma dec_loop_Some lo hi sgn acc ds n :
  dec_loop lo hi sgn acc ds = Some n → lo <= acc <= hi →
  Forall is_digit ds ∧ lo <= n <= hi.
Proof.
  revert acc; induction ds as [|d ds IH]; intros acc; cbn [dec_loop]; intros H Hacc.
  - simplify_eq. by split.
  - destruct (digit_value d) as [k|] eqn:Hd; simplify_eq/=.
    apply digit_value_Some in Hd as [Hd _]. case_match; [|done]. bools.
    edestruct IH as [??]; [done|lia|]. split; [by constructor|lia].
Qed.

Definition is_num_char (b : byte) : Prop := is_digit b ∨ b = "+"%byte ∨ b = "-"%byte.

Lemma parse_int_Some lo hi s n :
  lo <= 0 <= hi → parse_int lo hi s = Some n →
  lo <= n <= hi ∧ Forall is_num_char s ∧ s ≠ [].
Proof.
  intros H0. unfold parse_int. destruct s as [|b ds]; [done|].
  assert (Hw : ∀ l, Forall is_digit l → Forall is_num_char l).
  { intros l Hl. eapply Forall_impl; [done|]. by left. }
  repeat case_decide; intros Hp; try done;
    apply dec_loop_Some in Hp as [Hd ?]; try lia; split_and!; try lia; try done.
  - constructor; [by right; left | by apply Hw].
  - constructor; [by right; right; destruct_and? | by apply Hw].
  - by apply Hw.
Qed.

(** *** UTF-8 *)

Definition is_ascii (b : byte) : Prop := bval b < 128.

Lemma utf8_chunks_ascii_app s t :
  Forall is_ascii s → utf8_chunks (s ++ t) = map (λ b, (true, [b])) s ++ utf8_chunks t.
Proof.
  induction 1 as [|b s Hb Hs IH]; [done|]. cbn [app map utf8_chunks].
  rewrite (proj2 (Z.ltb_lt _ _) Hb), IH. done.
Qed.

Lemma utf8_chunks_ascii s : Forall is_ascii s → utf8_chunks s = map (λ b, (true, [b])) s.
Proof.
  intros H. pose proof (utf8_chunks_ascii_app s [] H) as E.
  by rewrite !app_nil_r in E.
Qed.

Lemma from_utf8_ascii s : Forall is_ascii s → from_utf8 s = Some s.
Proof.
  intros H. unfold from_utf8. rewrite utf8_chunks_ascii by done.
  replace (forallb fst _) with true; [done|]. clear H. by induction s.
Qed.

Lemma from_utf8_Some s t : from_utf8 s = Some t → t = s.
Proof. unfold from_utf8. by case_match; intros; simplify_eq. Qed.

Lemma utf8_chunks_concat s : concat (map snd (utf8_chunks s)) = s.
Proof.
  induction s as [s IH] using (induction_ltof1 _ (@length byte)). unfold ltof in IH.
  destruct s as [|a s1]; [done|]. cbn [utf8_chunks].
  repeat (case_match; subst); cbn [map concat snd fst app]; try done;
    rewrite IH by (cbn [length]; lia); done.
Qed.

Lemma from_utf8_lossy_valid s : from_utf8 s = Some s → from_utf8_lossy s = s.
Proof.
  unfold from_utf8, from_utf8_lossy. case_match eqn:Hf; [|done]. intros _.
  rewrite <- (utf8_chunks_concat s) at 2. f_equal.
  induction (utf8_chunks s) as [|[v c] l IH]; [done|]. simpl in *. bools.
  rewrite IH by done. by subst.
Qed.

Lemma num_char_ascii b : is_num_char b → is_ascii b.
Proof. intros [H|[->| ->]]; [unfold is_digit, is_ascii in *; lia|done..]. Qed.

Lemma digit_ascii b : is_digit b → is_ascii b.
Proof. unfold is_digit, is_ascii. lia. Qed.

(** The UTF-8 check before [parse] never changes the result: what the integer
    grammar accepts is ASCII. *)
Lemma parse_i64_utf8_eq s : parse_i64_utf8 s = parse_int i64_min i64_max s.
Proof.
  unfold parse_i64_utf8. destruct (from_utf8 s) as [t|] eqn:E; simpl.
  { by apply from_utf8_Some in E as ->. }
  destruct (parse_int i64_min i64_max s) as [n|] eqn:P; [|done].
  apply parse_int_Some in P as (_ & Hs & _); [|done].
  rewrite from_utf8_ascii in E; [done|]. eapply Forall_impl; [done|]. apply num_char_ascii.
Qed.

Lemma parse_u64_utf8_eq s : parse_u64_utf8 s = parse_int 0 u64_max s.
Proof.
  unfold parse_u64_utf8. destruct (from_utf8 s) as [t|] eqn:E; simpl.
  { by apply from_utf8_Some in E as ->. }
  destruct (parse_int 0 u64_max s) as [n|] eqn:P; [|done].
  apply parse_int_Some in P as (_ & Hs & _); [|done].
  rewrite from_utf8_ascii in E; [done|]. eapply Forall_impl; [done|]. apply num_char_ascii.
Qed.

Lemma parse_i64_i_to_string n :
  i64_min <= n <= i64_max → parse_i64_utf8 (i_to_string n) = Some n.
Proof. intros. rewrite parse_i64_utf8_eq. by apply parse_int_i_to_string. Qed.

Lemma parse_i64_u_to_string n :
  0 <= n <= i64_max → parse_i64_utf8 (u_to_string n) = Some n.
Proof. intros. rewrite parse_i64_utf8_eq. by apply parse_int_u_to_string. Qed.

Lemma parse_i64_range s n : parse_i64_utf8 s = Some n → i64_min <= n <= i64_max.
Proof. rewrite parse_i64_utf8_eq. intros H. by apply parse_int_Some in H as [? _]. Qed.

Lemma to_uppercase_ascii `{UnicodeCase} s :
  Forall is_ascii s → to_uppercase s = ascii_upper <$> s.
Proof.
  intros Hs. unfold to_uppercase. rewrite utf8_chunks_ascii by done. clear Hs.
  induction s as [|b s IH]; [done|]. cbn. by rewrite <- IH.
Qed.

(** *** Wrap-around *)

Lemma wrap_u64_small z : 0 <= z <= u64_max → wrap_u64 z = z.
Proof. intros. apply Z.mod_small. unfold u64_max in *. lia. Qed.

Lemma wrap_u64_range z : 0 <= wrap_u64 z <= u64_max.
Proof. unfold wrap_u64, u64_max. pose proof (Z.mod_pos_bound z (2 ^ 64)). lia. Qed.

Lemma wrap_i64_small z : i64_min <= z <= i64_max → wrap_i64 z = z.
Proof.
  intros. unfold wrap_i64, i64_min, i64_max in *. rewrite Z.mod_small; lia.
Qed.

Lemma wrap_i64_range z : i64_min <= wrap_i64 z <= i64_max.
Proof.
  unfold wrap_i64, i64_min, i64_max. pose proof (Z.mod_pos_bound (z + 2 ^ 63) (2 ^ 64)). lia.
Qed.

#[export] Hint Resolve u_to_string_ne_nil u_to_string_digits digit_ascii num_char_ascii : resp.
