(* ===== verification/Settings.v ===== *)
(** * Settings and loading (crates/pg_resp/src/lib.rs)

    The configuration variables, what [_PG_init] registers when the library is
    loaded, and how the worker and the backends read the settings. *)

From S2P Require Import Prelude RustStd.

(** ** Postgres errors *)

Inductive SqlCode : Type :=
| ERRCODE_INTERNAL_ERROR
| ERRCODE_INSUFFICIENT_PRIVILEGE
| ERRCODE_CONNECTION_FAILURE
| ERRCODE_CHARACTER_NOT_IN_REPERTOIRE
| ERRCODE_INVALID_PARAMETER_VALUE
| ERRCODE_E_R_I_E_TRIGGER_PROTOCOL_VIOLATED
| ERRCODE_UNDEFINED_COLUMN
| ERRCODE_DATATYPE_MISMATCH
| ERRCODE_OBJECT_NOT_IN_PREREQUISITE_STATE.

(** An error report: code, message and hint (empty when there is none). *)
Record SqlError := raise { code : SqlCode; error_message : bytes; error_hint : bytes }.

(** ** The variables *)

(** The values of the configuration variables; a string variable may be unset. *)
Record Settings := mkSettings {
  BIND_ADDRESS : option bytes;
  PORT : Z;
  MAX_MEMORY_MB : Z;
  EVICTION : option bytes;
  PASSWORD : option bytes;
}.

Definition default_settings : Settings :=
  mkSettings (Some (lit "127.0.0.1")) 6379 256 (Some (lit "clock_lru")) None.

Definition i32_max : Z := 2 ^ 31 - 1.

Inductive GucFlags : Type := NoFlags | UNIT_MB.

(** What [_PG_init] registers; every variable is of the Postmaster context.
    The descriptions are left out. *)
Inductive Registration : Type :=
| StringGuc (name : bytes)
| IntGuc (name : bytes) (min max : Z) (flags : GucFlags)
| ShmemCounter (name : bytes)
| Worker (name function library : bytes) (restart_time : Duration).

Definition pg_init (preload_in_progress : bool) : Result (list Registration) SqlError :=
  if negb preload_in_progress then
    Err (raise ERRCODE_OBJECT_NOT_IN_PREREQUISITE_STATE
      (lit "pg_resp must be loaded via shared_preload_libraries")
      (lit "add pg_resp to shared_preload_libraries in postgresql.conf and restart Postgres; the extension registers a background worker and postmaster-context GUCs, which cannot be created after startup"))
  else
    Ok [ StringGuc (lit "pg_resp.bind_address");
         IntGuc (lit "pg_resp.port") 1 65535 NoFlags;
         IntGuc (lit "pg_resp.max_memory") 0 i32_max UNIT_MB;
         StringGuc (lit "pg_resp.eviction");
         StringGuc (lit "pg_resp.password");
         ShmemCounter (lit "pg_resp_invalidations_lost");
         Worker (lit "pg_resp") (lit "background_worker_main") (lit "pg_resp") (from_secs 1) ].

(** Postgres gives an integer variable only values in its registered range. *)
Definition int_value (s : Settings) (name : bytes) : option Z :=
  if decide (name = lit "pg_resp.port") then Some (PORT s)
  else if decide (name = lit "pg_resp.max_memory") then Some (MAX_MEMORY_MB s)
  else None.

Definition guc_ok (s : Settings) (r : Registration) : bool :=
  match r with
  | IntGuc name min max _ =>
      match int_value s name with Some v => (min <=? v) && (v <=? max) | None => false end
  | _ => true
  end.

Definition settings_valid (s : Settings) : bool :=
  match pg_init true with Ok regs => forallb (guc_ok s) regs | Err _ => false end.

(** ** Reading them *)

(** A string setting as the program reads it; the default when it is unset. *)
Definition text_setting (v : option bytes) (dflt : bytes) : bytes :=
  match v with Some c => from_utf8_lossy c | None => dflt end.

(** The budget: [max_memory] megabytes, unless the policy is noeviction. *)
Definition max_memory_setting (s : Settings) : option Z :=
  let max_memory_bytes :=
    if MAX_MEMORY_MB s <=? 0 then None
    else Some (wrap_u64 (wrap_u64 (wrap_u64 (MAX_MEMORY_MB s) * 1024) * 1024)) in
  if decide (text_setting (EVICTION s) (lit "clock_lru") = lit "noeviction") then None
  else max_memory_bytes.

(** The password: unset and empty are the same. *)
Definition password_setting (s : Settings) : option bytes :=
  match PASSWORD s with Some [] => None | v => v end.

(** The address the server binds. *)
Definition bind_addr (s : Settings) : bytes :=
  text_setting (BIND_ADDRESS s) (lit "127.0.0.1") ++ lit ":" ++ i_to_string (PORT s).

Definition contains (b : byte) (s : bytes) : bool := bool_decide (b ∈ s).

(** [loopback_target]: the address a client on this host connects to, and the
    password it sends. *)
Definition loopback_target (s : Settings) : bytes * option bytes :=
  let bind := text_setting (BIND_ADDRESS s) (lit "127.0.0.1") in
  let host :=
    if bool_decide (bind ∈ [lit "0.0.0.0"; []]) then lit "127.0.0.1"
    else if bool_decide (bind ∈ [lit "::"; lit "[::]"; lit "::0"]) then lit "::1"
    else bind in
  let addr :=
    if contains ":" host && negb (bool_decide (head host = Some "["%byte))
    then lit "[" ++ host ++ lit "]:" ++ i_to_string (PORT s)
    else host ++ lit ":" ++ i_to_string (PORT s) in
  (addr, password_setting s).

(** ** Properties *)

Lemma settings_ranges s :
  settings_valid s = true → 1 <= PORT s <= 65535 ∧ 0 <= MAX_MEMORY_MB s <= i32_max.
Proof.
  unfold settings_valid, pg_init. cbn [negb forallb guc_ok].
  replace (int_value s (lit "pg_resp.port")) with (Some (PORT s)) by done.
  replace (int_value s (lit "pg_resp.max_memory")) with (Some (MAX_MEMORY_MB s)) by done.
  intros H. bools. lia.
Qed.

(** The budget is exactly the configured number of megabytes: no value that
    Postgres accepts for the variable overflows the byte count.  There is no
    budget when the variable is 0 or the policy is noeviction. *)
Theorem budget_is_megabytes s :
  settings_valid s = true →
  max_memory_setting s =
    (if decide (MAX_MEMORY_MB s = 0 ∨ text_setting (EVICTION s) (lit "clock_lru") = lit "noeviction")
     then None else Some (MAX_MEMORY_MB s * 2 ^ 20)) ∧
  (∀ b, max_memory_setting s = Some b → 2 ^ 20 <= b < 2 ^ 51).
Proof.
  intros [_ Hm]%settings_ranges. unfold max_memory_setting, i32_max in *.
  rewrite (wrap_u64_small (MAX_MEMORY_MB s)) by (unfold u64_max; lia).
  rewrite (wrap_u64_small (MAX_MEMORY_MB s * 1024)) by (unfold u64_max; lia).
  rewrite wrap_u64_small by (unfold u64_max; lia).
  destruct (Z.leb_spec (MAX_MEMORY_MB s) 0) as [H0|H0];
    destruct (decide (text_setting _ _ = _)) as [He|He].
  - rewrite decide_True by tauto. done.
  - rewrite decide_True by lia. done.
  - rewrite decide_True by tauto. done.
  - rewrite decide_False by (intros [?|?]; [lia|done]). split; [f_equal; lia|].
    intros b [= <-]. lia.
Qed.

Lemma budget_is_megabytes_witness :
  max_memory_setting default_settings = Some (256 * 2 ^ 20).
Proof.
  destruct (budget_is_megabytes default_settings) as [-> _]; [reflexivity|]. reflexivity.
Defined.
