(* ===== verification/Proto.v ===== *)
(** * The RESP2 codec (crates/resp-proto/src/lib.rs)

    [Reply] and its serializer, the request parser [parse_command], the
    request encoder [encode_command] and the reply parser [parse_reply].

    Buffer positions are [nat]; a length read from the wire stays in [Z]
    until it is known to fit the buffer.  An index or a slice out of the
    buffer's range panics in Rust: the parsers return [None] there, and
    [parse_command_progress] and [parse_reply_sound] show they never do. *)

From S2P Require Import Prelude RustStd.

(** ** Limits *)

Definition MAX_BULK_LEN : Z := 512 * 1024 * 1024.
Definition MAX_ARRAY_LEN : Z := 1024 * 1024.
Definition MAX_INLINE_LEN : Z := 64 * 1024.
Definition MAX_REPLY_DEPTH : nat := 32.

(** ** Replies *)

Unset Elimination Schemes.
Inductive Reply : Type :=
| Simple (s : bytes)
| Error (s : bytes)
| Integer (n : Z)
| Bulk (data : option bytes)
| Array (items : option (list Reply)).
Set Elimination Schemes.

Definition reply_ok : Reply := Simple (lit "OK").
Definition reply_simple (s : bytes) : Reply := Simple s.
Definition reply_error (s : bytes) : Reply := Error s.
Definition reply_bulk (s : bytes) : Reply := Bulk (Some s).
Definition reply_nil : Reply := Bulk None.

(** [write_to]: append the serialized reply to [out]. *)
Fixpoint write_to (r : Reply) (out : bytes) : bytes :=
  match r with
  | Simple s => ((out ++ ["+"%byte]) ++ s) ++ CRLF
  | Error s => ((out ++ ["-"%byte]) ++ s) ++ CRLF
  | Integer n => ((out ++ [":"%byte]) ++ i_to_string n) ++ CRLF
  | Bulk None => out ++ lit "$-1" ++ CRLF
  | Bulk (Some data) =>
      ((((out ++ ["$"%byte]) ++ len_to_string data) ++ CRLF) ++ data) ++ CRLF
  | Array None => out ++ lit "*-1" ++ CRLF
  | Array (Some items) =>
      let out := ((out ++ ["*"%byte]) ++ len_to_string items) ++ CRLF in
      fold_left (λ out item, write_to item out) items out
  end.

Definition to_bytes (r : Reply) : bytes := write_to r [].

(** ** Requests *)

Inductive ParseOutcome : Type :=
| Complete (args : list bytes) (consumed : nat)
| Incomplete
| Invalid (msg : bytes).

(** First position [i >= from] with [buf[i] = CR] and [buf[i+1] = LF]. *)
Fixpoint find_crlf_loop (fuel : nat) (buf : bytes) (i : nat) : option nat :=
  match fuel with
  | O => None
  | S fuel' =>
      if bool_decide (i + 1 < length buf)%nat then
        if bool_decide (buf !! i = Some CR ∧ buf !! (i + 1)%nat = Some LF) then Some i
        else find_crlf_loop fuel' buf (i + 1)
      else None
  end.

Definition find_crlf (buf : bytes) (from : nat) : option nat :=
  find_crlf_loop (length buf - from) buf from.

Definition parse_i64_strict (s : bytes) : option Z :=
  if bool_decide (s = []) then None else parse_i64_utf8 s.

(** The [for _ in 0..count] loop of [parse_array_command]. *)
Fixpoint array_loop (buf : bytes) (count pos : nat) (args : list bytes) : option ParseOutcome :=
  match count with
  | O => Some (Complete args pos)
  | S count' =>
      if bool_decide (length buf ≤ pos)%nat then Some Incomplete else
      c ← buf !! pos;
      if bool_decide (c ≠ "$"%byte) then
        Some (Invalid (lit "expected '$', got '" ++ u8_as_char c ++ lit "'"))
      else
      match find_crlf buf (pos + 1) with
      | None =>
          if MAX_INLINE_LEN <? Z.of_nat (length buf - pos)
          then Some (Invalid (lit "bulk length line too long"))
          else Some Incomplete
      | Some len_crlf =>
          line ← slice buf (pos + 1) len_crlf;
          match parse_i64_strict line with
          | None => Some (Invalid (lit "invalid bulk length"))
          | Some n =>
              if n <? 0 then Some (Invalid (lit "invalid bulk length"))
              else if MAX_BULK_LEN <? n then Some (Invalid (lit "bulk length too large"))
              else
              let data_start := (len_crlf + 2)%nat in
              if len buf <? Z.of_nat data_start + n + 2 then Some Incomplete else
              let data_end := (data_start + Z.to_nat n)%nat in
              a ← buf !! data_end;
              b ← buf !! (data_end + 1)%nat;
              if bool_decide (a ≠ CR ∨ b ≠ LF)
              then Some (Invalid (lit "expected CRLF after bulk data"))
              else
              data ← slice buf data_start data_end;
              array_loop buf count' (data_end + 2) (args ++ [data])
          end
      end
  end.

Definition parse_array_command (buf : bytes) : option ParseOutcome :=
  match find_crlf buf 1 with
  | None =>
      if MAX_INLINE_LEN <? len buf then Some (Invalid (lit "count line too long"))
      else Some Incomplete
  | Some crlf =>
      line ← slice buf 1 crlf;
      match parse_i64_strict line with
      | None => Some (Invalid (lit "invalid multibulk length"))
      | Some count =>
          if count <? 0 then Some (Invalid (lit "invalid multibulk length"))
          else if MAX_ARRAY_LEN <? count
          then Some (Invalid (lit "multibulk length too large"))
          else array_loop buf (Z.to_nat count) (crlf + 2) []
      end
  end.

(** [line.split(|&b| b == b' ')]. *)
Fixpoint split_on (sep : byte) (s : bytes) : list bytes :=
  match s with
  | [] => [[]]
  | c :: s' =>
      if decide (c = sep) then [] :: split_on sep s'
      else match split_on sep s' with
           | h :: t => (c :: h) :: t
           | [] => [[c]]
           end
  end.

Definition parse_inline_command (buf : bytes) : option ParseOutcome :=
  match find_crlf buf 0 with
  | None =>
      if MAX_INLINE_LEN <? len buf then Some (Invalid (lit "inline command too long"))
      else Some Incomplete
  | Some crlf =>
      line ← slice buf 0 crlf;
      let args := base.filter (λ tok, tok ≠ []) (split_on " "%byte line) in
      Some (Complete args (crlf + 2))
  end.

Definition parse_command (buf : bytes) : option ParseOutcome :=
  match buf with
  | [] => Some Incomplete
  | b :: _ =>
      if decide (b = "*"%byte) then parse_array_command buf else parse_inline_command buf
  end.

(** [encode_command_into]. *)
Definition encode_arg (out arg : bytes) : bytes :=
  ((((out ++ ["$"%byte]) ++ len_to_string arg) ++ CRLF) ++ arg) ++ CRLF.

Definition encode_command_into (args : list bytes) (out : bytes) : bytes :=
  fold_left encode_arg args (((out ++ ["*"%byte]) ++ len_to_string args) ++ CRLF).

Definition encode_command (args : list bytes) : bytes := encode_command_into args [].

(** ** The reply parser *)

Inductive ReplyOutcome : Type :=
| RComplete (reply : Reply) (consumed : nat)
| RIncomplete
| RInvalid (msg : bytes).

Inductive Step : Type :=
| SDone (reply : Reply) (pos : nat)
| SIncomplete
| SInvalid (msg : bytes).

(** [Result<Option<(&[u8], usize)>, String>]. *)
Definition read_line (buf : bytes) (pos : nat) : option (Result (option (bytes * nat)) bytes) :=
  match find_crlf buf pos with
  | Some crlf =>
      line ← slice buf pos crlf;
      Some (Ok (Some (line, (crlf + 2)%nat)))
  | None =>
      if MAX_INLINE_LEN <? Z.of_nat (length buf - pos)
      then Some (Err (lit "reply line too long"))
      else Some (Ok None)
  end.

(** The [match read_line(..)] every branch starts with: [k] continues on a line. *)
Definition with_line (buf : bytes) (body : nat) (k : bytes → nat → option Step) : option Step :=
  r ← read_line buf body;
  match r with
  | Err msg => Some (SInvalid msg)
  | Ok None => Some SIncomplete
  | Ok (Some (line, next)) => k line next
  end.

(** The [b'+' | b'-'] branch. *)
Definition reply_line (sigil : byte) (line : bytes) (next : nat) : option Step :=
  let reply := if decide (sigil = "+"%byte) then Simple line else Error line in
  Some (SDone reply next).

(** The [b':'] branch. *)
Definition reply_integer (line : bytes) (next : nat) : option Step :=
  match parse_i64_strict line with
  | Some n => Some (SDone (Integer n) next)
  | None => Some (SInvalid (lit "invalid integer reply"))
  end.

(** The [b'$'] branch. *)
Definition reply_bulk_at (buf line : bytes) (data_start : nat) : option Step :=
  match parse_i64_strict line with
  | None => Some (SInvalid (lit "invalid bulk length"))
  | Some n =>
      if n =? -1 then Some (SDone (Bulk None) data_start)
      else if n <? 0 then Some (SInvalid (lit "invalid bulk length"))
      else if MAX_BULK_LEN <? n then Some (SInvalid (lit "bulk length too large"))
      else if len buf <? Z.of_nat data_start + n + 2 then Some SIncomplete
      else
      let data_end := (data_start + Z.to_nat n)%nat in
      a ← buf !! data_end;
      b ← buf !! (data_end + 1)%nat;
      if bool_decide (a ≠ CR ∨ b ≠ LF)
      then Some (SInvalid (lit "expected CRLF after bulk data"))
      else
      data ← slice buf data_start data_end;
      Some (SDone (Bulk (Some data)) (data_end + 2))
  end.

(** The [for _ in 0..count] loop of the [b'*'] branch; [item] parses one
    element at a position. *)
Fixpoint items_loop (item : nat → option Step) (count next : nat) (items : list Reply) : option Step :=
  match count with
  | O => Some (SDone (Array (Some items)) next)
  | S count' =>
      match item next with
      | Some (SDone r after) => items_loop item count' after (items ++ [r])
      | other => other
      end
  end.

(** The [b'*'] branch. *)
Definition reply_array_at (item : nat → option Step) (line : bytes) (next : nat) : option Step :=
  match parse_i64_strict line with
  | None => Some (SInvalid (lit "invalid multibulk length"))
  | Some count =>
      if count =? -1 then Some (SDone (Array None) next)
      else if count <? 0 then Some (SInvalid (lit "invalid multibulk length"))
      else if MAX_ARRAY_LEN <? count
      then Some (SInvalid (lit "multibulk length too large"))
      else items_loop item (Z.to_nat count) next []
  end.

Definition too_deep : bytes :=
  lit "reply nested deeper than " ++ u_to_string (Z.of_nat MAX_REPLY_DEPTH).

(** The recursion descends at most [MAX_REPLY_DEPTH + 1] levels: [fuel] is
    [MAX_REPLY_DEPTH + 2 - depth] and never runs out before the depth guard. *)
Fixpoint parse_reply_at (fuel : nat) (buf : bytes) (pos depth : nat) : option Step :=
  match fuel with
  | O => Some (SInvalid too_deep)
  | S fuel' =>
      if bool_decide (MAX_REPLY_DEPTH < depth)%nat then Some (SInvalid too_deep)
      else if bool_decide (length buf ≤ pos)%nat then Some SIncomplete
      else
      sigil ← buf !! pos;
      let body := (pos + 1)%nat in
      if decide (sigil = "+"%byte ∨ sigil = "-"%byte) then
        with_line buf body (reply_line sigil)
      else if decide (sigil = ":"%byte) then with_line buf body reply_integer
      else if decide (sigil = "$"%byte) then with_line buf body (reply_bulk_at buf)
      else if decide (sigil = "*"%byte) then
        with_line buf body
          (reply_array_at (λ next, parse_reply_at fuel' buf next (depth + 1)))
      else Some (SInvalid (lit "unexpected reply type byte '" ++ u8_as_char sigil ++
                           lit "' (0x" ++ hex02 sigil ++ lit ")"))
  end.

Definition parse_reply (buf : bytes) : option ReplyOutcome :=
  s ← parse_reply_at (MAX_REPLY_DEPTH + 2) buf 0 0;
  match s with
  | SDone reply pos => Some (RComplete reply pos)
  | SIncomplete => Some RIncomplete
  | SInvalid msg => Some (RInvalid msg)
  end.

(** ** What the wire can carry *)

(** Nesting depth: 0 for a reply that holds no other. *)
Fixpoint reply_depth (r : Reply) : nat :=
  match r with
  | Array (Some items) => foldr (λ i d, Nat.max (S (reply_depth i)) d) 0%nat items
  | _ => 0%nat
  end.

(** The values the parser accepts: no line break inside a status line,
    64-bit integers, lengths within the limits. *)
Fixpoint wire_ok (r : Reply) : bool :=
  match r with
  | Simple s | Error s => bool_decide (find_crlf s 0 = None)
  | Integer n => in_i64 n
  | Bulk None | Array None => true
  | Bulk (Some d) => len d <=? MAX_BULK_LEN
  | Array (Some items) => (len items <=? MAX_ARRAY_LEN) && forallb wire_ok items
  end.

Definition args_ok (args : list bytes) : bool :=
  (len args <=? MAX_ARRAY_LEN) && forallb (λ a, len a <=? MAX_BULK_LEN) args.

(** Rejections of an unterminated line by its length: the only ones that
    depend on how much has been read. *)
Definition is_length_limit (msg : bytes) : bool :=
  bool_decide (msg = lit "count line too long" ∨ msg = lit "bulk length line too long" ∨
               msg = lit "inline command too long" ∨ msg = lit "reply line too long").

(** ** Lines *)

Definition crlf_at (buf : bytes) (i : nat) : Prop :=
  buf !! i = Some CR ∧ buf !! (i + 1)%nat = Some LF.

Lemma crlf_at_lt buf i : crlf_at buf i → (i + 1 < length buf)%nat.
Proof. intros [_ H]. by apply lookup_lt_Some in H. Qed.

Lemma find_crlf_loop_Some fuel buf i j :
  find_crlf_loop fuel buf i = Some j →
  (i ≤ j)%nat ∧ crlf_at buf j ∧ ∀ k, (i ≤ k < j)%nat → ¬ crlf_at buf k.
Proof.
  revert i; induction fuel as [|fuel IH]; intros i; simpl; [done|].
  case_bool_decide; [|done]. case_bool_decide as Hat; intros Hj; simplify_eq.
  - split_and!; try done. intros; lia.
  - apply IH in Hj as (?&?&Hmin). split_and!; [lia|done|].
    intros k ?. destruct (decide (k = i)) as [->|]; [done|]. apply Hmin; lia.
Qed.

Lemma find_crlf_loop_None fuel buf i :
  find_crlf_loop fuel buf i = None → (length buf - i ≤ fuel)%nat →
  ∀ k, (i ≤ k)%nat → ¬ crlf_at buf k.
Proof.
  revert i; induction fuel as [|fuel IH]; intros i; simpl; intros Hf Hfuel k Hk Hat.
  { apply crlf_at_lt in Hat. lia. }
  case_bool_decide as Hlt; [|apply crlf_at_lt in Hat; lia].
  case_bool_decide as Hi; [done|]. destruct (decide (k = i)) as [->|]; [done|].
  eapply IH; [done|lia| |done]. lia.
Qed.

Lemma find_crlf_Some buf from j :
  find_crlf buf from = Some j ↔
  (from ≤ j)%nat ∧ crlf_at buf j ∧ ∀ k, (from ≤ k < j)%nat → ¬ crlf_at buf k.
Proof.
  unfold find_crlf. split; [apply find_crlf_loop_Some|]. intros (Hle & Hat & Hmin).
  destruct (find_crlf_loop _ _ _) as [j'|] eqn:E.
  - apply find_crlf_loop_Some in E as (? & Hat' & Hmin').
    f_equal. destruct (decide (j' < j)%nat); [exfalso; apply (Hmin j'); [lia|done]|].
    destruct (decide (j < j')%nat); [exfalso; apply (Hmin' j); [lia|done]|]. lia.
  - exfalso. by eapply find_crlf_loop_None.
Qed.

Lemma find_crlf_None buf from :
  find_crlf buf from = None ↔ ∀ k, (from ≤ k)%nat → ¬ crlf_at buf k.
Proof.
  split; [intros H; by apply (find_crlf_loop_None _ _ _ H)|].
  intros H. destruct (find_crlf buf from) as [j|] eqn:E; [|done].
  apply find_crlf_Some in E as (?&?&_). by edestruct H.
Qed.

Lemma crlf_at_app buf k i : crlf_at buf i → crlf_at (buf ++ k) i.
Proof. intros [??]. split; by apply lookup_app_l_Some. Qed.

Lemma crlf_at_app_inv buf k i :
  crlf_at (buf ++ k) i → (i + 1 < length buf)%nat → crlf_at buf i.
Proof.
  intros [H1 H2] ?. rewrite lookup_app_l in H1 by lia. rewrite lookup_app_l in H2 by lia.
  by split.
Qed.

Lemma find_crlf_lt buf from j : find_crlf buf from = Some j → (from ≤ j ∧ j + 2 ≤ length buf)%nat.
Proof. intros (?&?%crlf_at_lt&_)%find_crlf_Some. lia. Qed.

Lemma find_crlf_app buf k from j :
  find_crlf buf from = Some j → find_crlf (buf ++ k) from = Some j.
Proof.
  intros (?&Hat&Hmin)%find_crlf_Some. apply find_crlf_Some.
  split_and!; [done|by apply crlf_at_app|]. intros i Hi Hi'.
  eapply Hmin; [done|]. eapply crlf_at_app_inv; [done|]. apply crlf_at_lt in Hat. lia.
Qed.

(** The terminator written after a line without line breaks is the one found. *)
Lemma find_crlf_line pre line rest :
  find_crlf line 0 = None →
  find_crlf (pre ++ line ++ CRLF ++ rest) (length pre) = Some (length pre + length line)%nat.
Proof.
  intros Hline. rewrite find_crlf_None in Hline. apply find_crlf_Some. split_and!; [lia|split|].
  - rewrite lookup_app_r by lia. rewrite lookup_app_r by lia.
    by replace (_ - _ - _)%nat with 0%nat by lia.
  - rewrite lookup_app_r by lia. rewrite lookup_app_r by lia.
    by replace (_ - _ - _)%nat with 1%nat by lia.
  - intros k Hk [H1 H2]. apply (Hline (k - length pre)%nat); [lia|].
    rewrite lookup_app_r in H1, H2 by lia. split.
    + rewrite lookup_app_l in H1 by lia. done.
    + destruct (decide (k + 1 = length pre + length line)%nat) as [E|].
      * rewrite lookup_app_r in H2 by lia.
        replace (_ - _ - _)%nat with 0%nat in H2 by lia. done.
      * rewrite lookup_app_l in H2 by lia.
        by replace (k + 1 - length pre)%nat with (k - length pre + 1)%nat in H2 by lia.
Qed.

Lemma find_crlf_no_lf s : LF ∉ s → find_crlf s 0 = None.
Proof.
  intros Hs. apply find_crlf_None. intros k _ [_ H].
  apply Hs. by eapply list_elem_of_lookup_2.
Qed.

Lemma digits_no_lf s : Forall is_digit s → LF ∉ s.
Proof.
  intros Hs Hin. rewrite Forall_forall in Hs. apply Hs in Hin as [H _].
  by apply Z.leb_le in H.
Qed.

Lemma find_crlf_u_to_string n : 0 <= n → find_crlf (u_to_string n) 0 = None.
Proof. intros. by apply find_crlf_no_lf, digits_no_lf, u_to_string_digits. Qed.

Lemma find_crlf_i_to_string n : find_crlf (i_to_string n) 0 = None.
Proof.
  unfold i_to_string. destruct (Z.ltb_spec n 0); [|by apply find_crlf_u_to_string].
  apply find_crlf_no_lf. apply not_elem_of_cons. split; [done|].
  apply digits_no_lf, u_to_string_digits. lia.
Qed.

Lemma parse_i64_strict_u_to_string n :
  0 <= n <= i64_max → parse_i64_strict (u_to_string n) = Some n.
Proof.
  intros. unfold parse_i64_strict. rewrite bool_decide_false by apply u_to_string_ne_nil.
  by apply parse_i64_u_to_string.
Qed.

Lemma parse_i64_strict_i_to_string n :
  i64_min <= n <= i64_max → parse_i64_strict (i_to_string n) = Some n.
Proof.
  intros. unfold parse_i64_strict. rewrite bool_decide_false.
  - by apply parse_i64_i_to_string.
  - unfold i_to_string. case_match; [done|]. apply u_to_string_ne_nil.
Qed.

Lemma parse_i64_strict_range s n : parse_i64_strict s = Some n → i64_min <= n <= i64_max.
Proof. unfold parse_i64_strict. case_bool_decide; [done|]. apply parse_i64_range. Qed.

(** ** The layout of encoded data *)

(** A header line: [sigil], the payload, CRLF. *)
Definition header (sigil : byte) (payload : bytes) : bytes := sigil :: payload ++ CRLF.

(** A bulk string on the wire. *)
Definition bulk_bytes (data : bytes) : bytes :=
  header "$" (len_to_string data) ++ data ++ CRLF.

Lemma lookup_at {A} (l r : list A) x n : n = length l → (l ++ x :: r) !! n = Some x.
Proof. intros ->. apply list_lookup_middle. done. Qed.

Lemma slice_at {A} (l m r : list A) a b :
  a = length l → b = (length l + length m)%nat → slice (l ++ m ++ r) a b = Some m.
Proof. intros -> ->. apply slice_mid. Qed.

Lemma header_layout pre sigil payload rest :
  find_crlf payload 0 = None →
  let buf := pre ++ header sigil payload ++ rest in
  buf !! length pre = Some sigil ∧
  find_crlf buf (length pre + 1) = Some (length pre + 1 + length payload)%nat ∧
  slice buf (length pre + 1) (length pre + 1 + length payload) = Some payload ∧
  (length pre < length buf)%nat.
Proof.
  intros Hp buf.
  assert (buf = (pre ++ [sigil]) ++ payload ++ CRLF ++ rest) as E.
  { unfold buf, header. app_eq. }
  split_and!.
  - unfold buf, header. cbn [app]. by apply lookup_at.
  - rewrite E. replace (length pre + 1)%nat with (length (pre ++ [sigil]))
      by (rewrite length_app; done).
    by apply find_crlf_line.
  - rewrite E. apply slice_at; rewrite length_app; simpl; lia.
  - unfold buf, header. rewrite length_app. simpl. lia.
Qed.

(** Where the pieces of an encoded bulk string are found by the parsers. *)
Lemma bulk_layout pre data rest :
  let buf := pre ++ bulk_bytes data ++ rest in
  let h := length (len_to_string data) in
  let start := (length pre + 1 + h + 2)%nat in
  slice buf start (start + length data) = Some data ∧
  buf !! (start + length data)%nat = Some CR ∧
  buf !! (start + length data + 1)%nat = Some LF ∧
  length (bulk_bytes data) = (h + 3 + length data + 2)%nat ∧
  Z.of_nat start + len data + 2 <= len buf.
Proof.
  intros buf h start.
  set (hd := pre ++ header "$" (len_to_string data)).
  assert (Hhd : length hd = start).
  { unfold hd, header, start, h. rewrite length_app. simpl. rewrite length_app. simpl. lia. }
  assert (E : buf = hd ++ data ++ CRLF ++ rest).
  { unfold buf, hd, bulk_bytes. app_eq. }
  assert (E2 : buf = (hd ++ data) ++ CR :: LF :: rest) by (rewrite E; app_eq).
  assert (E3 : buf = (hd ++ data ++ [CR]) ++ LF :: rest) by (rewrite E; app_eq).
  split_and!.
  - rewrite E, <- Hhd. by apply slice_at.
  - rewrite E2. apply lookup_at. rewrite length_app. lia.
  - rewrite E3. apply lookup_at. rewrite !length_app. simpl. lia.
  - unfold bulk_bytes, header, h. rewrite length_app. simpl. rewrite !length_app. simpl. lia.
  - rewrite E. unfold len. rewrite !length_app. simpl. lia.
Qed.

Lemma encode_arg_eq out arg : encode_arg out arg = out ++ bulk_bytes arg.
Proof. unfold encode_arg, bulk_bytes, header. app_eq. Qed.

Lemma fold_encode_arg args out :
  fold_left encode_arg args out = out ++ concat (map bulk_bytes args).
Proof.
  revert out; induction args as [|a args IH]; intros out; cbn [fold_left map concat];
    [by rewrite app_nil_r|].
  rewrite IH, encode_arg_eq. app_eq.
Qed.

Lemma encode_command_eq args :
  encode_command args = header "*" (len_to_string args) ++ concat (map bulk_bytes args).
Proof. unfold encode_command, encode_command_into, header. rewrite fold_encode_arg. app_eq. Qed.

Lemma len_to_string_parse {A} (l : list A) :
  len l <= i64_max → parse_i64_strict (len_to_string l) = Some (len l).
Proof. intros. apply parse_i64_strict_u_to_string. pose proof (len_nonneg l). lia. Qed.

Lemma find_crlf_len_to_string {A} (l : list A) : find_crlf (len_to_string l) 0 = None.
Proof. apply find_crlf_u_to_string, len_nonneg. Qed.


(** One bulk string of the loop. *)
Lemma array_loop_bulk a pre rest count acc :
  len a <= MAX_BULK_LEN →
  let buf := pre ++ bulk_bytes a ++ rest in
  array_loop buf (S count) (length pre) acc =
  array_loop buf count (length (pre ++ bulk_bytes a)) (acc ++ [a]).
Proof.
  intros Hmax. cbn [array_loop]. pose proof (len_nonneg a).
  destruct (header_layout pre "$" (len_to_string a) ((a ++ CRLF) ++ rest)
    (find_crlf_len_to_string a)) as (H1 & H2 & H3 & H4).
  destruct (bulk_layout pre a rest) as (B1 & B2 & B3 & B4 & B5).
  replace (pre ++ header "$" (len_to_string a) ++ (a ++ CRLF) ++ rest)
    with (pre ++ bulk_bytes a ++ rest) in * by (unfold bulk_bytes; app_eq).
  set (buf := pre ++ bulk_bytes a ++ rest) in *.
  rewrite bool_decide_false by lia. rewrite H1. cbn [mbind option_bind].
  rewrite bool_decide_false by tauto. rewrite H2, H3. cbn [mbind option_bind].
  rewrite len_to_string_parse by (unfold MAX_BULK_LEN, i64_max in *; lia).
  destruct (Z.ltb_spec (len a) 0); [lia|].
  destruct (Z.ltb_spec MAX_BULK_LEN (len a)); [lia|].
  destruct (Z.ltb_spec (len buf) (Z.of_nat (length pre + 1 + length (len_to_string a) + 2) + len a + 2));
    [lia|].
  replace (Z.to_nat (len a)) with (length a) by (unfold len; lia).
  rewrite B2, B3. cbn [mbind option_bind]. rewrite bool_decide_false by tauto.
  rewrite B1. cbn [mbind option_bind]. f_equal. rewrite length_app. lia.
Qed.

Lemma array_loop_encode args pre rest acc :
  forallb (λ a, len a <=? MAX_BULK_LEN) args = true →
  array_loop (pre ++ concat (map bulk_bytes args) ++ rest) (length args) (length pre) acc =
  Some (Complete (acc ++ args) (length pre + length (concat (map bulk_bytes args)))).
Proof.
  revert pre acc; induction args as [|a args IH]; intros pre acc Hok.
  { simpl. by rewrite app_nil_r, Nat.add_0_r. }
  cbn [forallb] in Hok. bools. cbn [concat map length]. rewrite <- app_assoc.
  rewrite array_loop_bulk by done. rewrite app_assoc, IH by done.
  f_equal. f_equal; [by rewrite <- app_assoc|]. rewrite !length_app. lia.
Qed.

(** ** The request parser never indexes out of its buffer *)

Lemma array_loop_total buf count pos args :
  ∃ o, array_loop buf count pos args = Some o ∧
    ∀ a n, o = Complete a n → (pos ≤ n)%nat ∧ ((pos ≤ length buf)%nat → (n ≤ length buf)%nat).
Proof.
  revert pos args; induction count as [|count IH]; intros pos args; cbn [array_loop].
  { eexists. split; [done|]. intros; simplify_eq. lia. }
  assert (Hother : ∀ o, (∀ a n, o ≠ Complete a n) → ∃ o', Some o = Some o' ∧
    ∀ a n, o' = Complete a n → (pos ≤ n)%nat ∧ ((pos ≤ length buf)%nat → (n ≤ length buf)%nat)).
  { intros o Ho. exists o. split; [done|]. intros a n ->. by edestruct Ho. }
  case_bool_decide as Hpos; [by apply Hother|].
  destruct (lookup_lt_is_Some_2 buf pos) as [c Hc]; [lia|]. rewrite Hc. cbn [mbind option_bind].
  case_bool_decide; [by apply Hother|].
  destruct (find_crlf buf (pos + 1)) as [j|] eqn:Hj; [|case_match; by apply Hother].
  apply find_crlf_lt in Hj as [? ?].
  rewrite slice_Some by lia. cbn [mbind option_bind].
  destruct (parse_i64_strict _) as [n|]; [|by apply Hother].
  destruct (Z.ltb_spec n 0); [by apply Hother|].
  destruct (Z.ltb_spec MAX_BULK_LEN n); [by apply Hother|].
  destruct (Z.ltb_spec (len buf) (Z.of_nat (j + 2) + n + 2)) as [|Hlen]; [by apply Hother|].
  unfold len in Hlen. set (e := (j + 2 + Z.to_nat n)%nat).
  destruct (lookup_lt_is_Some_2 buf e) as [a Ha]; [unfold e; lia|].
  destruct (lookup_lt_is_Some_2 buf (e + 1)) as [b Hb]; [unfold e; lia|].
  rewrite Ha, Hb. cbn [mbind option_bind].
  case_bool_decide; [by apply Hother|].
  rewrite slice_Some by (unfold e; lia). cbn [mbind option_bind].
  destruct (IH (e + 2)%nat (args ++ [take (e - (j + 2)) (drop (j + 2) buf)])) as (o & Ho & Hn).
  exists o. split; [done|]. intros a' n' ->. edestruct Hn as [??]; [done|].
  unfold e in *. lia.
Qed.

Lemma parse_array_total buf :
  ∃ o, parse_array_command buf = Some o ∧
    ∀ a n, o = Complete a n → (0 < n ≤ length buf)%nat.
Proof.
  unfold parse_array_command.
  destruct (find_crlf buf 1) as [j|] eqn:Hj; [|case_match; by eexists].
  apply find_crlf_lt in Hj as [? ?].
  rewrite slice_Some by lia. cbn [mbind option_bind].
  destruct (parse_i64_strict _) as [n|]; [|by eexists].
  repeat (case_match; [by eexists|]).
  destruct (array_loop_total buf (Z.to_nat n) (j + 2) []) as (o & -> & Hn).
  exists o. split; [done|]. intros a m ->. edestruct Hn as [??]; [done|]. lia.
Qed.

Lemma parse_inline_total buf :
  ∃ o, parse_inline_command buf = Some o ∧
    ∀ a n, o = Complete a n → (0 < n ≤ length buf)%nat.
Proof.
  unfold parse_inline_command.
  destruct (find_crlf buf 0) as [j|] eqn:Hj; [|case_match; by eexists].
  apply find_crlf_lt in Hj as [? ?].
  rewrite slice_Some by lia. cbn [mbind option_bind].
  eexists; split; [done|]. intros; simplify_eq. lia.
Qed.

Lemma parse_command_cases buf :
  ∃ o, parse_command buf = Some o ∧
    ∀ a n, o = Complete a n → (0 < n ≤ length buf)%nat.
Proof.
  destruct buf as [|b buf]; [by eexists|]. unfold parse_command.
  case_decide; [apply parse_array_total | apply parse_inline_total].
Qed.

(** ** Reading more input never changes a decided outcome *)

Definition decided (o : ParseOutcome) : bool :=
  match o with
  | Complete _ _ => true
  | Incomplete => false
  | Invalid msg => negb (is_length_limit msg)
  end.

Lemma array_loop_app buf k count pos args o :
  array_loop buf count pos args = Some o → decided o = true →
  array_loop (buf ++ k) count pos args = Some o.
Proof.
  intros Ho Hdec. revert pos args Ho.
  induction count as [|count IH]; intros pos args; cbn [array_loop]; [done|].
  case_bool_decide as Hpos; [by intros; simplify_eq|].
  rewrite bool_decide_false by (rewrite length_app; lia).
  destruct (buf !! pos) as [c|] eqn:Hc; [|done]. rewrite (lookup_app_l_Some _ _ _ _ Hc).
  cbn [mbind option_bind]. case_bool_decide; [done|].
  destruct (find_crlf buf (pos + 1)) as [j|] eqn:Hj; [|by case_match; intros; simplify_eq].
  rewrite (find_crlf_app _ _ _ _ Hj).
  destruct (slice buf (pos + 1) j) as [line|] eqn:Hl; [|done].
  rewrite (slice_app _ _ _ _ _ Hl). cbn [mbind option_bind].
  destruct (parse_i64_strict line) as [n|]; [|done].
  case_match; [done|]. case_match; [done|].
  destruct (Z.ltb_spec (len buf) (Z.of_nat (j + 2) + n + 2)) as [|Hlen];
    [by intros; simplify_eq|].
  destruct (Z.ltb_spec (len (buf ++ k)) (Z.of_nat (j + 2) + n + 2)).
  { rewrite len_app in *. pose proof (len_nonneg k). lia. }
  destruct (buf !! (j + 2 + Z.to_nat n)%nat) as [a|] eqn:Ha; [|done]. rewrite (lookup_app_l_Some _ _ _ _ Ha).
  cbn [mbind option_bind].
  destruct (buf !! (j + 2 + Z.to_nat n + 1)%nat) as [b|] eqn:Hb; [|done].
  rewrite (lookup_app_l_Some _ _ _ _ Hb). cbn [mbind option_bind].
  case_bool_decide; [done|].
  destruct (slice buf (j + 2) _) as [data|] eqn:Hd; [|done].
  rewrite (slice_app _ _ _ _ _ Hd). cbn [mbind option_bind]. apply IH.
Qed.

Lemma parse_array_app buf k o :
  parse_array_command buf = Some o → decided o = true →
  parse_array_command (buf ++ k) = Some o.
Proof.
  unfold parse_array_command. intros Ho Hdec.
  destruct (find_crlf buf 1) as [j|] eqn:Hj; [|by case_match; simplify_eq].
  rewrite (find_crlf_app _ _ _ _ Hj).
  destruct (slice buf 1 j) as [line|] eqn:Hl; [|done].
  rewrite (slice_app _ _ _ _ _ Hl). cbn [mbind option_bind] in *.
  destruct (parse_i64_strict line); [|done].
  case_match; [done|]. case_match; [done|]. by apply array_loop_app.
Qed.

Lemma parse_inline_app buf k o :
  parse_inline_command buf = Some o → decided o = true →
  parse_inline_command (buf ++ k) = Some o.
Proof.
  unfold parse_inline_command. intros Ho Hdec.
  destruct (find_crlf buf 0) as [j|] eqn:Hj; [|by case_match; simplify_eq].
  rewrite (find_crlf_app _ _ _ _ Hj).
  destruct (slice buf 0 j) as [line|] eqn:Hl; [|done].
  by rewrite (slice_app _ _ _ _ _ Hl).
Qed.

Lemma parse_command_app buf k o :
  parse_command buf = Some o → decided o = true → parse_command (buf ++ k) = Some o.
Proof.
  destruct buf as [|b buf]; [by intros; simplify_eq/=|]. unfold parse_command.
  cbn [app]. case_decide; [apply (parse_array_app (b :: buf)) | apply (parse_inline_app (b :: buf))].
Qed.

(** ** Replies: induction, serialization *)

Lemma Reply_ind (P : Reply → Prop) :
  (∀ s, P (Simple s)) → (∀ s, P (Error s)) → (∀ n, P (Integer n)) →
  (∀ d, P (Bulk d)) → P (Array None) →
  (∀ items, Forall P items → P (Array (Some items))) → ∀ r, P r.
Proof.
  intros HS HE HI HB HN HA. fix IH 1. intros [s|s|n|d|[items|]];
    [apply HS|apply HE|apply HI|apply HB| |apply HN].
  apply HA. induction items as [|i items IHi]; constructor; [apply IH|apply IHi].
Qed.

Lemma fold_write_to items out :
  Forall (λ r, ∀ out, write_to r out = out ++ to_bytes r) items →
  fold_left (λ out item, write_to item out) items out = out ++ concat (map to_bytes items).
Proof.
  intros H. revert out. induction H as [|r items Hr _ IH]; intros out;
    cbn [fold_left map concat]; [by rewrite app_nil_r|].
  rewrite IH, Hr. app_eq.
Qed.

Lemma write_to_app r out : write_to r out = out ++ to_bytes r.
Proof.
  revert out. induction r as [s|s|n|[d|]| |items IH] using Reply_ind; intros out;
    unfold to_bytes; cbn [write_to]; try app_eq.
  rewrite !fold_write_to by done. app_eq.
Qed.

Lemma to_bytes_bulk d : to_bytes (Bulk (Some d)) = bulk_bytes d.
Proof. unfold to_bytes, bulk_bytes, header. cbn [write_to]. app_eq. Qed.

Lemma to_bytes_array items :
  to_bytes (Array (Some items)) =
  header "*" (len_to_string items) ++ concat (map to_bytes items).
Proof.
  unfold to_bytes at 1, header. cbn [write_to].
  rewrite fold_write_to; [app_eq|]. apply Forall_true. intros. apply write_to_app.
Qed.

Lemma reply_depth_cons i items :
  reply_depth (Array (Some (i :: items))) =
  Nat.max (S (reply_depth i)) (reply_depth (Array (Some items))).
Proof. done. Qed.

(** ** The reply parser reads back what the serializer writes *)

Lemma with_line_header pre sigil payload rest k :
  find_crlf payload 0 = None →
  with_line (pre ++ header sigil payload ++ rest) (length pre + 1) k =
  k payload (length pre + length (header sigil payload))%nat.
Proof.
  intros Hp. destruct (header_layout pre sigil payload rest Hp) as (_ & H2 & H3 & _).
  unfold with_line, read_line. rewrite H2, H3. cbn [mbind option_bind]. f_equal.
  unfold header. simpl. rewrite length_app. simpl. lia.
Qed.

Lemma parse_reply_at_enter fuel pre sigil payload rest depth :
  find_crlf payload 0 = None → (depth ≤ MAX_REPLY_DEPTH)%nat →
  let buf := pre ++ header sigil payload ++ rest in
  let next := (length pre + length (header sigil payload))%nat in
  parse_reply_at (S fuel) buf (length pre) depth =
  if decide (sigil = "+"%byte ∨ sigil = "-"%byte) then reply_line sigil payload next
  else if decide (sigil = ":"%byte) then reply_integer payload next
  else if decide (sigil = "$"%byte) then reply_bulk_at buf payload next
  else if decide (sigil = "*"%byte) then
    reply_array_at (λ next, parse_reply_at fuel buf next (depth + 1)) payload next
  else Some (SInvalid (lit "unexpected reply type byte '" ++ u8_as_char sigil ++
                       lit "' (0x" ++ hex02 sigil ++ lit ")")).
Proof.
  intros Hp Hd buf next. unfold buf, next.
  destruct (header_layout pre sigil payload rest Hp) as (H1 & _ & _ & H4).
  cbn [parse_reply_at]. rewrite bool_decide_false by lia. rewrite bool_decide_false by lia.
  rewrite H1. cbn [mbind option_bind]. by rewrite !with_line_header.
Qed.

Lemma reply_bulk_at_layout pre data rest :
  len data <= MAX_BULK_LEN →
  reply_bulk_at (pre ++ bulk_bytes data ++ rest) (len_to_string data)
    (length pre + length (header "$" (len_to_string data))) =
  Some (SDone (Bulk (Some data)) (length pre + length (bulk_bytes data))).
Proof.
  intros Hmax. destruct (bulk_layout pre data rest) as (B1 & B2 & B3 & B4 & B5).
  set (buf := pre ++ bulk_bytes data ++ rest) in *.
  set (start := (length pre + 1 + length (len_to_string data) + 2)%nat) in *.
  replace (length pre + length (header "$" (len_to_string data)))%nat with start
    by (unfold start, header; simpl; rewrite length_app; simpl; lia).
  pose proof (len_nonneg data). unfold reply_bulk_at.
  rewrite len_to_string_parse by (unfold MAX_BULK_LEN, i64_max in *; lia).
  destruct (Z.eqb_spec (len data) (-1)); [lia|].
  destruct (Z.ltb_spec (len data) 0); [lia|].
  destruct (Z.ltb_spec MAX_BULK_LEN (len data)); [lia|].
  destruct (Z.ltb_spec (len buf) (Z.of_nat start + len data + 2)); [lia|].
  replace (Z.to_nat (len data)) with (length data) by (unfold len; lia).
  rewrite B2, B3. cbn [mbind option_bind]. rewrite bool_decide_false by tauto.
  rewrite B1. cbn [mbind option_bind]. f_equal. f_equal. unfold start. lia.
Qed.

Lemma items_loop_encode item items pre rest acc :
  Forall (λ r, ∀ pre rest, item (pre ++ to_bytes r ++ rest) (length pre) =
    Some (SDone r (length pre + length (to_bytes r)))) items →
  items_loop (item (pre ++ concat (map to_bytes items) ++ rest)) (length items) (length pre) acc =
  Some (SDone (Array (Some (acc ++ items)))
    (length pre + length (concat (map to_bytes items)))).
Proof.
  intros H. revert pre acc. induction H as [|r items Hr _ IH]; intros pre acc.
  { simpl. by rewrite app_nil_r, Nat.add_0_r. }
  cbn [map concat length items_loop]. rewrite <- app_assoc, Hr.
  replace (pre ++ to_bytes r ++ concat (map to_bytes items) ++ rest)
    with ((pre ++ to_bytes r) ++ concat (map to_bytes items) ++ rest) by app_eq.
  rewrite <- length_app, IH. f_equal. f_equal; [by rewrite <- app_assoc|].
  rewrite !length_app. lia.
Qed.

Lemma reply_depth_items items :
  Forall (λ i, S (reply_depth i) ≤ reply_depth (Array (Some items)))%nat items.
Proof.
  induction items as [|i items IH]; constructor; [rewrite reply_depth_cons; lia|].
  eapply Forall_impl; [done|]. intros j Hj. cbv beta in Hj. rewrite reply_depth_cons. lia.
Qed.

(** A length that was written is read back. *)
Lemma reply_array_written {A} item (items : list A) next :
  len items <= MAX_ARRAY_LEN →
  reply_array_at item (len_to_string items) next = items_loop item (length items) next [].
Proof.
  intros Hlen. unfold reply_array_at. pose proof (len_nonneg items).
  rewrite len_to_string_parse by (unfold MAX_ARRAY_LEN, i64_max in *; lia).
  destruct (Z.eqb_spec (len items) (-1)); [lia|].
  destruct (Z.ltb_spec (len items) 0); [lia|].
  destruct (Z.ltb_spec MAX_ARRAY_LEN (len items)); [lia|].
  by replace (Z.to_nat (len items)) with (length items) by (unfold len; lia).
Qed.

(** The parser on the header of an array. *)
Lemma parse_reply_at_array {A} fuel pre (items : list A) rest depth :
  len items <= MAX_ARRAY_LEN → (depth ≤ MAX_REPLY_DEPTH)%nat →
  let buf := (pre ++ header "*" (len_to_string items)) ++ rest in
  parse_reply_at (S fuel) buf (length pre) depth =
  items_loop (λ next, parse_reply_at fuel buf next (depth + 1)) (length items)
    (length (pre ++ header "*" (len_to_string items))) [].
Proof.
  intros Hl Hd buf. unfold buf. rewrite <- app_assoc, length_app.
  rewrite (parse_reply_at_enter fuel pre "*" (len_to_string items) rest depth
    (find_crlf_len_to_string items) Hd).
  rewrite decide_False by (by intros [|]). do 2 rewrite decide_False by done.
  rewrite decide_True by done. by apply reply_array_written.
Qed.

Lemma parse_reply_at_encode r fuel pre rest depth :
  wire_ok r = true → (depth + reply_depth r ≤ MAX_REPLY_DEPTH)%nat →
  (reply_depth r < fuel)%nat →
  parse_reply_at fuel (pre ++ to_bytes r ++ rest) (length pre) depth =
  Some (SDone r (length pre + length (to_bytes r))).
Proof.
  revert fuel pre rest depth.
  induction r as [s|s|n|[d|]| |items IH] using Reply_ind;
    intros [|fuel] pre rest depth Hok Hdepth Hfuel; try lia; cbn [wire_ok] in Hok; bools.
  - apply (parse_reply_at_enter fuel pre "+" s rest depth Hok). lia.
  - apply (parse_reply_at_enter fuel pre "-" s rest depth Hok). lia.
  - unfold in_i64 in Hok. bools.
    change (to_bytes (Integer n)) with (header ":" (i_to_string n)).
    rewrite (parse_reply_at_enter fuel pre ":" (i_to_string n) rest depth
      (find_crlf_i_to_string n)) by lia.
    simpl. unfold reply_integer. by rewrite parse_i64_strict_i_to_string.
  - rewrite to_bytes_bulk. unfold bulk_bytes at 1. rewrite <- app_assoc.
    rewrite (parse_reply_at_enter fuel pre "$" (len_to_string d) _ depth
      (find_crlf_len_to_string d)) by lia.
    rewrite decide_False by (by intros [|]). rewrite decide_False by done.
    rewrite decide_True by done.
    replace (pre ++ header "$" (len_to_string d) ++ (d ++ CRLF) ++ rest)
      with (pre ++ bulk_bytes d ++ rest) by (unfold bulk_bytes; app_eq).
    by apply reply_bulk_at_layout.
  - by apply (parse_reply_at_enter fuel pre "$" (lit "-1") rest depth eq_refl); lia.
  - by apply (parse_reply_at_enter fuel pre "*" (lit "-1") rest depth eq_refl); lia.
  - rewrite to_bytes_array.
    replace (pre ++ (header "*" (len_to_string items) ++ concat (map to_bytes items)) ++ rest)
      with ((pre ++ header "*" (len_to_string items)) ++ concat (map to_bytes items) ++ rest) by app_eq.
    rewrite parse_reply_at_array by (done || lia).
    rewrite (items_loop_encode (λ buf next, parse_reply_at fuel buf next (depth + 1)));
      [do 2 f_equal; rewrite !length_app; lia|].
    pose proof (reply_depth_items items) as Hd.
    rewrite forallb_forall in H0. rewrite Forall_forall in *. intros i Hi p t.
    specialize (Hd i Hi). apply IH; [done| |lia..].
    apply H0. by apply list_elem_of_In.
Qed.

(** ** The reply parser: totality, progress, bounds *)

Lemma slice_to_crlf buf from j line :
  find_crlf buf from = Some j → slice buf from j = Some line → find_crlf line 0 = None.
Proof.
  intros (Hle & Hat & Hmin)%find_crlf_Some Hl. pose proof (slice_length _ _ _ _ Hl) as Hlen.
  unfold slice in Hl. case_decide; simplify_eq. apply find_crlf_None. intros k _ Hk.
  pose proof (crlf_at_lt _ _ Hk). apply (Hmin (from + k)%nat); [lia|].
  destruct Hk as [H1 H2]. apply lookup_take_Some in H1 as [H1 _], H2 as [H2 _].
  rewrite lookup_drop in H1, H2. split; [done|]. by rewrite <- Nat.add_assoc.
Qed.

(** What a parser promises of a value found between [pos] and the end of [buf]. *)
Definition step_spec (buf : bytes) (pos depth : nat) (o : option Step) : Prop :=
  ∃ s, o = Some s ∧ ∀ r n, s = SDone r n →
    (pos < n ≤ length buf)%nat ∧ wire_ok r = true ∧ (depth + reply_depth r ≤ MAX_REPLY_DEPTH)%nat.

Lemma step_spec_fail buf pos depth s :
  (∀ r n, s ≠ SDone r n) → step_spec buf pos depth (Some s).
Proof. intros Hs. exists s. split; [done|]. intros r n ->. by edestruct Hs. Qed.

Lemma with_line_spec buf pos depth k :
  (∀ line next, (pos < next ≤ length buf)%nat → find_crlf line 0 = None →
    step_spec buf pos depth (k line next)) →
  step_spec buf pos depth (with_line buf (pos + 1) k).
Proof.
  intros Hk. unfold with_line, read_line.
  destruct (find_crlf buf (pos + 1)) as [j|] eqn:Hj.
  - pose proof (find_crlf_lt _ _ _ Hj) as [? ?].
    destruct (slice buf (pos + 1) j) as [line|] eqn:Hl.
    + cbn [mbind option_bind]. apply Hk; [lia|]. by eapply slice_to_crlf.
    + rewrite slice_Some in Hl by lia. done.
  - case_match; cbn [mbind option_bind]; by apply step_spec_fail.
Qed.

Lemma reply_bulk_at_spec buf line pos depth start :
  (pos < start ≤ length buf)%nat → (depth ≤ MAX_REPLY_DEPTH)%nat →
  step_spec buf pos depth (reply_bulk_at buf line start).
Proof.
  intros Hs Hd. unfold reply_bulk_at.
  destruct (parse_i64_strict line) as [n|]; [|by apply step_spec_fail].
  destruct (Z.eqb_spec n (-1)).
  { eexists. split; [done|]. intros; simplify_eq. simpl. split_and!; [lia..|done|lia]. }
  destruct (Z.ltb_spec n 0); [by apply step_spec_fail|].
  destruct (Z.ltb_spec MAX_BULK_LEN n); [by apply step_spec_fail|].
  destruct (Z.ltb_spec (len buf) (Z.of_nat start + n + 2)) as [|Hlen]; [by apply step_spec_fail|].
  unfold len in Hlen. set (e := (start + Z.to_nat n)%nat).
  destruct (lookup_lt_is_Some_2 buf e) as [a Ha]; [unfold e; lia|].
  destruct (lookup_lt_is_Some_2 buf (e + 1)) as [b Hb]; [unfold e; lia|].
  rewrite Ha, Hb. cbn [mbind option_bind]. case_bool_decide; [by apply step_spec_fail|].
  rewrite slice_Some by (unfold e; lia). cbn [mbind option_bind].
  eexists. split; [done|]. intros r m ?; simplify_eq. cbn [wire_ok reply_depth].
  split_and!; [unfold e; lia.. | | lia].
  apply Z.leb_le. unfold len. rewrite length_take, length_drop. unfold e. lia.
Qed.

Lemma items_loop_spec buf item count next items depth :
  (∀ p, step_spec buf p (S depth) (item p)) → (next ≤ length buf)%nat →
  forallb wire_ok items = true →
  Forall (λ i, S depth + reply_depth i ≤ MAX_REPLY_DEPTH)%nat items →
  (depth ≤ MAX_REPLY_DEPTH)%nat →
  Z.of_nat (length items + count) <= MAX_ARRAY_LEN →
  ∃ s, items_loop item count next items = Some s ∧ ∀ r n, s = SDone r n →
    (next ≤ n ≤ length buf)%nat ∧ wire_ok r = true ∧ (depth + reply_depth r ≤ MAX_REPLY_DEPTH)%nat.
Proof.
  intros Hitem. revert next items.
  induction count as [|count IH]; intros next items Hn Hok Hdep Hd Hlen; cbn [items_loop].
  - eexists. split; [done|]. intros r n ?; simplify_eq. split_and!; [lia..| |].
    + cbn [wire_ok]. rewrite Hok. apply andb_true_iff. split; [|done].
      apply Z.leb_le. unfold len. lia.
    + clear Hok Hlen. induction Hdep as [|i items Hi _ IHd]; [simpl; lia|].
      rewrite reply_depth_cons. lia.
  - destruct (Hitem next) as (s & -> & Hs).
    destruct s as [r after| |msg]; [|by eexists; split..].
    destruct (Hs r after eq_refl) as (Ha & Hr & Hrd).
    destruct (IH after (items ++ [r])) as (s & Hs' & Hn').
    + lia.
    + rewrite forallb_app, Hok. simpl. by rewrite Hr.
    + apply Forall_app. split; [done|]. by constructor.
    + done.
    + rewrite length_app. simpl. lia.
    + exists s. split; [done|]. intros r' n' Hd'. destruct (Hn' _ _ Hd') as (?&?&?).
      split_and!; [lia..|done|done].
Qed.

Lemma parse_reply_at_spec fuel buf pos depth :
  step_spec buf pos depth (parse_reply_at fuel buf pos depth).
Proof.
  revert pos depth. induction fuel as [|fuel IH]; intros pos depth; cbn [parse_reply_at];
    [by apply step_spec_fail|].
  case_bool_decide; [by apply step_spec_fail|].
  case_bool_decide; [by apply step_spec_fail|].
  destruct (lookup_lt_is_Some_2 buf pos) as [c Hc]; [lia|]. rewrite Hc. cbn [mbind option_bind].
  assert (Hdone : ∀ r n, (pos < n ≤ length buf)%nat → wire_ok r = true → reply_depth r = 0%nat →
    step_spec buf pos depth (Some (SDone r n))).
  { intros r n ?? E. eexists. split; [done|]. intros; simplify_eq.
    split_and!; [lia..|done|lia]. }
  repeat case_decide; try (by apply step_spec_fail); apply with_line_spec; intros line next Hn Hl.
  - unfold reply_line. apply Hdone; [done| |by case_decide].
    case_decide; simpl; by apply bool_decide_true.
  - unfold reply_integer. destruct (parse_i64_strict line) as [n|] eqn:E;
      [|by apply step_spec_fail].
    apply Hdone; [done| |done]. simpl. apply range_true. by eapply parse_i64_strict_range.
  - apply reply_bulk_at_spec; [done|lia].
  - unfold reply_array_at. destruct (parse_i64_strict line) as [n|]; [|by apply step_spec_fail].
    destruct (Z.eqb_spec n (-1)); [by apply Hdone|].
    destruct (Z.ltb_spec n 0); [by apply step_spec_fail|].
    destruct (Z.ltb_spec MAX_ARRAY_LEN n); [by apply step_spec_fail|].
    destruct (items_loop_spec buf (λ next, parse_reply_at fuel buf next (depth + 1))
      (Z.to_nat n) next [] depth) as (s & Hs & Hr); [|lia|done|done|lia|simpl; lia|].
    { intros p. rewrite Nat.add_1_r. apply IH. }
    exists s. split; [done|]. intros r m Hm. destruct (Hr _ _ Hm) as (?&?&?).
    split_and!; [lia..|done|done].
Qed.

(** ** Reading more input never changes a decided reply *)

Definition step_decided (s : Step) : bool :=
  match s with
  | SDone _ _ => true
  | SIncomplete => false
  | SInvalid msg => negb (is_length_limit msg)
  end.

Definition reply_decided (o : ReplyOutcome) : bool :=
  match o with
  | RComplete _ _ => true
  | RIncomplete => false
  | RInvalid msg => negb (is_length_limit msg)
  end.

Definition stable (o o' : option Step) : Prop :=
  ∀ s, o = Some s → step_decided s = true → o' = Some s.

Lemma stable_refl o : stable o o.
Proof. by intros s. Qed.

#[export] Hint Resolve stable_refl : resp.

Lemma with_line_app buf k pos f f' :
  (∀ line next, stable (f line next) (f' line next)) →
  stable (with_line buf pos f) (with_line (buf ++ k) pos f').
Proof.
  intros Hf s. unfold with_line, read_line.
  destruct (find_crlf buf pos) as [j|] eqn:Hj.
  - rewrite (find_crlf_app _ _ _ _ Hj).
    destruct (slice buf pos j) as [line|] eqn:Hl; [|done].
    rewrite (slice_app _ _ _ _ _ Hl). cbn [mbind option_bind]. apply Hf.
  - case_match; cbn [mbind option_bind]; by intros; simplify_eq/=.
Qed.

Lemma reply_bulk_at_app buf k line start :
  stable (reply_bulk_at buf line start) (reply_bulk_at (buf ++ k) line start).
Proof.
  intros s. unfold reply_bulk_at.
  destruct (parse_i64_strict line) as [n|]; [|done].
  case_match; [done|]. case_match; [done|]. case_match; [done|].
  destruct (Z.ltb_spec (len buf) (Z.of_nat start + n + 2)); [by intros; simplify_eq/=|].
  destruct (Z.ltb_spec (len (buf ++ k)) (Z.of_nat start + n + 2)).
  { rewrite len_app in *. pose proof (len_nonneg k). lia. }
  destruct (buf !! (start + Z.to_nat n)%nat) as [a|] eqn:Ha; [|done].
  rewrite (lookup_app_l_Some _ _ _ _ Ha). cbn [mbind option_bind].
  destruct (buf !! (start + Z.to_nat n + 1)%nat) as [b|] eqn:Hb; [|done].
  rewrite (lookup_app_l_Some _ _ _ _ Hb). cbn [mbind option_bind].
  case_bool_decide; [done|].
  destruct (slice buf start _) as [data|] eqn:Hd; [|done].
  by rewrite (slice_app _ _ _ _ _ Hd).
Qed.

Lemma items_loop_app item item' count next items :
  (∀ p, stable (item p) (item' p)) →
  stable (items_loop item count next items) (items_loop item' count next items).
Proof.
  intros Hi. revert next items. induction count as [|count IH]; intros next items s;
    cbn [items_loop]; [done|].
  destruct (item next) as [[r after| |msg]|] eqn:E; try done.
  - rewrite (Hi _ _ E eq_refl). apply IH.
  - by intros; simplify_eq/=.
  - intros; simplify_eq. by rewrite (Hi _ _ E).
Qed.

Lemma parse_reply_at_app fuel buf k pos depth :
  stable (parse_reply_at fuel buf pos depth) (parse_reply_at fuel (buf ++ k) pos depth).
Proof.
  revert pos depth. induction fuel as [|fuel IH]; intros pos depth; cbn [parse_reply_at];
    [auto with resp|].
  case_bool_decide; [auto with resp|]. intros s.
  case_bool_decide; [by intros; simplify_eq/=|].
  rewrite (bool_decide_false (length (buf ++ k) ≤ pos)%nat) by (rewrite length_app; lia).
  destruct (buf !! pos) as [c|] eqn:Hc; [|done]. rewrite (lookup_app_l_Some _ _ _ _ Hc).
  cbn [mbind option_bind]. revert s. repeat case_decide; try apply with_line_app;
    auto with resp; intros line next; [apply reply_bulk_at_app|].
  unfold reply_array_at. repeat (case_match; auto with resp). by apply items_loop_app.
Qed.

(** ** Fuel *)

Lemma items_loop_ext item item' count next items :
  (∀ p, item p = item' p) → items_loop item count next items = items_loop item' count next items.
Proof.
  intros Hi. revert next items. induction count as [|count IH]; intros next items;
    cbn [items_loop]; [done|]. rewrite Hi. repeat case_match; auto.
Qed.

Lemma with_line_ext buf pos f f' :
  (∀ line next, f line next = f' line next) → with_line buf pos f = with_line buf pos f'.
Proof.
  intros Hf. unfold with_line. destruct (read_line buf pos) as [[[[line next]|]|]|]; try done.
  apply Hf.
Qed.

Lemma parse_reply_at_fuel f f' buf pos depth :
  (MAX_REPLY_DEPTH + 2 ≤ f + depth)%nat → (MAX_REPLY_DEPTH + 2 ≤ f' + depth)%nat →
  parse_reply_at f buf pos depth = parse_reply_at f' buf pos depth.
Proof.
  revert f' pos depth. induction f as [|f IH]; intros [|f'] pos depth Hf Hf'; cbn [parse_reply_at].
  - done.
  - by rewrite bool_decide_true by lia.
  - by rewrite bool_decide_true by lia.
  - case_bool_decide; [done|]. case_bool_decide; [done|].
    destruct (buf !! pos) as [c|]; [|done]. cbn [mbind option_bind].
    repeat case_decide; try done. apply with_line_ext. intros line next.
    unfold reply_array_at. repeat (case_match; try done). apply items_loop_ext.
    intros p. apply IH; lia.
Qed.

(** ** Inline commands *)

Fixpoint join_on (sep : byte) (segs : list bytes) : bytes :=
  match segs with
  | [] => []
  | [s] => s
  | s :: segs => s ++ sep :: join_on sep segs
  end.

Lemma split_on_spec sep s :
  join_on sep (split_on sep s) = s ∧ Forall (λ seg, sep ∉ seg) (split_on sep s) ∧
  split_on sep s ≠ [].
Proof.
  induction s as [|c s (IHj & IHf & IHn)]; cbn [split_on].
  { split_and!; [done| |done]. repeat constructor. apply not_elem_of_nil. }
  destruct (split_on sep s) as [|h t] eqn:E; [done|].
  case_decide as Hc; [subst c|].
  - split_and!; [|constructor; [apply not_elem_of_nil|done]|done].
    change (sep :: join_on sep (h :: t) = sep :: s). by rewrite IHj.
  - apply Forall_cons in IHf as [Hh Ht]. split_and!; [|constructor; [|done]|done].
    + destruct t; cbn [join_on app] in *; [by rewrite IHj|by rewrite <- IHj].
    + apply not_elem_of_cons. by split.
Qed.

Lemma parse_encoded args rest :
  args_ok args = true →
  parse_command (encode_command args ++ rest) =
  Some (Complete args (length (encode_command args))).
Proof.
  unfold args_ok. intros Hok. bools. rewrite encode_command_eq.
  set (hd := header "*" (len_to_string args)).
  set (body := concat (map bulk_bytes args)).
  pose proof (len_nonneg args).
  destruct (header_layout [] "*" (len_to_string args) (body ++ rest)
    (find_crlf_len_to_string args)) as (_ & H2 & H3 & _).
  cbn [length app Nat.add] in H2, H3. fold hd in H2, H3.
  change (parse_command ((hd ++ body) ++ rest)) with (parse_array_command ((hd ++ body) ++ rest)).
  rewrite <- app_assoc. unfold parse_array_command. rewrite H2, H3. cbn [mbind option_bind].
  rewrite len_to_string_parse by (unfold MAX_ARRAY_LEN, i64_max in *; lia).
  destruct (Z.ltb_spec (len args) 0); [lia|].
  destruct (Z.ltb_spec MAX_ARRAY_LEN (len args)); [lia|].
  replace (Z.to_nat (len args)) with (length args) by (unfold len; lia).
  replace (S (length (len_to_string args)) + 2)%nat with (length hd)
    by (unfold hd, header; simpl; rewrite length_app; simpl; lia).
  unfold body. rewrite array_loop_encode by done. by rewrite length_app.
Qed.

Lemma parse_written r rest :
  wire_ok r = true → (reply_depth r ≤ MAX_REPLY_DEPTH)%nat →
  parse_reply (to_bytes r ++ rest) = Some (RComplete r (length (to_bytes r))).
Proof.
  intros Hok Hd. unfold parse_reply.
  pose proof (parse_reply_at_encode r (MAX_REPLY_DEPTH + 2) [] rest 0 Hok) as E.
  cbn [app length Nat.add] in E. by rewrite E by lia.
Qed.

Lemma parse_reply_cases buf :
  ∃ o, parse_reply buf = Some o ∧
    ∀ r n, o = RComplete r n →
      (0 < n ≤ length buf)%nat ∧ wire_ok r = true ∧ (reply_depth r ≤ MAX_REPLY_DEPTH)%nat.
Proof.
  unfold parse_reply.
  destruct (parse_reply_at_spec (MAX_REPLY_DEPTH + 2) buf 0 0) as (s & -> & Hs).
  cbn [mbind option_bind]. destruct s as [r n| |msg]; eexists; (split; [done|]); try done.
  intros; simplify_eq. by apply Hs.
Qed.

Lemma parse_reply_app buf more o :
  parse_reply buf = Some o → reply_decided o = true → parse_reply (buf ++ more) = Some o.
Proof.
  unfold parse_reply. intros Ho Hdec.
  destruct (parse_reply_at (MAX_REPLY_DEPTH + 2) buf 0 0) as [s|] eqn:E; [|done].
  rewrite (parse_reply_at_app (MAX_REPLY_DEPTH + 2) buf more 0 0 _ E); [done|].
  by destruct s; simplify_eq/=.
Qed.

(** ** Properties *)

(** C10: a request written by [encode_command] is read back by the server's
    [parse_command] exactly: the same arguments (any bytes, CR, LF and NUL
    included), and exactly its own bytes consumed whatever follows. *)
Theorem encode_parse_command args rest :
  args_ok args = true →
  parse_command (encode_command args ++ rest) =
  Some (Complete args (length (encode_command args))).
Proof. apply parse_encoded. Qed.

(** C11: a reply written by the server's [write_to] is read back by the
    client's [parse_reply] exactly, for every reply the wire can carry (status
    lines without line breaks, 64-bit integers, lengths and nesting within the
    limits), whatever follows it. *)
Theorem reply_round_trip r rest :
  wire_ok r = true → (reply_depth r ≤ MAX_REPLY_DEPTH)%nat →
  parse_reply (to_bytes r ++ rest) = Some (RComplete r (length (to_bytes r))).
Proof. apply parse_written. Qed.

(** [parse_command] is total (no index or slice is ever out of range)
    and always makes progress: a complete command consumes at least one byte
    and at most the buffer. *)
Theorem parse_command_progress buf :
  ∃ o, parse_command buf = Some o ∧
    ∀ args n, o = Complete args n → (0 < n ≤ length buf)%nat.
Proof. apply parse_command_cases. Qed.

(** [parse_reply] is total, makes progress, and returns only replies the
    wire can carry: status lines without line breaks, integers of 64 bits,
    bulk strings of at most [MAX_BULK_LEN] bytes, arrays of at most
    [MAX_ARRAY_LEN] elements nested at most [MAX_REPLY_DEPTH] deep. *)
Theorem parse_reply_sound buf :
  ∃ o, parse_reply buf = Some o ∧
    ∀ r n, o = RComplete r n →
      (0 < n ≤ length buf)%nat ∧ wire_ok r = true ∧ (reply_depth r ≤ MAX_REPLY_DEPTH)%nat.
Proof. apply parse_reply_cases. Qed.

(** C29: reading more input never changes what [parse_command] has decided: a
    complete command stays that command, and a malformed one stays malformed,
    the three length-limit rejections of an unterminated line excepted. *)
Theorem parse_command_stable buf more o :
  parse_command buf = Some o → decided o = true → parse_command (buf ++ more) = Some o.
Proof. apply parse_command_app. Qed.

(** C30: reading more input never changes what [parse_reply] has decided, its
    one length-limit rejection excepted. *)
Theorem parse_reply_stable buf more o :
  parse_reply buf = Some o → reply_decided o = true → parse_reply (buf ++ more) = Some o.
Proof. apply parse_reply_app. Qed.

(** The documentation calls an [Invalid] outcome input "that can never
    become valid by reading more bytes"; an inline command longer than
    [MAX_INLINE_LEN] is [Invalid] as long as its terminator has not arrived and
    [Complete] once it has. *)
Theorem inline_limit_not_final n :
  MAX_INLINE_LEN < Z.of_nat n →
  let line := replicate n "a"%byte in
  parse_command line = Some (Invalid (lit "inline command too long")) ∧
  parse_command (line ++ CRLF) = Some (Complete [line] (n + 2)).
Proof.
  intros Hn line.
  assert (Hno : LF ∉ line) by (intros [? _]%elem_of_replicate; done).
  assert (Hl : find_crlf line 0 = None) by (by apply find_crlf_no_lf).
  assert (Hlen : length line = n) by apply length_replicate.
  destruct n as [|m]; [unfold MAX_INLINE_LEN in Hn; lia|].
  assert (Hsp : ∀ k, split_on " " (replicate (S k) "a"%byte) = [replicate (S k) "a"%byte]).
  { intros k. induction k as [|k IH]; [done|].
    change (replicate (S (S k)) "a"%byte) with ("a"%byte :: replicate (S k) "a"%byte).
    cbn [split_on]. by rewrite decide_False, IH by done. }
  split; unfold parse_command, line; cbn [replicate app]; rewrite decide_False by done;
    rewrite ?app_comm_cons; change ("a"%byte :: replicate m "a"%byte) with line;
    unfold parse_inline_command.
  - rewrite Hl. unfold len. rewrite Hlen. by destruct (Z.ltb_spec MAX_INLINE_LEN (Z.of_nat (S m))); [|lia].
  - pose proof (find_crlf_line [] line [] Hl) as Hc. cbn [app length Nat.add] in Hc.
    rewrite Hc. pose proof (slice_mid [] line CRLF) as Hs. cbn [app length Nat.add] in Hs.
    rewrite Hs. cbn [mbind option_bind]. unfold line. rewrite Hsp, length_replicate. done.
Qed.

(** An inline command's arguments are the non-empty pieces of its line
    between spaces, in order. *)
Theorem inline_command_tokens line rest :
  find_crlf line 0 = None → head line ≠ Some "*"%byte →
  ∃ segs, line = join_on " " segs ∧ Forall (λ seg, " "%byte ∉ seg) segs ∧
    parse_command (line ++ CRLF ++ rest) =
    Some (Complete (base.filter (λ s, s ≠ []) segs) (length line + 2)).
Proof.
  intros Hl Hstar. destruct (split_on_spec " " line) as (Hj & Hf & _).
  exists (split_on " " line). split_and!; [done|done|].
  assert (parse_command (line ++ CRLF ++ rest) = parse_inline_command (line ++ CRLF ++ rest)) as ->.
  { destruct line as [|c line]; [done|]. unfold parse_command. cbn [app].
    rewrite decide_False; [done|]. intros ->. by apply Hstar. }
  unfold parse_inline_command.
  rewrite (find_crlf_line [] line rest Hl : find_crlf (line ++ CRLF ++ rest) 0 = Some (length line)).
  by rewrite (slice_mid [] line (CRLF ++ rest) : slice (line ++ CRLF ++ rest) 0 (length line) = Some line).
Qed.

(** The fuel of [parse_reply_at] never decides a result: from
    [MAX_REPLY_DEPTH + 2] on, more fuel parses the same. *)
Theorem parse_reply_fuel_enough fuel buf :
  (MAX_REPLY_DEPTH + 2 ≤ fuel)%nat →
  parse_reply_at fuel buf 0 0 = parse_reply_at (MAX_REPLY_DEPTH + 2) buf 0 0.
Proof. intros. apply parse_reply_at_fuel; lia. Qed.

(** ** Witnesses *)

Lemma encode_parse_command_witness :
  args_ok [lit "SET"; CRLF; []] = true ∧
  parse_command (encode_command [lit "SET"; CRLF; []] ++ lit "tail") =
  Some (Complete [lit "SET"; CRLF; []] (length (encode_command [lit "SET"; CRLF; []]))).
Proof. split; [vm_compute; reflexivity|]. apply encode_parse_command. vm_compute; reflexivity. Defined.

Lemma reply_round_trip_witness :
  let r := Array (Some [Simple (lit "OK"); Integer (-7); Array (Some [Bulk None; Bulk (Some CRLF)])]) in
  parse_reply (to_bytes r ++ lit "+x") = Some (RComplete r (length (to_bytes r))).
Proof. intros r. apply reply_round_trip; [vm_compute; reflexivity | vm_compute; lia]. Defined.

Lemma parse_command_stable_witness :
  parse_command (lit "*1" ++ CRLF ++ lit "$4" ++ CRLF ++ lit "PING" ++ CRLF) =
    Some (Complete [lit "PING"] 14) ∧
  parse_command ((lit "*1" ++ CRLF ++ lit "$4" ++ CRLF ++ lit "PING" ++ CRLF) ++ lit "*1") =
    Some (Complete [lit "PING"] 14).
Proof.
  split; [vm_compute; reflexivity|].
  apply parse_command_stable; [vm_compute; reflexivity|reflexivity].
Defined.

Lemma parse_reply_stable_witness :
  parse_reply ((lit ":12" ++ CRLF) ++ lit "+") = Some (RComplete (Integer 12) 5).
Proof. apply parse_reply_stable; [vm_compute; reflexivity|reflexivity]. Defined.

Lemma inline_limit_not_final_witness :
  let line := replicate (Z.to_nat 70000) "a"%byte in
  parse_command line = Some (Invalid (lit "inline command too long")) ∧
  parse_command (line ++ CRLF) = Some (Complete [line] (Z.to_nat 70000 + 2)).
Proof. apply inline_limit_not_final. rewrite Z2Nat.id; [reflexivity|discriminate]. Defined.

Lemma inline_command_tokens_witness :
  ∃ segs, lit "GET  key " = join_on " " segs ∧ Forall (λ seg, " "%byte ∉ seg) segs ∧
    parse_command (lit "GET  key " ++ CRLF ++ lit "x") =
    Some (Complete (base.filter (λ s, s ≠ []) segs) (length (lit "GET  key ") + 2)).
Proof. apply inline_command_tokens; [vm_compute; reflexivity|discriminate]. Defined.

Lemma parse_reply_fuel_enough_witness :
  parse_reply_at 100 (lit ":12" ++ CRLF) 0 0 =
  parse_reply_at (MAX_REPLY_DEPTH + 2) (lit ":12" ++ CRLF) 0 0.
Proof. apply parse_reply_fuel_enough. unfold MAX_REPLY_DEPTH. lia. Defined.
