(* ===== verification/Partial.v ===== *)
(** * Input that has not all arrived

    What both parsers of the codec answer on a strict beginning of what the
    other end has written: they wait.  The exception is a status line longer
    than the reply parser waits for, which [short_lines] excludes and
    [long_line_rejected] exhibits. *)

From S2P Require Import Prelude RustStd Proto.

(** ** The replies the client waits for to the end

    A status line is refused when [MAX_INLINE_LEN] bytes of it have arrived
    without its terminator; the line with the CR of its terminator must fit. *)

Definition line_short (s : bytes) : bool := len s + 1 <=? MAX_INLINE_LEN.

Fixpoint short_lines (r : Reply) : bool :=
  match r with
  | Simple s | Error s => line_short s
  | Array (Some items) => forallb short_lines items
  | _ => true
  end.

(** ** Numbers are short *)

Lemma dec_digits_length fuel : ∀ n acc, (length (dec_digits fuel n acc) ≤ fuel + length acc)%nat.
Proof.
  induction fuel as [|fuel IH]; intros n acc; cbn [dec_digits]; [done|].
  case_match; [cbn; lia|]. etrans; [apply IH|]. cbn. lia.
Qed.

Lemma u_to_string_short n : 0 <= n <= u64_max → (length (u_to_string n) ≤ 65)%nat.
Proof.
  intros Hn. unfold u_to_string. etrans; [apply dec_digits_length|].
  assert (Z.log2 n <= 63); [|cbn; lia].
  destruct (Z.eq_dec n 0) as [->|]; [done|].
  assert (Z.log2 n < 64); [|lia]. apply Z.log2_lt_pow2; unfold u64_max in *; lia.
Qed.

Lemma i_to_string_short n : i64_min <= n <= i64_max → (length (i_to_string n) ≤ 66)%nat.
Proof.
  intros Hn. unfold i_to_string, i64_min, i64_max in *. case_match; cbn [length].
  - apply le_n_S, u_to_string_short. unfold u64_max. bools. lia.
  - etrans; [apply u_to_string_short|lia]. unfold u64_max. bools. lia.
Qed.

Lemma len_to_string_short {A} (l : list A) : len l <= i64_max → (length (len_to_string l) ≤ 65)%nat.
Proof. intros. apply u_to_string_short. pose proof (len_nonneg l). unfold i64_max, u64_max in *. lia. Qed.

(** ** The beginning of a line *)

Lemma length_header sigil payload : length (header sigil payload) = (length payload + 3)%nat.
Proof. unfold header. cbn. rewrite length_app. cbn. lia. Qed.

(** The sigil is there, the terminator is not. *)
Lemma header_prefix pre sigil payload n :
  find_crlf payload 0 = None → (0 < n < length (header sigil payload))%nat →
  let buf := pre ++ take n (header sigil payload) in
  buf !! length pre = Some sigil ∧ find_crlf buf (length pre + 1) = None ∧
  length buf = (length pre + n)%nat.
Proof.
  intros Hp Hn buf.
  assert (Hl : length buf = (length pre + n)%nat).
  { unfold buf. rewrite length_app, length_take. lia. }
  split_and!; [| |done].
  - unfold buf. rewrite lookup_app_r, Nat.sub_diag by lia. by rewrite lookup_take_lt by lia.
  - destruct (find_crlf buf (length pre + 1)) as [j|] eqn:Hj; [|done]. exfalso.
    pose proof (find_crlf_lt _ _ _ Hj) as [_ Hlt].
    apply (find_crlf_app _ (drop n (header sigil payload))) in Hj.
    unfold buf in Hj. rewrite <- app_assoc, take_drop in Hj.
    destruct (header_layout pre sigil payload [] Hp) as (_ & H2 & _). rewrite app_nil_r in H2.
    rewrite H2 in Hj. injection Hj as <-. rewrite length_header in Hn. lia.
Qed.

Lemma take_past {A} (l k : list A) n : (length l ≤ n)%nat → take n (l ++ k) = l ++ take (n - length l) k.
Proof. intros. by rewrite take_app, (take_ge l). Qed.

(** A reply that starts with a line: while the line lasts the parser waits. *)
Lemma line_waits fuel pre sigil payload n depth :
  find_crlf payload 0 = None → (n < length (header sigil payload))%nat →
  line_short payload = true → (depth ≤ MAX_REPLY_DEPTH)%nat →
  sigil = "+"%byte ∨ sigil = "-"%byte ∨ sigil = ":"%byte ∨ sigil = "$"%byte ∨ sigil = "*"%byte →
  parse_reply_at (S fuel) (pre ++ take n (header sigil payload)) (length pre) depth = Some SIncomplete.
Proof.
  intros Hp Hn Hs Hd Hsig. cbn [parse_reply_at]. rewrite bool_decide_false by lia.
  destruct (decide (n = 0)%nat) as [->|Hn0].
  { rewrite take_0, app_nil_r, bool_decide_true by lia. done. }
  destruct (header_prefix pre sigil payload n Hp ltac:(lia)) as (H1 & H2 & H3).
  rewrite bool_decide_false by lia. rewrite H1. cbn [mbind option_bind].
  assert (Hw : ∀ k, with_line (pre ++ take n (header sigil payload)) (length pre + 1) k = Some SIncomplete).
  { intros k. unfold with_line, read_line. rewrite H2, H3.
    unfold line_short, len in Hs. rewrite length_header in Hn. bools.
    rewrite (proj2 (Z.ltb_ge _ _)); [done|]. lia. }
  rewrite !Hw. repeat case_decide; tauto.
Qed.

Lemma bulk_waits pre data n :
  len data <= MAX_BULK_LEN → (length (header "$" (len_to_string data)) ≤ n)%nat →
  (n < length (bulk_bytes data))%nat →
  reply_bulk_at (pre ++ take n (bulk_bytes data)) (len_to_string data)
    (length pre + length (header "$" (len_to_string data))) = Some SIncomplete.
Proof.
  intros Hmax Hh Hn. unfold reply_bulk_at. pose proof (len_nonneg data).
  rewrite len_to_string_parse by (unfold MAX_BULK_LEN, i64_max in *; lia).
  destruct (Z.eqb_spec (len data) (-1)); [lia|].
  destruct (Z.ltb_spec (len data) 0); [lia|].
  destruct (Z.ltb_spec MAX_BULK_LEN (len data)); [lia|].
  rewrite (proj2 (Z.ltb_lt _ _)); [done|].
  unfold bulk_bytes in Hn. unfold len in *. rewrite length_app in *. rewrite length_take.
  rewrite length_app in Hn. cbn [length] in Hn. lia.
Qed.

(** Elements of which the last has not all arrived. *)
Lemma items_wait item items pre n acc :
  Forall (λ r, ∀ pre rest, item (pre ++ to_bytes r ++ rest) (length pre) =
    Some (SDone r (length pre + length (to_bytes r)))) items →
  Forall (λ r, ∀ pre n, (n < length (to_bytes r))%nat →
    item (pre ++ take n (to_bytes r)) (length pre) = Some SIncomplete) items →
  (n < length (concat (map to_bytes items)))%nat →
  items_loop (item (pre ++ take n (concat (map to_bytes items)))) (length items) (length pre) acc =
  Some SIncomplete.
Proof.
  intros Hd Hw. revert pre n acc. induction items as [|r items IH]; intros pre n acc Hn; [cbn in Hn; lia|].
  apply Forall_cons in Hd as [Hd Hds]. apply Forall_cons in Hw as [Hw Hws].
  cbn [map concat length items_loop] in *.
  destruct (decide (n < length (to_bytes r))%nat) as [Hlt|Hge].
  { rewrite take_app_le by lia. by rewrite Hw. }
  rewrite take_past, Hd by lia. rewrite length_app in Hn.
  rewrite app_assoc, <- length_app. apply (IH Hds Hws). lia.
Qed.

Lemma number_short s : (length s ≤ 66)%nat → line_short s = true.
Proof. intros Hs. apply Z.leb_le. unfold len, MAX_INLINE_LEN. lia. Qed.

Lemma reply_waits r : ∀ fuel pre n depth,
  wire_ok r = true → short_lines r = true → (depth + reply_depth r ≤ MAX_REPLY_DEPTH)%nat →
  (reply_depth r < fuel)%nat → (n < length (to_bytes r))%nat →
  parse_reply_at fuel (pre ++ take n (to_bytes r)) (length pre) depth = Some SIncomplete.
Proof.
  induction r as [s|s|z|[d|]| |items IH] using Reply_ind;
    intros [|fuel] pre n depth Hok Hs Hdepth Hfuel Hn; try lia; cbn [wire_ok short_lines] in *; bools.
  - apply (line_waits fuel pre "+" s); try done; [lia|tauto].
  - apply (line_waits fuel pre "-" s); try done; [lia|tauto].
  - unfold in_i64 in Hok. bools.
    apply (line_waits fuel pre ":" (i_to_string z)); try done; [apply find_crlf_i_to_string| |lia|tauto].
    by apply number_short, i_to_string_short.
  - pose proof (len_nonneg d).
    assert (line_short (len_to_string d) = true).
    { apply number_short. etrans; [apply len_to_string_short|lia]. unfold MAX_BULK_LEN, i64_max in *. lia. }
    rewrite to_bytes_bulk in *.
    destruct (decide (n < length (header "$" (len_to_string d)))%nat) as [Hlt|Hge].
    { unfold bulk_bytes. rewrite take_app_le by lia.
      apply line_waits; try done; [apply find_crlf_len_to_string|lia|tauto]. }
    pose proof (bulk_waits pre d n Hok ltac:(lia) Hn) as Hb.
    unfold bulk_bytes in *. rewrite take_past in * by lia.
    rewrite (parse_reply_at_enter fuel pre "$" (len_to_string d) _ depth
      (find_crlf_len_to_string d)) by lia. done.
  - apply (line_waits fuel pre "$" (lit "-1")); try done; [lia|tauto].
  - apply (line_waits fuel pre "*" (lit "-1")); try done; [lia|tauto].
  - pose proof (len_nonneg items).
    assert (line_short (len_to_string items) = true).
    { apply number_short. etrans; [apply len_to_string_short|lia]. unfold MAX_ARRAY_LEN, i64_max in *. lia. }
    rewrite to_bytes_array in *.
    destruct (decide (n < length (header "*" (len_to_string items)))%nat) as [Hlt|Hge].
    { rewrite take_app_le by lia.
      apply line_waits; try done; [apply find_crlf_len_to_string|lia|tauto]. }
    rewrite take_past by lia. rewrite length_app in Hn. rewrite app_assoc.
    rewrite parse_reply_at_array by (done || lia).
    pose proof (reply_depth_items items) as Hd.
    rewrite forallb_forall in *. rewrite Forall_forall in *.
    apply (items_wait (λ buf next, parse_reply_at fuel buf next (depth + 1)));
      [..|lia]; rewrite Forall_forall; intros i Hi; specialize (Hd i Hi); pose proof Hi as Hin%list_elem_of_In.
    + intros p t. apply parse_reply_at_encode; [by apply H0|lia..].
    + intros p m Hm. apply IH; [done|by apply H0|by apply Hs|lia..|done].
Qed.

(** ** Requests *)

Lemma array_loop_waits args pre n acc :
  forallb (λ a, len a <=? MAX_BULK_LEN) args = true →
  (n < length (concat (map bulk_bytes args)))%nat →
  array_loop (pre ++ take n (concat (map bulk_bytes args))) (length args) (length pre) acc =
  Some Incomplete.
Proof.
  revert pre n acc; induction args as [|a args IH]; intros pre n acc Hok Hn; [cbn in Hn; lia|].
  cbn [forallb] in Hok. bools. rename H into Ha. pose proof (len_nonneg a).
  assert (Hh : (length (len_to_string a) ≤ 65)%nat)
    by (apply len_to_string_short; unfold MAX_BULK_LEN, i64_max in *; lia).
  cbn [map concat length] in *. destruct (decide (n < length (bulk_bytes a))%nat) as [Hlt|Hge].
  2:{ rewrite take_past, array_loop_bulk by lia. rewrite length_app in Hn.
      rewrite app_assoc. apply IH; [done|lia]. }
  rewrite take_app_le by lia. cbn [array_loop].
  destruct (decide (n = 0)%nat) as [->|Hn0].
  { by rewrite take_0, app_nil_r, bool_decide_true by lia. }
  destruct (decide (n < length (header "$" (len_to_string a)))%nat) as [Hlh|Hgh].
  - unfold bulk_bytes. rewrite take_app_le by lia.
    destruct (header_prefix pre "$" (len_to_string a) n (find_crlf_len_to_string a) ltac:(lia)) as (H1 & H2 & H3).
    rewrite bool_decide_false by lia. rewrite H1. cbn [mbind option_bind].
    rewrite bool_decide_false by tauto. rewrite H2, H3. rewrite length_header in Hlh.
    rewrite (proj2 (Z.ltb_ge _ _)); [done|]. unfold MAX_INLINE_LEN. lia.
  - unfold bulk_bytes in *. rewrite take_past by lia.
    destruct (header_layout pre "$" (len_to_string a)
      (take (n - length (header "$" (len_to_string a))) (a ++ CRLF)) (find_crlf_len_to_string a))
      as (H1 & H2 & H3 & H4).
    rewrite bool_decide_false by lia. rewrite H1. cbn [mbind option_bind].
    rewrite bool_decide_false by tauto. rewrite H2, H3. cbn [mbind option_bind].
    rewrite len_to_string_parse by (unfold MAX_BULK_LEN, i64_max in *; lia).
    destruct (Z.ltb_spec (len a) 0); [lia|].
    destruct (Z.ltb_spec MAX_BULK_LEN (len a)); [lia|].
    rewrite (proj2 (Z.ltb_lt _ _)); [done|].
    unfold len. rewrite !length_app, length_take, length_app, length_header in *.
    cbn [length] in *. lia.
Qed.

(** ** Properties *)

(** The replies a client reads however their bytes are cut. *)
Definition deliverable (r : Reply) : bool :=
  wire_ok r && bool_decide (reply_depth r ≤ MAX_REPLY_DEPTH)%nat && short_lines r.

Lemma partial_reply r n :
  deliverable r = true → (n < length (to_bytes r))%nat →
  parse_reply (take n (to_bytes r)) = Some RIncomplete.
Proof.
  unfold deliverable. intros Hd Hn. bools. unfold parse_reply.
  pose proof (reply_waits r (MAX_REPLY_DEPTH + 2) [] n 0 ltac:(done) ltac:(done)) as E.
  cbn [app length] in E. by rewrite E by lia.
Qed.

Lemma partial_command args n :
  args_ok args = true → (n < length (encode_command args))%nat →
  parse_command (take n (encode_command args)) = Some Incomplete.
Proof.
  unfold args_ok. intros Hok Hn. bools. rewrite encode_command_eq in *.
  pose proof (len_nonneg args).
  assert (Hh : (length (len_to_string args) ≤ 65)%nat)
    by (apply len_to_string_short; unfold MAX_ARRAY_LEN, i64_max in *; lia).
  destruct (decide (n = 0)%nat) as [->|Hn0]; [done|].
  assert (Harr : parse_command (take n (header "*" (len_to_string args) ++ concat (map bulk_bytes args))) =
    parse_array_command (take n (header "*" (len_to_string args) ++ concat (map bulk_bytes args)))).
  { destruct n; [done|]. reflexivity. }
  rewrite Harr. clear Harr. unfold parse_array_command.
  destruct (decide (n < length (header "*" (len_to_string args)))%nat) as [Hlt|Hge].
  - rewrite take_app_le by lia.
    destruct (header_prefix [] "*" (len_to_string args) n (find_crlf_len_to_string args) ltac:(lia))
      as (_ & H2 & H3). cbn [app length Nat.add] in H2, H3. rewrite H2.
    unfold len at 1. rewrite H3. rewrite length_header in Hlt.
    rewrite (proj2 (Z.ltb_ge _ _)); [done|]. unfold MAX_INLINE_LEN. lia.
  - rewrite take_past by lia. rewrite length_app in Hn.
    destruct (header_layout [] "*" (len_to_string args)
      (take (n - length (header "*" (len_to_string args))) (concat (map bulk_bytes args)))
      (find_crlf_len_to_string args)) as (_ & H2 & H3 & _).
    cbn [length app Nat.add] in H2, H3. rewrite H2, H3. cbn [mbind option_bind].
    rewrite len_to_string_parse by (unfold MAX_ARRAY_LEN, i64_max in *; lia).
    destruct (Z.ltb_spec (len args) 0); [lia|].
    destruct (Z.ltb_spec MAX_ARRAY_LEN (len args)); [lia|].
    replace (Z.to_nat (len args)) with (length args) by (unfold len; lia).
    replace (S (length (len_to_string args)) + 2)%nat with (length (header "*" (len_to_string args)))
      by (rewrite length_header; lia).
    apply array_loop_waits; [done|lia].
Qed.

(** C28: a peer that has received only a part of what the other end wrote
    waits for the rest: every strict beginning of an encoded request, and of a
    reply whose status lines fit, is incomplete, never a shorter message and
    never an error. *)
Theorem partial_input_waits args r n :
  args_ok args = true → deliverable r = true →
  ((n < length (encode_command args))%nat →
    parse_command (take n (encode_command args)) = Some Incomplete) ∧
  ((n < length (to_bytes r))%nat → parse_reply (take n (to_bytes r)) = Some RIncomplete).
Proof. intros. split; [by apply partial_command|by apply partial_reply]. Qed.

(** The limit is exact: of a longer status line the beginning up to its CR is
    refused, although the whole line is a reply. *)
Theorem long_line_rejected s :
  find_crlf s 0 = None → line_short s = false →
  parse_reply (to_bytes (Simple s)) = Some (RComplete (Simple s) (length (to_bytes (Simple s)))) ∧
  parse_reply (take (length s + 2) (to_bytes (Simple s))) =
    Some (RInvalid (lit "reply line too long")).
Proof.
  intros Hs Hl. split.
  { pose proof (parse_written (Simple s) []) as H. rewrite app_nil_r in H. apply H.
    - by apply bool_decide_true.
    - cbn. lia. }
  change (to_bytes (Simple s)) with (header "+" s).
  pose proof (length_header "+" s) as Hh. unfold line_short, len in Hl. apply Z.leb_gt in Hl.
  destruct (header_prefix [] "+" s (length s + 2) Hs ltac:(lia)) as (H1 & H2 & H3).
  cbn [app length Nat.add] in H1, H2, H3.
  unfold parse_reply. change (MAX_REPLY_DEPTH + 2)%nat with (S (MAX_REPLY_DEPTH + 1)).
  cbn [parse_reply_at]. rewrite !bool_decide_false by lia.
  rewrite H1. cbn [mbind option_bind Nat.add]. rewrite decide_True by tauto.
  unfold with_line, read_line. rewrite H2, H3.
  rewrite (proj2 (Z.ltb_lt _ _)) by lia. done.
Qed.

Lemma partial_input_waits_witness :
  parse_command (take 20 (encode_command [lit "GET"; lit "key"])) = Some Incomplete ∧
  parse_reply (take 9 (to_bytes (Array (Some [Integer 7; Bulk (Some CRLF)])))) = Some RIncomplete.
Proof.
  destruct (partial_input_waits [lit "GET"; lit "key"] (Array (Some [Integer 7; Bulk (Some CRLF)])) 20)
    as [H1 _]; [reflexivity..|].
  destruct (partial_input_waits [] (Array (Some [Integer 7; Bulk (Some CRLF)])) 9)
    as [_ H2]; [reflexivity..|].
  split; [apply H1; vm_compute; lia|apply H2; vm_compute; lia].
Defined.

Lemma long_line_rejected_witness :
  parse_reply (take (length (replicate (Z.to_nat 65536) "a"%byte) + 2)
    (to_bytes (Simple (replicate (Z.to_nat 65536) "a"%byte)))) =
  Some (RInvalid (lit "reply line too long")).
Proof.
  apply long_line_rejected.
  - apply find_crlf_no_lf. intros [? _]%elem_of_replicate. done.
  - apply Z.leb_gt. unfold len. rewrite length_replicate, Z2Nat.id; [reflexivity|discriminate].
Defined.
