(* ===== verification/Glob.v ===== *)
(** * Glob patterns of [KEYS] and [SCAN MATCH] (crates/pg_resp/src/glob.rs)

    [glob_match] as the code runs it, and its declarative reading: a pattern
    is a list of tokens ([tokens]), and [matches] says which texts a list of
    tokens denotes.  [glob_match_correct] shows that the code decides it. *)

From S2P Require Import Prelude RustStd.

(** ** The code *)

(** The loop of [match_class]: [subject] is the byte tested, [matched] the
    accumulator; returns it with the pattern after the closing bracket. *)
Fixpoint class_loop (subject : option byte) (p : bytes) (matched : bool) : bool * bytes :=
  match p with
  | [] => (matched, [])
  | c :: p1 =>
      if decide (c = "]"%byte) then (matched, p1)
      else if decide (c = "\"%byte ∧ p1 ≠ []) then
        match p1 with
        | d :: p2 => class_loop subject p2 (matched || bool_decide (subject = Some d))
        | [] => (matched, [])
        end
      else
        match p1 with
        | d :: e :: p3 =>
            if decide (d = "-"%byte ∧ e ≠ "]"%byte) then
              let '(lo, hi) := if bval e <? bval c then (e, c) else (c, e) in
              let hit := match subject with
                         | Some x => (bval lo <=? bval x) && (bval x <=? bval hi)
                         | None => false
                         end in
              class_loop subject p3 (matched || hit)
            else class_loop subject p1 (matched || bool_decide (subject = Some c))
        | _ => class_loop subject p1 (matched || bool_decide (subject = Some c))
        end
  end.

Definition match_class (p s : bytes) : bool * bytes * bool :=
  let negate := bool_decide (head p = Some "^"%byte) in
  let p := if negate then tail p else p in
  let subject := head s in
  let '(matched, p) := class_loop subject p false in
  ((if negate then negb matched else matched), p, bool_decide (is_Some subject)).

(** [while p.len() > 1 && p[1] == b'*'] drop the first byte. *)
Fixpoint skip_stars (p : bytes) : bytes :=
  match p with
  | c :: ((d :: _) as p') => if decide (d = "*"%byte) then skip_stars p' else p
  | _ => p
  end.

(** [for i in 0..=s.len()]: does [f] hold of some suffix of [s]? *)
Fixpoint any_suffix (f : bytes → bool) (s : bytes) : bool :=
  f s || match s with [] => false | _ :: s' => any_suffix f s' end.

(** Every turn of the loop drops at least one byte of the pattern, so
    [S (length pattern)] turns are enough. *)
Fixpoint glob_loop (fuel : nat) (p s : bytes) : bool :=
  match fuel with
  | O => false
  | S fuel' =>
      match p with
      | [] => bool_decide (s = [])
      | pc :: p1 =>
          if decide (pc = "*"%byte) then
            match skip_stars p with
            | [_] => true
            | rest => any_suffix (glob_loop fuel' (tail rest)) s
            end
          else if decide (pc = "?"%byte) then
            match s with
            | [] => false
            | _ :: s' => glob_loop fuel' p1 s'
            end
          else if decide (pc = "["%byte) then
            let '(matched, new_p, consumed_s) := match_class p1 s in
            if negb consumed_s || negb matched then false
            else glob_loop fuel' new_p (tail s)
          else if decide (pc = "\"%byte ∧ (2 ≤ length p)%nat) then
            match s, p1 with
            | sc :: s', q :: p2 => if decide (q ≠ sc) then false else glob_loop fuel' p2 s'
            | _, _ => false
            end
          else
            match s with
            | [] => false
            | sc :: s' => if decide (pc ≠ sc) then false else glob_loop fuel' p1 s'
            end
      end
  end.

Definition glob_match (pattern text : bytes) : bool :=
  glob_loop (S (length pattern)) pattern text.

(** ** What a pattern means *)

Inductive class_item : Type :=
| CByte (c : byte)
| CRange (a b : byte).

Inductive token : Type :=
| TStar
| TAny
| TClass (negated : bool) (items : list class_item)
| TByte (c : byte).

Definition item_ok (x : byte) (i : class_item) : bool :=
  match i with
  | CByte c => bool_decide (x = c)
  | CRange a b =>
      (Z.min (bval a) (bval b) <=? bval x) && (bval x <=? Z.max (bval a) (bval b))
  end.

(** The bytes a one-byte token accepts. *)
Definition token_ok (t : token) (x : byte) : bool :=
  match t with
  | TStar => false
  | TAny => true
  | TClass negated items => xorb negated (existsb (item_ok x) items)
  | TByte c => bool_decide (x = c)
  end.

(** The texts a token list denotes. *)
Inductive matches : list token → bytes → Prop :=
| matches_nil : matches [] []
| matches_star_done ts s : matches ts s → matches (TStar :: ts) s
| matches_star_more ts x s : matches (TStar :: ts) s → matches (TStar :: ts) (x :: s)
| matches_one t ts x s : token_ok t x = true → matches ts s → matches (t :: ts) (x :: s).

(** The items of a class and the pattern after its bracket; a class that is
    never closed runs to the end of the pattern. *)
Fixpoint class_items (p : bytes) : list class_item * bytes :=
  match p with
  | [] => ([], [])
  | c :: p1 =>
      if decide (c = "]"%byte) then ([], p1)
      else if decide (c = "\"%byte ∧ p1 ≠ []) then
        match p1 with
        | d :: p2 => let '(its, r) := class_items p2 in (CByte d :: its, r)
        | [] => ([], [])
        end
      else
        match p1 with
        | d :: e :: p3 =>
            if decide (d = "-"%byte ∧ e ≠ "]"%byte) then
              let '(its, r) := class_items p3 in (CRange c e :: its, r)
            else let '(its, r) := class_items p1 in (CByte c :: its, r)
        | _ => let '(its, r) := class_items p1 in (CByte c :: its, r)
        end
  end.

Fixpoint tokens_fuel (fuel : nat) (p : bytes) : list token :=
  match fuel, p with
  | S fuel', pc :: p1 =>
      if decide (pc = "*"%byte) then TStar :: tokens_fuel fuel' p1
      else if decide (pc = "?"%byte) then TAny :: tokens_fuel fuel' p1
      else if decide (pc = "["%byte) then
        let negated := bool_decide (head p1 = Some "^"%byte) in
        let '(items, r) := class_items (if negated then tail p1 else p1) in
        TClass negated items :: tokens_fuel fuel' r
      else
        match p1 with
        | q :: p2 =>
            if decide (pc = "\"%byte) then TByte q :: tokens_fuel fuel' p2
            else TByte pc :: tokens_fuel fuel' p1
        | [] => [TByte pc]
        end
  | _, _ => []
  end.

Definition tokens (p : bytes) : list token := tokens_fuel (length p) p.

(** ** Classes *)

Lemma class_loop_items subject p m :
  class_loop subject p m =
  (m || match subject with
        | Some x => existsb (item_ok x) (class_items p).1
        | None => false
        end, (class_items p).2).
Proof.
  revert m. induction p as [p IH] using (induction_ltof1 _ (@length byte)). unfold ltof in IH.
  intros m. destruct p as [|c p1]; cbn [class_loop class_items].
  { destruct subject; cbn; by rewrite orb_false_r. }
  assert (Hbyte : ∀ d q, (length q < length (c :: p1))%nat →
    class_loop subject q (m || bool_decide (subject = Some d)) =
    (m || match subject with
          | Some x => existsb (item_ok x) (CByte d :: (class_items q).1)
          | None => false
          end, (class_items q).2)).
  { intros d q Hq. rewrite IH by done. destruct subject as [x|]; cbn [existsb item_ok].
    - f_equal. rewrite orb_assoc. do 2 f_equal. apply bool_decide_ext. split; congruence.
    - by rewrite bool_decide_false, orb_false_r by done. }
  case_decide; [destruct subject; cbn; by rewrite orb_false_r|].
  case_decide as Hesc.
  { destruct p1 as [|d p2]; [by destruct Hesc|]. rewrite Hbyte by (cbn; lia).
    by destruct (class_items p2). }
  destruct p1 as [|d [|e p3]].
  - rewrite Hbyte by (cbn; lia). done.
  - rewrite Hbyte by (cbn; lia). by destruct (class_items [d]).
  - case_decide.
    + destruct (Z.ltb_spec (bval e) (bval c));
        rewrite IH by (cbn; lia); destruct (class_items p3) as [its r];
        destruct subject as [x|]; cbn [fst snd existsb item_ok]; rewrite ?orb_false_r; try done;
        rewrite orb_assoc; do 4 f_equal; lia.
    + rewrite Hbyte by (cbn; lia). by destruct (class_items (d :: e :: p3)).
Qed.

Lemma class_items_length p : (length (class_items p).2 ≤ length p)%nat.
Proof.
  induction p as [p IH] using (induction_ltof1 _ (@length byte)). unfold ltof in IH.
  assert (Hs : ∀ q (i : class_item) n, (length q < length p)%nat → (length q ≤ n)%nat →
    (length (let '(its, r) := class_items q in (i :: its, r)).2 ≤ n)%nat).
  { intros q i n ??. specialize (IH q). destruct (class_items q). cbn [fst snd] in *. lia. }
  destruct p as [|c p1]; [done|]. cbn [class_items].
  case_decide; [cbn; lia|]. case_decide.
  { destruct p1; [cbn; lia|]. apply Hs; cbn; lia. }
  destruct p1 as [|d [|e p3]]; [apply Hs; cbn; lia..|]. case_decide; apply Hs; cbn; lia.
Qed.

(** ** Tokens *)

Lemma tail_length {A} (l : list A) : (length (tail l) ≤ length l)%nat.
Proof. destruct l; cbn; lia. Qed.

Lemma tokens_fuel_enough n p : (length p ≤ n)%nat → tokens_fuel n p = tokens p.
Proof.
  unfold tokens. revert p. induction n as [n IH] using lt_wf_ind. intros p Hn.
  destruct p as [|c p1]; [by destruct n|]. destruct n as [|n]; [cbn in Hn; lia|].
  cbn [length] in *. cbn [tokens_fuel].
  assert (Hq : ∀ q, (length q ≤ length p1)%nat → tokens_fuel n q = tokens_fuel (length p1) q).
  { intros q Hq. rewrite (IH n) by lia. symmetry. apply IH; lia. }
  case_decide; [by rewrite Hq|]. case_decide; [by rewrite Hq|]. case_decide.
  - set (q := if bool_decide _ then tail p1 else p1).
    assert (length q ≤ length p1)%nat as Hlq by (subst q; case_match; [apply tail_length|lia]).
    pose proof (class_items_length q). destruct (class_items q) as [its r]. cbn [snd] in *.
    by rewrite Hq by lia.
  - destruct p1 as [|q p2]; [done|]. cbn [length] in *. case_decide; by rewrite Hq by (cbn; lia).
Qed.

Lemma tokens_cons pc p1 :
  tokens (pc :: p1) =
  if decide (pc = "*"%byte) then TStar :: tokens p1
  else if decide (pc = "?"%byte) then TAny :: tokens p1
  else if decide (pc = "["%byte) then
    let negated := bool_decide (head p1 = Some "^"%byte) in
    let '(items, r) := class_items (if negated then tail p1 else p1) in
    TClass negated items :: tokens_fuel (length p1) r
  else
    match p1 with
    | q :: p2 =>
        if decide (pc = "\"%byte) then TByte q :: tokens_fuel (length p1) p2
        else TByte pc :: tokens p1
    | [] => [TByte pc]
    end.
Proof. done. Qed.

Lemma tokens_star p : tokens ("*"%byte :: p) = TStar :: tokens p.
Proof. done. Qed.

Lemma tokens_any p : tokens ("?"%byte :: p) = TAny :: tokens p.
Proof. done. Qed.

Lemma tokens_class p :
  tokens ("["%byte :: p) =
  let negated := bool_decide (head p = Some "^"%byte) in
  let items := class_items (if negated then tail p else p) in
  TClass negated items.1 :: tokens items.2.
Proof.
  rewrite tokens_cons. rewrite !decide_False by done. rewrite decide_True by done. cbv zeta.
  set (q := if bool_decide (head p = Some "^"%byte) then tail p else p).
  assert (length q ≤ length p)%nat as Hlq by (subst q; case_match; [apply tail_length|lia]).
  pose proof (class_items_length q). cbv zeta.
  destruct (class_items q) as [its r]. cbn [fst snd] in *.
  by rewrite <- (tokens_fuel_enough (length p)) by lia.
Qed.

Lemma tokens_escape q p : tokens ("\"%byte :: q :: p) = TByte q :: tokens p.
Proof.
  rewrite tokens_cons. rewrite !decide_False by done. rewrite decide_True by done.
  by rewrite tokens_fuel_enough by (cbn; lia).
Qed.

Lemma tokens_byte c p :
  c ≠ "*"%byte → c ≠ "?"%byte → c ≠ "["%byte → ¬ (c = "\"%byte ∧ p ≠ []) →
  tokens (c :: p) = TByte c :: tokens p.
Proof.
  intros ??? Hesc. rewrite tokens_cons. rewrite !decide_False by done.
  destruct p as [|q p]; [done|]. rewrite decide_False by (intros ->; by apply Hesc). done.
Qed.

Lemma matches_star ts s : matches (TStar :: ts) s ↔ ∃ pre suf, s = pre ++ suf ∧ matches ts suf.
Proof.
  split.
  - remember (TStar :: ts) as l eqn:E. induction 1 as [|ts' s H _|ts' x s H IH|t ts' x s Ht H _];
      simplify_eq.
    + by exists [], s.
    + destruct IH as (pre & suf & -> & ?); [done|]. by exists (x :: pre), suf.
  - intros (pre & suf & -> & H). induction pre; cbn; by constructor.
Qed.

Lemma matches_star_star ts s : matches (TStar :: TStar :: ts) s ↔ matches (TStar :: ts) s.
Proof.
  rewrite !matches_star. split.
  - intros (p1 & s1 & -> & (p2 & s2 & -> & H)%matches_star).
    exists (p1 ++ p2), s2. by rewrite app_assoc.
  - intros (p1 & s1 & -> & H). exists p1, s1. split; [done|]. apply matches_star. by exists [], s1.
Qed.

Lemma matches_one_inv t ts s :
  t ≠ TStar → matches (t :: ts) s ↔ ∃ x s', s = x :: s' ∧ token_ok t x = true ∧ matches ts s'.
Proof.
  intros Ht. split.
  - inversion 1; subst; try done. eauto.
  - intros (x & s' & -> & ? & ?). by constructor.
Qed.

Lemma any_suffix_spec f s :
  any_suffix f s = true ↔ ∃ pre suf, s = pre ++ suf ∧ f suf = true.
Proof.
  induction s as [|x s IH]; cbn [any_suffix]; rewrite orb_true_iff.
  - split; [intros [H|H]; [by exists [], []|done]|].
    intros (pre & suf & E & H). symmetry in E. apply app_nil in E as [-> ->]. by left.
  - rewrite IH. split.
    + intros [H|(pre & suf & -> & H)]; [by exists [], (x :: s)|by exists (x :: pre), suf].
    + intros ([|y pre] & suf & E & H); simplify_eq/=; [by left|]. right. eauto.
Qed.

(** Consecutive stars mean one. *)
Lemma skip_stars_spec p :
  ∃ rest, skip_stars ("*"%byte :: p) = "*"%byte :: rest ∧ (length rest ≤ length p)%nat ∧
    ∀ s, matches (tokens ("*"%byte :: p)) s ↔ matches (TStar :: tokens rest) s.
Proof.
  induction p as [|d p IH]; [by exists []|].
  cbn [skip_stars]. case_decide as Hd.
  - subst d. destruct IH as (rest & E & Hl & Hm). exists rest.
    split_and!; [done|cbn; lia|]. intros s. rewrite <- Hm, !tokens_star. apply matches_star_star.
  - by exists (d :: p).
Qed.

Lemma matches_only_star s : matches [TStar] s.
Proof. apply matches_star. exists s, []. rewrite app_nil_r. split; [done|constructor]. Qed.

(** The turn of a token that consumes one byte: [b] tells whether the byte is
    one the token takes. *)
Lemma one_byte_turn fuel t p' x s (b : bool) :
  t ≠ TStar → token_ok t x = b →
  (glob_loop fuel p' s = true ↔ matches (tokens p') s) →
  (if b then glob_loop fuel p' s else false) = true ↔ matches (t :: tokens p') (x :: s).
Proof.
  intros Ht Hb IH. rewrite matches_one_inv by done. destruct b.
  - rewrite IH. split; [eauto 10|]. intros (?&?&?&_&?). by simplify_eq.
  - split; [done|]. intros (?&?&?&?&_). simplify_eq. congruence.
Qed.

Lemma no_byte_left t ts : t ≠ TStar → false = true ↔ matches (t :: ts) [].
Proof. intros Ht. rewrite matches_one_inv by done. split; [done|]. by intros (?&?&?&_). Qed.

(** The same for a token that takes one byte only. *)
Lemma literal_turn fuel q p' sc s :
  (glob_loop fuel p' s = true ↔ matches (tokens p') s) →
  (if decide (q ≠ sc) then false else glob_loop fuel p' s) = true ↔
  matches (TByte q :: tokens p') (sc :: s).
Proof.
  intros IH. rewrite <- (one_byte_turn fuel (TByte q) p' sc s (bool_decide (sc = q))) by done.
  case_decide as Hq; [by rewrite bool_decide_false by congruence|].
  by rewrite bool_decide_true by (destruct (decide (q = sc)); [done|by destruct Hq]).
Qed.

Lemma class_turn fuel p1 s :
  (∀ p s, (length p ≤ length p1)%nat → glob_loop fuel p s = true ↔ matches (tokens p) s) →
  (let '(matched, new_p, consumed_s) := match_class p1 s in
   if negb consumed_s || negb matched then false else glob_loop fuel new_p (tail s)) = true ↔
  matches (tokens ("["%byte :: p1)) s.
Proof.
  intros IH. unfold match_class. rewrite tokens_class, class_loop_items. cbv zeta.
  set (q := if bool_decide (head p1 = Some "^"%byte) then tail p1 else p1).
  assert (length q ≤ length p1)%nat as Hlq by (subst q; case_match; [apply tail_length|lia]).
  pose proof (class_items_length q). clearbody q.
  set (b := bool_decide (head p1 = _)). clearbody b.
  destruct s as [|x s]; cbn [head tail]; [by apply no_byte_left|].
  rewrite (bool_decide_true (is_Some (Some x))) by eauto. cbn [negb orb].
  set (e := existsb (item_ok x) (class_items q).1).
  rewrite <- (one_byte_turn fuel _ (class_items q).2 x s (if b then negb e else e)).
  - by destruct (if b then negb e else e).
  - done.
  - cbn [token_ok]. fold e. by destruct b, e.
  - apply IH. lia.
Qed.

Lemma glob_loop_correct fuel p s :
  (length p < fuel)%nat → glob_loop fuel p s = true ↔ matches (tokens p) s.
Proof.
  revert p s. induction fuel as [|fuel IH]; intros p s Hf; [lia|].
  destruct p as [|pc p1]; cbn [glob_loop].
  { rewrite bool_decide_eq_true. split; [intros ->; constructor|]. by inversion 1. }
  cbn [length] in Hf.
  case_decide; [subst pc|case_decide; [subst pc|case_decide; [subst pc|]]].
  - destruct (skip_stars_spec p1) as (rest & -> & Hl & Hm). rewrite Hm.
    destruct rest as [|r rest].
    { split; [intros _; apply matches_only_star|done]. }
    cbn [tail]. rewrite any_suffix_spec, matches_star.
    split; intros (pre & suf & ? & H); exists pre, suf; (split; [done|]); apply IH; done || lia.
  - rewrite tokens_any. destruct s as [|x s]; [by apply no_byte_left|].
    apply (one_byte_turn fuel TAny p1 x s true); [done..|]. apply IH. lia.
  - apply class_turn. intros p t Hp. apply IH. lia.
  - case_decide as Hesc.
    + destruct Hesc as [-> Hlen]. destruct p1 as [|q p2]; [cbn in Hlen; lia|].
      rewrite tokens_escape. cbn [length] in *. destruct s as [|sc s]; [by apply no_byte_left|].
      apply literal_turn, IH. lia.
    + rewrite tokens_byte; try done.
      2: { intros [-> Hp]. apply Hesc. split; [done|]. destruct p1; [done|cbn; lia]. }
      destruct s as [|sc s]; [by apply no_byte_left|]. apply literal_turn, IH. lia.
Qed.

(** ** Properties *)

(** C13: [glob_match] decides the meaning of glob patterns: it returns true
    exactly when the text is one the pattern's tokens denote ([*] any sequence,
    [?] one byte, a class or its complement, ranges in either order, a backslash
    escape, any other byte itself). *)
Theorem glob_match_correct pattern text :
  glob_match pattern text = true ↔ matches (tokens pattern) text.
Proof. apply glob_loop_correct. lia. Qed.

(** The number of turns allowed to the matcher never decides its answer. *)
Theorem glob_fuel_enough fuel pattern text :
  (length pattern < fuel)%nat → glob_loop fuel pattern text = glob_match pattern text.
Proof.
  intros. apply eq_true_iff_eq. unfold glob_match. rewrite !glob_loop_correct by lia. done.
Qed.

Lemma glob_fuel_enough_witness :
  glob_loop 50 (lit "h[^a-c]*o") (lit "hello") = glob_match (lit "h[^a-c]*o") (lit "hello") ∧
  glob_match (lit "h[^a-c]*o") (lit "hello") = true.
Proof. split; [apply glob_fuel_enough; vm_compute; lia | reflexivity]. Defined.
