(* ===== verification/HashMap.v ===== *)
(** * [std::collections::HashMap]

    A [HashMap] is a finite map ([gmap]); what the program sees of its hashing
    is the order in which iteration visits the entries.  The order is
    unspecified: [HashIter] is the interface the components are written
    against, its law says that iteration visits every entry once, and every
    theorem holds for every order.  In an instance the order is a function of the
    contents; in Rust it also depends on the map's hash seed and history, none of
    which the program looks at.  [listing_order] is one implementation. *)

From S2P Require Import Prelude.

Class HashIter (K V : Type) `{Countable K} := {
  hash_iter : gmap K V → list (K * V);
  hash_iter_perm m : hash_iter m ≡ₚ map_to_list m;
}.

(** The order of [map_to_list], for computing examples. *)
Definition listing_order (K V : Type) `{Countable K} : HashIter K V :=
  {| hash_iter := map_to_list; hash_iter_perm m := Permutation_refl _ |}.

(** The reverse order, to see that a behaviour depends on the order. *)
Program Definition reverse_order (K V : Type) `{Countable K} : HashIter K V :=
  {| hash_iter m := reverse (map_to_list m) |}.
Next Obligation. intros. apply reverse_Permutation. Qed.

(** [HashMap::retain] and the [iter().filter()] of the components. *)
Definition hash_keys `{HashIter K V} (P : V → bool) (m : gmap K V) : list K :=
  map fst (base.filter (λ kv : K * V, P kv.2 = true) (hash_iter m)).

Section hash_iter.
Context `{HI : HashIter K V}.
Implicit Types (m : gmap K V).

Lemma elem_of_hash_iter m k v : (k, v) ∈ hash_iter m ↔ m !! k = Some v.
Proof. by rewrite hash_iter_perm, elem_of_map_to_list. Qed.

Lemma NoDup_hash_iter m : NoDup (map fst (hash_iter m)).
Proof. rewrite hash_iter_perm. apply NoDup_fst_map_to_list. Qed.

Lemma length_hash_iter m : length (hash_iter m) = size m.
Proof. by rewrite hash_iter_perm, length_map_to_list. Qed.

Lemma elem_of_hash_keys P m k :
  k ∈ hash_keys P m ↔ ∃ v, m !! k = Some v ∧ P v = true.
Proof.
  unfold hash_keys. rewrite list_elem_of_fmap. split.
  - intros ([k' v] & -> & [? Hin]%list_elem_of_filter).
    apply elem_of_hash_iter in Hin. by exists v.
  - intros (v & Hk & HP). exists (k, v). split; [done|].
    apply list_elem_of_filter. by rewrite elem_of_hash_iter.
Qed.

Lemma NoDup_hash_keys P m : NoDup (hash_keys P m).
Proof.
  unfold hash_keys. pose proof (NoDup_hash_iter m) as Hn.
  induction (hash_iter m) as [|[k v] l IH]; [constructor|].
  cbn [map] in Hn. apply NoDup_cons in Hn as [Hk Hn]. rewrite filter_cons.
  case_decide; [|by apply IH]. cbn [map]. apply NoDup_cons. split; [|by apply IH].
  intros (kv & Hkv & [_ Hin]%list_elem_of_filter)%list_elem_of_fmap. apply Hk.
  apply list_elem_of_fmap. by exists kv.
Qed.

Lemma take_hash_iter m n k v : (k, v) ∈ take n (hash_iter m) → m !! k = Some v.
Proof.
  intros (i & Hi & _)%elem_of_take. apply elem_of_hash_iter. by eapply list_elem_of_lookup_2.
Qed.

Lemma NoDup_take_hash_iter m n : NoDup (map fst (take n (hash_iter m))).
Proof.
  pose proof (NoDup_hash_iter m) as Hn. rewrite <- (take_drop n (hash_iter m)) in Hn.
  rewrite map_app in Hn. by apply NoDup_app in Hn as [? _].
Qed.
End hash_iter.
