(* ===== verification/Scan.v ===== *)
(** * The SCAN cursor registry (crates/resp-store/src/scan.rs)

    A bounded, idle-expiring table from cursor ids to snapshots of the key
    space.  A scan that finds its cursor continues its snapshot; one that does
    not restarts from a fresh snapshot.  The guarantee the design makes, "no
    misses of stable keys, duplicates possible", is [scan_no_stable_miss]. *)

From S2P Require Import Prelude RustStd HashMap.

(** ** The code *)

Definition MAX_LIVE_CURSORS : nat := 64.
Definition CURSOR_IDLE_EXPIRY : Duration := 60 * NS_PER_SEC.

Record ScanState := mkScanState {
  snapshot : list bytes;
  position : nat;
  last_used : Instant;
}.

Record ScanRegistry := mkScanRegistry {
  cursors : gmap Z ScanState;
  next_id : Z;
}.

Definition registry_new : ScanRegistry := mkScanRegistry ∅ 0.

Definition touch_state (st : ScanState) (now : Instant) : ScanState :=
  mkScanState (snapshot st) (position st) now.

(** [take_page]: the addition is [usize] arithmetic, the slice panics when the
    end is before the position ([None]). *)
Definition take_page (st : ScanState) (count : Z) : option (list bytes * ScanState) :=
  let end_ := Z.to_nat (Z.min (wrap_u64 (Z.of_nat (position st) + Z.max count 1))
                              (len (snapshot st))) in
  page ← slice (snapshot st) (position st) end_;
  Some (page, mkScanState (snapshot st) end_ (last_used st)).

(** The predicate of the [retain]: used less than [CURSOR_IDLE_EXPIRY] ago. *)
Definition fresh_cursor (now : Instant) (st : ScanState) : bool :=
  duration_since now (last_used st) <? CURSOR_IDLE_EXPIRY.

(** [min_by_key(|(_, s)| s.last_used)]: the first of the smallest. *)
Fixpoint min_by_last_used (l : list (Z * ScanState)) : option (Z * ScanState) :=
  match l with
  | [] => None
  | x :: l' =>
      match min_by_last_used l' with
      | None => Some x
      | Some y => if last_used x.2 <=? last_used y.2 then Some x else Some y
      end
  end.

Section registry.
Context `{HI : !HashIter Z ScanState}.

(** The [while self.cursors.len() >= MAX_LIVE_CURSORS] loop: a turn removes a
    cursor, so [size] turns are enough. *)
Fixpoint evict_oldest (fuel : nat) (m : gmap Z ScanState) : gmap Z ScanState :=
  match fuel with
  | O => m
  | S fuel' =>
      if bool_decide (MAX_LIVE_CURSORS ≤ size m)%nat then
        match min_by_last_used (hash_iter m) with
        | Some (id, _) => evict_oldest fuel' (delete id m)
        | None => m
        end
      else m
  end.

Definition evict_stale_and_over_capacity (reg : ScanRegistry) (now : Instant) : ScanRegistry :=
  let m := filter (λ kv, fresh_cursor now kv.2 = true) (cursors reg) in
  mkScanRegistry (evict_oldest (size m) m) (next_id reg).

Definition scan_start (reg : ScanRegistry) (now : Instant) (keys : list bytes) (count : Z)
    : option (Z * list bytes * ScanRegistry) :=
  let reg := evict_stale_and_over_capacity reg now in
  let id := Z.max (wrap_u64 (next_id reg + 1)) 1 in
  '(page, st) ← take_page (mkScanState keys 0 now) count;
  if bool_decide (position st < length (snapshot st))%nat
  then Some (id, page, mkScanRegistry (<[id := st]> (cursors reg)) id)
  else Some (0, page, mkScanRegistry (cursors reg) id).

(** [fresh_keys] is only evaluated by a (re)start; [None] is a panic. *)
Definition registry_scan (reg : ScanRegistry) (now : Instant) (cursor count : Z)
    (fresh_keys : unit → list bytes) : option (Z * list bytes * ScanRegistry) :=
  let restart := scan_start reg now (fresh_keys tt) count in
  if cursor =? 0 then restart else
  match cursors reg !! cursor with
  | Some st =>
      if duration_since now (last_used st) <? CURSOR_IDLE_EXPIRY then
        '(page, st') ← take_page (touch_state st now) count;
        if bool_decide (length (snapshot st') ≤ position st')%nat
        then Some (0, page, mkScanRegistry (delete cursor (cursors reg)) (next_id reg))
        else Some (cursor, page, mkScanRegistry (<[cursor := st']> (cursors reg)) (next_id reg))
      else restart
  | None => restart
  end.

(** ** Well-formed registries *)

(** A live cursor is at a proper position inside its snapshot, its id has
    been handed out, and the table is within its bound. *)
Definition registry_ok (reg : ScanRegistry) : Prop :=
  0 <= next_id reg <= u64_max ∧ (size (cursors reg) ≤ MAX_LIVE_CURSORS)%nat ∧
  ∀ id st, cursors reg !! id = Some st →
    1 <= id <= next_id reg ∧ (position st < length (snapshot st))%nat ∧
    len (snapshot st) <= i64_max.

(** Cursors are not reused: the id counter stays below its wrap-around. *)
Definition ids_left (reg : ScanRegistry) : Prop := next_id reg < u64_max.

(** A page request the parser can produce: [0 <= count <= i64::MAX]. *)
Definition count_ok (count : Z) : Prop := 0 <= count <= i64_max.

(** *** Lemmas *)

Lemma take_page_spec st count :
  count_ok count → (position st ≤ length (snapshot st))%nat → len (snapshot st) <= i64_max →
  ∃ page st', take_page st count = Some (page, st') ∧
    snapshot st' = snapshot st ∧ last_used st' = last_used st ∧
    drop (position st) (snapshot st) = page ++ drop (position st') (snapshot st) ∧
    (position st ≤ position st' ≤ length (snapshot st))%nat ∧
    ((position st < length (snapshot st))%nat → (position st < position st')%nat).
Proof.
  intros [Hc1 Hc2] Hpos Hlen. unfold take_page, len, i64_max in *.
  rewrite wrap_u64_small by (unfold u64_max; lia).
  set (e := Z.to_nat _).
  assert ((position st ≤ e)%nat ∧ (e ≤ length (snapshot st))%nat ∧
    ((position st < length (snapshot st))%nat → (position st < e)%nat)) as (He1 & He2 & He3)
    by (unfold e; lia).
  clearbody e. rewrite slice_Some by done. cbn [mbind option_bind].
  eexists _, _; split; [done|]. cbn [snapshot position last_used]. split_and!; try done.
  rewrite <- (take_drop (e - position st) (drop (position st) (snapshot st))) at 1.
  f_equal. rewrite drop_drop. f_equal. lia.
Qed.

Lemma min_by_last_used_elem l x : min_by_last_used l = Some x → x ∈ l.
Proof.
  induction l as [|y l IH]; cbn [min_by_last_used]; [done|].
  destruct (min_by_last_used l) as [z|] eqn:E.
  - case_match; intros; simplify_eq; [by left|]. right. by apply IH.
  - intros; simplify_eq. by left.
Qed.

Lemma min_by_last_used_None l : min_by_last_used l = None → l = [].
Proof. destruct l as [|x l]; cbn [min_by_last_used]; [done|]. by repeat case_match. Qed.

Lemma evict_oldest_subseteq fuel m : evict_oldest fuel m ⊆ m.
Proof.
  revert m. induction fuel as [|fuel IH]; intros m; cbn [evict_oldest]; [done|].
  case_bool_decide; [|done]. destruct (min_by_last_used (hash_iter m)) as [[id st]|]; [|done].
  etrans; [apply IH|]. apply delete_subseteq.
Qed.

Lemma evict_oldest_size fuel m :
  (size m ≤ fuel)%nat → (size (evict_oldest fuel m) < MAX_LIVE_CURSORS)%nat.
Proof.
  revert m. induction fuel as [|fuel IH]; intros m Hm; cbn [evict_oldest].
  { unfold MAX_LIVE_CURSORS. lia. }
  case_bool_decide as Hs; [|lia].
  destruct (min_by_last_used (hash_iter m)) as [[id st]|] eqn:E.
  - apply min_by_last_used_elem, elem_of_hash_iter in E.
    apply IH. rewrite map_size_delete, E. unfold MAX_LIVE_CURSORS in *. lia.
  - apply min_by_last_used_None in E. pose proof (length_hash_iter m) as Hl.
    rewrite E in Hl. cbn in Hl. unfold MAX_LIVE_CURSORS in *. lia.
Qed.

Lemma evict_registry reg now :
  registry_ok reg →
  let reg' := evict_stale_and_over_capacity reg now in
  cursors reg' ⊆ cursors reg ∧ (size (cursors reg') < MAX_LIVE_CURSORS)%nat ∧
  next_id reg' = next_id reg.
Proof.
  intros _. cbn. split_and!; [|by apply evict_oldest_size|done].
  etrans; [apply evict_oldest_subseteq|]. apply map_filter_subseteq.
Qed.

(** What is left to visit under a cursor: the rest of its snapshot. *)
Definition remaining (reg : ScanRegistry) (cursor : Z) : option (list bytes) :=
  st ← cursors reg !! cursor; Some (drop (position st) (snapshot st)).

(** The registry changed only at [cursor], apart from evicted cursors. *)
Definition others_kept (reg reg' : ScanRegistry) (cursor : Z) : Prop :=
  ∀ id st, id ≠ cursor → cursors reg' !! id = Some st → cursors reg !! id = Some st.

(** The outcome of a call that served [page] of [keys] under cursor [c]. *)
Definition served (keys : list bytes) (c : Z) (page : list bytes) (reg' : ScanRegistry) : Prop :=
  ∃ rest, keys = page ++ rest ∧
    (c = 0 ∧ rest = [] ∨ 0 < c ∧ rest ≠ [] ∧ remaining reg' c = Some rest).

Lemma scan_start_spec reg now keys count :
  registry_ok reg → ids_left reg → count_ok count → len keys <= i64_max →
  ∃ c page reg', scan_start reg now keys count = Some (c, page, reg') ∧
    registry_ok reg' ∧ next_id reg' = next_id reg + 1 ∧
    served keys c page reg' ∧ (c = 0 ∨ c = next_id reg') ∧
    others_kept reg reg' (next_id reg').
Proof.
  intros Hok Hleft Hc Hk. destruct (evict_registry reg now Hok) as (Hsub & Hsize & Hid).
  destruct Hok as (Hn & _ & Hst). unfold ids_left in Hleft. unfold scan_start.
  destruct (take_page_spec (mkScanState keys 0 now) count) as
    (page & st & -> & E1 & E2 & E3 & E4 & _); [done|cbn; lia|done|]. cbn in E1, E2, E3, E4.
  cbn [mbind option_bind]. rewrite Hid.
  rewrite wrap_u64_small by (unfold u64_max in *; lia). rewrite Z.max_l by lia.
  set (m := cursors (evict_stale_and_over_capacity reg now)) in *.
  assert (Hm : ∀ id s, m !! id = Some s → cursors reg !! id = Some s)
    by (intros id s Hs; exact (lookup_weaken _ _ _ _ Hs Hsub)).
  case_bool_decide as Hlt; eexists _, page, _; (split; [done|]); cbn [next_id].
  - split_and!; [split_and!| | | |]; cbn [next_id cursors].
    + lia.
    + lia.
    + rewrite map_size_insert. case_match; unfold id; lia.
    + intros id s. rewrite lookup_insert. case_decide as Hd; [|intros Hs].
      * intros [= <-]. rewrite E1. rewrite E1 in Hlt. split_and!; lia || done.
      * apply Hm, Hst in Hs as (?&?&?). split_and!; try done; lia.
    + done.
    + exists (drop (position st) keys). split; [done|]. right. split_and!; [lia| |].
      * intros Hd. apply (f_equal length) in Hd. rewrite length_drop in Hd.
        rewrite E1 in Hlt. cbn in Hd. lia.
      * unfold remaining. cbn [cursors]. rewrite lookup_insert_eq. cbn. by rewrite E1.
    + by right.
    + intros id s Hne. cbn [cursors]. rewrite lookup_insert_ne by done. apply Hm.
  - split_and!; [split_and!| | | |]; cbn [next_id cursors].
    + lia.
    + lia.
    + lia.
    + intros id s Hs. apply Hm, Hst in Hs as (?&?&?). split_and!; try done; lia.
    + done.
    + exists []. rewrite app_nil_r. split; [|by left].
      rewrite (drop_ge _ (position st)) in E3 by (rewrite E1 in Hlt; lia). by rewrite app_nil_r in E3.
    + by left.
    + intros id s _. apply Hm.
Qed.

(** A call either continues the snapshot of its live cursor or restarts. *)
Lemma registry_scan_spec reg now cursor count keys :
  registry_ok reg → ids_left reg → count_ok count → len (keys tt) <= i64_max →
  ∃ c page reg', registry_scan reg now cursor count keys = Some (c, page, reg') ∧
    registry_ok reg' ∧ next_id reg <= next_id reg' <= next_id reg + 1 ∧
    ((∃ rest, cursor ≠ 0 ∧ remaining reg cursor = Some rest ∧ served rest c page reg' ∧
        (c = 0 ∨ c = cursor) ∧ others_kept reg reg' cursor) ∨
     (served (keys tt) c page reg' ∧ (c = 0 ∨ c = next_id reg') ∧
        next_id reg' = next_id reg + 1 ∧ others_kept reg reg' (next_id reg'))).
Proof.
  intros Hok Hleft Hc Hk.
  assert (Hre : ∃ c page reg', scan_start reg now (keys tt) count = Some (c, page, reg') ∧
    registry_ok reg' ∧ next_id reg <= next_id reg' <= next_id reg + 1 ∧
    served (keys tt) c page reg' ∧ (c = 0 ∨ c = next_id reg') ∧
    next_id reg' = next_id reg + 1 ∧ others_kept reg reg' (next_id reg')).
  { destruct (scan_start_spec reg now (keys tt) count) as (c & page & reg' & ?&?&?&?&?&?); try done.
    exists c, page, reg'. split_and!; try done; lia. }
  destruct Hre as (c & page & reg' & Hs & ?&?&?&?&?&?). unfold registry_scan.
  destruct (Z.eqb_spec cursor 0); [exists c, page, reg'; eauto 10|].
  destruct (cursors reg !! cursor) as [st|] eqn:Hst; [|exists c, page, reg'; eauto 10].
  case_match; [|exists c, page, reg'; eauto 10].
  clear dependent c. clear dependent page. clear dependent reg'.
  destruct Hok as (Hn & Hsz & Hall). destruct (Hall _ _ Hst) as (Hid & Hpos & Hlen).
  destruct (take_page_spec (touch_state st now) count) as
    (page & st' & -> & E1 & E2 & E3 & E4 & E5); [done|cbn; lia|done|].
  cbn in E1, E2, E3, E4, E5. cbn [mbind option_bind]. rewrite E1.
  assert (Hrem : remaining reg cursor = Some (drop (position st) (snapshot st)))
    by (unfold remaining; by rewrite Hst).
  case_bool_decide as Hend; eexists _, page, _; (split; [done|]); cbn [next_id].
  - split_and!; [split_and!; cbn [next_id cursors]|lia|lia|].
    + lia.
    + lia.
    + rewrite map_size_delete, Hst. lia.
    + intros id s [_ Hs]%lookup_delete_Some. by apply Hall.
    + left. eexists; split_and!; [done|done| |by left|].
      * exists []. split; [|by left]. rewrite E3, drop_ge by lia. done.
      * intros id s Hne. cbn [cursors]. by rewrite lookup_delete_ne.
  - split_and!; [split_and!; cbn [next_id cursors]|lia|lia|].
    + lia.
    + lia.
    + rewrite map_size_insert, Hst. unfold id. lia.
    + intros id s. rewrite lookup_insert. case_decide; [|by apply Hall].
      intros [= <-]. rewrite E1. split_and!; try done; lia.
    + left. eexists; split_and!; [done|done| |by right|].
      * exists (drop (position st') (snapshot st)). split; [done|]. right.
        split_and!; [lia| |].
        -- intros Hd. apply (f_equal length) in Hd. rewrite length_drop in Hd. cbn in Hd. lia.
        -- unfold remaining. cbn [cursors]. rewrite lookup_insert_eq. cbn. by rewrite E1.
      * intros id s Hne. cbn [cursors]. by rewrite lookup_insert_ne.
Qed.

(** *** Following a cursor *)

(** The cursor [c], last used at [t], has the keys [rest] left to visit. *)
Definition following (reg : ScanRegistry) (c : Z) (t : Instant) (rest : list bytes) : Prop :=
  ∃ st, cursors reg !! c = Some st ∧ last_used st = t ∧ drop (position st) (snapshot st) = rest ∧
    (position st < length (snapshot st))%nat ∧ len (snapshot st) <= i64_max.

(** What a call that serves [keys] under cursor [c] gives. *)
Definition paged (keys : list bytes) (c : Z) (now : Instant)
    (o : option (Z * list bytes * ScanRegistry)) : Prop :=
  ∃ c' page reg' rest, o = Some (c', page, reg') ∧ keys = page ++ rest ∧
    (keys ≠ [] → page ≠ []) ∧
    (c' = 0 ∧ rest = [] ∨ c' = c ∧ rest ≠ [] ∧ following reg' c now rest).

(** A cursor used recently continues its snapshot ... *)
Lemma registry_scan_live reg c now t count keys rest :
  count_ok count → c ≠ 0 → duration_since now t < CURSOR_IDLE_EXPIRY → following reg c t rest →
  paged rest c now (registry_scan reg now c count keys).
Proof.
  intros Hc Hc0 Hrecent (st & Hst & Hlast & Hrest & Hpos & Hlen). unfold registry_scan.
  destruct (Z.eqb_spec c 0); [done|]. rewrite Hst, Hlast.
  rewrite (proj2 (Z.ltb_lt _ _) Hrecent).
  destruct (take_page_spec (touch_state st now) count) as
    (page & st' & -> & E1 & E2 & E3 & E4 & E5); [done|cbn; lia|done|].
  cbn in E1, E2, E3, E4, E5. cbn [mbind option_bind]. rewrite E1. specialize (E5 Hpos). rewrite Hrest in E3.
  assert (Hpage : rest ≠ [] → page ≠ []).
  { intros _ ->. cbn [app] in E3. apply (f_equal length) in E3. rewrite <- Hrest, !length_drop in E3. lia. }
  case_bool_decide as Hend.
  - exists 0, page, (mkScanRegistry (delete c (cursors reg)) (next_id reg)), [].
    split; [done|]. rewrite drop_ge in E3 by lia. split; [done|]. split; [done|]. by left.
  - exists c, page, (mkScanRegistry (<[c := st']> (cursors reg)) (next_id reg)),
      (drop (position st') (snapshot st)).
    split; [done|]. split; [done|]. split; [done|]. right. split; [done|].
    split; [intros Hd; apply (f_equal length) in Hd; rewrite length_drop in Hd; cbn in Hd; lia|].
    exists st'. cbn [cursors]. rewrite lookup_insert_eq, E1. split_and!; done || lia.
Qed.

(** ... and one the registry does not know starts a new one, under the next id. *)
Lemma registry_scan_fresh reg c now count keys :
  registry_ok reg → ids_left reg → count_ok count → len (keys tt) <= i64_max →
  c = 0 ∨ cursors reg !! c = None →
  paged (keys tt) (next_id reg + 1) now (registry_scan reg now c count keys).
Proof.
  intros (Hn & _) Hleft Hc Hk Hnew. unfold ids_left in Hleft.
  assert (registry_scan reg now c count keys = scan_start reg now (keys tt) count) as ->.
  { unfold registry_scan. destruct (Z.eqb_spec c 0); [done|]. destruct Hnew as [?| ->]; done. }
  unfold scan_start. cbn [next_id evict_stale_and_over_capacity].
  destruct (take_page_spec (mkScanState (keys tt) 0 now) count) as
    (page & st & -> & E1 & E2 & E3 & E4 & E5); [done|cbn; lia|done|]. cbn in E1, E2, E3, E4, E5.
  cbn [mbind option_bind]. rewrite drop_0 in E3. rewrite E1 in *.
  rewrite wrap_u64_small by lia. rewrite Z.max_l by lia.
  assert (Hpage : keys tt ≠ [] → page ≠ []).
  { intros Hne ->. cbn [app] in E3. apply (f_equal length) in E3. rewrite length_drop in E3.
    destruct (keys tt); [done|]. cbn in *. lia. }
  set (m := cursors (evict_stale_and_over_capacity reg now)). clearbody m.
  case_bool_decide as Hlt.
  - exists (next_id reg + 1), page, (mkScanRegistry (<[next_id reg + 1 := st]> m) (next_id reg + 1)),
      (drop (position st) (keys tt)).
    split; [done|]. split; [done|]. split; [done|]. right. split; [done|].
    split; [intros Hd; apply (f_equal length) in Hd; rewrite length_drop in Hd; cbn in Hd; lia|].
    exists st. cbn [cursors]. rewrite lookup_insert_eq, E1. by split_and!.
  - exists 0, page, (mkScanRegistry m (next_id reg + 1)), [].
    split; [done|]. rewrite drop_ge in E3 by lia. split; [done|]. split; [done|]. by left.
Qed.

(** ** A client's scan, interleaved with everyone else's *)

(** [scan_run k reg c seen]: a client started a scan at cursor 0 and has
    followed the cursors it was given, the last of them [c], collecting the
    keys [seen]; [k] was in the key space at each of its calls.  Between its
    calls other clients scan with cursors of their own. *)
Inductive scan_run (k : bytes) : ScanRegistry → Z → list bytes → Prop :=
| run_first reg now count keys c page reg' :
    registry_ok reg → ids_left reg → count_ok count → len (keys tt) <= i64_max →
    k ∈ keys tt →
    registry_scan reg now 0 count keys = Some (c, page, reg') →
    scan_run k reg' c page
| run_next reg c seen now count keys c' page reg' :
    scan_run k reg c seen → c ≠ 0 →
    ids_left reg → count_ok count → len (keys tt) <= i64_max → k ∈ keys tt →
    registry_scan reg now c count keys = Some (c', page, reg') →
    scan_run k reg' c' (seen ++ page)
| run_other reg c seen now other count keys c' page reg' :
    scan_run k reg c seen → other ≠ c →
    ids_left reg → count_ok count → len (keys tt) <= i64_max →
    registry_scan reg now other count keys = Some (c', page, reg') →
    scan_run k reg' c seen.

(** The stable key has been seen or is still to come under the cursor. *)
Definition run_inv (k : bytes) (reg : ScanRegistry) (c : Z) (seen : list bytes) : Prop :=
  registry_ok reg ∧ 0 <= c <= next_id reg ∧
  (c = 0 → k ∈ seen) ∧ ∀ rest, remaining reg c = Some rest → k ∈ seen ∨ k ∈ rest.

Lemma remaining_zero reg : registry_ok reg → remaining reg 0 = None.
Proof.
  intros (_ & _ & Hall). unfold remaining.
  destruct (cursors reg !! 0) as [st|] eqn:E; [|done]. apply Hall in E as [? _]. lia.
Qed.

Lemma served_inv k keys c page reg' seen :
  registry_ok reg' → served keys c page reg' → 0 <= c <= next_id reg' →
  k ∈ seen ∨ k ∈ keys → run_inv k reg' c (seen ++ page).
Proof.
  intros Hok (rest & -> & Hcase) Hc Hk. split_and!; [done|lia|lia| |].
  - intros ->. destruct Hcase as [[_ ->]|(?&_)]; [|lia]. rewrite app_nil_r in Hk. by apply elem_of_app.
  - intros rest' Hr. destruct Hcase as [[-> _]|(_&_&Hrem)].
    + by rewrite remaining_zero in Hr.
    + simplify_eq. rewrite !elem_of_app in *. tauto.
Qed.

Lemma remaining_others reg reg' c id rest :
  others_kept reg reg' c → id ≠ c → remaining reg' id = Some rest → remaining reg id = Some rest.
Proof.
  intros Ho Hne. unfold remaining. destruct (cursors reg' !! id) as [st|] eqn:E; [|done].
  intros; simplify_eq/=. by rewrite (Ho _ _ Hne E).
Qed.

Lemma scan_run_inv k reg c seen : scan_run k reg c seen → run_inv k reg c seen.
Proof.
  induction 1 as [reg now count keys c page reg' Hok Hl Hc Hk Hin Hs
    |reg c seen now count keys c' page reg' _ IH Hc0 Hl Hc Hk Hin Hs
    |reg c seen now other count keys c' page reg' _ IH Hne Hl Hc Hk Hs].
  - destruct (registry_scan_spec reg now 0 count keys) as (c1 & p1 & r1 & Hs' & Hok' & Hid & Hcase);
      try done. rewrite Hs in Hs'; simplify_eq.
    destruct Hok as (Hn & _).
    destruct Hcase as [(? & ? & _)|(Hserved & Hcc & _ & _)]; [done|].
    apply (served_inv k _ _ _ _ []) in Hserved; [done..|lia|by right].
  - destruct IH as (Hok & Hcn & _ & Hrem).
    destruct (registry_scan_spec reg now c count keys) as (c1 & p1 & r1 & Hs' & Hok' & Hid & Hcase);
      try done. rewrite Hs in Hs'; simplify_eq.
    destruct Hcase as [(rest & _ & Hr & Hserved & Hcc & _)|(Hserved & Hcc & _ & _)];
      (eapply served_inv; [done|done|lia|]); [by apply Hrem|by right].
  - destruct IH as (Hok & Hcn & Hz & Hrem).
    destruct (registry_scan_spec reg now other count keys) as (c1 & p1 & r1 & Hs' & Hok' & Hid & Hcase);
      try done. rewrite Hs in Hs'; simplify_eq.
    split_and!; [done|lia|lia|done|]. intros rest Hr. apply Hrem.
    destruct Hcase as [(r0 & _ & _ & _ & _ & Ho)|(_ & _ & Hid' & Ho)];
      eapply remaining_others; try done. lia.
Qed.

(** C14: the guarantee of the design, "no misses of stable keys": whatever
    the other clients scan in between, whichever cursors are evicted, expire
    or are restarted, a scan followed until cursor 0 has returned every key
    that was in the key space at each of its calls. *)
Theorem scan_no_stable_miss k reg seen : scan_run k reg 0 seen → k ∈ seen.
Proof. intros H. apply scan_run_inv in H as (_ & _ & Hz & _). by apply Hz. Qed.

(** From a well-formed registry a scan never panics and leaves the
    registry well-formed: positions inside their snapshots, ids handed out
    once, and never more than [MAX_LIVE_CURSORS] live cursors. *)
Theorem registry_scan_total reg now cursor count keys :
  registry_ok reg → ids_left reg → count_ok count → len (keys tt) <= i64_max →
  ∃ c page reg', registry_scan reg now cursor count keys = Some (c, page, reg') ∧
    registry_ok reg' ∧ (size (cursors reg') ≤ MAX_LIVE_CURSORS)%nat.
Proof.
  intros Hok Hl Hc Hk.
  destruct (registry_scan_spec reg now cursor count keys) as (c & page & reg' & ? & Hok' & _); try done.
  exists c, page, reg'. split_and!; try done. by destruct Hok' as (_ & ? & _).
Qed.

(** A client that follows its cursors, the [i]-th call at time [nows i]. *)
Fixpoint scan_follow (fuel : nat) (reg : ScanRegistry) (nows : nat → Instant) (i : nat)
    (c count : Z) (keys : unit → list bytes) : option (list bytes) :=
  match fuel with
  | O => None
  | S fuel' =>
      '(c', page, reg') ← registry_scan reg (nows i) c count keys;
      if c' =? 0 then Some page
      else rest ← scan_follow fuel' reg' nows (S i) c' count keys; Some (page ++ rest)
  end.

(** The times between a client's calls stay below the idle expiry. *)
Definition prompt (nows : nat → Instant) : Prop :=
  ∀ i, nows (S i) - nows i < CURSOR_IDLE_EXPIRY.

Lemma scan_follow_live fuel reg nows i c count keys rest :
  count_ok count → prompt nows → c ≠ 0 → following reg c (nows i) rest →
  (length rest ≤ fuel)%nat →
  scan_follow fuel reg nows (S i) c count keys = Some rest.
Proof.
  intros Hc Hp Hc0. revert reg i rest.
  induction fuel as [|fuel IH]; intros reg i rest Hf Hfuel.
  { destruct Hf as (st & _ & _ & Hrest & Hpos & _). rewrite <- Hrest, length_drop in Hfuel. lia. }
  assert (Hne : rest ≠ []).
  { intros ->. destruct Hf as (st & _ & _ & Hrest & Hpos & _).
    apply (f_equal length) in Hrest. rewrite length_drop in Hrest. cbn in Hrest. lia. }
  cbn [scan_follow].
  destruct (registry_scan_live reg c (nows (S i)) (nows i) count keys rest)
    as (c' & page & reg' & rest' & -> & -> & Hpage & Hcase); try done.
  { specialize (Hp i). unfold duration_since, CURSOR_IDLE_EXPIRY, NS_PER_SEC in *. lia. }
  cbn [mbind option_bind]. specialize (Hpage Hne). rewrite length_app in Hfuel.
  destruct Hcase as [[-> ->]|(-> & Hr & Hf')]; [by rewrite app_nil_r|].
  destruct (Z.eqb_spec c 0); [done|]. rewrite (IH reg' (S i) rest'); [done|done|].
  destruct page; [done|]. cbn in Hfuel. lia.
Qed.

(** A scan that is not interrupted returns exactly its snapshot, every
    key once and in order, after at most as many calls as there are keys (one
    for an empty key space), whatever page size is asked for. *)
Theorem scan_complete reg nows count keys :
  registry_ok reg → ids_left reg → count_ok count → len (keys tt) <= i64_max → prompt nows →
  scan_follow (S (length (keys tt))) reg nows 0 0 count keys = Some (keys tt).
Proof.
  intros Hok Hl Hc Hk Hp. cbn [scan_follow].
  destruct (registry_scan_fresh reg 0 (nows 0%nat) count keys)
    as (c' & page & reg' & rest & -> & Hkeys & Hpage & Hcase); try done; [by left|].
  cbn [mbind option_bind]. destruct Hcase as [[-> ->]|(-> & Hr & Hf)].
  { by rewrite Hkeys, app_nil_r. }
  destruct Hok as ([Hid _] & _). destruct (Z.eqb_spec (next_id reg + 1) 0); [lia|].
  rewrite (scan_follow_live _ _ _ _ _ _ _ rest); try done; [by rewrite Hkeys|].
  rewrite Hkeys, length_app. lia.
Qed.
End registry.

(** ** Witnesses *)

Section witnesses.
Local Instance scan_order : HashIter Z ScanState := listing_order Z ScanState.

Definition demo_keys : unit → list bytes := λ _, [lit "a"; lit "b"; lit "c"].

Lemma registry_new_ok : registry_ok registry_new.
Proof.
  split_and!; [done|done|vm_compute; lia|].
  intros id st. cbn. by rewrite lookup_empty.
Qed.

(** Two pages of a scan, another client's scan between them. *)
Lemma scan_no_stable_miss_witness : lit "b" ∈ [lit "a"; lit "b"] ++ [lit "c"].
Proof.
  eapply scan_no_stable_miss.
  eapply (run_next _ _ 1 [lit "a"; lit "b"] 2 2 demo_keys).
  - eapply (run_other _ _ 1 _ 1 0 1 demo_keys).
    + eapply (run_first _ registry_new 0 2 demo_keys);
        [exact registry_new_ok|done|done|done| |vm_compute; reflexivity].
      apply elem_of_cons; right; apply list_elem_of_here.
    + done.
    + done.
    + done.
    + done.
    + vm_compute; reflexivity.
  - done.
  - done.
  - done.
  - done.
  - apply elem_of_cons; right; apply list_elem_of_here.
  - vm_compute; reflexivity.
Defined.

Lemma registry_scan_total_witness :
  ∃ c page reg', registry_scan registry_new 5 77 2 demo_keys = Some (c, page, reg') ∧
    registry_ok reg' ∧ (size (cursors reg') ≤ MAX_LIVE_CURSORS)%nat.
Proof. apply registry_scan_total; [exact registry_new_ok|done|done|done]. Defined.

Lemma scan_complete_witness :
  scan_follow 4 registry_new (λ i, Z.of_nat i * NS_PER_SEC) 0 0 2 demo_keys =
  Some [lit "a"; lit "b"; lit "c"].
Proof.
  apply (scan_complete registry_new _ 2 demo_keys); [exact registry_new_ok|done|done|done|].
  intros i. unfold CURSOR_IDLE_EXPIRY, NS_PER_SEC. lia.
Defined.
End witnesses.
