(* ===== verification/Store.v ===== *)
(** * The key-value store (crates/resp-store/src/lib.rs)

    [Store]: a hash map of entries with lazy and active expiry, byte
    accounting, and CLOCK eviction under a byte budget.  Operations pass the
    store explicitly; a [usize] or [u64] counter wraps at 64 bits.

    The second half has what the store's theorems are stated with: its contents
    as a map ([contents]), its byte accounting ([accounted]) and its budget
    ([within_budget]), and the lemmas on eviction and accounting. *)

From S2P Require Import Prelude RustStd HashMap Scan.

(** ** Data *)

Definition PER_ENTRY_OVERHEAD_BYTES : Z := 96.
Definition DEFAULT_SAMPLE_SIZE : nat := 20.

Definition entry_bytes (key : bytes) (value_len : Z) : Z :=
  wrap_u64 (len key + value_len + PER_ENTRY_OVERHEAD_BYTES).

Record Entry := mkEntry {
  value : bytes;
  expires_at : option Instant;
  clock_bit : bool;
}.

Inductive Expiry : Type :=
| ExpiryNone
| KeepTtl
| At (deadline : Instant).

Inductive Condition : Type :=
| CondNone
| IfExists
| IfNotExists.

#[export] Instance condition_eq_decision : EqDecision Condition.
Proof. solve_decision. Defined.

Record SetOutcome := mkSetOutcome {
  applied : bool;
  old_value : option bytes;
}.

Inductive IncrError : Type :=
| NotAnInteger
| Overflow.

Record Stats := mkStats {
  stat_keys : Z;
  stat_used_bytes : Z;
  stat_max_memory_bytes : option Z;
  stat_hits : Z;
  stat_misses : Z;
  stat_evictions : Z;
}.

(** [entries] is the field [map]. *)
Record Store := mkStore {
  entries : gmap bytes Entry;
  used_bytes : Z;
  max_memory_bytes : option Z;
  scan_registry : ScanRegistry;
  hits : Z;
  misses : Z;
  evictions : Z;
}.

Definition store_new : Store := mkStore ∅ 0 None registry_new 0 0 0.
Definition with_max_memory (max_bytes : Z) : Store :=
  mkStore ∅ 0 (Some max_bytes) registry_new 0 0 0.

Definition store_len (s : Store) : Z := Z.of_nat (size (entries s)).
Definition store_is_empty (s : Store) : bool := bool_decide (size (entries s) = 0%nat).

(** Field updates. *)
Definition set_entries (s : Store) (m : gmap bytes Entry) (used : Z) : Store :=
  mkStore m used (max_memory_bytes s) (scan_registry s) (hits s) (misses s) (evictions s).
Definition add_hit (s : Store) : Store :=
  mkStore (entries s) (used_bytes s) (max_memory_bytes s) (scan_registry s)
    (wrap_u64 (hits s + 1)) (misses s) (evictions s).
Definition add_miss (s : Store) : Store :=
  mkStore (entries s) (used_bytes s) (max_memory_bytes s) (scan_registry s)
    (hits s) (wrap_u64 (misses s + 1)) (evictions s).
Definition add_eviction (s : Store) : Store :=
  mkStore (entries s) (used_bytes s) (max_memory_bytes s) (scan_registry s)
    (hits s) (misses s) (wrap_u64 (evictions s + 1)).
Definition set_registry (s : Store) (reg : ScanRegistry) : Store :=
  mkStore (entries s) (used_bytes s) (max_memory_bytes s) reg
    (hits s) (misses s) (evictions s).

Definition set_clock (e : Entry) (b : bool) : Entry := mkEntry (value e) (expires_at e) b.
Definition set_deadline (e : Entry) (d : option Instant) : Entry :=
  mkEntry (value e) d (clock_bit e).

(** ** Operations *)

Definition is_live (e : Entry) (now : Instant) : bool :=
  match expires_at e with
  | Some deadline => now <? deadline
  | None => true
  end.

Definition remove_accounted (s : Store) (key : bytes) : option Entry * Store :=
  match entries s !! key with
  | Some e =>
      (Some e, set_entries s (delete key (entries s))
                 (wrap_u64 (used_bytes s - entry_bytes key (len (value e)))))
  | None => (None, s)
  end.

Definition expire_if_needed (s : Store) (key : bytes) (now : Instant) : Store :=
  let expired := match entries s !! key with Some e => negb (is_live e now) | None => false end in
  if expired then (remove_accounted s key).2 else s.

(** One sampling pass of [evict_to_budget] over the entries [l] visited: the
    victim, and the map with the clock bits cleared on the way. *)
Fixpoint evict_scan (protect : bytes) (l : list (bytes * Entry)) (m : gmap bytes Entry)
    (fallback : option bytes) : option bytes * gmap bytes Entry :=
  match l with
  | [] => (fallback, m)
  | (k, e) :: l' =>
      if decide (k = protect) then evict_scan protect l' m fallback
      else if clock_bit e then
        evict_scan protect l' (<[k := set_clock e false]> m)
          (match fallback with Some f => Some f | None => Some k end)
      else (Some k, m)
  end.

Section store.
Context `{HE : !HashIter bytes Entry} `{HC : !HashIter Z ScanState}.

(** The [while] loop of [evict_to_budget]; every turn but the last removes
    an entry, so as many turns as there are entries are enough. *)
Fixpoint evict_loop (fuel : nat) (budget : Z) (protect : bytes) (s : Store) : Store :=
  match fuel with
  | O => s
  | S fuel' =>
      if (budget <? used_bytes s) && negb (store_is_empty s) then
        let '(victim, m) :=
          evict_scan protect (take DEFAULT_SAMPLE_SIZE (hash_iter (entries s))) (entries s) None in
        let s := set_entries s m (used_bytes s) in
        match victim with
        | Some k => evict_loop fuel' budget protect (add_eviction (remove_accounted s k).2)
        | None => s
        end
      else s
  end.

Definition evict_to_budget (s : Store) (protect : bytes) : Store :=
  match max_memory_bytes s with
  | None => s
  | Some budget => evict_loop (S (size (entries s))) budget protect s
  end.

Definition insert_accounted (s : Store) (key : bytes) (e : Entry) : Store :=
  let e := set_clock e true in
  let new_size := entry_bytes key (len (value e)) in
  let used := match entries s !! key with
              | Some old => wrap_u64 (used_bytes s - entry_bytes key (len (value old)))
              | None => used_bytes s
              end in
  evict_to_budget (set_entries s (<[key := e]> (entries s)) (wrap_u64 (used + new_size))) key.

Definition active_expire_sweep (s : Store) (now : Instant) (sample_size : nat) : Z * Store :=
  let sample := take sample_size (hash_iter (entries s)) in
  let expired := map fst (base.filter (λ kv : bytes * Entry, is_live kv.2 now = false) sample) in
  (len expired, fold_left (λ s k, (remove_accounted s k).2) expired s).

Definition get (s : Store) (now : Instant) (key : bytes) : option bytes * Store :=
  let s := expire_if_needed s key now in
  match entries s !! key with
  | Some e =>
      (Some (value e),
       add_hit (set_entries s (<[key := set_clock e true]> (entries s)) (used_bytes s)))
  | None => (None, add_miss s)
  end.

Definition stats (s : Store) : Stats :=
  mkStats (store_len s) (used_bytes s) (max_memory_bytes s) (hits s) (misses s) (evictions s).

Definition live_keys (s : Store) (now : Instant) : list bytes :=
  hash_keys (λ e, is_live e now) (entries s).

(** [None] is a panic. *)
Definition scan (s : Store) (now : Instant) (cursor count : Z)
    : option (Z * list bytes * Store) :=
  '(next, page, reg) ← registry_scan (scan_registry s) now cursor count (λ _, live_keys s now);
  Some (next, page, set_registry s reg).

Definition all_keys (s : Store) (now : Instant) : list bytes := live_keys s now.

Definition set (s : Store) (now : Instant) (key val : bytes) (expiry : Expiry)
    (condition : Condition) (want_old : bool) : SetOutcome * Store :=
  let s := expire_if_needed s key now in
  let exists_ := bool_decide (is_Some (entries s !! key)) in
  let condition_ok := match condition with
                      | CondNone => true
                      | IfExists => exists_
                      | IfNotExists => negb exists_
                      end in
  let old := if want_old then value <$> entries s !! key else None in
  if negb condition_ok then (mkSetOutcome false old, s)
  else
    let expires := match expiry with
                   | ExpiryNone => None
                   | KeepTtl => e ← entries s !! key; expires_at e
                   | At deadline => Some deadline
                   end in
    (mkSetOutcome true old, insert_accounted s key (mkEntry val expires false)).

Definition clear (s : Store) : Store := set_entries s ∅ 0.

Definition persist (s : Store) (now : Instant) (key : bytes) : bool * Store :=
  let s := expire_if_needed s key now in
  match entries s !! key with
  | Some e =>
      match expires_at e with
      | Some _ => (true, set_entries s (<[key := set_deadline e None]> (entries s)) (used_bytes s))
      | None => (false, s)
      end
  | None => (false, s)
  end.

Definition random_key (s : Store) (now : Instant) : option bytes * Store :=
  let sample := take 1 (hash_iter (entries s)) in
  let expired := map fst (base.filter (λ kv : bytes * Entry, is_live kv.2 now = false) sample) in
  let s := fold_left (λ s k, (remove_accounted s k).2) expired s in
  (fst <$> head (hash_iter (entries s)), s).

Definition get_del (s : Store) (now : Instant) (key : bytes) : option bytes * Store :=
  let s := expire_if_needed s key now in
  match entries s !! key with
  | Some e => (Some (value e), (remove_accounted (add_hit s) key).2)
  | None => (None, add_miss s)
  end.

Definition get_ex (s : Store) (now : Instant) (key : bytes) (expiry : option Expiry)
    : option bytes * Store :=
  let s := expire_if_needed s key now in
  match entries s !! key with
  | None => (None, add_miss s)
  | Some e =>
      let s := add_hit s in
      match expiry with
      | None => (Some (value e), s)
      | Some expiry =>
          let new_expires_at := match expiry with
                                | ExpiryNone => None
                                | KeepTtl => expires_at e
                                | At deadline => Some deadline
                                end in
          (Some (value e),
           set_entries s (<[key := set_deadline e new_expires_at]> (entries s)) (used_bytes s))
      end
  end.

Fixpoint del (s : Store) (now : Instant) (keys : list bytes) : Z * Store :=
  match keys with
  | [] => (0, s)
  | key :: keys =>
      let '(removed, s) := remove_accounted (expire_if_needed s key now) key in
      let '(count, s) := del s now keys in
      (match removed with Some _ => 1 | None => 0 end + count, s)
  end.

Fixpoint exists_ (s : Store) (now : Instant) (keys : list bytes) : Z * Store :=
  match keys with
  | [] => (0, s)
  | key :: keys =>
      let s := expire_if_needed s key now in
      let present := bool_decide (is_Some (entries s !! key)) in
      let '(count, s) := exists_ s now keys in
      ((if present then 1 else 0) + count, s)
  end.

Definition ttl_seconds (s : Store) (now : Instant) (key : bytes) : Z * Store :=
  let s := expire_if_needed s key now in
  match entries s !! key with
  | None => (-2, s)
  | Some e =>
      match expires_at e with
      | None => (-1, s)
      | Some deadline =>
          let remaining_ms := as_millis_i64 (duration_since deadline now) in
          (Z.quot (wrap_i64 (remaining_ms + 500)) 1000, s)
      end
  end.

Definition pttl_millis (s : Store) (now : Instant) (key : bytes) : Z * Store :=
  let s := expire_if_needed s key now in
  match entries s !! key with
  | None => (-2, s)
  | Some e =>
      match expires_at e with
      | None => (-1, s)
      | Some deadline => (as_millis_i64 (duration_since deadline now), s)
      end
  end.

Definition expire (s : Store) (now : Instant) (key : bytes) (deadline : Instant) : bool * Store :=
  let s := expire_if_needed s key now in
  match entries s !! key with
  | None => (false, s)
  | Some e =>
      (true, set_entries s (<[key := set_deadline e (Some deadline)]> (entries s)) (used_bytes s))
  end.

Definition incr_by (s : Store) (now : Instant) (key : bytes) (delta : Z)
    : Result Z IncrError * Store :=
  let s := expire_if_needed s key now in
  let current := match entries s !! key with
                 | None => Some 0
                 | Some e => parse_i64_utf8 (value e)
                 end in
  match current with
  | None => (Err NotAnInteger, s)
  | Some current =>
      let new_value := current + delta in
      if in_i64 new_value then
        let expires := e ← entries s !! key; expires_at e in
        (Ok new_value, insert_accounted s key (mkEntry (i_to_string new_value) expires false))
      else (Err Overflow, s)
  end.

Fixpoint mget (s : Store) (now : Instant) (keys : list bytes) : list (option bytes) * Store :=
  match keys with
  | [] => ([], s)
  | key :: keys =>
      let '(v, s) := get s now key in
      let '(vs, s) := mget s now keys in
      (v :: vs, s)
  end.

Fixpoint mset (s : Store) (pairs : list (bytes * bytes)) : Store :=
  match pairs with
  | [] => s
  | (key, val) :: pairs => mset (insert_accounted s key (mkEntry val None false)) pairs
  end.
End store.

(** ** The contents of a store *)

(** What a store holds, without the clock bits: the value of each key and its
    deadline. *)
Abbreviation Cache := (gmap bytes (bytes * option Instant)).

Definition data_of (e : Entry) : bytes * option Instant := (value e, expires_at e).
Definition contents (s : Store) : Cache := data_of <$> entries s.

(** The bytes the entries account for. *)
Definition total_bytes (c : Cache) : Z :=
  map_fold (λ k d acc, entry_bytes k (len d.1) + acc) 0 c.

(** The counter agrees with the entries (up to the wrap-around). *)
Definition accounted (s : Store) : Prop :=
  used_bytes s = wrap_u64 (total_bytes (contents s)).

(** The entries fit in the address space. *)
Definition fits (s : Store) : Prop := total_bytes (contents s) <= u64_max.

(** Within budget, or down to one entry. *)
Definition within_budget (s : Store) : Prop :=
  match max_memory_bytes s with
  | Some b => used_bytes s <= b ∨ (size (entries s) ≤ 1)%nat
  | None => True
  end.

(** The fields other than the entries, their accounting and the counters. *)
Definition same_config (s s' : Store) : Prop :=
  max_memory_bytes s' = max_memory_bytes s ∧ scan_registry s' = scan_registry s.

Lemma entry_bytes_range k n : 0 <= entry_bytes k n <= u64_max.
Proof. apply wrap_u64_range. Qed.

Lemma total_bytes_empty : total_bytes ∅ = 0.
Proof. reflexivity. Qed.

Lemma total_bytes_delete c k d :
  c !! k = Some d → total_bytes c = entry_bytes k (len d.1) + total_bytes (delete k c).
Proof. intros Hk. unfold total_bytes. rewrite (map_fold_delete_L _ _ k d c) by (done || lia). done. Qed.

Lemma total_bytes_insert c k d :
  total_bytes (<[k := d]> c) = entry_bytes k (len d.1) + total_bytes (delete k c).
Proof.
  rewrite (total_bytes_delete _ k d) by apply lookup_insert_eq.
  by rewrite delete_insert_eq.
Qed.

Lemma total_bytes_nonneg c : 0 <= total_bytes c.
Proof.
  induction c as [|k d c Hk IH] using map_ind; [done|].
  rewrite total_bytes_insert, delete_id by done. pose proof (entry_bytes_range k (len d.1)). lia.
Qed.

Lemma accounted_exact s : accounted s → fits s → used_bytes s = total_bytes (contents s).
Proof.
  intros -> Hf. apply wrap_u64_small. pose proof (total_bytes_nonneg (contents s)).
  unfold fits in Hf. lia.
Qed.

Lemma lookup_contents s k : contents s !! k = data_of <$> entries s !! k.
Proof. apply lookup_fmap. Qed.

Lemma size_contents s : size (contents s) = size (entries s).
Proof. apply map_size_fmap. Qed.

(** A change of an entry that keeps its data keeps the contents. *)
Lemma fmap_data_insert (m : gmap bytes Entry) k e e' :
  m !! k = Some e → data_of e' = data_of e → data_of <$> <[k := e']> m = data_of <$> m.
Proof.
  intros Hk He. rewrite fmap_insert, He. apply insert_id. by rewrite lookup_fmap, Hk.
Qed.

(** ** Wrapping accounts *)

Lemma wrap_u64_sub_l a b : wrap_u64 (wrap_u64 a - b) = wrap_u64 (a - b).
Proof. apply Zminus_mod_idemp_l. Qed.
Lemma wrap_u64_add_l a b : wrap_u64 (wrap_u64 a + b) = wrap_u64 (a + b).
Proof. apply Zplus_mod_idemp_l. Qed.

(** ** Removal and lazy expiry *)

Section removal.
Implicit Types (s : Store) (k : bytes).

Lemma entries_remove s k : entries (remove_accounted s k).2 = delete k (entries s).
Proof.
  unfold remove_accounted. case_match eqn:He; [done|]. cbn. by rewrite delete_id.
Qed.

Lemma contents_remove s k : contents (remove_accounted s k).2 = delete k (contents s).
Proof. unfold contents. by rewrite entries_remove, fmap_delete. Qed.

Lemma remove_result s k : (remove_accounted s k).1 = entries s !! k.
Proof. unfold remove_accounted. by case_match. Qed.

Lemma config_remove s k : same_config s (remove_accounted s k).2.
Proof. unfold remove_accounted. by case_match. Qed.

Lemma accounted_remove s k : accounted s → accounted (remove_accounted s k).2.
Proof.
  unfold accounted. rewrite contents_remove. unfold remove_accounted.
  case_match eqn:He; cbn [snd used_bytes set_entries].
  - intros ->. rewrite wrap_u64_sub_l. f_equal.
    rewrite (total_bytes_delete (contents s) k (data_of e)); [cbn [data_of fst]; lia|].
    by rewrite lookup_contents, He.
  - intros ->. by rewrite delete_id by by rewrite lookup_contents, He.
Qed.

Lemma total_bytes_delete_le c k : total_bytes (delete k c) <= total_bytes c.
Proof.
  destruct (c !! k) as [d|] eqn:Hk; [|by rewrite delete_id].
  rewrite (total_bytes_delete c k d Hk). pose proof (entry_bytes_range k (len d.1)). lia.
Qed.

Lemma fits_remove s k : fits s → fits (remove_accounted s k).2.
Proof.
  unfold fits. rewrite contents_remove. pose proof (total_bytes_delete_le (contents s) k). lia.
Qed.

Lemma used_remove s k :
  accounted s → fits s → used_bytes (remove_accounted s k).2 <= used_bytes s.
Proof.
  intros Ha Hf. rewrite (accounted_exact s), (accounted_exact (remove_accounted s k).2) by
    auto using accounted_remove, fits_remove.
  rewrite contents_remove. apply total_bytes_delete_le.
Qed.

Lemma within_budget_remove s k :
  accounted s → fits s → within_budget s → within_budget (remove_accounted s k).2.
Proof.
  intros Ha Hf. unfold within_budget. destruct (config_remove s k) as [-> _].
  destruct (max_memory_bytes s) as [b|]; [|done].
  pose proof (used_remove s k Ha Hf). rewrite entries_remove.
  pose proof (map_size_delete k (entries s)) as Hsz.
  intros [?|?]; [left; lia|right]. rewrite Hsz. case_match; unfold id; lia.
Qed.

Lemma expire_if_needed_cases s k now :
  expire_if_needed s k now = s ∨ expire_if_needed s k now = (remove_accounted s k).2.
Proof. unfold expire_if_needed. case_match; auto. Qed.

(** After lazy expiry a key is there if and only if it is live. *)
Lemma lookup_expired s k now :
  entries (expire_if_needed s k now) !! k =
  (e ← entries s !! k; if is_live e now then Some e else None).
Proof.
  unfold expire_if_needed. destruct (entries s !! k) as [e|] eqn:He; cbn [mbind option_bind]; [|done].
  destruct (is_live e now); cbn [negb]; [done|]. rewrite entries_remove. apply lookup_delete_eq.
Qed.

Lemma lookup_expired_ne s k j now :
  j ≠ k → entries (expire_if_needed s k now) !! j = entries s !! j.
Proof.
  intros Hj. destruct (expire_if_needed_cases s k now) as [->| ->]; [done|].
  rewrite entries_remove. by apply lookup_delete_ne.
Qed.

Lemma config_expired s k now : same_config s (expire_if_needed s k now).
Proof.
  destruct (expire_if_needed_cases s k now) as [->| ->]; [done|]. apply config_remove.
Qed.
End removal.

(** ** Eviction *)

Section eviction.
Context `{HE : !HashIter bytes Entry}.

(** One pass keeps the contents; it finds a victim other than the protected
    key unless every visited key is the protected one. *)
Lemma evict_scan_spec p l : ∀ m fb victim m',
  NoDup (map fst l) → (∀ k e, (k, e) ∈ l → m !! k = Some e) →
  (∀ k, fb = Some k → is_Some (m !! k) ∧ k ≠ p) →
  evict_scan p l m fb = (victim, m') →
  data_of <$> m' = data_of <$> m ∧
  match victim with
  | Some k => is_Some (m !! k) ∧ k ≠ p
  | None => fb = None ∧ ∀ k, k ∈ map fst l → k = p
  end.
Proof.
  induction l as [|[k e] l IH]; intros m fb victim m' Hn Hm Hfb; cbn [evict_scan map fst] in *.
  { intros [= <- <-]. split; [done|]. destruct fb; [by apply Hfb|].
    split; [done|]. by intros k Hk%not_elem_of_nil. }
  apply NoDup_cons in Hn as [Hk Hn].
  assert (Hme : m !! k = Some e) by (apply Hm; left).
  assert (Hm' : ∀ k' e', (k', e') ∈ l → m !! k' = Some e') by (intros; apply Hm; by right).
  case_decide as Hp.
  { intros He. destruct (IH _ _ _ _ Hn Hm' Hfb He) as [Hd Hv]. split; [done|].
    destruct victim; [done|]. destruct Hv as [-> Hv]. split; [done|].
    intros j [->|?]%elem_of_cons; auto. }
  destruct (clock_bit e).
  - intros He. apply IH in He; [| done | |].
    + rewrite (fmap_data_insert m k e) in He by done. destruct He as [Hd Hv]. split; [done|].
      destruct victim as [j|].
      * destruct Hv as [[<-|Hj]%lookup_insert_is_Some' Hne]; split; try done.
      * destruct Hv as [Hv _]. by destruct fb.
    + intros k' e' Hin. rewrite lookup_insert_ne; [by apply Hm'|]. intros ->. apply Hk.
      apply list_elem_of_fmap. by exists (k', e').
    + intros j Hj. destruct fb as [f|]; simplify_eq.
      * destruct (Hfb j eq_refl) as [? ?]. split; [|done]. apply lookup_insert_is_Some'; auto.
      * split; [|done]. apply lookup_insert_is_Some'; auto.
  - intros [= <- <-]. split; [done|]. split; [by exists e|done].
Qed.

Lemma evict_pass_spec s p :
  let '(victim, m) :=
    evict_scan p (take DEFAULT_SAMPLE_SIZE (hash_iter (entries s))) (entries s) None in
  data_of <$> m = contents s ∧
  match victim with
  | Some k => is_Some (entries s !! k) ∧ k ≠ p
  | None => ∀ k, is_Some (entries s !! k) → k = p
  end.
Proof.
  destruct (evict_scan _ _ _ _) as [victim m] eqn:Hs.
  pose proof (NoDup_take_hash_iter (entries s) DEFAULT_SAMPLE_SIZE) as Hn.
  apply evict_scan_spec in Hs as [Hd Hv]; [|done|by intros; eapply take_hash_iter|done].
  split; [done|]. destruct victim as [k|]; [done|]. destruct Hv as [_ Hv].
  assert (length (hash_iter (entries s)) ≤ 1)%nat as Hlen.
  { destruct (hash_iter (entries s)) as [|[a ea] [|[b eb] l]]; cbn; [lia..|].
    exfalso. cbn in Hn, Hv. apply NoDup_cons in Hn as [Hn _]. apply Hn.
    rewrite (Hv a), <- (Hv b) by (rewrite ?elem_of_cons; auto). left. }
  intros k [e He]. apply Hv, list_elem_of_fmap. exists (k, e). split; [done|].
  rewrite take_ge by (unfold DEFAULT_SAMPLE_SIZE; lia). by apply elem_of_hash_iter.
Qed.

(** What eviction may do to a store: drop entries other than the protected
    one, each counted. *)
Definition evicted (p : bytes) (s s' : Store) : Prop :=
  contents s' ⊆ contents s ∧ contents s' !! p = contents s !! p ∧ same_config s s' ∧
  hits s' = hits s ∧ misses s' = misses s ∧
  evictions s' = wrap_u64 (evictions s + (store_len s - store_len s')) ∧
  (size (entries s') ≤ size (entries s))%nat.

Definition counters_ok (s : Store) : Prop :=
  0 <= hits s <= u64_max ∧ 0 <= misses s <= u64_max ∧ 0 <= evictions s <= u64_max.

(** One turn of the loop that finds a victim. *)
Lemma evict_turn p s m k :
  accounted s → data_of <$> m = contents s → is_Some (entries s !! k) → k ≠ p →
  let s' := add_eviction (remove_accounted (set_entries s m (used_bytes s)) k).2 in
  accounted s' ∧ contents s' = delete k (contents s) ∧ same_config s s' ∧
  hits s' = hits s ∧ misses s' = misses s ∧ evictions s' = wrap_u64 (evictions s + 1) ∧
  S (size (entries s')) = size (entries s).
Proof.
  intros Ha Hm Hk Hp. set (s1 := set_entries s m (used_bytes s)).
  assert (Ha1 : accounted s1) by (unfold accounted, contents, s1; cbn; by rewrite Hm).
  assert (Hc : contents (remove_accounted s1 k).2 = delete k (contents s)).
  { rewrite contents_remove. unfold contents, s1. cbn. by rewrite Hm. }
  pose proof (accounted_remove s1 k Ha1) as Ha2.
  assert (Hsz : S (size (contents (remove_accounted s1 k).2)) = size (contents s)).
  { rewrite Hc, map_size_delete. destruct Hk as [e He]. rewrite lookup_contents, He. cbn.
    assert (size (contents s) ≠ 0%nat); [|lia].
    rewrite map_size_ne_0_lookup. exists k. rewrite lookup_contents, He. by eexists. }
  rewrite !size_contents in Hsz. cbn zeta.
  assert (same_config s1 (remove_accounted s1 k).2) as Hcfg by apply config_remove.
  assert (hits (remove_accounted s1 k).2 = hits s ∧ misses (remove_accounted s1 k).2 = misses s ∧
    evictions (remove_accounted s1 k).2 = evictions s) as (H1 & H2 & H3)
    by (unfold remove_accounted; by case_match).
  unfold add_eviction, accounted, contents, same_config in *. cbn in *. rewrite H1, H2, H3.
  split_and!; done || apply Hcfg.
Qed.

(** The loop ends because each turn removes an entry; it stops within budget
    or when only the protected key is left. *)
Lemma evict_loop_spec b p fuel : ∀ s,
  accounted s → counters_ok s → (size (entries s) < fuel)%nat →
  let s' := evict_loop fuel b p s in
  accounted s' ∧ evicted p s s' ∧
  (used_bytes s' <= b ∨ ∀ k, is_Some (entries s' !! k) → k = p).
Proof.
  induction fuel as [|fuel IH]; intros s Ha Hcnt Hf; [lia|]. cbn [evict_loop].
  assert (Hrefl : ∀ m, data_of <$> m = contents s →
    evicted p s (set_entries s m (used_bytes s))).
  { intros m Hm. unfold evicted, contents, store_len, same_config. cbn. rewrite Hm.
    assert (size m = size (entries s)) as Hsz.
    { rewrite <- (map_size_fmap data_of m), Hm. apply size_contents. }
    rewrite Hsz. split_and!; try done.
    rewrite wrap_u64_small by (destruct Hcnt as (_ & _ & ?); lia). lia. }
  destruct (_ && _) eqn:Hcond.
  - pose proof (evict_pass_spec s p) as Hpass. destruct (evict_scan _ _ _ _) as [victim m].
    destruct Hpass as [Hm Hv]. destruct victim as [k|].
    + destruct Hv as [Hk Hkp].
      destruct (evict_turn p s m k Ha Hm Hk Hkp) as (Ha1 & Hc1 & Hcfg & Hh & Hmi & He & Hsz).
      set (s1 := add_eviction _) in *.
      assert (Hcnt1 : counters_ok s1).
      { unfold counters_ok in *. rewrite Hh, Hmi, He. pose proof (wrap_u64_range (evictions s + 1)).
        tauto. }
      destruct (IH s1 Ha1 Hcnt1 ltac:(lia)) as (Ha2 & (Hsub & Hp & Hcfg2 & Hh2 & Hmi2 & He2 & Hsz2) & Hend).
      split; [done|]. split; [|done]. unfold evicted. split_and!.
      * rewrite Hsub, Hc1. apply delete_subseteq.
      * rewrite Hp, Hc1. by apply lookup_delete_ne.
      * unfold same_config in *. destruct Hcfg, Hcfg2. split; congruence.
      * congruence.
      * congruence.
      * rewrite He2, He, wrap_u64_add_l. f_equal. unfold store_len. lia.
      * lia.
    + split; [|split].
      * unfold accounted, contents. cbn. by rewrite Hm.
      * by apply Hrefl.
      * right. intros j [e Hj]. cbn in Hj. apply Hv.
        assert (is_Some (contents s !! j)) as Hs by (rewrite <- Hm, lookup_fmap, Hj; by eexists).
        rewrite lookup_contents in Hs. by apply fmap_is_Some in Hs.
  - split; [done|]. split; [destruct s; by apply (Hrefl _ eq_refl)|].
    apply andb_false_iff in Hcond as [?|He]; bools; [by left|right].
    intros j [e Hj]. unfold store_is_empty in He. bools. apply map_size_empty_inv in He.
    by rewrite He in Hj.
Qed.

Lemma size_le_1 (m : gmap bytes Entry) p :
  (∀ k, is_Some (m !! k) → k = p) → (size m ≤ 1)%nat.
Proof.
  intros Hp. replace m with (partial_alter (λ _, m !! p) p (∅ : gmap bytes Entry)).
  - destruct (m !! p) as [e|].
    + change (partial_alter _ _ _) with (<[p := e]> (∅ : gmap bytes Entry)).
      rewrite insert_empty, map_size_singleton. lia.
    + change (partial_alter _ _ _) with (delete p (∅ : gmap bytes Entry)).
      rewrite delete_empty, map_size_empty. lia.
  - apply map_eq. intros k. destruct (decide (k = p)) as [->|Hk].
    + apply lookup_partial_alter_eq.
    + rewrite lookup_partial_alter_ne, lookup_empty by done.
      destruct (m !! k) eqn:Hm; [|done]. destruct Hk. apply Hp. by eexists.
Qed.

(** Every write goes through [insert_accounted]: the key holds the new data,
    other keys keep theirs or are evicted, the accounting is right and the
    store is within budget again. *)
Lemma insert_accounted_spec s k e :
  accounted s → counters_ok s →
  let s' := insert_accounted s k e in
  accounted s' ∧ counters_ok s' ∧ within_budget s' ∧ same_config s s' ∧
  hits s' = hits s ∧ misses s' = misses s ∧
  contents s' ⊆ <[k := data_of e]> (contents s) ∧ contents s' !! k = Some (data_of e) ∧
  (max_memory_bytes s = None → contents s' = <[k := data_of e]> (contents s)).
Proof.
  intros Ha Hcnt. unfold insert_accounted. set (u := wrap_u64 _).
  set (s1 := set_entries s _ u).
  assert (Hc : contents s1 = <[k := data_of e]> (contents s)).
  { unfold contents, s1. cbn. by rewrite fmap_insert. }
  assert (Ha1 : accounted s1).
  { unfold accounted. rewrite Hc, total_bytes_insert. unfold s1, u. cbn. rewrite Ha.
    destruct (entries s !! k) as [old|] eqn:Ho; rewrite ?wrap_u64_sub_l, wrap_u64_add_l; f_equal.
    - rewrite (total_bytes_delete (contents s) k (data_of old)); [cbn; lia|].
      by rewrite lookup_contents, Ho.
    - rewrite delete_id by by rewrite lookup_contents, Ho. lia. }
  assert (counters_ok s1) as Hcnt1 by done.
  assert (same_config s s1) as Hcfg1 by done.
  assert (hits s1 = hits s ∧ misses s1 = misses s) as [Hh1 Hm1] by done.
  clearbody s1. cbn zeta. unfold evict_to_budget.
  destruct (max_memory_bytes s1) as [b|] eqn:Hmax.
  - pose proof (evict_loop_spec b k (S (size (entries s1))) s1 Ha1 Hcnt1 ltac:(lia)) as Hl.
    set (s2 := evict_loop _ _ _ _) in *. cbn zeta in Hl.
    destruct Hl as (Ha2 & (Hsub & Hk & Hcfg & Hh & Hm & He & _) & Hend). rewrite Hc in Hsub, Hk.
    rewrite lookup_insert_eq in Hk. split_and!; try done; try congruence.
    + unfold counters_ok in *. rewrite Hh, Hm, He. split_and!; try apply Hcnt1; apply wrap_u64_range.
    + unfold within_budget. destruct Hcfg as [-> _]. rewrite Hmax.
      destruct Hend as [?|Hend]; [by left|right]. by eapply size_le_1.
    + unfold same_config in *. destruct Hcfg, Hcfg1; split; congruence.
    + destruct Hcfg1. intros; congruence.
  - split_and!; try done.
    + unfold within_budget. by rewrite Hmax.
    + by rewrite Hc.
    + rewrite Hc. apply lookup_insert_eq.
Qed.
End eviction.
