(* ===== verification/Cache.v ===== *)
(** * What the store promises: an expiring map

    [Op] lists the operations of the store; [store_step] runs one on the code's
    store, [cache_step] on [Cache], a map from keys to a value and a deadline
    in which an entry is gone from its deadline on.  The abstract map has no
    lazy expiry, no sweep, no clock bits, no byte accounting.

    The theorems: the invariant of every reachable store, the refinement of
    [cache_step] by a store without budget, and what is left of it when a
    budget makes the store evict. *)

From S2P Require Import Prelude RustStd HashMap Scan Store.

(** ** Operations *)

Inductive Op : Type :=
| OpGet (key : bytes)
| OpSet (key val : bytes) (expiry : Expiry) (condition : Condition) (want_old : bool)
| OpClear
| OpPersist (key : bytes)
| OpGetDel (key : bytes)
| OpGetEx (key : bytes) (expiry : option Expiry)
| OpDel (keys : list bytes)
| OpExists (keys : list bytes)
| OpTtl (key : bytes)
| OpPttl (key : bytes)
| OpExpire (key : bytes) (deadline : Instant)
| OpIncrBy (key : bytes) (delta : Z)
| OpMget (keys : list bytes)
| OpMset (pairs : list (bytes * bytes))
| OpKeys
| OpSweep (sample_size : nat)
| OpRandomKey.

Inductive Answer : Type :=
| AUnit
| ABool (b : bool)
| AInt (n : Z)
| AValue (v : option bytes)
| AValues (vs : list (option bytes))
| AKeys (ks : list bytes)
| ASet (o : SetOutcome)
| AIncr (r : Result Z IncrError).

Section step.
Context `{HE : !HashIter bytes Entry}.

(** One call of a method of [Store] at the time [now].  The count that the
    active sweep returns is dropped, as its caller does. *)
Definition store_step (now : Instant) (op : Op) (s : Store) : Answer * Store :=
  match op with
  | OpGet k => let '(v, s) := get s now k in (AValue v, s)
  | OpSet k v ex cond want => let '(o, s) := set s now k v ex cond want in (ASet o, s)
  | OpClear => (AUnit, clear s)
  | OpPersist k => let '(b, s) := persist s now k in (ABool b, s)
  | OpGetDel k => let '(v, s) := get_del s now k in (AValue v, s)
  | OpGetEx k ex => let '(v, s) := get_ex s now k ex in (AValue v, s)
  | OpDel ks => let '(n, s) := del s now ks in (AInt n, s)
  | OpExists ks => let '(n, s) := exists_ s now ks in (AInt n, s)
  | OpTtl k => let '(n, s) := ttl_seconds s now k in (AInt n, s)
  | OpPttl k => let '(n, s) := pttl_millis s now k in (AInt n, s)
  | OpExpire k d => let '(b, s) := expire s now k d in (ABool b, s)
  | OpIncrBy k d => let '(r, s) := incr_by s now k d in (AIncr r, s)
  | OpMget ks => let '(vs, s) := mget s now ks in (AValues vs, s)
  | OpMset kvs => (AUnit, mset s kvs)
  | OpKeys => (AKeys (all_keys s now), s)
  | OpSweep n => (AUnit, (active_expire_sweep s now n).2)
  | OpRandomKey => let '(k, s) := random_key s now in (AValue k, s)
  end.

(** A run: operations with the times they are called at. *)
Fixpoint store_run (s : Store) (ops : list (Instant * Op)) : list Answer * Store :=
  match ops with
  | [] => ([], s)
  | (now, op) :: ops =>
      let '(a, s) := store_step now op s in
      let '(l, s) := store_run s ops in
      (a :: l, s)
  end.
End step.

(** ** The abstract map *)

Definition live_at (now : Instant) (d : bytes * option Instant) : Prop :=
  match d.2 with Some deadline => now < deadline | None => True end.
#[export] Instance live_at_dec now d : Decision (live_at now d).
Proof. unfold live_at. destruct (d.2); apply _. Defined.

(** The map as it is observed at a time. *)
Definition cache_at (now : Instant) (c : Cache) : Cache :=
  filter (λ kd : bytes * (bytes * option Instant), live_at now kd.2) c.

Definition new_deadline (expiry : Expiry) (old : option (bytes * option Instant)) : option Instant :=
  match expiry with
  | ExpiryNone => None
  | KeepTtl => d ← old; d.2
  | At deadline => Some deadline
  end.

(** The whole milliseconds until a deadline. *)
Definition millis_left (now deadline : Instant) : Z := Z.max 0 (deadline - now) / NS_PER_MS.

(** The map answers PTTL and TTL as the code does, in signed 64-bit words, which
    hold the milliseconds of a deadline 292 million years away:
    [remaining_exact] says what the answers are below that, and
    [StoreFacts.far_deadline_negative] what they are beyond. *)
Definition remaining_millis (now : Instant) (d : bytes * option Instant) : Z :=
  match d.2 with
  | Some deadline => wrap_i64 (millis_left now deadline)
  | None => -1
  end.

(** TTL: the milliseconds rounded to seconds, half up, in the same words. *)
Definition remaining_seconds (now : Instant) (d : bytes * option Instant) : Z :=
  match d.2 with
  | Some _ => Z.quot (wrap_i64 (remaining_millis now d + 500)) 1000
  | None => -1
  end.

Definition count_present (c : Cache) (keys : list bytes) : Z :=
  len (base.filter (λ k, is_Some (c !! k)) keys).

(** One operation on the observed map. *)
Definition live_step (now : Instant) (op : Op) (c : Cache) : Answer * Cache :=
  match op with
  | OpGet k => (AValue (fst <$> c !! k), c)
  | OpSet k v ex cond want =>
      let ok := match cond with
                | CondNone => true
                | IfExists => bool_decide (is_Some (c !! k))
                | IfNotExists => negb (bool_decide (is_Some (c !! k)))
                end in
      (ASet (mkSetOutcome ok (if want then fst <$> c !! k else None)),
       if ok then <[k := (v, new_deadline ex (c !! k))]> c else c)
  | OpClear => (AUnit, ∅)
  | OpPersist k =>
      match c !! k with
      | Some (v, Some _) => (ABool true, <[k := (v, None)]> c)
      | _ => (ABool false, c)
      end
  | OpGetDel k => (AValue (fst <$> c !! k), delete k c)
  | OpGetEx k ex =>
      (AValue (fst <$> c !! k),
       match c !! k, ex with
       | Some d, Some ex => <[k := (d.1, new_deadline ex (Some d))]> c
       | _, _ => c
       end)
  | OpDel ks =>
      (AInt (Z.of_nat (size (filter (λ kd : bytes * (bytes * option Instant), kd.1 ∈ ks) c))),
       filter (λ kd : bytes * (bytes * option Instant), kd.1 ∉ ks) c)
  | OpExists ks => (AInt (count_present c ks), c)
  | OpTtl k => (AInt (from_option (remaining_seconds now) (-2) (c !! k)), c)
  | OpPttl k => (AInt (from_option (remaining_millis now) (-2) (c !! k)), c)
  | OpExpire k d =>
      match c !! k with
      | Some (v, _) => (ABool true, <[k := (v, Some d)]> c)
      | None => (ABool false, c)
      end
  | OpIncrBy k delta =>
      let current := match c !! k with Some d => parse_i64_utf8 d.1 | None => Some 0 end in
      match current with
      | None => (AIncr (Err NotAnInteger), c)
      | Some n =>
          if in_i64 (n + delta)
          then (AIncr (Ok (n + delta)), <[k := (i_to_string (n + delta), d ← c !! k; d.2)]> c)
          else (AIncr (Err Overflow), c)
      end
  | OpMget ks => (AValues (map (λ k, fst <$> c !! k) ks), c)
  | OpMset kvs => (AUnit, fold_left (λ c kv, <[kv.1 := (kv.2, None)]> c) kvs c)
  | OpKeys => (AKeys (map fst (map_to_list c)), c)
  | OpSweep _ => (AUnit, c)
  | OpRandomKey => (AValue (fst <$> head (map_to_list c)), c)
  end.

Definition cache_step (now : Instant) (op : Op) (c : Cache) : Answer * Cache :=
  live_step now op (cache_at now c).

Fixpoint cache_run (c : Cache) (ops : list (Instant * Op)) : list Answer * Cache :=
  match ops with
  | [] => ([], c)
  | (now, op) :: ops =>
      let '(a, c) := cache_step now op c in
      let '(l, c) := cache_run c ops in
      (a :: l, c)
  end.

(** Time does not run backwards. *)
Fixpoint chronological (start : Instant) (ops : list (Instant * Op)) : Prop :=
  match ops with
  | [] => True
  | (now, _) :: ops => start <= now ∧ chronological now ops
  end.

(** What the store's answer [a] promises of the map's answer [b]: to be the
    same, key listings in any order.  RANDOMKEY promises less: that it finds
    nothing only when the map is empty.  The key that it answers may be one that
    has expired ([StoreFacts.random_key_expired]). *)
Definition same_answer (op : Op) (a b : Answer) : Prop :=
  match op, a, b with
  | OpRandomKey, AValue v, AValue v' => v = None → v' = None
  | _, AKeys l, AKeys l' => l ≡ₚ l'
  | _, _, _ => a = b
  end.

(** ** Invariants of the store *)

Section invariant.
Context `{HE : !HashIter bytes Entry}.

Definition store_ok (s : Store) : Prop :=
  accounted s ∧ counters_ok s ∧ within_budget s.

(** The primitive changes a method is made of: those that do not add data ... *)
Inductive shrink : Store → Store → Prop :=
| shrink_remove s k : shrink s (remove_accounted s k).2
| shrink_update s k e e' :
    entries s !! k = Some e → value e' = value e →
    shrink s (set_entries s (<[k := e']> (entries s)) (used_bytes s))
| shrink_hit s : shrink s (add_hit s)
| shrink_miss s : shrink s (add_miss s)
| shrink_clear s : shrink s (clear s)
| shrink_registry s reg : shrink s (set_registry s reg).

(** ... and the one that does. *)
Inductive grow : Store → Store → Prop :=
| grow_insert s k e : grow s (insert_accounted s k e).

Lemma total_bytes_update s k e e' :
  entries s !! k = Some e → value e' = value e →
  total_bytes (data_of <$> <[k := e']> (entries s)) = total_bytes (contents s).
Proof.
  intros Hk Hv. rewrite fmap_insert, total_bytes_insert.
  rewrite (total_bytes_delete (contents s) k (data_of e)) by by rewrite lookup_contents, Hk.
  cbn. by rewrite Hv.
Qed.

(** The part of the invariant that needs no bound on the memory. *)
Definition sound (s : Store) : Prop := accounted s ∧ counters_ok s.

Lemma shrink_sound s s' : shrink s s' → sound s → sound s'.
Proof.
  intros Hs [Ha Hc]. destruct Hs as [s k|s k e e' Hk Hv|s|s|s|s reg].
  - split; [by apply accounted_remove|]. unfold counters_ok, remove_accounted in *.
    by case_match.
  - split; [|done]. pose proof (total_bytes_update s k e e' Hk Hv) as Ht.
    unfold accounted, contents in *. cbn. by rewrite Ht.
  - split; [done|]. unfold counters_ok in *. cbn. pose proof (wrap_u64_range (hits s + 1)). tauto.
  - split; [done|]. unfold counters_ok in *. cbn.
    pose proof (wrap_u64_range (misses s + 1)). tauto.
  - done.
  - done.
Qed.

Lemma shrink_ok s s' : shrink s s' → store_ok s ∧ fits s → store_ok s' ∧ fits s'.
Proof.
  intros Hs [(Ha & Hc & Hw) Hf].
  destruct (shrink_sound s s' Hs) as [Ha' Hc']; [by split|].
  split; [split_and!; [done|done|]|]; destruct Hs as [s k|s k e e' Hk Hv|s|s|s|s reg];
    try done.
  - by apply within_budget_remove.
  - unfold within_budget in *. cbn in *. by rewrite map_size_insert_Some by by eexists.
  - unfold within_budget. cbn. destruct (max_memory_bytes s); [|done]. right.
    rewrite map_size_empty. lia.
  - by apply fits_remove.
  - pose proof (total_bytes_update s k e e' Hk Hv) as Ht.
    unfold fits, contents in *. cbn. by rewrite Ht.
Qed.

Lemma grow_ok s s' : grow s s' → store_ok s → store_ok s'.
Proof.
  intros [s0 k e] (Ha & Hc & _).
  pose proof (insert_accounted_spec s0 k e Ha Hc) as H. cbn zeta in H. unfold store_ok. tauto.
Qed.

Definition decomposes (s s' : Store) : Prop := ∃ s1, rtc shrink s s1 ∧ rtc grow s1 s'.

Lemma decomposes_ok s s' : decomposes s s' → store_ok s → fits s → store_ok s'.
Proof.
  intros (s1 & H1 & H2) Hok Hf.
  assert (store_ok s1 ∧ fits s1) as [Hok1 _].
  { revert Hok Hf. induction H1 as [|x y z Hxy _ IH]; [done|]. intros Hok Hf.
    destruct (shrink_ok x y Hxy); auto. }
  clear - H2 Hok1. induction H2 as [|x y z Hxy _ IH]; [done|]. eauto using grow_ok.
Qed.

Lemma decomposes_shrink s s' : rtc shrink s s' → decomposes s s'.
Proof. exists s'. by split. Qed.

Lemma decomposes_insert s s1 k e : rtc shrink s s1 → decomposes s (insert_accounted s1 k e).
Proof. exists s1. split; [done|]. apply rtc_once. constructor. Qed.

Lemma shrinks_expired s k now : rtc shrink s (expire_if_needed s k now).
Proof.
  destruct (expire_if_needed_cases s k now) as [->| ->]; [done|]. apply rtc_once. constructor.
Qed.

Lemma shrinks_removals s ks : rtc shrink s (fold_left (λ s k, (remove_accounted s k).2) ks s).
Proof.
  revert s. induction ks as [|k ks IH]; intros s; [done|]. cbn [fold_left].
  eapply rtc_l; [constructor|apply IH].
Qed.

Lemma shrinks_get s now k : rtc shrink s (get s now k).2.
Proof.
  unfold get. etrans; [apply (shrinks_expired s k now)|].
  case_match eqn:He; cbn [snd]; [|apply rtc_once; constructor].
  eapply rtc_l; [by apply (shrink_update _ k e (set_clock e true))|].
  apply rtc_once. constructor.
Qed.

Lemma shrinks_update s s1 k e e' :
  rtc shrink s s1 → entries s1 !! k = Some e → value e' = value e →
  rtc shrink s (set_entries s1 (<[k := e']> (entries s1)) (used_bytes s1)).
Proof. intros H1 Hk Hv. eapply rtc_r; [done|]. by eapply shrink_update. Qed.

Lemma shrinks_del s now ks : rtc shrink s (del s now ks).2.
Proof.
  revert s. induction ks as [|k ks IH]; intros s; [done|]. cbn [del].
  destruct (remove_accounted _ k) as [removed s1] eqn:Hr.
  destruct (del s1 now ks) as [n s2] eqn:Hd. cbn [snd].
  etrans; [apply (shrinks_expired s k now)|]. eapply rtc_l; [apply (shrink_remove _ k)|].
  rewrite Hr. specialize (IH s1). by rewrite Hd in IH.
Qed.

Lemma shrinks_exists s now ks : rtc shrink s (exists_ s now ks).2.
Proof.
  revert s. induction ks as [|k ks IH]; intros s; [done|]. cbn [exists_].
  specialize (IH (expire_if_needed s k now)).
  destruct (exists_ _ now ks) as [n s2]. etrans; [apply shrinks_expired|exact IH].
Qed.

Lemma shrinks_mget s now ks : rtc shrink s (mget s now ks).2.
Proof.
  revert s. induction ks as [|k ks IH]; intros s; [done|]. cbn [mget].
  pose proof (shrinks_get s now k) as Hg. destruct (get s now k) as [v s1].
  specialize (IH s1). destruct (mget s1 now ks) as [vs s2]. by etrans.
Qed.

Lemma grows_mset s kvs : rtc grow s (mset s kvs).
Proof.
  revert s. induction kvs as [|[k v] kvs IH]; intros s; [done|]. cbn [mset].
  eapply rtc_l; [constructor|apply IH].
Qed.

(** Every method of the store is made of the primitives. *)
Lemma store_step_decomposes now op s : decomposes s (store_step now op s).2.
Proof.
  assert (∀ k, rtc shrink s (expire_if_needed s k now)) as Hx by (intros; apply shrinks_expired).
  destruct op as [k|k v ex cond want| |k|k|k ex|ks|ks|k|k|k d|k d|ks|kvs| |n|]; cbn [store_step].
  - pose proof (shrinks_get s now k). destruct (get s now k). by apply decomposes_shrink.
  - unfold set. destruct (negb _); cbn [snd]; [by apply decomposes_shrink|].
    by apply decomposes_insert.
  - apply decomposes_shrink, rtc_once. constructor.
  - apply decomposes_shrink. unfold persist. destruct (entries _ !! k) as [e|] eqn:He; cbn [snd]; [|done].
    destruct (expires_at e); cbn [snd]; [|done].
    by eapply shrinks_update.
  - apply decomposes_shrink. unfold get_del. destruct (entries _ !! k) as [e|] eqn:He; cbn [snd].
    + eapply rtc_r; [eapply rtc_r; [apply Hx|apply shrink_hit]|apply shrink_remove].
    + eapply rtc_r; [apply Hx|constructor].
  - apply decomposes_shrink. unfold get_ex. destruct (entries _ !! k) as [e|] eqn:He; cbn [snd].
    + assert (rtc shrink s (add_hit (expire_if_needed s k now))) as Hh
        by (eapply rtc_r; [apply Hx|constructor]).
      destruct ex as [ex|]; cbn [snd]; [|done]. by eapply shrinks_update.
    + eapply rtc_r; [apply Hx|constructor].
  - pose proof (shrinks_del s now ks). destruct (del s now ks). by apply decomposes_shrink.
  - pose proof (shrinks_exists s now ks). destruct (exists_ s now ks). by apply decomposes_shrink.
  - apply decomposes_shrink. unfold ttl_seconds.
    destruct (entries _ !! k) as [e|]; cbn [snd]; [|done].
    destruct (expires_at e); apply Hx.
  - apply decomposes_shrink. unfold pttl_millis.
    destruct (entries _ !! k) as [e|]; cbn [snd]; [|done].
    destruct (expires_at e); apply Hx.
  - apply decomposes_shrink. unfold expire. destruct (entries _ !! k) as [e|] eqn:He; cbn [snd]; [|done]. by eapply shrinks_update.
  - unfold incr_by. set (cur := match entries _ !! k with Some _ => _ | None => _ end).
    destruct cur as [n|]; cbn [snd].
    + destruct (in_i64 (n + d)); cbn [snd]; [by apply decomposes_insert|by apply decomposes_shrink].
    + by apply decomposes_shrink.
  - pose proof (shrinks_mget s now ks). destruct (mget s now ks). by apply decomposes_shrink.
  - exists s. split; [done|]. apply grows_mset.
  - by apply decomposes_shrink.
  - apply decomposes_shrink, shrinks_removals.
  - apply decomposes_shrink. unfold random_key. cbn [snd]. apply shrinks_removals.
Qed.

Context `{HC : !HashIter Z ScanState}.

(** The stores a server can be in: it starts empty, with or without a budget,
    and calls the methods, SCAN included, in any order and at any times, as
    long as what it holds fits in memory. *)
Inductive reachable : Store → Prop :=
| reach_new : reachable store_new
| reach_budget b : 0 <= b → reachable (with_max_memory b)
| reach_step s now op : reachable s → fits s → reachable (store_step now op s).2
| reach_scan s now cursor count next page s' :
    reachable s → fits s → scan s now cursor count = Some (next, page, s') → reachable s'.

Lemma reachable_ok s : reachable s → store_ok s.
Proof.
  induction 1 as [|b Hb|s now op _ IH Hf|s now cursor count next page s' _ IH Hf Hs].
  - done.
  - split_and!; try done. unfold within_budget. cbn. by left.
  - eapply decomposes_ok; [apply store_step_decomposes|done..].
  - unfold scan in Hs. destruct (registry_scan _ _ _ _ _) as [[[a p] reg]|]; [|done].
    cbn in Hs. injection Hs as <- <- <-. by apply (shrink_ok s); [constructor|].
Qed.

(** C3: in every reachable store the byte counter is the sum, over the
    entries, of key length, value length and the fixed overhead, and a store
    with a budget is within it, or down to a single entry that exceeds it. *)
Theorem store_accounting s :
  reachable s → fits s →
  used_bytes s = total_bytes (contents s) ∧
  match max_memory_bytes s with
  | Some b => used_bytes s <= b ∨ (size (entries s) ≤ 1)%nat
  | None => True
  end.
Proof. intros Hr Hf. destruct (reachable_ok s Hr) as (Ha & _ & Hw). by split; [apply accounted_exact|]. Qed.
End invariant.

(** A run that evicts: a budget of 250 bytes holds two entries of 98. *)
Definition three_sets : list (Instant * Op) :=
  [(0, OpSet (lit "a") (lit "1") ExpiryNone CondNone false);
   (1, OpSet (lit "b") (lit "2") ExpiryNone CondNone false);
   (2, OpSet (lit "c") (lit "3") ExpiryNone CondNone false)].

Lemma store_accounting_witness :
  let HE := listing_order bytes Entry in
  let s := (store_run (with_max_memory 250) three_sets).2 in
  used_bytes s = 196 ∧ used_bytes s = total_bytes (contents s).
Proof.
  pose (HE := listing_order bytes Entry). pose (HC := listing_order Z ScanState).
  cbn zeta. split; [by vm_compute|].
  apply (store_accounting (HC := HC)); [|by vm_compute].
  apply (reach_step _ 2 (OpSet (lit "c") (lit "3") ExpiryNone CondNone false)); [|by vm_compute].
  apply (reach_step _ 1 (OpSet (lit "b") (lit "2") ExpiryNone CondNone false)); [|by vm_compute].
  apply (reach_step _ 0 (OpSet (lit "a") (lit "1") ExpiryNone CondNone false)); [|by vm_compute].
  by apply reach_budget.
Defined.

(** ** Equality of observed maps *)

(** Two maps that are observed alike from [t] on. *)
Definition cache_eq (t : Instant) (c c' : Cache) : Prop := cache_at t c = cache_at t c'.

#[export] Instance cache_eq_equivalence t : Equivalence (cache_eq t).
Proof. unfold cache_eq. split; red; congruence. Qed.

Lemma lookup_cache_at t c k d : cache_at t c !! k = Some d ↔ c !! k = Some d ∧ live_at t d.
Proof. apply map_lookup_filter_Some. Qed.

Lemma lookup_cache_at_eq t c k :
  cache_at t c !! k = (d ← c !! k; if decide (live_at t d) then Some d else None).
Proof.
  unfold cache_at. rewrite map_lookup_filter. destruct (c !! k) as [d|]; cbn; [|done].
  unfold guard. by repeat case_decide.
Qed.

#[export] Instance insert_cache_eq t k d : Proper (cache_eq t ==> cache_eq t) (insert k d).
Proof.
  intros c c' Hc. unfold cache_eq in *. apply map_eq. intros j.
  pose proof (f_equal (lookup j) Hc) as Hj. rewrite !lookup_cache_at_eq in *.
  destruct (decide (j = k)) as [->|?].
  - by rewrite !lookup_insert_eq.
  - by rewrite !lookup_insert_ne.
Qed.

#[export] Instance delete_cache_eq t k : Proper (cache_eq t ==> cache_eq t) (delete k).
Proof.
  intros c c' Hc. unfold cache_eq in *. apply map_eq. intros j.
  pose proof (f_equal (lookup j) Hc) as Hj. rewrite !lookup_cache_at_eq in *.
  destruct (decide (j = k)) as [->|?].
  - by rewrite !lookup_delete_eq.
  - by rewrite !lookup_delete_ne.
Qed.

(** Observing is idempotent, and a later observation sees less. *)
Lemma cache_at_later t t' c : t <= t' → cache_at t' (cache_at t c) = cache_at t' c.
Proof.
  intros Ht. apply map_eq. intros k. apply option_eq. intros d. rewrite !lookup_cache_at.
  assert (live_at t' d → live_at t d); [|tauto]. unfold live_at. case_match; [lia|done].
Qed.

Lemma cache_at_eq t c : cache_eq t (cache_at t c) c.
Proof. unfold cache_eq. by apply cache_at_later. Qed.

Lemma cache_eq_later t t' c c' : t <= t' → cache_eq t c c' → cache_eq t' c c'.
Proof.
  unfold cache_eq. intros Ht Hc.
  by rewrite <- (cache_at_later t t' c), Hc, cache_at_later.
Qed.

(** ** The methods on the contents *)

Lemma millis_left_nonneg now deadline : 0 <= millis_left now deadline.
Proof. unfold millis_left. apply Z.div_pos; [lia|unfold NS_PER_MS; lia]. Qed.

(** Below 2^63 - 500 ms the words are wide enough: PTTL is the whole
    milliseconds that are left, TTL the nearest number of seconds to them. *)
Lemma remaining_exact now v deadline :
  millis_left now deadline <= i64_max - 500 →
  remaining_millis now (v, Some deadline) = millis_left now deadline ∧
  0 <= remaining_seconds now (v, Some deadline) ∧
  millis_left now deadline - 500 < 1000 * remaining_seconds now (v, Some deadline)
    <= millis_left now deadline + 500.
Proof.
  intros Hb. pose proof (millis_left_nonneg now deadline).
  unfold remaining_seconds, remaining_millis. cbn [snd].
  set (ms := millis_left now deadline) in *. unfold i64_max in *.
  rewrite (wrap_i64_small ms) by (unfold i64_min, i64_max; lia).
  rewrite wrap_i64_small by (unfold i64_min, i64_max; lia). rewrite Z.quot_div_nonneg by lia.
  pose proof (Z.div_mod (ms + 500) 1000). pose proof (Z.mod_pos_bound (ms + 500) 1000).
  split_and!; lia.
Qed.

(** From 2^63 ms on they are not: both answers are negative. *)
Lemma remaining_far now v deadline :
  2 ^ 63 <= millis_left now deadline <= 2 ^ 64 - 1500 →
  remaining_millis now (v, Some deadline) = millis_left now deadline - 2 ^ 64 ∧
  remaining_seconds now (v, Some deadline) = - ((2 ^ 64 - 500 - millis_left now deadline) / 1000).
Proof.
  intros Hb. unfold remaining_seconds, remaining_millis. cbn [snd].
  set (ms := millis_left now deadline) in *.
  assert (Hw : wrap_i64 ms = ms - 2 ^ 64).
  { unfold wrap_i64. replace (ms + 2 ^ 63) with (ms - 2 ^ 63 + 1 * 2 ^ 64) by lia.
    rewrite Z.mod_add, Z.mod_small by lia. lia. }
  rewrite Hw, wrap_i64_small by (unfold i64_min, i64_max; lia). split; [done|].
  replace (ms - 2 ^ 64 + 500) with (- (2 ^ 64 - 500 - ms)) by lia.
  rewrite Z.quot_opp_l, Z.quot_div_nonneg by lia. done.
Qed.

Section contents.
Context `{HE : !HashIter bytes Entry}.
Implicit Types (s : Store) (k : bytes) (c : Cache).

Lemma is_live_spec e now : is_live e now = true ↔ live_at now (data_of e).
Proof. unfold is_live, live_at. cbn. destruct (expires_at e); [apply Z.ltb_lt|done]. Qed.

(** Lazy expiry does not change what is observed, and after it a lookup is an
    observation. *)
Lemma peek s k now :
  let s1 := expire_if_needed s k now in
  data_of <$> entries s1 !! k = cache_at now (contents s) !! k ∧
  cache_eq now (contents s1) (contents s).
Proof.
  cbn zeta. assert (Hk : data_of <$> entries (expire_if_needed s k now) !! k =
    cache_at now (contents s) !! k).
  { rewrite lookup_expired, lookup_cache_at_eq, lookup_contents.
    destruct (entries s !! k) as [e|]; cbn; [|done]. pose proof (is_live_spec e now) as Hl.
    case_decide; destruct (is_live e now); [done|..]; intuition congruence. }
  split; [done|]. unfold cache_eq. apply map_eq. intros j. destruct (decide (j = k)) as [->|Hj].
  - rewrite lookup_cache_at_eq, lookup_contents, Hk.
    destruct (cache_at now (contents s) !! k) as [d|] eqn:Hd; cbn; [|done].
    apply lookup_cache_at in Hd as [_ ?]. by rewrite decide_True.
  - rewrite !lookup_cache_at_eq, !lookup_contents. by rewrite lookup_expired_ne.
Qed.

Lemma contents_update s k e u :
  contents (set_entries s (<[k := e]> (entries s)) u) = <[k := data_of e]> (contents s).
Proof. unfold contents. cbn. apply fmap_insert. Qed.

Lemma contents_add_hit s : contents (add_hit s) = contents s.
Proof. done. Qed.
Lemma contents_add_miss s : contents (add_miss s) = contents s.
Proof. done. Qed.

(** Marking an access keeps the contents. *)
Lemma contents_touch s k e b u :
  entries s !! k = Some e →
  contents (set_entries s (<[k := set_clock e b]> (entries s)) u) = contents s.
Proof.
  intros Hk. rewrite contents_update. apply insert_id. by rewrite lookup_contents, Hk.
Qed.

Lemma get_spec s now k :
  (get s now k).1 = fst <$> cache_at now (contents s) !! k ∧
  cache_eq now (contents (get s now k).2) (contents s).
Proof.
  unfold get. destruct (peek s k now) as [Hk Hc].
  destruct (entries _ !! k) as [e|] eqn:He; cbn [fst snd fmap option_fmap option_map] in *;
    rewrite <- Hk; (split; [done|]).
  - by rewrite contents_add_hit, contents_touch.
  - by rewrite contents_add_miss.
Qed.

(** The removal of a list of keys. *)
Lemma contents_removals s ks :
  contents (fold_left (λ s k, (remove_accounted s k).2) ks s) =
  filter (λ kd : bytes * (bytes * option Instant), kd.1 ∉ ks) (contents s).
Proof.
  revert s. induction ks as [|k ks IH]; intros s; cbn [fold_left].
  - symmetry. apply map_filter_id. intros ???. by apply not_elem_of_nil.
  - rewrite IH, contents_remove. apply map_eq. intros j. apply option_eq. intros d.
    rewrite !map_lookup_filter_Some, lookup_delete_Some, not_elem_of_cons. cbn.
    intuition congruence.
Qed.

(** Removing expired entries is not observable. *)
Lemma expired_removals s now l :
  Forall (λ kv, entries s !! kv.1 = Some kv.2 ∧ is_live kv.2 now = false) l →
  cache_eq now (contents (fold_left (λ s k, (remove_accounted s k).2) (map fst l) s)) (contents s).
Proof.
  intros Hl. rewrite contents_removals. unfold cache_eq. apply map_eq. intros k. apply option_eq. intros d.
  rewrite !lookup_cache_at, map_lookup_filter_Some. cbn [fst].
  split; [tauto|]. intros [Hk Hd]. split; [split; [done|]|done].
  intros ((k' & e) & -> & Hin)%list_elem_of_fmap. cbn [fst] in Hk.
  rewrite Forall_forall in Hl. apply Hl in Hin as [He Hn]. cbn [fst snd] in He, Hn.
  rewrite lookup_contents, He in Hk. injection Hk as <-. apply is_live_spec in Hd. congruence.
Qed.

(** A sweep is not observable; nor is what RANDOMKEY removes. *)
Lemma expired_sample s now n :
  Forall (λ kv, entries s !! kv.1 = Some kv.2 ∧ is_live kv.2 now = false)
    (base.filter (λ kv : bytes * Entry, is_live kv.2 now = false) (take n (hash_iter (entries s)))).
Proof.
  apply Forall_forall. intros [k e] [Hd Hin]%list_elem_of_filter. by apply take_hash_iter in Hin.
Qed.

Lemma sweep_spec s now n : cache_eq now (contents (active_expire_sweep s now n).2) (contents s).
Proof.
  unfold active_expire_sweep. cbn [snd]. apply expired_removals, expired_sample.
Qed.

Lemma random_key_spec s now : cache_eq now (contents (random_key s now).2) (contents s).
Proof. unfold random_key. cbn [snd]. apply expired_removals, expired_sample. Qed.

(** RANDOMKEY answers some key as long as one is alive. *)
Lemma random_key_none s now : (random_key s now).1 = None → cache_at now (contents s) = ∅.
Proof.
  pose proof (random_key_spec s now) as Hc. unfold cache_eq in Hc. rewrite <- Hc.
  unfold random_key. cbn [fst snd]. set (s1 := fold_left _ _ s). intros Hn.
  assert (entries s1 = ∅) as He.
  { apply map_empty. intros k. destruct (entries s1 !! k) as [e|] eqn:Hk; [|done].
    apply elem_of_hash_iter in Hk. destruct (hash_iter (entries s1)); [by apply not_elem_of_nil in Hk|done]. }
  unfold contents. rewrite He, fmap_empty. apply map_empty. intros k. by rewrite lookup_cache_at_eq.
Qed.

(** TTL and PTTL, on the observed map. *)
Lemma ttl_spec s now k :
  (ttl_seconds s now k).1 = from_option (remaining_seconds now) (-2) (cache_at now (contents s) !! k) ∧
  (pttl_millis s now k).1 = from_option (remaining_millis now) (-2) (cache_at now (contents s) !! k).
Proof.
  destruct (peek s k now) as [Hk _]. rewrite <- Hk. unfold ttl_seconds, pttl_millis.
  destruct (entries _ !! k) as [e|]; [|done]. cbn. unfold remaining_seconds, remaining_millis. cbn.
  by destruct (expires_at e).
Qed.

Lemma all_keys_spec s now : all_keys s now ≡ₚ map fst (map_to_list (cache_at now (contents s))).
Proof.
  apply NoDup_Permutation.
  - apply NoDup_hash_keys.
  - apply NoDup_fst_map_to_list.
  - intros k. unfold all_keys, live_keys. rewrite elem_of_hash_keys, list_elem_of_fmap. split.
    + intros (e & He & Hl%is_live_spec). exists (k, data_of e). split; [done|].
      apply elem_of_map_to_list, lookup_cache_at. by rewrite lookup_contents, He.
    + intros ([k' d] & -> & Hd%elem_of_map_to_list). cbn.
      apply lookup_cache_at in Hd as [Hd Hl]. rewrite lookup_contents in Hd.
      destruct (entries s !! k') as [e|]; cbn in Hd; [|done]. injection Hd as <-.
      exists e. by rewrite is_live_spec.
Qed.

Lemma cache_at_delete now k c : cache_at now (delete k c) = delete k (cache_at now c).
Proof. apply map_filter_delete. Qed.

Lemma size_filter_cons c k ks :
  Z.of_nat (size (filter (λ kd : bytes * (bytes * option Instant), kd.1 ∈ k :: ks) c)) =
  match c !! k with Some _ => 1 | None => 0 end +
  Z.of_nat (size (filter (λ kd : bytes * (bytes * option Instant), kd.1 ∈ ks) (delete k c))).
Proof.
  destruct (c !! k) as [d|] eqn:Hk.
  - replace (filter _ c) with (<[k := d]>
      (filter (λ kd : bytes * (bytes * option Instant), kd.1 ∈ ks) (delete k c))).
    + rewrite map_size_insert_None; [lia|]. rewrite map_lookup_filter_None, lookup_delete_eq.
      by left.
    + apply map_eq. intros j. destruct (decide (j = k)) as [->|Hj].
      * rewrite lookup_insert_eq. symmetry. apply map_lookup_filter_Some. split; [done|left].
      * rewrite lookup_insert_ne by done. apply option_eq. intros d'.
        rewrite !map_lookup_filter_Some, lookup_delete_Some, elem_of_cons. cbn.
        intuition congruence.
  - rewrite delete_id, Z.add_0_l by done. do 2 f_equal. apply map_eq. intros j. apply option_eq. intros d'.
    rewrite !map_lookup_filter_Some, elem_of_cons. cbn. intuition congruence.
Qed.

Lemma del_spec now ks : ∀ s,
  (del s now ks).1 = Z.of_nat (size
    (filter (λ kd : bytes * (bytes * option Instant), kd.1 ∈ ks) (cache_at now (contents s)))) ∧
  cache_eq now (contents (del s now ks).2)
    (filter (λ kd : bytes * (bytes * option Instant), kd.1 ∉ ks) (cache_at now (contents s))).
Proof.
  induction ks as [|k ks IH]; intros s; cbn [del].
  { split; cbn [fst snd].
    - symmetry. apply (Nat2Z.inj_iff _ 0), map_size_empty_iff, map_empty. intros j.
      apply map_lookup_filter_None. right. intros d _. apply not_elem_of_nil.
    - rewrite map_filter_id; [by rewrite cache_at_eq|]. intros ???. apply not_elem_of_nil. }
  destruct (peek s k now) as [Hk Hc]. set (s1 := expire_if_needed s k now) in *.
  pose proof (remove_result s1 k) as Hr. pose proof (contents_remove s1 k) as Hd.
  destruct (remove_accounted s1 k) as [removed s2]. cbn [fst snd] in Hr, Hd.
  destruct (IH s2) as [Hn Hs]. destruct (del s2 now ks) as [n s3]. cbn [fst snd] in *.
  assert (Ho : cache_at now (contents s2) = delete k (cache_at now (contents s))).
  { rewrite Hd, cache_at_delete. by f_equal. }
  rewrite Ho in Hn, Hs. split.
  - rewrite size_filter_cons, Hn, <- Hk, Hr. by destruct (entries s1 !! k).
  - rewrite Hs. unfold cache_eq. do 2 f_equal. apply map_eq. intros j. apply option_eq. intros d.
    rewrite !map_lookup_filter_Some, lookup_delete_Some, not_elem_of_cons. cbn.
    intuition congruence.
Qed.

Lemma exists_spec now ks : ∀ s,
  (exists_ s now ks).1 = count_present (cache_at now (contents s)) ks ∧
  cache_eq now (contents (exists_ s now ks).2) (contents s).
Proof.
  induction ks as [|k ks IH]; intros s; cbn [exists_]; [done|].
  destruct (peek s k now) as [Hk Hc]. set (s1 := expire_if_needed s k now) in *.
  destruct (IH s1) as [Hn Hs]. destruct (exists_ s1 now ks) as [n s2]. cbn [fst snd] in *.
  split; [|by rewrite Hs]. rewrite Hn. unfold cache_eq in Hc. rewrite Hc.
  unfold count_present, len. rewrite filter_cons, <- Hk.
  destruct (entries s1 !! k); cbn.
  - rewrite decide_True by by eexists. cbn. lia.
  - rewrite decide_False by by intros [? ?]. done.
Qed.

Lemma mget_spec now ks : ∀ s,
  (mget s now ks).1 = map (λ k, fst <$> cache_at now (contents s) !! k) ks ∧
  cache_eq now (contents (mget s now ks).2) (contents s).
Proof.
  induction ks as [|k ks IH]; intros s; cbn [mget map]; [done|].
  destruct (get_spec s now k) as [Hv Hc]. destruct (get s now k) as [v s1]. cbn [fst snd] in *.
  destruct (IH s1) as [Hn Hs]. destruct (mget s1 now ks) as [vs s2]. cbn [fst snd] in *.
  split; [|by rewrite Hs]. rewrite Hv, Hn. unfold cache_eq in Hc. by rewrite Hc.
Qed.

Lemma shrink_config s s' : rtc shrink s s' → max_memory_bytes s' = max_memory_bytes s.
Proof.
  induction 1 as [|x y z Hxy _ IH]; [done|]. rewrite IH.
  destruct Hxy; try done. by destruct (config_remove s k).
Qed.

(** The methods of one key that neither insert nor count. *)
Lemma key_op_refines s now op :
  match op with
  | OpPersist _ | OpGetDel _ | OpGetEx _ _ | OpTtl _ | OpPttl _ | OpExpire _ _ => True
  | _ => False
  end →
  let '(a, s') := store_step now op s in
  let '(b, c') := live_step now op (cache_at now (contents s)) in
  a = b ∧ cache_eq now (contents s') c'.
Proof.
  assert (∀ k, data_of <$> entries (expire_if_needed s k now) !! k = cache_at now (contents s) !! k
    ∧ cache_eq now (contents (expire_if_needed s k now)) (cache_at now (contents s))) as Hpeek.
  { intros k. destruct (peek s k now) as [? Hc]. split; [done|]. by rewrite Hc, cache_at_eq. }
  destruct op as [| | |k|k|k ex| | |k|k|k d| | | | | |]; try done; intros _;
    cbn [store_step live_step]; destruct (Hpeek k) as [Hk Hc]; rewrite <- Hk;
    unfold persist, get_del, get_ex, ttl_seconds, pttl_millis, expire;
    set (s1 := expire_if_needed s k now) in *.
  - destruct (entries s1 !! k) as [e|]; [|done]. cbn. destruct (expires_at e); [|done].
    split; [done|]. by rewrite contents_update, Hc.
  - destruct (entries s1 !! k) as [e|] eqn:He; cbn.
    + split; [done|]. by rewrite contents_remove, contents_add_hit, Hc.
    + split; [done|]. rewrite delete_id; [exact Hc|]. by rewrite <- Hk.
  - destruct (entries s1 !! k) as [e|]; [|done]. destruct ex as [ex|]; [|done].
    cbn [fmap option_fmap option_map data_of fst snd]. split; [done|].
    rewrite contents_update, contents_add_hit, Hc. by destruct ex.
  - destruct (entries s1 !! k) as [e|]; [|done]. cbn. unfold remaining_seconds, remaining_millis.
    cbn. by destruct (expires_at e).
  - destruct (entries s1 !! k) as [e|]; [|done]. cbn. unfold remaining_millis.
    cbn. by destruct (expires_at e).
  - destruct (entries s1 !! k) as [e|]; [|done]. split; [done|].
    cbn [fmap option_fmap option_map data_of fst snd]. by rewrite contents_update, Hc.
Qed.

End contents.

(** *** Methods that insert

    What they do to the contents depends on whether the insertion evicts.  The
    lemmas are stated against an interface: a preorder [R] on maps in which an
    insertion into the store is an insertion into the map, and a condition [P]
    on stores under which it is.  It has two instances, equality with "no
    budget" and inclusion with "sound". *)
Class Inserting `{HE : !HashIter bytes Entry} (now : Instant) (P : Store → Prop)
    (R : relation Cache) := {
  ins_preorder : PreOrder R;
  ins_proper k d : Proper (R ==> R) (insert k d);
  ins_delete k : Proper (R ==> R) (delete k);
  ins_eq c c' : cache_eq now c c' → R c c';
  ins_shrink s s' : shrink s s' → P s → P s';
  ins_insert s k e : P s →
    R (contents (insert_accounted s k e)) (<[k := data_of e]> (contents s)) ∧
    P (insert_accounted s k e);
}.
#[export] Existing Instances ins_preorder ins_proper ins_delete.

Section inserting.
Context `{HE : !HashIter bytes Entry} (now : Instant).
Context (P : Store → Prop) (R : relation Cache) `{HI : !Inserting now P R}.

Lemma P_shrinks s s' : rtc shrink s s' → P s → P s'.
Proof.
  induction 1 as [|x y z Hxy _ IH]; [done|]. intros Hx. by apply IH, (ins_shrink (R := R) x y).
Qed.

Lemma P_expired s k : P s → P (expire_if_needed s k now).
Proof. apply P_shrinks, shrinks_expired. Qed.

Lemma P_step op s : P s → P (store_step now op s).2.
Proof.
  intros Hs. destruct (store_step_decomposes now op s) as (s1 & H1 & H2).
  apply (P_shrinks _ _ H1) in Hs. clear H1.
  induction H2 as [|x y z [x' k e] _ IH]; [done|]. by apply IH, (ins_insert x' k e Hs).
Qed.

Lemma peek_R s k : R (contents (expire_if_needed s k now)) (cache_at now (contents s)).
Proof. apply (ins_eq (R := R)). destruct (peek s k now) as [_ Hc]. by rewrite Hc, cache_at_eq. Qed.

Lemma mset_R kvs : ∀ s c, P s → R (contents s) c →
  R (contents (mset s kvs)) (fold_left (λ c kv, <[kv.1 := (kv.2, None)]> c) kvs c).
Proof.
  induction kvs as [|[k v] kvs IH]; intros s c Hs Hc; cbn [mset fold_left]; [done|].
  destruct (ins_insert s k (mkEntry v None false) Hs) as [Hi Hs'].
  apply IH; [done|]. rewrite Hi. cbn [data_of value expires_at fst snd]. by rewrite Hc.
Qed.

Lemma set_R s k v ex cond want :
  P s →
  let '(o, s') := set s now k v ex cond want in
  let '(b, c') := live_step now (OpSet k v ex cond want) (cache_at now (contents s)) in
  ASet o = b ∧ R (contents s') c'.
Proof.
  intros Hs. unfold set. cbn [live_step]. destruct (peek s k now) as [Hk _].
  pose proof (peek_R s k) as Hc. pose proof (P_expired s k Hs) as Hs1.
  set (c := cache_at now (contents s)) in *.
  set (s1 := expire_if_needed s k now) in *. rewrite <- Hk.
  assert (Hold : fst <$> (data_of <$> entries s1 !! k) = value <$> entries s1 !! k)
    by by destruct (entries s1 !! k).
  assert (Hex : bool_decide (is_Some (data_of <$> entries s1 !! k)) =
                bool_decide (is_Some (entries s1 !! k))) by by destruct (entries s1 !! k).
  assert (Hdl : new_deadline ex (data_of <$> entries s1 !! k) =
    match ex with
    | ExpiryNone => None | KeepTtl => e ← entries s1 !! k; expires_at e | At d => Some d
    end) by (destruct ex; by destruct (entries s1 !! k)).
  rewrite Hold, Hex, Hdl. destruct (match cond with CondNone => _ | _ => _ end); cbn [negb];
    (split; [done|]); [|exact Hc].
  rewrite (proj1 (ins_insert s1 k _ Hs1)). cbn [data_of value expires_at]. by rewrite Hc.
Qed.

Lemma incr_R s k delta :
  P s →
  let '(r, s') := incr_by s now k delta in
  let '(b, c') := live_step now (OpIncrBy k delta) (cache_at now (contents s)) in
  AIncr r = b ∧ R (contents s') c'.
Proof.
  intros Hs. unfold incr_by. cbn [live_step]. destruct (peek s k now) as [Hk _].
  pose proof (peek_R s k) as Hc. pose proof (P_expired s k Hs) as Hs1.
  set (s1 := expire_if_needed s k now) in *. set (c := cache_at now (contents s)) in *.
  rewrite <- Hk.
  destruct (entries s1 !! k) as [e|];
    cbn [fmap option_fmap option_map data_of fst snd mbind option_bind];
    [destruct (parse_i64_utf8 (value e)) as [n|]|]; try (destruct (in_i64 _)); try done;
    (split; [done|]); rewrite (proj1 (ins_insert s1 k _ Hs1)); cbn [data_of value expires_at];
    by rewrite Hc.
Qed.

Lemma step_R op s :
  P s →
  let '(a, s') := store_step now op s in
  let '(b, c') := live_step now op (cache_at now (contents s)) in
  same_answer op a b ∧ R (contents s') c'.
Proof.
  intros Hs.
  pose proof (key_op_refines s now op) as Hkey.
  destruct op as [k|k v ex cond want| |k|k|k ex|ks|ks|k|k|k d|k d|ks|kvs| |n|]; try done.
  all: try (specialize (Hkey I); destruct (store_step _ _ _), (live_step _ _ _), Hkey as [-> ?];
    split; [|by apply (ins_eq (R := R))]; unfold same_answer; by case_match).
  all: cbn [store_step live_step].
  - destruct (get_spec s now k) as [Hv Hc]. destruct (get s now k) as [v s']. cbn in *.
    rewrite Hv. split; [done|]. apply (ins_eq (R := R)). by rewrite Hc, cache_at_eq.
  - pose proof (set_R s k v ex cond want Hs) as H. cbn [live_step] in H.
    destruct (set _ _ _ _ _ _ _). exact H.
  - destruct (del_spec now ks s) as [Hn Hc]. destruct (del s now ks) as [n s']. cbn in *.
    rewrite Hn. split; [done|]. by apply (ins_eq (R := R)).
  - destruct (exists_spec now ks s) as [Hn Hc]. destruct (exists_ s now ks) as [n s']. cbn in *.
    rewrite Hn. split; [done|]. apply (ins_eq (R := R)). by rewrite Hc, cache_at_eq.
  - pose proof (incr_R s k d Hs) as H. destruct (incr_by s now k d) as [r s'].
    cbn [live_step] in *. destruct (match cache_at _ _ !! k with Some _ => _ | None => _ end)
      as [n|]; [destruct (in_i64 _)|]; destruct H as [-> ?]; done.
  - destruct (mget_spec now ks s) as [Hv Hc]. destruct (mget s now ks) as [vs s']. cbn in *.
    rewrite Hv. split; [done|]. apply (ins_eq (R := R)). by rewrite Hc, cache_at_eq.
  - split; [done|]. apply mset_R; [done|]. apply (ins_eq (R := R)). by rewrite cache_at_eq.
  - split; [apply all_keys_spec|]. apply (ins_eq (R := R)). by rewrite cache_at_eq.
  - split; [done|]. apply (ins_eq (R := R)). by rewrite sweep_spec, cache_at_eq.
  - pose proof (random_key_none s now) as Hn. pose proof (random_key_spec s now) as Hc.
    destruct (random_key s now) as [v s']. cbn [same_answer fst snd] in *.
    split; [intros ->; by rewrite Hn, map_to_list_empty|]. apply (ins_eq (R := R)). by rewrite Hc, cache_at_eq.
Qed.

(** A plain SET and the DEL of one key, on the contents. *)
Lemma write_set k v ex s :
  P s →
  let '(o, s') := set s now k v ex CondNone false in
  applied o = true ∧ old_value o = None ∧ P s' ∧
  (ex ≠ KeepTtl → R (contents s') (<[k := (v, new_deadline ex None)]> (contents s))).
Proof.
  intros Hs. pose proof (set_R s k v ex CondNone false Hs) as H.
  pose proof (P_step (OpSet k v ex CondNone false) s Hs) as Hs'.
  cbn [store_step live_step] in H, Hs'. destruct (set s now k v ex CondNone false) as [o s'].
  destruct H as [Ho Hc]. injection Ho as ->. cbn [applied old_value snd] in *.
  split_and!; try done. intros Hk. etrans; [exact Hc|].
  replace (new_deadline ex (cache_at now (contents s) !! k)) with (new_deadline ex None)
    by by destruct ex.
  apply (ins_eq (R := R)), insert_cache_eq, cache_at_eq.
Qed.

Lemma write_del k s :
  P s →
  let '(n, s') := del s now [k] in
  (n = 0 ∨ n = 1) ∧ P s' ∧ R (contents s') (delete k (contents s)).
Proof.
  intros Hs. pose proof (P_step (OpDel [k]) s Hs) as Hs'.
  destruct (del_spec now [k] s) as [_ Hc]. cbn [store_step del] in *.
  pose proof (remove_result (expire_if_needed s k now) k) as Hr.
  destruct (remove_accounted (expire_if_needed s k now) k) as [removed s1]. cbn [fst snd] in *.
  split; [destruct removed; tauto|]. split; [done|]. apply (ins_eq (R := R)). rewrite Hc.
  unfold cache_eq. rewrite cache_at_delete. f_equal.
  apply map_eq. intros j. apply option_eq. intros d.
  rewrite lookup_cache_at, map_lookup_filter_Some, lookup_delete_Some, !lookup_cache_at. cbn.
  rewrite list_elem_of_singleton. split; [intros [[[??]?]?]|intros [?[??]]]; split_and!; congruence || done.
Qed.
End inserting.

(** ** Refinement *)

Section refinement.
Context `{HE : !HashIter bytes Entry}.

Definition unbounded (s : Store) : Prop := max_memory_bytes s = None.

Lemma unbounded_shrink s s' : shrink s s' → unbounded s → unbounded s'.
Proof. intros Hs. unfold unbounded. by rewrite (shrink_config s s') by by apply rtc_once. Qed.

Lemma insert_unbounded now s k e :
  unbounded s →
  cache_eq now (contents (insert_accounted s k e)) (<[k := data_of e]> (contents s)) ∧
  unbounded (insert_accounted s k e).
Proof.
  unfold unbounded, insert_accounted, evict_to_budget. cbn [max_memory_bytes set_entries].
  intros Hu. rewrite Hu. split; [|exact Hu]. unfold contents. cbn. by rewrite fmap_insert.
Qed.

#[export] Instance unbounded_inserting now : Inserting now unbounded (cache_eq now).
Proof.
  split; try exact _; [done|apply unbounded_shrink|apply insert_unbounded].
Qed.

(** C2: a store without a budget is an expiring map: over any chronological
    run of its operations it gives the answers of the abstract map, key listings
    in any order, TTL and PTTL in the code's 64-bit words, and ends in a state
    that is observed alike from then on.  RANDOMKEY is among the operations, with
    less of a promise: it changes nothing that is observed and answers some key
    as long as one is alive, but not always a key that is. *)
Theorem store_refines_cache ops : ∀ start s c,
  unbounded s → cache_eq start (contents s) c →
  chronological start ops →
  Forall3 same_answer (map snd ops) (store_run s ops).1 (cache_run c ops).1 ∧
  ∃ end_, start <= end_ ∧ cache_eq end_ (contents (store_run s ops).2) (cache_run c ops).2.
Proof.
  induction ops as [|[now op] ops IH]; intros start s c Hu Hc Ht; cbn [store_run cache_run map snd].
  { split; [constructor|]. by exists start. }
  destruct Ht as [Ht Hts].
  pose proof (step_R now unbounded (cache_eq now) op s Hu) as Hstep. unfold cache_step.
  rewrite (cache_eq_later start now _ _ Ht Hc) in Hstep.
  pose proof (P_step now unbounded (cache_eq now) op s Hu) as Hu'.
  destruct (store_step now op s) as [a s'], (live_step now op _) as [b c'].
  destruct Hstep as [Ha Hc']. cbn [snd] in Hu'.
  destruct (IH now s' c' Hu' Hc' Hts) as (Hl & end_ & He & Hend).
  destruct (store_run s' ops), (cache_run c' ops). cbn [fst snd] in *.
  split; [by constructor|]. exists end_. split; [lia|done].
Qed.
End refinement.

(** A run with an expiry between the write and the reads. *)
Definition expiring_run : list (Instant * Op) :=
  [(0, OpSet (lit "k") (lit "7") (At 10) CondNone false); (1, OpIncrBy (lit "k") 5);
   (9, OpGet (lit "k")); (9, OpRandomKey); (10, OpGet (lit "k")); (11, OpKeys)].

Lemma store_refines_cache_witness :
  let HE := listing_order bytes Entry in
  (store_run store_new expiring_run).1 =
    [ASet (mkSetOutcome true None); AIncr (Ok 12); AValue (Some (lit "12")); AValue (Some (lit "k")); AValue None;
     AKeys []] ∧
  Forall3 same_answer (map snd expiring_run) (store_run store_new expiring_run).1
    (cache_run ∅ expiring_run).1.
Proof.
  cbn zeta. split; [by vm_compute|].
  apply (store_refines_cache (HE := listing_order bytes Entry) expiring_run 0 store_new ∅);
    [done|done|cbn; lia].
Defined.

(** ** With a budget: a lossy cache

    An evicting store may have forgotten a key, so its observed map is included
    in the abstract one.  That is kept by the operations that do not decide what
    to write from what they find: [blind].  RANDOMKEY, which writes nothing, is
    left out as well: a store that has forgotten every key answers none. *)

Definition blind (op : Op) : Prop :=
  match op with
  | OpSet _ _ ex cond _ => ex ≠ KeepTtl ∧ cond ≠ IfNotExists
  | OpIncrBy _ _ | OpRandomKey => False
  | _ => True
  end.

Definition miss_or_same {A} (v v' : option A) : Prop := v = None ∨ v = v'.

(** The answer of a store that may have forgotten keys. *)
Definition weaker (op : Op) (a b : Answer) : Prop :=
  match a, b with
  | AValue v, AValue v' => miss_or_same v v'
  | AValues l, AValues l' => Forall2 miss_or_same l l'
  | AKeys l, AKeys l' => l ⊆+ l'
  | ABool x, ABool y => x = true → y = true
  | ASet o, ASet o' =>
      (applied o = true → applied o' = true) ∧ miss_or_same (old_value o) (old_value o')
  | AInt n, AInt m => match op with OpTtl _ | OpPttl _ => n = -2 ∨ n = m | _ => n <= m end
  | _, _ => a = b
  end.

Definition cache_le (t : Instant) (c c' : Cache) : Prop := cache_at t c ⊆ cache_at t c'.

#[export] Instance cache_le_preorder t : PreOrder (cache_le t).
Proof. unfold cache_le. split; red; [done|]. intros. by etrans. Qed.

#[export] Instance insert_cache_le t k d : Proper (cache_le t ==> cache_le t) (insert k d).
Proof.
  intros c c' Hc. unfold cache_le in *. apply map_subseteq_spec. intros j x.
  rewrite !lookup_cache_at. destruct (decide (j = k)) as [->|?].
  - by rewrite !lookup_insert_eq.
  - rewrite !lookup_insert_ne by done. rewrite <- !lookup_cache_at. intros Hx. by eapply lookup_weaken.
Qed.

Lemma cache_le_later t t' c c' : t <= t' → cache_le t c c' → cache_le t' c c'.
Proof.
  unfold cache_le. intros Ht Hc. rewrite <- (cache_at_later t t' c), <- (cache_at_later t t' c') by done.
  by apply map_filter_subseteq_mono.
Qed.

Lemma lookup_le (c c' : Cache) k : c ⊆ c' → miss_or_same (c !! k) (c' !! k).
Proof.
  intros Hc. destruct (c !! k) as [d|] eqn:Hd; [right|by left].
  symmetry. by eapply lookup_weaken.
Qed.

Lemma value_le (c c' : Cache) k : c ⊆ c' → miss_or_same (fst <$> c !! k) (fst <$> c' !! k).
Proof. intros Hc. destruct (lookup_le c c' k Hc) as [->| ->]; [by left|by right]. Qed.

Lemma count_present_le (c c' : Cache) ks : c ⊆ c' → count_present c ks <= count_present c' ks.
Proof.
  intros Hc. unfold count_present, len. induction ks as [|k ks IH]; [done|].
  rewrite !filter_cons. destruct (lookup_le c c' k Hc) as [Hk| ->].
  - rewrite Hk, decide_False by by intros [? ?]. case_decide; cbn; lia.
  - case_decide; cbn; lia.
Qed.

Lemma map_fst_le (c c' : Cache) : c ⊆ c' → map fst (map_to_list c) ⊆+ map fst (map_to_list c').
Proof. intros Hc. apply (fmap_submseteq fst). by apply map_to_list_submseteq. Qed.

Lemma mset_le kvs : ∀ c c' : Cache, c ⊆ c' →
  fold_left (λ c kv, <[kv.1 := (kv.2, None)]> c) kvs c ⊆
  fold_left (λ c kv, <[kv.1 := (kv.2, None)]> c) kvs c'.
Proof.
  induction kvs as [|kv kvs IH]; intros c c' Hc; cbn [fold_left]; [done|].
  by apply IH, insert_mono.
Qed.

Lemma live_step_mono now op c c' :
  blind op → c ⊆ c' →
  weaker op (live_step now op c).1 (live_step now op c').1 ∧
  (live_step now op c).2 ⊆ (live_step now op c').2.
Proof.
  intros Hb Hc.
  assert (Hl : ∀ k, miss_or_same (c !! k) (c' !! k)) by (intros; by apply lookup_le).
  assert (Hv : ∀ k, miss_or_same (fst <$> c !! k) (fst <$> c' !! k)) by (intros; by apply value_le).
  assert (Hin : ∀ k d, <[k := d]> c ⊆ <[k := d]> c') by (intros; by apply insert_mono).
  destruct op as [k|k v ex cond want| |k|k|k ex|ks|ks|k|k|k d|k d|ks|kvs| |n|];
    try done; cbn [live_step].
  - split; [apply Hv|done].
  - destruct Hb as [Hex Hcond].
    assert (Hd : new_deadline ex (c !! k) = new_deadline ex (c' !! k)) by by destruct ex.
    rewrite Hd. cbn [fst snd]. split.
    + cbn [weaker applied old_value]. split; [|destruct want; [apply Hv|by right]].
      destruct cond; [done| |done]. rewrite !bool_decide_eq_true. intros [x Hx].
      exists x. by eapply lookup_weaken.
    + destruct cond; [by apply Hin| |done].
      destruct (Hl k) as [Hk|Hk]; rewrite Hk.
      * rewrite bool_decide_false by by intros [? ?]. case_bool_decide; [|done].
        by apply insert_subseteq_r.
      * case_bool_decide; [by apply Hin|done].
  - destruct (Hl k) as [Hk|Hk]; rewrite Hk.
    + split; [by destruct (c' !! k) as [[v [dl|]]|]|].
      destruct (c' !! k) as [[v [dl|]]|]; cbn; try done. by apply insert_subseteq_r.
    + destruct (c' !! k) as [[v [dl|]]|]; cbn; auto.
  - split; [apply Hv|]. by apply delete_mono.
  - split; [apply Hv|]. cbn [snd]. destruct (Hl k) as [Hk|Hk]; rewrite Hk.
    + destruct (c' !! k), ex; try done. by apply insert_subseteq_r.
    + by destruct (c' !! k), ex.
  - split; [|by apply map_filter_subseteq_mono]. cbn [weaker fst].
    apply inj_le, map_subseteq_size. by apply map_filter_subseteq_mono.
  - split; [by apply count_present_le|done].
  - split; [|done]. cbn [weaker fst]. destruct (Hl k) as [->| ->]; [by left|by right].
  - split; [|done]. cbn [weaker fst]. destruct (Hl k) as [->| ->]; [by left|by right].
  - destruct (Hl k) as [Hk|Hk]; rewrite Hk.
    + split; [by destruct (c' !! k) as [[v dl]|]|].
      destruct (c' !! k) as [[v dl]|]; cbn; try done. by apply insert_subseteq_r.
    + destruct (c' !! k) as [[v dl]|]; cbn; auto.
  - split; [|done]. cbn [weaker fst]. induction ks; constructor; auto.
  - split; [done|]. by apply mset_le.
  - split; [|done]. by apply map_fst_le.
Qed.

Section lossy.
Context `{HE : !HashIter bytes Entry}.

Lemma insert_sound now s k e :
  sound s →
  cache_le now (contents (insert_accounted s k e)) (<[k := data_of e]> (contents s)) ∧
  sound (insert_accounted s k e).
Proof.
  intros [Ha Hc]. pose proof (insert_accounted_spec s k e Ha Hc) as H. cbn zeta in H.
  destruct H as (Ha' & Hc' & _ & _ & _ & _ & Hsub & _). split; [|by split].
  by apply map_filter_subseteq_mono.
Qed.

Lemma cache_eq_le t c c' : cache_eq t c c' → cache_le t c c'.
Proof. unfold cache_eq, cache_le. by intros ->. Qed.

#[export] Instance delete_cache_le t k : Proper (cache_le t ==> cache_le t) (delete k).
Proof. intros c c' Hc. unfold cache_le in *. rewrite !cache_at_delete. by apply delete_mono. Qed.

#[export] Instance sound_inserting now : Inserting now sound (cache_le now).
Proof.
  split; try exact _; [apply cache_eq_le|apply shrink_sound|apply insert_sound].
Qed.

Lemma weaker_same op a b b' : blind op → same_answer op a b → weaker op b b' → weaker op a b'.
Proof.
  intros Hb. destruct op; [..|done]; (destruct a, b; cbn; intros H; simplify_eq; try done);
    destruct b'; cbn; try done; by rewrite H.
Qed.

(** C15: a store with a budget is a lossy cache: over any chronological run of
    operations that do not decide what to write from what they find (no SET with
    NX or KEEPTTL, no INCR) and without RANDOMKEY, every
    answer is the abstract map's or the answer for a forgotten key, so that a
    value that is read is always the last one written and still alive. *)
Theorem store_lossy_cache ops : ∀ start s c,
  sound s → cache_le start (contents s) c →
  chronological start ops → Forall (λ o, blind o.2) ops →
  Forall2 (λ o ab, weaker o ab.1 ab.2) (map snd ops)
    (zip (store_run s ops).1 (cache_run c ops).1).
Proof.
  induction ops as [|[now op] ops IH]; intros start s c Hs Hc Ht Hd; cbn [store_run cache_run map].
  { constructor. }
  destruct Ht as [Ht Hts]. apply Forall_cons in Hd as [Hd Hds]. cbn [snd] in Hd.
  pose proof (step_R now sound (cache_le now) op s Hs) as Hstep. unfold cache_step.
  pose proof (live_step_mono now op _ _ Hd (cache_le_later start now _ _ Ht Hc)) as [Hw Hle].
  pose proof (P_step now sound (cache_le now) op s Hs) as Hs'.
  destruct (store_step now op s) as [a s'], (live_step now op (cache_at now (contents s))) as [b1 c1],
    (live_step now op (cache_at now c)) as [b c'].
  destruct Hstep as [Ha Hc']. cbn [fst snd] in *.
  assert (Hc2 : cache_le now (contents s') c').
  { etrans; [exact Hc'|]. by apply map_filter_subseteq_mono. }
  specialize (IH now s' c' Hs' Hc2 Hts Hds).
  destruct (store_run s' ops), (cache_run c' ops). cbn [fst snd zip map] in *.
  constructor; [|exact IH]. by apply (weaker_same op a b1 b Hd).
Qed.
End lossy.

(** Three writes of 98 bytes under a budget of 250, and a read of each. *)
Definition evicting_run : list (Instant * Op) :=
  three_sets ++ [(3, OpMget [lit "a"; lit "b"; lit "c"])].

Lemma store_lossy_cache_witness :
  let HE := listing_order bytes Entry in
  last (store_run (with_max_memory 250) evicting_run).1 =
    Some (AValues [Some (lit "1"); None; Some (lit "3")]) ∧
  last (cache_run ∅ evicting_run).1 =
    Some (AValues [Some (lit "1"); Some (lit "2"); Some (lit "3")]) ∧
  Forall2 (λ o ab, weaker o ab.1 ab.2) (map snd evicting_run)
    (zip (store_run (with_max_memory 250) evicting_run).1 (cache_run ∅ evicting_run).1).
Proof.
  cbn zeta. split; [by vm_compute|]. split; [by vm_compute|].
  apply (store_lossy_cache (HE := listing_order bytes Entry) evicting_run 0);
    [done|done|cbn; lia|by repeat constructor].
Defined.
