(* ===== verification/StoreFacts.v ===== *)
(** * Further properties of the store

    Eviction on a write, termination of the eviction loop, the answers of TTL
    and PTTL, the counters, and what the active sweep and RANDOMKEY do with
    expired entries. *)

From S2P Require Import Prelude RustStd HashMap Scan Store Cache.

Section facts.
Context `{HE : !HashIter bytes Entry}.
Implicit Types (s : Store) (k : bytes).

(** ** Writes and eviction *)

(** C31: an applied SET holds its key with the new value and deadline, whatever
    the budget evicts; no other key is changed, at most forgotten; and the
    store is within its budget, or down to one entry. *)
Theorem set_stores s now k v ex cond want o s' :
  sound s → set s now k v ex cond want = (o, s') → applied o = true →
  contents s' !! k = Some (v, new_deadline ex (cache_at now (contents s) !! k)) ∧
  (∀ j, j ≠ k → miss_or_same (contents s' !! j) (contents s !! j)) ∧
  within_budget s'.
Proof.
  intros Hs Hset Hap. unfold set in Hset.
  pose proof (P_expired now sound (cache_le now) s k Hs) as Hs1.
  destruct (peek s k now) as [Hk _]. set (s1 := expire_if_needed s k now) in *.
  destruct (negb _); injection Hset as <- <-; [done|]. destruct Hs1 as [Ha Hc].
  pose proof (insert_accounted_spec s1 k (mkEntry v
    match ex with
    | ExpiryNone => None | KeepTtl => e ← entries s1 !! k; expires_at e | At d => Some d
    end false) Ha Hc) as H. cbn zeta in H.
  destruct H as (_ & _ & Hw & _ & _ & _ & Hsub & Hkey & _). split; [|split; [|done]].
  - rewrite Hkey, <- Hk. unfold data_of. cbn. do 2 f_equal.
    destruct ex; try done. by destruct (entries s1 !! k).
  - intros j Hj. destruct (contents _ !! j) as [d|] eqn:Hd; [right|by left].
    eapply lookup_weaken in Hd; [|exact Hsub]. rewrite lookup_insert_ne in Hd by done.
    rewrite <- Hd, !lookup_contents. unfold s1. by rewrite lookup_expired_ne.
Qed.

(** The key an operation writes last: eviction spares it. *)
Definition written (op : Op) : option bytes :=
  match op with
  | OpSet k _ _ _ _ | OpIncrBy k _ => Some k
  | OpMset kvs => fst <$> last kvs
  | _ => None
  end.

Lemma insert_holds s k (e : Entry) : sound s → contents (insert_accounted s k e) !! k = Some (data_of e).
Proof.
  intros [Ha Hc]. pose proof (insert_accounted_spec s k e Ha Hc) as H. cbn zeta in H.
  by destruct H as (_ & _ & _ & _ & _ & _ & _ & Hk & _).
Qed.

Lemma written_insert (now : Instant) s k (e : Entry) (c : Cache) d : sound s → data_of e = d →
  cache_at now (contents (insert_accounted s k e)) !! k = cache_at now (<[k := d]> c) !! k.
Proof. intros Hs <-. by rewrite !lookup_cache_at_eq, insert_holds, lookup_insert_eq. Qed.

Lemma mset_app kvs kvs' s : mset s (kvs ++ kvs') = mset (mset s kvs) kvs'.
Proof. revert s. induction kvs as [|[k v] kvs IH]; intros s; [done|]. apply IH. Qed.

Lemma written_kept now op s k : sound s → written op = Some k →
  cache_at now (contents (store_step now op s).2) !! k =
  cache_at now (live_step now op (cache_at now (contents s))).2 !! k.
Proof.
  intros Hs Hw. destruct (peek s k now) as [Hk Hc]. pose proof (P_expired now sound (cache_le now) s k Hs) as Hs1.
  assert (Hsame : cache_at now (contents (expire_if_needed s k now)) !! k =
    cache_at now (cache_at now (contents s)) !! k) by by rewrite Hc, cache_at_eq.
  destruct op as [| k1 v ex cond want| | | | | | | | | |k1 delta| |kvs| | |]; try done; cbn [written] in Hw.
  - injection Hw as ->. cbn [store_step live_step]. unfold set. rewrite <- Hk.
    set (s1 := expire_if_needed s k now) in *.
    assert (Hex : bool_decide (is_Some (data_of <$> entries s1 !! k)) =
      bool_decide (is_Some (entries s1 !! k))) by by destruct (entries s1 !! k).
    rewrite Hex. destruct (match cond with CondNone => _ | _ => _ end); cbn [negb snd]; [|exact Hsame].
    apply written_insert; [done|]. unfold data_of. cbn. f_equal. destruct ex; try done.
    by destruct (entries s1 !! k).
  - injection Hw as ->. cbn [store_step live_step]. unfold incr_by. rewrite <- Hk.
    set (s1 := expire_if_needed s k now) in *.
    destruct (entries s1 !! k) as [e|]; cbn [fmap option_fmap option_map data_of fst snd mbind option_bind];
      [destruct (parse_i64_utf8 (value e)) as [n|]|]; try (destruct (in_i64 _)); cbn [snd];
      try exact Hsame; by apply written_insert.
  - destruct kvs as [|kv kvs _] using rev_ind; [done|]. rewrite last_snoc in Hw. injection Hw as <-.
    cbn [store_step live_step snd]. rewrite mset_app, fold_left_app. destruct kv as [k v]. cbn [mset fold_left fst snd].
    apply written_insert; [|done]. apply (P_step now sound (cache_le now) (OpMset kvs) s Hs).
Qed.

(** The eviction loop ends: a turn that goes on removes an entry, so more
    turns than there are entries change nothing. *)
Theorem evict_loop_terminates b p s fuel fuel' :
  sound s → (size (entries s) < fuel)%nat → (fuel ≤ fuel')%nat →
  evict_loop fuel' b p s = evict_loop fuel b p s.
Proof.
  revert s fuel'. induction fuel as [|fuel IH]; intros s fuel' Hs Hf Hle; [lia|].
  destruct fuel' as [|fuel']; [lia|]. cbn [evict_loop].
  destruct (_ && _) eqn:Hcond; [|done].
  pose proof (evict_pass_spec s p) as Hpass. destruct (evict_scan _ _ _ _) as [victim m].
  destruct Hpass as [Hm Hv]. destruct victim as [k|]; [|done]. destruct Hv as [Hk Hkp], Hs as [Ha Hc].
  destruct (evict_turn p s m k Ha Hm Hk Hkp) as (Ha1 & _ & _ & Hh & Hmi & He & Hsz).
  apply IH; [|lia..]. split; [done|]. unfold counters_ok in *. rewrite Hh, Hmi, He.
  pose proof (wrap_u64_range (evictions s + 1)). tauto.
Qed.

(** ** TTL *)

(** For a live key with a deadline less than 2^63 - 500 ms away, PTTL is
    the whole milliseconds left and TTL those rounded to the nearest second. *)
Theorem ttl_rounds s now k v deadline :
  cache_at now (contents s) !! k = Some (v, Some deadline) →
  (deadline - now) / NS_PER_MS <= i64_max - 500 →
  let ms := (pttl_millis s now k).1 in
  let secs := (ttl_seconds s now k).1 in
  ms = (deadline - now) / NS_PER_MS ∧ 0 <= ms ∧ 0 <= secs ∧
  ms - 500 < 1000 * secs <= ms + 500.
Proof.
  intros Hk Hb. cbn zeta. destruct (ttl_spec s now k) as [-> ->]. rewrite Hk.
  apply lookup_cache_at in Hk as [_ Hl]. unfold live_at in Hl. cbn in Hl. cbn [from_option].
  assert (Hm : millis_left now deadline = (deadline - now) / NS_PER_MS)
    by (unfold millis_left; by rewrite Z.max_r by lia).
  pose proof (millis_left_nonneg now deadline).
  destruct (remaining_exact now v deadline) as (-> & Hs & Hr); [by rewrite Hm|].
  rewrite Hm in *. split_and!; try done; lia.
Qed.

(** ** The active sweep *)

Lemma store_len_removals ks : ∀ s,
  NoDup ks → (∀ k, k ∈ ks → is_Some (entries s !! k)) →
  store_len (fold_left (λ s k, (remove_accounted s k).2) ks s) = store_len s - len ks.
Proof.
  induction ks as [|k ks IH]; intros s Hn Hin; cbn [fold_left]; [unfold len; cbn; lia|].
  apply NoDup_cons in Hn as [Hk Hn]. rewrite IH; [|done|].
  - unfold store_len, len. rewrite entries_remove, map_size_delete.
    destruct (Hin k) as [e He]; [left|]. rewrite He.
    assert (size (entries s) ≠ 0%nat) by (rewrite map_size_ne_0_lookup; eauto). cbn. lia.
  - intros j Hj. rewrite entries_remove, lookup_delete_ne by (intros ->; done).
    apply Hin. by right.
Qed.

Lemma expired_sample_elem s now n k :
  k ∈ map fst (base.filter (λ kv : bytes * Entry, is_live kv.2 now = false)
        (take n (hash_iter (entries s)))) →
  ∃ e, entries s !! k = Some e ∧ ¬ live_at now (data_of e).
Proof.
  intros ((k' & e) & -> & [Hd Hin]%list_elem_of_filter)%list_elem_of_fmap. cbn [fst snd] in *.
  apply take_hash_iter in Hin. exists e. split; [done|]. rewrite <- is_live_spec. congruence.
Qed.

Lemma NoDup_expired_sample s now n :
  NoDup (map fst (base.filter (λ kv : bytes * Entry, is_live kv.2 now = false)
        (take n (hash_iter (entries s))))).
Proof.
  eapply sublist_NoDup; [apply (NoDup_take_hash_iter (entries s) n)|].
  apply fmap_sublist. apply sublist_filter.
Qed.

(** A sweep removes expired entries only, returns how many it removed,
    and over a sample of the whole map leaves exactly the live ones. *)
Theorem sweep_reclaims s now n count s' :
  active_expire_sweep s now n = (count, s') →
  count = store_len s - store_len s' ∧ contents s' ⊆ contents s ∧
  cache_at now (contents s') = cache_at now (contents s) ∧
  ((size (entries s) ≤ n)%nat → contents s' = cache_at now (contents s)).
Proof.
  intros Hsw. pose proof (sweep_spec s now n) as Hobs. rewrite Hsw in Hobs.
  unfold active_expire_sweep in Hsw. injection Hsw as <- <-. cbn [snd] in Hobs.
  rewrite store_len_removals; [|apply NoDup_expired_sample|].
  2:{ intros k (e & He & _)%expired_sample_elem. eauto. }
  rewrite contents_removals in *. split_and!; [lia|apply map_filter_subseteq|done|].
  intros Hn. apply map_eq. intros k. apply option_eq. intros d.
  rewrite map_lookup_filter_Some, lookup_cache_at. cbn [fst].
  split; intros [Hd Hx]; (split; [done|]).
  - destruct (decide (live_at now d)) as [|Hl]; [done|]. destruct Hx.
    rewrite lookup_contents in Hd. destruct (entries s !! k) as [e|] eqn:He; [|done].
    injection Hd as <-. apply list_elem_of_fmap. exists (k, e). split; [done|].
    apply list_elem_of_filter. rewrite <- is_live_spec in Hl. split; [cbn; by destruct (is_live e now)|].
    rewrite take_ge by (rewrite length_hash_iter; lia). by apply elem_of_hash_iter.
  - intros (e & He & Hl)%expired_sample_elem. rewrite lookup_contents, He in Hd.
    by injection Hd as <-.
Qed.

(** The sweep always samples the first entries of the iteration order.
    While those have no deadline it removes nothing, at any time and however
    often it runs, and an expired entry behind them stays in memory. *)
Theorem sweep_blind_spot s n :
  (∀ k e, (k, e) ∈ take n (hash_iter (entries s)) → expires_at e = None) →
  ∀ now, active_expire_sweep s now n = (0, s).
Proof.
  intros Hlive now. unfold active_expire_sweep.
  replace (base.filter _ _) with (@nil (bytes * Entry)); [done|]. symmetry.
  apply elem_of_nil_inv. intros [k e] [Hd Hin]%list_elem_of_filter. cbn in Hd.
  unfold is_live in Hd. by rewrite (Hlive k e Hin) in Hd.
Qed.

(** ** RANDOMKEY *)

(** RANDOMKEY looks at one entry for expiry and then takes whatever comes
    first: on a store of two or more expired entries it answers a key that no
    longer exists. *)
Theorem random_key_expired s now :
  (∀ k e, entries s !! k = Some e → is_live e now = false) → (2 ≤ size (entries s))%nat →
  cache_at now (contents s) = ∅ ∧
  ∃ k, (random_key s now).1 = Some k ∧ is_Some (contents s !! k).
Proof.
  intros Hdead Hsz. split.
  { apply map_empty. intros k. rewrite lookup_cache_at_eq, lookup_contents.
    destruct (entries s !! k) as [e|] eqn:He; [|done]. cbn. rewrite decide_False; [done|].
    rewrite <- is_live_spec, (Hdead k e He). done. }
  unfold random_key. cbn [fst]. set (ks := map fst _). set (s1 := fold_left _ ks s).
  assert (Hlen : (len ks <= 1)).
  { unfold ks, len. rewrite length_fmap.
    pose proof (length_filter (λ kv : bytes * Entry, is_live kv.2 now = false)
      (take 1 (hash_iter (entries s)))) as Hl. rewrite length_take in Hl. lia. }
  assert (Hs1 : store_len s1 = store_len s - len ks).
  { apply store_len_removals; [apply NoDup_expired_sample|].
    intros k (e & He & _)%expired_sample_elem. eauto. }
  assert (Hne : (size (entries s1) ≠ 0)%nat) by (unfold store_len in Hs1; lia).
  pose proof (length_hash_iter (entries s1)) as Hi.
  destruct (hash_iter (entries s1)) as [|[k e] l] eqn:Hl; [cbn in Hi; lia|].
  exists k. split; [done|].
  assert (entries s1 !! k = Some e) as He by (apply elem_of_hash_iter; rewrite Hl; left).
  assert (contents s1 !! k = Some (data_of e)) as Hc by by rewrite lookup_contents, He.
  unfold s1 in Hc. rewrite contents_removals in Hc.
  apply map_lookup_filter_Some in Hc as [Hc _]. by eexists.
Qed.

(** The milliseconds left are cast to a signed word: a live key whose
    deadline is 2^63 ms away or more has a negative PTTL and a negative TTL. *)
Theorem far_deadline_negative s now k v deadline :
  cache_at now (contents s) !! k = Some (v, Some deadline) →
  2 ^ 63 <= (deadline - now) / NS_PER_MS <= 2 ^ 64 - 1500 →
  (pttl_millis s now k).1 = (deadline - now) / NS_PER_MS - 2 ^ 64 ∧
  (ttl_seconds s now k).1 = - ((2 ^ 64 - 500 - (deadline - now) / NS_PER_MS) / 1000) ∧
  (pttl_millis s now k).1 < 0 ∧ (ttl_seconds s now k).1 < 0.
Proof.
  intros Hk Hb. destruct (ttl_spec s now k) as [-> ->]. rewrite Hk.
  apply lookup_cache_at in Hk as [_ Hl]. unfold live_at in Hl. cbn in Hl. cbn [from_option].
  assert (Hm : millis_left now deadline = (deadline - now) / NS_PER_MS)
    by (unfold millis_left; by rewrite Z.max_r by lia).
  rewrite <- Hm in *. destruct (remaining_far now v deadline Hb) as [-> ->].
  assert (1 <= (2 ^ 64 - 500 - millis_left now deadline) / 1000) by (apply Z.div_le_lower_bound; lia).
  split_and!; try done; lia.
Qed.

(** ** Counters *)

Lemma get_counts s now k :
  hits (get s now k).2 = match (get s now k).1 with Some _ => wrap_u64 (hits s + 1) | None => hits s end ∧
  misses (get s now k).2 =
    match (get s now k).1 with Some _ => misses s | None => wrap_u64 (misses s + 1) end.
Proof.
  unfold get. assert (hits (expire_if_needed s k now) = hits s ∧
    misses (expire_if_needed s k now) = misses s) as [Hh Hm].
  { destruct (expire_if_needed_cases s k now) as [->| ->]; [done|].
    unfold remove_accounted. by case_match. }
  destruct (entries _ !! k) as [e|]; cbn; by rewrite Hh, Hm.
Qed.

(** MGET counts one hit per value and one miss per nil, as that many GETs. *)
Theorem mget_counts now keys : ∀ s,
  0 <= hits s <= u64_max → 0 <= misses s <= u64_max →
  let '(vs, s') := mget s now keys in
  length vs = length keys ∧
  hits s' = wrap_u64 (hits s + len (base.filter is_Some vs)) ∧
  misses s' = wrap_u64 (misses s + len (base.filter (λ v, v = None) vs)).
Proof.
  induction keys as [|k keys IH]; intros s Hh Hm; cbn [mget].
  { split; [done|]. unfold len. cbn. by rewrite !Z.add_0_r, !wrap_u64_small. }
  destruct (get_counts s now k) as [Hgh Hgm]. destruct (get s now k) as [v s1]. cbn [fst snd] in *.
  specialize (IH s1). destruct (mget s1 now keys) as [vs s2].
  destruct IH as (Hl & Hh2 & Hm2).
  { rewrite Hgh. destruct v; [apply wrap_u64_range|done]. }
  { rewrite Hgm. destruct v; [done|apply wrap_u64_range]. }
  split; [cbn; by rewrite Hl|]. rewrite !filter_cons, Hh2, Hm2, Hgh, Hgm.
  destruct v as [v|].
  - rewrite decide_True, decide_False by (done || by eexists).
    split; [|done]. rewrite wrap_u64_add_l. f_equal. unfold len. cbn [length]. lia.
  - rewrite decide_False, decide_True by (done || by intros [? ?]).
    split; [done|]. rewrite wrap_u64_add_l. f_equal. unfold len. cbn [length]. lia.
Qed.
End facts.

(** ** Instances *)

#[local] Instance entry_order : HashIter bytes Entry := listing_order bytes Entry.

(** Key [k] without deadline, [x] expiring at 5 ms, [y] at 2^63 ms. *)
Definition three_keys : Store :=
  (store_run (with_max_memory 300)
    [(0, OpSet (lit "k") (lit "1") ExpiryNone CondNone false);
     (0, OpSet (lit "x") (lit "22") (At (5 * NS_PER_MS)) CondNone false);
     (0, OpSet (lit "y") (lit "3") (At (2 ^ 63 * NS_PER_MS)) CondNone false)]).2.

Lemma three_keys_sound : sound three_keys.
Proof. split; [by vm_compute|]. unfold counters_ok. by vm_compute. Qed.

Lemma set_stores_witness :
  let s' := (set three_keys 0 (lit "z") (lit "4") ExpiryNone CondNone false).2 in
  store_len s' = 3 ∧ contents s' !! lit "z" = Some (lit "4", None) ∧ within_budget s'.
Proof.
  cbn zeta. split; [by vm_compute|].
  destruct (set three_keys 0 (lit "z") (lit "4") ExpiryNone CondNone false) as [o s'] eqn:He.
  assert (Ho : applied (set three_keys 0 (lit "z") (lit "4") ExpiryNone CondNone false).1 = true)
    by by vm_compute.
  rewrite He in Ho.
  destruct (set_stores _ _ _ _ _ _ _ _ _ three_keys_sound He Ho) as (Hk & _ & Hw). by split.
Defined.

Lemma evict_loop_terminates_witness :
  size (entries (evict_loop 4 100 (lit "k") three_keys)) = 1%nat ∧
  evict_loop 1000 100 (lit "k") three_keys = evict_loop 4 100 (lit "k") three_keys.
Proof.
  split; [by vm_compute|].
  apply evict_loop_terminates; [apply three_keys_sound|vm_compute; lia|lia].
Defined.

Lemma ttl_rounds_witness :
  (pttl_millis three_keys 1 (lit "x")).1 = 4 ∧ 0 <= (ttl_seconds three_keys 1 (lit "x")).1.
Proof.
  destruct (ttl_rounds three_keys 1 (lit "x") (lit "22") (5 * NS_PER_MS)) as (Hms & _ & Hs & _);
    [by vm_compute|by vm_compute|]. split; [by rewrite Hms; vm_compute|done].
Defined.

Lemma sweep_reclaims_witness :
  let '(count, s') := active_expire_sweep three_keys (6 * NS_PER_MS) 20 in
  count = 1 ∧ contents s' = cache_at (6 * NS_PER_MS) (contents three_keys).
Proof.
  destruct (active_expire_sweep three_keys (6 * NS_PER_MS) 20) as [count s'] eqn:He.
  destruct (sweep_reclaims _ _ _ _ _ He) as (Hc & _ & _ & Hall). split.
  - by apply (f_equal fst) in He; vm_compute in He.
  - apply Hall. by vm_compute; lia.
Defined.

(** Under this order [y] comes first, so a sweep of one entry never sees [x]. *)
Definition two_keys : Store :=
  (store_run store_new
    [(0, OpSet (lit "x") (lit "1") (At (5 * NS_PER_MS)) CondNone false);
     (0, OpSet (lit "y") (lit "2") ExpiryNone CondNone false)]).2.

Lemma sweep_blind_spot_witness :
  active_expire_sweep two_keys (6 * NS_PER_MS) 1 = (0, two_keys) ∧
  is_Some (entries two_keys !! lit "x") ∧
  cache_at (6 * NS_PER_MS) (contents two_keys) !! lit "x" = None.
Proof.
  split; [|split; [vm_compute; by eexists|by vm_compute]].
  apply sweep_blind_spot. intros k e Hin.
  replace (take 1 (hash_iter (entries two_keys)))
    with [(lit "y", mkEntry (lit "2") None true)] in Hin by by vm_compute.
  by apply list_elem_of_singleton in Hin as [= -> ->].
Defined.

Definition two_expired_keys : Store :=
  (store_run store_new
    [(0, OpSet (lit "x") (lit "1") (At (5 * NS_PER_MS)) CondNone false);
     (0, OpSet (lit "y") (lit "2") (At (5 * NS_PER_MS)) CondNone false)]).2.

Lemma random_key_expired_witness :
  (random_key two_expired_keys (6 * NS_PER_MS)).1 = Some (lit "x") ∧
  cache_at (6 * NS_PER_MS) (contents two_expired_keys) = ∅.
Proof.
  split; [by vm_compute|]. apply random_key_expired; [|vm_compute; lia].
  intros k e Hk%elem_of_map_to_list.
  replace (map_to_list (entries two_expired_keys))
    with [(lit "y", mkEntry (lit "2") (Some (5 * NS_PER_MS)) true);
          (lit "x", mkEntry (lit "1") (Some (5 * NS_PER_MS)) true)] in Hk by by vm_compute.
  by apply elem_of_cons in Hk as [[= -> ->]|[= -> ->]%list_elem_of_singleton].
Defined.

(** SET k v EX 10000000000000000, and TTL k. *)
Definition far_key : Store :=
  (store_run store_new
    [(0, OpSet (lit "k") (lit "v") (At (10 ^ 16 * NS_PER_SEC)) CondNone false)]).2.

Lemma far_deadline_negative_witness :
  (ttl_seconds far_key 0 (lit "k")).1 = -8446744073709551.
Proof.
  destruct (far_deadline_negative far_key 0 (lit "k") (lit "v") (10 ^ 16 * NS_PER_SEC)) as (_ & -> & _);
    [by vm_compute|by vm_compute|by vm_compute].
Defined.

Lemma mget_counts_witness :
  let '(vs, s') := mget three_keys 1 [lit "k"; lit "no"; lit "x"] in
  length vs = 3%nat ∧ hits s' = 2 ∧ misses s' = 1.
Proof.
  destruct three_keys_sound as [_ (Hh0 & Hm0 & _)].
  pose proof (mget_counts 1 [lit "k"; lit "no"; lit "x"] three_keys Hh0 Hm0) as H.
  destruct (mget three_keys 1 _) as [vs s'] eqn:He.
  destruct H as (Hl & Hh & Hm). split; [exact Hl|].
  apply (f_equal fst) in He. rewrite Hh, Hm. vm_compute in He. cbn [fst] in He. subst vs.
  by vm_compute.
Defined.
