(* ===== verification/PropertyTests.v ===== *)
(** * The property tests and the fuzz targets

    The property tests of the store (crates/resp-store/src/proptests.rs) and
    the two fuzz targets of the codec (crates/resp-proto/fuzz/fuzz_targets),
    each a definition that returns whether the test passes on an input: [false]
    is a failing assertion or a panic.  The assertions that bound the number of
    iterations are the fuel of the loops. *)

From S2P Require Import Prelude RustStd Proto HashMap Scan Store.

(** ** Fuzz targets *)

Fixpoint parse_command_loop (fuel : nat) (buf : bytes) : bool :=
  match fuel with
  | O => false
  | S fuel =>
      match parse_command buf with
      | None => false
      | Some (Complete _ consumed) =>
          bool_decide (0 < consumed ∧ consumed ≤ length buf)%nat &&
          (let buf := drop consumed buf in
           if bool_decide (buf = []) then true else parse_command_loop fuel buf)
      | Some Incomplete | Some (Invalid _) => true
      end
  end.

Definition fuzz_parse_command (data : bytes) : bool := parse_command_loop (S (length data)) data.

Fixpoint parse_reply_loop (fuel : nat) (buf : bytes) : bool :=
  match fuel with
  | O => false
  | S fuel =>
      match parse_reply buf with
      | None => false
      | Some (RComplete _ consumed) =>
          bool_decide (0 < consumed ∧ consumed ≤ length buf)%nat &&
          (let buf := drop consumed buf in
           if bool_decide (buf = []) then true else parse_reply_loop fuel buf)
      | Some RIncomplete | Some (RInvalid _) => true
      end
  end.

Definition fuzz_parse_reply (data : bytes) : bool := parse_reply_loop (S (length data)) data.

(** ** Property tests *)

Section tests.
Context `{HE : !HashIter bytes Entry} `{HC : !HashIter Z ScanState}.

(** [s.set(now, key, value, Expiry::None, Condition::None, false)] *)
Definition plain_set (s : Store) (now : Instant) (key val : bytes) : Store :=
  (set s now key val ExpiryNone CondNone false).2.

(** *** Accounting *)

Fixpoint budget_loop (budget : Z) (now : Instant) (s : Store) (max_single_entry : Z)
    (ops : list (Z * nat)) : bool :=
  match ops with
  | [] => true
  | (key_id, value_len) :: ops =>
      let key := lit "k" ++ u_to_string key_id in
      let val := replicate value_len "x"%byte in
      let max_single_entry := Z.max max_single_entry (entry_bytes key (len val)) in
      let s := plain_set s now key val in
      (used_bytes s <=? wrap_u64 (budget + max_single_entry)) &&
      budget_loop budget now s max_single_entry ops
  end.

Definition never_exceeds_budget_by_more_than_one_entry (now : Instant) (ops : list (Z * nat)) : bool :=
  let budget := 4096 in budget_loop budget now (with_max_memory budget) 0 ops.

(** *** Expiry *)

Fixpoint set_expiring (now : Instant) (s : Store) (l : list (bytes * Z)) : option Store :=
  match l with
  | [] => Some s
  | (key, ttl_ms) :: l =>
      deadline ← instant_add now (from_millis ttl_ms);
      set_expiring now (set s now key (lit "v") (At deadline) CondNone false).2 l
  end.

Fixpoint all_gone (later : Instant) (s : Store) (keys : list bytes) : bool :=
  match keys with
  | [] => true
  | key :: keys =>
      let '(v, s) := get s later key in bool_decide (v = None) && all_gone later s keys
  end.

Definition expired_keys_never_returned (now : Instant) (ttls_ms : list Z) : bool :=
  let keys := map (λ i, lit "k" ++ u_to_string (Z.of_nat i)) (seq 0 (length ttls_ms)) in
  match set_expiring now store_new (zip keys ttls_ms), instant_add now (from_millis 1001) with
  | Some s, Some later => all_gone later s keys
  | _, _ => false
  end.

(** *** INCR *)

(** [i]: how often the cyclic iterator has been advanced. *)
Fixpoint incr_loop (now : Instant) (churn : list (Z * nat)) (s : Store) (expected : Z) (i : nat)
    (deltas : list Z) : bool :=
  match deltas with
  | [] => true
  | delta :: deltas =>
      match churn !! (i mod length churn)%nat with
      | None => false
      | Some (ck, cv) =>
          let churn_key := lit "churn" ++ u_to_string ck in
          let s := plain_set s now churn_key (replicate cv "y"%byte) in
          let expected := expected + delta in
          in_i64 expected &&
          (let '(result, s) := incr_by s now (lit "target") delta in
           match result with Ok n => n =? expected | Err _ => false end &&
           incr_loop now churn s expected (S i) deltas)
      end
  end.

Definition incr_monotonic_under_churn (now : Instant) (deltas : list Z) (churn : list (Z * nat)) : bool :=
  incr_loop now churn store_new 0 0 deltas.

(** *** SCAN *)

Inductive Churn : Type :=
| Touch (i : nat)
| Delete (i : nat)
| Insert (i : nat)
| Idle.

(** [{i:04}] *)
Definition pad4 (i : nat) : bytes :=
  let s := u_to_string (Z.of_nat i) in replicate (4 - length s) "0"%byte ++ s.

Definition init_key (i : nat) : bytes := lit "init:" ++ pad4 i.
Definition new_key (i : nat) : bytes := lit "new:" ++ pad4 i.

(** The store the scan tests start from. *)
Definition init_store (now : Instant) (n_initial : nat) : Store :=
  fold_left (λ s i, plain_set s now (init_key i) (lit "v0")) (seq 0 n_initial) store_new.

(** A mutation between two pages, and the keys deleted so far. *)
Definition churn_step (now : Instant) (n_initial : nat) (c : option Churn) (s : Store)
    (deleted : gset bytes) : Store * gset bytes :=
  match c with
  | Some (Touch i) => (plain_set s now (init_key (i mod n_initial)) (lit "v1"), deleted)
  | Some (Delete i) =>
      let k := init_key (i mod n_initial) in ((del s now [k]).2, {[k]} ∪ deleted)
  | Some (Insert i) => (plain_set s now (new_key i) (lit "v"), deleted)
  | Some Idle | None => (s, deleted)
  end.

(** [pages_left] is [max_pages - pages]. *)
Fixpoint churn_loop (pages_left : nat) (now : Instant) (n_initial : nat) (count : Z) (s : Store)
    (cursor : Z) (churn : list Churn) (deleted : gset bytes) (seen : list bytes)
    : option (list bytes * gset bytes) :=
  '(next, page, s) ← scan s now cursor count;
  let seen := seen ++ page in
  match pages_left with
  | O => None
  | S pages_left =>
      if next =? 0 then Some (seen, deleted)
      else
        let '(s, deleted) := churn_step now n_initial (head churn) s deleted in
        churn_loop pages_left now n_initial count s next (tail churn) deleted seen
  end.

Definition scan_never_misses_stable_keys_under_churn (now : Instant) (n_initial : nat) (count : Z)
    (churn : list Churn) : bool :=
  let max_pages := (8 * (n_initial + 40) + 64)%nat in
  match churn_loop max_pages now n_initial count (init_store now n_initial) 0 churn ∅ [] with
  | None => false
  | Some (seen, deleted) =>
      forallb (λ i, bool_decide (init_key i ∈ deleted) || bool_decide (init_key i ∈ seen))
        (seq 0 n_initial)
  end.

Fixpoint restart_loop (budget : nat) (now : Instant) (count : Z) (s : Store) (cursor : Z)
    (restarts : list nat) (pages_since_restart : nat) (seen : list bytes) : option (list bytes) :=
  '(next, page, s) ← scan s now cursor count;
  let seen := seen ++ page in
  let pages_since_restart := S pages_since_restart in
  match budget with
  | O => None
  | S budget =>
      if bool_decide (budget = 0%nat) then None
      else if next =? 0 then Some seen
      else
        match restarts with
        | after :: restarts =>
            if bool_decide (after < pages_since_restart)%nat
            then restart_loop budget now count s (u64_max - Z.of_nat budget) restarts 0 seen
            else restart_loop budget now count s next restarts pages_since_restart seen
        | [] => restart_loop budget now count s next [] pages_since_restart seen
        end
  end.

Definition scan_never_misses_stable_keys_across_forced_restarts (now : Instant) (n_initial : nat)
    (count : Z) (restart_after : list nat) : bool :=
  match restart_loop (8 * n_initial + 256) now count (init_store now n_initial) 0 restart_after 0 [] with
  | None => false
  | Some seen => forallb (λ i, bool_decide (init_key i ∈ seen)) (seq 0 n_initial)
  end.

Fixpoint written_loop (budget : nat) (now : Instant) (count : Z) (s : Store) (cursor : Z)
    (inserts : list nat) (ever_written : gset bytes) : bool :=
  match scan s now cursor count with
  | None => false
  | Some (next, page, s) =>
      forallb (λ k, bool_decide (k ∈ ever_written)) page &&
      match budget with
      | O => false
      | S budget =>
          negb (bool_decide (budget = 0%nat)) &&
          (if next =? 0 then true
           else
             match inserts with
             | i :: inserts =>
                 written_loop budget now count (plain_set s now (new_key i) (lit "v")) next inserts
                   ({[new_key i]} ∪ ever_written)
             | [] => written_loop budget now count s next [] ever_written
             end)
      end
  end.

Definition scan_never_returns_a_key_that_was_never_written (now : Instant) (n_initial : nat)
    (count : Z) (inserts : list nat) : bool :=
  written_loop (8 * (n_initial + 40) + 64) now count (init_store now n_initial) 0 inserts
    (list_to_set (map init_key (seq 0 n_initial))).
End tests.
