(* ===== verification/PropertyTestFacts.v ===== *)
(** * The property tests and the fuzz targets pass

    A test that draws random inputs checks some of them; here every input
    passes, for every clock and every iteration order of the hash maps. *)

From S2P Require Import Prelude RustStd Proto Partial HashMap Scan Store Cache PropertyTests.

(** ** The fuzz targets pass *)

Lemma fuzz_command_passes fuel buf : (length buf < fuel)%nat → parse_command_loop fuel buf = true.
Proof.
  revert buf. induction fuel as [|fuel IH]; intros buf Hf; [lia|]. cbn [parse_command_loop].
  destruct (parse_command_cases buf) as (o & -> & Ho). destruct o as [args n| |]; try done.
  destruct (Ho args n eq_refl) as [H0 Hn]. rewrite bool_decide_true by done. cbn [andb].
  case_bool_decide; [done|]. apply IH. rewrite length_drop. lia.
Qed.

Lemma fuzz_reply_passes fuel buf : (length buf < fuel)%nat → parse_reply_loop fuel buf = true.
Proof.
  revert buf. induction fuel as [|fuel IH]; intros buf Hf; [lia|]. cbn [parse_reply_loop].
  destruct (parse_reply_cases buf) as (o & -> & Ho). destruct o as [r n| |]; try done.
  destruct (Ho r n eq_refl) as ([H0 Hn] & _). rewrite bool_decide_true by done. cbn [andb].
  case_bool_decide; [done|]. apply IH. rewrite length_drop. lia.
Qed.

(** ** The property tests pass *)

Section facts.
Context `{HE : !HashIter bytes Entry} `{HC : !HashIter Z ScanState}.

(** *** Accounting *)

Lemma plain_set_eq s now k v :
  plain_set s now k v = insert_accounted (expire_if_needed s k now) k (mkEntry v None false).
Proof. done. Qed.

(** After a write the store is within budget, or holds that entry alone. *)
Lemma plain_set_used s now k v b :
  sound s → max_memory_bytes s = Some b →
  let s' := plain_set s now k v in
  sound s' ∧ max_memory_bytes s' = Some b ∧ (used_bytes s' <= b ∨ used_bytes s' = entry_bytes k (len v)).
Proof.
  intros Hs Hb. cbv zeta. rewrite plain_set_eq.
  destruct (P_expired now sound (cache_le now) s k Hs) as [Ha Hc].
  destruct (insert_accounted_spec _ k (mkEntry v None false) Ha Hc) as
    (Ha' & Hc' & Hw & [Hcfg _] & _ & _ & _ & Hk & _).
  destruct (config_expired s k now) as [Hm _]. rewrite Hm, Hb in Hcfg.
  set (s' := insert_accounted _ _ _) in *. split; [by split|]. split; [done|].
  unfold within_budget in Hw. rewrite Hcfg in Hw. destruct Hw as [?|Hsz]; [by left|right].
  assert (Hone : contents s' = {[k := (v, None)]}).
  { apply map_eq. intros j. destruct (decide (j = k)) as [->|Hj].
    - by rewrite Hk, lookup_singleton_eq.
    - rewrite lookup_singleton_ne by done. destruct (contents s' !! j) as [d|] eqn:Hd; [|done].
      exfalso. rewrite <- size_contents in Hsz.
      assert ({[j := d]} ∪ {[k := (v, None)]} ⊆ contents s') as Hsub.
      { apply map_union_least; by apply map_singleton_subseteq_l. }
      apply map_subseteq_size in Hsub. rewrite map_size_disj_union, !map_size_singleton in Hsub; [lia|].
      by apply map_disjoint_singleton_l_2, lookup_singleton_ne. }
  rewrite Ha', Hone, <- insert_empty, total_bytes_insert, delete_empty, total_bytes_empty.
  cbn [fst]. rewrite Z.add_0_r. apply wrap_u64_small, entry_bytes_range.
Qed.

Lemma budget_loop_passes now b ops : ∀ s m,
  sound s → max_memory_bytes s = Some b → 0 <= b <= 2 ^ 32 → 0 <= m <= 2 ^ 32 →
  Forall (λ op : Z * nat, 0 <= op.1 < 2 ^ 32 ∧ Z.of_nat op.2 < 2 ^ 31) ops →
  budget_loop b now s m ops = true.
Proof.
  induction ops as [|[id n] ops IH]; intros s m Hs Hb Hbr Hm Hops; [done|].
  apply Forall_cons in Hops as [[Hid Hn] Hops]. cbn [fst snd budget_loop] in *.
  set (k := lit "k" ++ u_to_string id). set (v := replicate n "x"%byte).
  assert (He : 0 <= entry_bytes k (len v) <= 2 ^ 32).
  { unfold entry_bytes, k, v, len. rewrite length_app, length_replicate.
    assert (length (lit "k") = 1%nat) by done.
    assert ((length (u_to_string id) ≤ 65)%nat) by (apply u_to_string_short; unfold u64_max; lia).
    rewrite wrap_u64_small; unfold PER_ENTRY_OVERHEAD_BYTES, u64_max; lia. }
  destruct (plain_set_used s now k v b Hs Hb) as (Hs' & Hb' & Hu). cbv zeta in *.
  rewrite wrap_u64_small by (unfold u64_max; lia).
  rewrite (proj2 (Z.leb_le _ _)) by lia. cbn [andb]. apply IH; try done. lia.
Qed.
(** *** Expiry *)

Lemma set_expiring_gone now later l : ∀ s,
  unbounded s → cache_at later (contents s) = ∅ → now <= later → later < instant_end →
  Forall (λ kt, 0 <= kt.2 <= u64_max ∧ now + kt.2 * NS_PER_MS <= later) l →
  ∃ s', set_expiring now s l = Some s' ∧ unbounded s' ∧ cache_at later (contents s') = ∅.
Proof.
  induction l as [|[k ttl] l IH]; intros s Hu Hc Hle Hend Hl; cbn [set_expiring]; [by exists s|].
  apply Forall_cons in Hl as [[Ht Hd] Hl]. cbn [fst snd] in *.
  unfold instant_add, from_millis. rewrite wrap_u64_small by done.
  rewrite (proj2 (Z.ltb_lt _ _)) by lia. cbn [mbind option_bind].
  pose proof (write_set now unbounded (cache_eq now) k (lit "v") (At (now + ttl * NS_PER_MS)) s Hu) as H.
  destruct (set _ _ _ _ _ _ _) as [o s1]. destruct H as (_ & _ & Hu1 & Hc1). cbn [snd].
  apply IH; try done. specialize (Hc1 ltac:(done)). apply (cache_eq_later now later) in Hc1; [|done].
  rewrite Hc1. apply map_empty. intros j. rewrite lookup_cache_at_eq.
  destruct (decide (j = k)) as [->|Hj].
  - rewrite lookup_insert_eq. cbn [new_deadline mbind option_bind].
    rewrite decide_False; [done|]. unfold live_at. cbn. lia.
  - rewrite lookup_insert_ne by done. rewrite <- lookup_cache_at_eq, Hc. apply lookup_empty.
Qed.

Lemma all_gone_passes later keys : ∀ s,
  cache_at later (contents s) = ∅ → all_gone later s keys = true.
Proof.
  induction keys as [|k keys IH]; intros s Hc; cbn [all_gone]; [done|].
  destruct (get_spec s later k) as [Hv Hc']. destruct (get s later k) as [v s']. cbn [fst snd] in *.
  rewrite Hc, lookup_empty in Hv. cbn in Hv. subst v. rewrite bool_decide_true by done. cbn [andb].
  apply IH. unfold cache_eq in Hc'. by rewrite Hc'.
Qed.

(** *** INCR *)

(** The counter as the test expects it: absent while it is 0, else its digits. *)
Definition counter_is (now : Instant) (s : Store) (n : Z) : Prop :=
  cache_at now (contents s) !! lit "target" = None ∧ n = 0 ∨
  cache_at now (contents s) !! lit "target" = Some (i_to_string n, None).

Lemma plain_set_cache s now k v :
  unbounded s → unbounded (plain_set s now k v) ∧
  cache_at now (contents (plain_set s now k v)) = <[k := (v, None)]> (cache_at now (contents s)).
Proof.
  intros Hu. pose proof (write_set now unbounded (cache_eq now) k v ExpiryNone s Hu) as H.
  unfold plain_set. destruct (set _ _ _ _ _ _ _) as [o s1]. destruct H as (_ & _ & Hu1 & Hc1).
  split; [done|]. cbn [snd]. rewrite (Hc1 ltac:(done)). cbn [new_deadline].
  unfold cache_at. by rewrite map_filter_insert_True.
Qed.

Lemma incr_counter now s n delta :
  unbounded s → counter_is now s n → in_i64 n = true → in_i64 (n + delta) = true →
  let '(r, s') := incr_by s now (lit "target") delta in
  r = Ok (n + delta) ∧ unbounded s' ∧ counter_is now s' (n + delta).
Proof.
  intros Hu Hn Hi Hi'.
  pose proof (incr_R now unbounded (cache_eq now) s (lit "target") delta Hu) as H.
  pose proof (P_step now unbounded (cache_eq now) (OpIncrBy (lit "target") delta) s Hu) as Hu'.
  cbn [store_step live_step] in H, Hu'.
  destruct (incr_by s now (lit "target") delta) as [r s'].
  assert (Hins : ∀ c, cache_eq now (contents s') (<[lit "target" := (i_to_string (n + delta), None)]> c) →
    counter_is now s' (n + delta)).
  { intros c Hc. right. rewrite Hc. apply lookup_cache_at. by rewrite lookup_insert_eq. }
  destruct Hn as [[Hk ->]|Hk]; rewrite Hk in H; cbn [from_option default] in H.
  - rewrite Z.add_0_l in *. rewrite Hi' in H. cbn in H. destruct H as [[= ->] Hc].
    split; [done|]. split; [exact Hu'|]. by eapply Hins.
  - cbn [fst] in H. rewrite parse_i64_i_to_string in H by (unfold in_i64 in Hi; bools; lia).
    rewrite Hi' in H. destruct H as [[= ->] Hc].
    split; [done|]. split; [exact Hu'|]. by eapply Hins.
Qed.
Lemma incr_loop_passes now churn deltas : ∀ s n i,
  unbounded s → counter_is now s n → churn ≠ [] →
  Forall (λ d, -100 <= d <= 100) deltas → Z.abs n + 100 * len deltas <= i64_max →
  incr_loop now churn s n i deltas = true.
Proof.
  induction deltas as [|d deltas IH]; intros s n i Hu Hn Hne Hd Hb; cbn [incr_loop]; [done|].
  apply Forall_cons in Hd as [Hd Hds]. pose proof (len_nonneg deltas).
  replace (len (d :: deltas)) with (1 + len deltas) in Hb by (unfold len; cbn [length]; lia).
  destruct (lookup_lt_is_Some_2 churn (i mod length churn)) as [[ck cv] ->].
  { apply Nat.mod_upper_bound. by destruct churn. }
  assert (Hi : in_i64 n = true ∧ in_i64 (n + d) = true).
  { unfold in_i64, i64_min, i64_max in *. split; apply range_true; lia. }
  destruct Hi as [Hi Hi']. rewrite Hi'. cbn [andb].
  set (ckey := lit "churn" ++ u_to_string ck).
  destruct (plain_set_cache s now ckey (replicate cv "y"%byte) Hu) as [Hu1 Hc1].
  assert (Hn1 : counter_is now (plain_set s now ckey (replicate cv "y"%byte)) n).
  { unfold counter_is. rewrite Hc1, lookup_insert_ne; [exact Hn|]. unfold ckey. cbn. discriminate. }
  pose proof (incr_counter now _ n d Hu1 Hn1 Hi Hi') as H'.
  destruct (incr_by _ now (lit "target") d) as [r s']. destruct H' as (-> & Hu' & Hn').
  rewrite Z.eqb_refl. cbn [andb]. apply IH; try done. lia.
Qed.

(** *** SCAN *)

Lemma evict_loop_registry b p fuel : ∀ s, scan_registry (evict_loop fuel b p s) = scan_registry s.
Proof.
  induction fuel as [|fuel IH]; intros s; cbn [evict_loop]; [done|]. destruct (_ && _); [|done].
  destruct (evict_scan _ _ _ _) as [[k|] m]; [|done]. rewrite IH. cbn [add_eviction scan_registry].
  by rewrite (proj2 (config_remove (set_entries s m (used_bytes s)) k)).
Qed.

Lemma plain_set_registry s now k v : scan_registry (plain_set s now k v) = scan_registry s.
Proof.
  rewrite plain_set_eq. unfold insert_accounted, evict_to_budget.
  destruct (config_expired s k now) as [_ Hr]. case_match; [rewrite evict_loop_registry|];
    cbn [set_entries scan_registry]; exact Hr.
Qed.

Lemma del_one_registry s now k : scan_registry (del s now [k]).2 = scan_registry s.
Proof.
  cbn [del]. pose proof (config_remove (expire_if_needed s k now) k) as [_ Hr].
  destruct (remove_accounted _ k) as [removed s1]. cbn [snd] in *. rewrite Hr.
  apply config_expired.
Qed.

(** The keys a scan starts with. *)
Lemma live_keys_spec s now k :
  k ∈ live_keys s now ↔ is_Some (cache_at now (contents s) !! k).
Proof.
  change (live_keys s now) with (all_keys s now). rewrite all_keys_spec, list_elem_of_fmap. split.
  - intros ([k' d] & -> & Hd%elem_of_map_to_list). cbn. by exists d.
  - intros [d Hd]. exists (k, d). by rewrite elem_of_map_to_list.
Qed.

Lemma live_keys_length s now : length (live_keys s now) = size (cache_at now (contents s)).
Proof.
  change (live_keys s now) with (all_keys s now).
  by rewrite all_keys_spec, length_map, length_map_to_list.
Qed.

Lemma init_store_spec now n :
  unbounded (init_store now n) ∧ scan_registry (init_store now n) = registry_new ∧
  (∀ k, k ∈ live_keys (init_store now n) now ↔ k ∈ map init_key (seq 0 n)) ∧
  (length (live_keys (init_store now n) now) ≤ n)%nat.
Proof.
  unfold init_store.
  assert (H : ∀ l s, unbounded s → scan_registry s = registry_new →
    let s' := fold_left (λ s i, plain_set s now (init_key i) (lit "v0")) l s in
    unbounded s' ∧ scan_registry s' = registry_new ∧
    (∀ k, k ∈ live_keys s' now ↔ k ∈ live_keys s now ∨ k ∈ map init_key l) ∧
    (length (live_keys s' now) ≤ length (live_keys s now) + length l)%nat).
  { induction l as [|i l IH]; intros s Hu Hr; cbn [fold_left map length].
    { split_and!; try done; [|lia]. intros k. split; [by left|]. intros [?|Hk]; [done|]. by apply not_elem_of_nil in Hk. }
    destruct (plain_set_cache s now (init_key i) (lit "v0") Hu) as [Hu1 Hc1].
    destruct (IH (plain_set s now (init_key i) (lit "v0")) Hu1) as (Hu' & Hr' & Hk & Hl).
    { by rewrite plain_set_registry. }
    split_and!; try done.
    - intros k. rewrite Hk, !live_keys_spec, Hc1, elem_of_cons, lookup_insert_is_Some.
      destruct (decide (init_key i = k)) as [->|]; [tauto|]. intuition congruence.
    - rewrite !live_keys_length in *. rewrite Hc1 in Hl.
      etrans; [exact Hl|]. rewrite map_size_insert. case_match; cbn [length]; unfold id; lia. }
  destruct (H (seq 0 n) store_new eq_refl eq_refl) as (H1 & H2 & H3 & H4). rewrite length_seq in H4.
  assert (He : live_keys store_new now = []).
  { apply length_zero_iff_nil. rewrite live_keys_length. cbn. done. }
  rewrite He in *. split_and!; try done. intros k. rewrite H3. split; [|by right].
  intros [Hk|?]; [|done]. by apply not_elem_of_nil in Hk.
Qed.
(** A page of a store's scan: [keys] are those it has to serve. *)
Definition page_of (keys : list bytes) (c : Z) (now : Instant) (s : Store)
    (o : option (Z * list bytes * Store)) : Prop :=
  ∃ c' page rest s', o = Some (c', page, s') ∧ keys = page ++ rest ∧ (keys ≠ [] → page ≠ []) ∧
    entries s' = entries s ∧
    (c' = 0 ∧ rest = [] ∨ c' = c ∧ rest ≠ [] ∧ following (scan_registry s') c now rest).

Lemma scan_paged s now c c1 count keys :
  paged keys c1 now (registry_scan (scan_registry s) now c count (λ _, live_keys s now)) →
  page_of keys c1 now s (scan s now c count).
Proof.
  intros (c' & page & reg' & rest & Hr & Hk & Hp & Hc). unfold scan. rewrite Hr. cbn [mbind option_bind].
  exists c', page, rest, (set_registry s reg'). by split_and!.
Qed.

Lemma scan_live s now c count rest :
  count_ok count → c ≠ 0 → following (scan_registry s) c now rest →
  page_of rest c now s (scan s now c count).
Proof.
  intros. apply scan_paged. eapply registry_scan_live; try done.
  unfold duration_since, CURSOR_IDLE_EXPIRY, NS_PER_SEC. lia.
Qed.

Lemma scan_fresh s now c count :
  registry_ok (scan_registry s) → ids_left (scan_registry s) → count_ok count →
  len (live_keys s now) <= i64_max → c = 0 ∨ cursors (scan_registry s) !! c = None →
  page_of (live_keys s now) (next_id (scan_registry s) + 1) now s (scan s now c count).
Proof. intros. by apply scan_paged, registry_scan_fresh. Qed.

Lemma following_ne reg c t rest : following reg c t rest → rest ≠ [].
Proof.
  intros (st & _ & _ & Hrest & Hpos & _) ->. apply (f_equal length) in Hrest.
  rewrite length_drop in Hrest. cbn in Hrest. lia.
Qed.

Lemma churn_step_registry now n ch s deleted :
  scan_registry (churn_step now n ch s deleted).1 = scan_registry s.
Proof.
  destruct ch as [[i|i|i|]|]; cbn [churn_step fst]; try done;
    [apply plain_set_registry|apply del_one_registry|apply plain_set_registry].
Qed.

(** The first page of a scan of the initial store. *)
Lemma first_page now n count :
  (1 ≤ n)%nat → Z.of_nat n <= i64_max → count_ok count →
  page_of (live_keys (init_store now n) now) 1 now (init_store now n)
    (scan (init_store now n) now 0 count) ∧
  live_keys (init_store now n) now ≠ [].
Proof.
  intros Hn Hmax Hc. destruct (init_store_spec now n) as (_ & Hr & Hk & Hl). split.
  - pose proof (scan_fresh (init_store now n) now 0 count) as H. rewrite Hr in H.
    apply H; [apply registry_new_ok|done|done| |by left]. unfold len. lia.
  - intros He. specialize (Hk (init_key 0)). rewrite He in Hk.
    apply (not_elem_of_nil (init_key 0)). apply Hk, list_elem_of_fmap.
    exists 0%nat. split; [done|]. apply elem_of_seq. lia.
Qed.

Lemma churn_loop_live now n count pages : ∀ s c churn deleted seen rest,
  count_ok count → c ≠ 0 → following (scan_registry s) c now rest → (length rest ≤ pages)%nat →
  ∃ deleted', churn_loop pages now n count s c churn deleted seen = Some (seen ++ rest, deleted').
Proof.
  induction pages as [|pages IH]; intros s c churn deleted seen rest Hc Hc0 Hf Hl;
    pose proof (following_ne _ _ _ _ Hf) as Hne.
  { destruct rest; [done|]. cbn in Hl. lia. }
  destruct (scan_live s now c count rest Hc Hc0 Hf) as (c' & page & rest' & s' & Hs & -> & Hp & _ & Hcase).
  cbn [churn_loop]. rewrite Hs. cbn [mbind option_bind].
  destruct Hcase as [[-> ->]|(-> & Hr & Hf')]; [exists deleted; by rewrite app_nil_r|].
  destruct (Z.eqb_spec c 0); [done|].
  pose proof (churn_step_registry now n (head churn) s' deleted) as Hreg.
  destruct (churn_step now n (head churn) s' deleted) as [s1 deleted1]. cbn [fst] in Hreg.
  rewrite length_app in Hl. specialize (Hp Hne). destruct page as [|x page]; [done|].
  destruct (IH s1 c (tail churn) deleted1 (seen ++ x :: page) rest' Hc Hc0) as [d' Hd].
  - by rewrite Hreg.
  - cbn in Hl. lia.
  - exists d'. by rewrite Hd, <- app_assoc.
Qed.

Lemma under_churn_passes now n count churn :
  (1 ≤ n)%nat → Z.of_nat n <= i64_max → count_ok count →
  scan_never_misses_stable_keys_under_churn now n count churn = true.
Proof.
  intros Hn Hmax Hc. unfold scan_never_misses_stable_keys_under_churn.
  destruct (init_store_spec now n) as (_ & _ & Hk & Hl).
  destruct (first_page now n count Hn Hmax Hc) as [(c' & page & rest & s' & Hs & Hkeys & Hp & _ & Hcase) Hne].
  set (pages := (8 * (n + 40) + 64)%nat).
  assert (∃ seen deleted, churn_loop pages now n count (init_store now n) 0 churn ∅ [] = Some (seen, deleted) ∧
    seen = live_keys (init_store now n) now) as (seen & deleted & -> & ->).
  { replace pages with (S (8 * n + 383))%nat by (unfold pages; lia). cbn [churn_loop]. rewrite Hs.
    cbn [mbind option_bind app]. destruct Hcase as [[-> ->]|(-> & Hr & Hf)].
    - exists page, ∅. split; [done|]. by rewrite Hkeys, app_nil_r.
    - change (1 =? 0) with false. cbv iota.
      pose proof (churn_step_registry now n (head churn) s' ∅) as Hreg.
      destruct (churn_step now n (head churn) s' ∅) as [s1 deleted1]. cbn [fst] in Hreg.
      destruct (churn_loop_live now n count (8 * n + 383) s1 1 (tail churn) deleted1 page rest)
        as [d' ->]; [done|done|by rewrite Hreg| |].
      + rewrite Hkeys, length_app in Hl. lia.
      + exists (page ++ rest), d'. by rewrite Hkeys. }
  apply forallb_forall. intros i Hi%list_elem_of_In. apply orb_true_iff. right.
  apply bool_decide_true, Hk, list_elem_of_fmap. by exists i.
Qed.
Lemma scan_registry_ok s now c count c' page s' :
  registry_ok (scan_registry s) → ids_left (scan_registry s) → count_ok count →
  len (live_keys s now) <= i64_max → scan s now c count = Some (c', page, s') →
  registry_ok (scan_registry s') ∧ next_id (scan_registry s') <= next_id (scan_registry s) + 1 ∧
  live_keys s' now = live_keys s now.
Proof.
  intros Hok Hl Hc Hk Hs. unfold scan in Hs.
  destruct (registry_scan_spec (scan_registry s) now c count (λ _, live_keys s now) Hok Hl Hc Hk)
    as (c1 & p1 & r1 & Hr & Hok' & Hid & _).
  rewrite Hr in Hs. injection Hs as _ _ <-. cbn [scan_registry set_registry].
  split; [done|]. split; [lia|done].
Qed.

(** What a scan with restarts still has to visit, and the turns it may take. *)
Definition restart_inv (now : Instant) (K : list bytes) (s : Store) (c : Z) (restarts : list nat)
    (seen : list bytes) (budget : nat) : Prop :=
  (c = 0 ∨ cursors (scan_registry s) !! c = None) ∧ (length restarts + length K < budget)%nat ∨
  ∃ rest, c ≠ 0 ∧ following (scan_registry s) c now rest ∧ (length rest ≤ length K)%nat ∧
    (∀ k, k ∈ K → k ∈ seen ∨ k ∈ rest) ∧
    (match restarts with [] => length rest | _ => length restarts + length K end < budget)%nat.

Lemma restart_page now K s c count restarts seen budget :
  registry_ok (scan_registry s) → ids_left (scan_registry s) → count_ok count →
  len K <= i64_max → live_keys s now = K → K ≠ [] →
  restart_inv now K s c restarts seen budget →
  ∃ todo c1, page_of todo c1 now s (scan s now c count) ∧ c1 ≠ 0 ∧ todo ≠ [] ∧
    (length todo ≤ length K)%nat ∧ (∀ k, k ∈ K → k ∈ seen ∨ k ∈ todo) ∧
    (match restarts with [] => length todo | _ => length restarts + length K end < budget)%nat.
Proof.
  intros Hok Hleft Hc Hk HK Hne [[Hfresh Hb]|(rest & Hc0 & Hf & Hl & Hall & Hb)].
  - exists K, (next_id (scan_registry s) + 1). subst K.
    split; [by apply scan_fresh|]. destruct Hok as ([Hid _] & _).
    split_and!; [lia|done|done|by right|]. destruct restarts; cbn in *; lia.
  - exists rest, c. split; [by apply scan_live|]. split_and!; try done. by eapply following_ne.
Qed.

Lemma restart_loop_passes now count K budget : ∀ s c restarts pages seen,
  registry_ok (scan_registry s) → next_id (scan_registry s) + Z.of_nat budget < u64_max →
  count_ok count → len K <= i64_max → live_keys s now = K → K ≠ [] →
  restart_inv now K s c restarts seen budget →
  ∃ seen', restart_loop budget now count s c restarts pages seen = Some seen' ∧
    ∀ k, k ∈ K → k ∈ seen'.
Proof.
  induction budget as [|budget IH]; intros s c restarts pages seen Hok Hid Hc Hk HK Hne Hinv;
    (destruct (restart_page now K s c count restarts seen _ Hok ltac:(unfold ids_left; lia) Hc Hk HK Hne Hinv)
      as (todo & c1 & (c' & page & rest & s' & Hs & Htodo & Hp & _ & Hcase) & Hc1 & Hne' & Hl & Hall & Hb)).
  { destruct restarts; [|cbn in Hb]; lia. }
  assert (Hkl : len (live_keys s now) <= i64_max) by by rewrite HK.
  destruct (scan_registry_ok s now c count c' page s' Hok ltac:(unfold ids_left; lia) Hc Hkl Hs) as (Hok' & Hid' & HK').
  specialize (Hp Hne'). assert (Hlt : (length rest < length todo)%nat).
  { rewrite Htodo, length_app. destruct page; [done|]. cbn. lia. }
  assert (Hall' : ∀ k, k ∈ K → k ∈ seen ++ page ∨ k ∈ rest).
  { intros k Hkk. specialize (Hall k Hkk). rewrite Htodo in Hall. rewrite !elem_of_app in *. tauto. }
  cbn [restart_loop]. rewrite Hs. cbn [mbind option_bind].
  assert (Hb1 : (1 ≤ budget)%nat) by (destruct restarts; cbn in Hb; lia).
  rewrite bool_decide_false by lia.
  destruct Hcase as [[-> ->]|(-> & Hr & Hf)].
  { cbn. exists (seen ++ page). split; [done|]. intros k Hkk. destruct (Hall' k Hkk) as [?|Hn]; [done|].
    by apply not_elem_of_nil in Hn. }
  destruct (Z.eqb_spec c1 0); [done|].
  assert (Hlive : ∀ r, (match r with [] => length rest | _ => length r + length K end < budget)%nat →
    restart_inv now K s' c1 r (seen ++ page) budget).
  { intros r Hr'. right. exists rest. split_and!; try done. lia. }
  rewrite HK in HK'. destruct restarts as [|after restarts].
  { apply IH; try done; [lia|]. apply Hlive. lia. }
  cbn [length] in Hb. case_bool_decide.
  - apply IH; try done; [lia|]. left. split; [|lia]. right.
    destruct (cursors (scan_registry s') !! _) as [st|] eqn:E; [|done].
    destruct Hok' as (_ & _ & Hall2). apply Hall2 in E as [? _]. lia.
  - apply IH; try done; [lia|]. apply Hlive. destruct restarts; cbn in *; lia.
Qed.

Lemma across_restarts_passes now n count restarts :
  (1 ≤ n)%nat → Z.of_nat n <= 2 ^ 32 → (length restarts ≤ 200)%nat → count_ok count →
  scan_never_misses_stable_keys_across_forced_restarts now n count restarts = true.
Proof.
  intros Hn Hmax Hr Hc. unfold scan_never_misses_stable_keys_across_forced_restarts.
  destruct (init_store_spec now n) as (_ & Hreg & Hk & Hl).
  destruct (first_page now n count Hn ltac:(unfold i64_max; lia) Hc) as [_ Hne].
  destruct (restart_loop_passes now count (live_keys (init_store now n) now) (8 * n + 256)
    (init_store now n) 0 restarts 0 []) as (seen & -> & Hall); try done.
  - rewrite Hreg. apply registry_new_ok.
  - rewrite Hreg. unfold u64_max. cbn [next_id registry_new]. lia.
  - unfold len, i64_max. lia.
  - left. split; [by left|]. lia.
  - apply forallb_forall. intros i Hi%list_elem_of_In.
    apply bool_decide_true, Hall, Hk, list_elem_of_fmap. by exists i.
Qed.

Lemma written_loop_live now count budget : ∀ s c inserts written rest,
  count_ok count → c ≠ 0 → following (scan_registry s) c now rest → (length rest < budget)%nat →
  (∀ k, k ∈ rest → k ∈ written) → written_loop budget now count s c inserts written = true.
Proof.
  induction budget as [|budget IH]; intros s c inserts written rest Hc Hc0 Hf Hl Hw; [lia|].
  pose proof (following_ne _ _ _ _ Hf) as Hne.
  destruct (scan_live s now c count rest Hc Hc0 Hf) as (c' & page & rest' & s' & Hs & -> & Hp & _ & Hcase).
  cbn [written_loop]. rewrite Hs. rewrite length_app in Hl. specialize (Hp Hne).
  assert (Hlp : (0 < length page)%nat) by (destruct page; [done|cbn; lia]).
  apply andb_true_iff. split.
  { apply forallb_forall. intros k Hk%list_elem_of_In. apply bool_decide_true, Hw, elem_of_app. by left. }
  rewrite bool_decide_false by lia. cbn [negb andb].
  destruct (Z.eqb_spec c' 0) as [|Hc']; [done|].
  destruct Hcase as [[? _]|(-> & Hr & Hf')]; [done|].
  assert (Hw' : ∀ k, k ∈ rest' → k ∈ written) by (intros k Hk; apply Hw, elem_of_app; by right).
  destruct inserts as [|i inserts]; (apply (IH _ _ _ _ rest'); [done|done| |lia|]).
  - exact Hf'.
  - exact Hw'.
  - rewrite plain_set_registry. exact Hf'.
  - intros k Hk. apply elem_of_union. right. by apply Hw'.
Qed.

Lemma never_written_passes now n count inserts :
  (1 ≤ n)%nat → Z.of_nat n <= 2 ^ 32 → count_ok count →
  scan_never_returns_a_key_that_was_never_written now n count inserts = true.
Proof.
  intros Hn Hmax Hc. unfold scan_never_returns_a_key_that_was_never_written.
  destruct (init_store_spec now n) as (_ & _ & Hk & Hl).
  destruct (first_page now n count Hn ltac:(unfold i64_max; lia) Hc)
    as [(c' & page & rest & s' & Hs & Hkeys & Hp & _ & Hcase) Hne].
  assert (Hw : ∀ k, k ∈ page ++ rest → k ∈ (list_to_set (map init_key (seq 0 n)) : gset bytes)).
  { intros k Hkk. apply elem_of_list_to_set, Hk. by rewrite Hkeys. }
  rewrite Hkeys, length_app in Hl.
  replace (8 * (n + 40) + 64)%nat with (S (8 * n + 383))%nat by lia. cbn [written_loop]. rewrite Hs.
  apply andb_true_iff. split.
  { apply forallb_forall. intros k Hkk%list_elem_of_In. apply bool_decide_true, Hw, elem_of_app. by left. }
  rewrite bool_decide_false by lia. cbn [negb andb].
  destruct (Z.eqb_spec c' 0) as [|Hc']; [done|].
  destruct Hcase as [[? _]|(-> & Hr & Hf')]; [done|].
  assert (Hw' : ∀ k, k ∈ rest → k ∈ (list_to_set (map init_key (seq 0 n)) : gset bytes))
    by (intros k Hkk; apply Hw, elem_of_app; by right).
  destruct inserts as [|i inserts]; (apply (written_loop_live _ _ _ _ _ _ _ rest); [done|done| |lia|]).
  - exact Hf'.
  - exact Hw'.
  - rewrite plain_set_registry. exact Hf'.
  - intros k Hkk. apply elem_of_union. right. by apply Hw'.
Qed.
(** ** Properties *)

(** C34: the fuzz targets cannot fail: on every input both parsers go on only by
    consuming at least one byte and at most the buffer, without a panic, and
    the loop over the input ends. *)
Theorem fuzz_targets_pass data : fuzz_parse_command data = true ∧ fuzz_parse_reply data = true.
Proof. split; [apply fuzz_command_passes|apply fuzz_reply_passes]; lia. Qed.

(** C33: the store's property tests pass on every input their strategies
    generate: a budgeted store is never more than one entry over its budget, an
    expired key is never returned, and INCR counts exactly whatever is written
    to other keys in between. *)
Theorem store_property_tests_pass now ops ttls_ms deltas churn :
  Forall (λ op : Z * nat, 0 <= op.1 < 50 ∧ (op.2 < 200)%nat) ops →
  Forall (λ t, 1 <= t < 1000) ttls_ms →
  Forall (λ d, -100 <= d < 100) deltas → (length deltas < 200)%nat → churn ≠ [] →
  now + 1001 * NS_PER_MS < instant_end →
  never_exceeds_budget_by_more_than_one_entry now ops = true ∧
  expired_keys_never_returned now ttls_ms = true ∧
  incr_monotonic_under_churn now deltas churn = true.
Proof.
  intros Hops Httl Hd Hlen Hch Hend. split_and!.
  - apply budget_loop_passes; try done.
    eapply Forall_impl; [exact Hops|]. intros [id n]. cbn. lia.
  - unfold expired_keys_never_returned.
    set (later := now + 1001 * NS_PER_MS) in *.
    set (keys := map (λ i, lit "k" ++ u_to_string (Z.of_nat i)) (seq 0 (length ttls_ms))).
    destruct (set_expiring_gone now later (zip keys ttls_ms) store_new) as (s' & -> & _ & Hg).
    + done.
    + done.
    + unfold later, NS_PER_MS. lia.
    + done.
    + apply Forall_forall. intros [k t] Hin%elem_of_zip_r. cbn.
      rewrite Forall_forall in Httl. specialize (Httl t Hin). unfold later, u64_max, NS_PER_MS. lia.
    + unfold instant_add. change (from_millis 1001) with (1001 * NS_PER_MS). fold later.
      rewrite (proj2 (Z.ltb_lt _ _) Hend). by apply all_gone_passes.
  - apply incr_loop_passes; try done; [by left| |unfold len, i64_max; lia].
    eapply Forall_impl; [exact Hd|]. cbn. lia.
Qed.

(** C32: the SCAN property tests pass on every input their strategies generate:
    a key that is there from the start and not deleted is returned, under any
    interleaving of writes and deletions and across forced restarts; no key is
    returned that was never written; and every scan ends within the pages the
    test allows. *)
Theorem scan_property_tests_pass now n_initial count churn restart_after inserts :
  (1 ≤ n_initial < 40)%nat → 1 <= count < 8 → (length restart_after < 20)%nat →
  scan_never_misses_stable_keys_under_churn now n_initial count churn = true ∧
  scan_never_misses_stable_keys_across_forced_restarts now n_initial count restart_after = true ∧
  scan_never_returns_a_key_that_was_never_written now n_initial count inserts = true.
Proof.
  intros Hn Hc Hr. assert (count_ok count) by (unfold count_ok, i64_max; lia).
  split_and!; [apply under_churn_passes|apply across_restarts_passes|apply never_written_passes];
    try done; unfold i64_max; lia.
Qed.
End facts.

(** ** Instances *)

Section instances.
#[local] Instance entry_order : HashIter bytes Entry := listing_order bytes Entry.
#[local] Instance cursor_order : HashIter Z ScanState := listing_order Z ScanState.

Lemma store_property_tests_pass_witness :
  never_exceeds_budget_by_more_than_one_entry 0 [(3, 199%nat); (7, 0%nat)] = true ∧
  expired_keys_never_returned 0 [1; 999] = true ∧
  incr_monotonic_under_churn 0 [5; -7] [(1, 3%nat)] = true.
Proof.
  apply store_property_tests_pass; try reflexivity; try (cbn; lia); try discriminate;
    repeat (apply Forall_cons; split; [cbn; lia|]); apply Forall_nil_2.
Defined.

Lemma scan_property_tests_pass_witness :
  scan_never_misses_stable_keys_under_churn 0 5 2 [Touch 1; Delete 2; Insert 3; Idle] = true ∧
  scan_never_misses_stable_keys_across_forced_restarts 0 5 2 [0%nat; 3%nat] = true ∧
  scan_never_returns_a_key_that_was_never_written 0 5 2 [9%nat] = true.
Proof. apply scan_property_tests_pass; cbn; lia. Defined.
End instances.
