(* ===== verification/Dispatch.v ===== *)
(** * Command dispatch (crates/pg_resp/src/dispatch.rs)

    [dispatch] turns the arguments of a command into store calls and a reply.
    A command is a computation over the store and the connection state that
    ends with a value, with an early [return] of a reply, or with a panic; one
    definition per arm of the [match]. *)

From S2P Require Import Prelude RustStd Proto Glob HashMap Scan Store Cache.

(** ** Computations *)

Record ConnState := mkConnState { authenticated : bool }.

Record DispatchState := mkDispatchState {
  dstore : Store;
  dconn : ConnState;
}.

(** How a computation ends.  A panic unwinds to the fence in the server loop,
    which keeps the store as the panic left it. *)
Inductive Ending (A : Type) : Type :=
| Value (a : A)
| Return (r : Reply)
| Panic.
Arguments Value {A} _.
Arguments Return {A} _.
Arguments Panic {A}.

Definition Cmd (A : Type) : Type := DispatchState → Ending A * DispatchState.

Definition ret {A} (a : A) : Cmd A := λ st, (Value a, st).
Definition bind {A B} (c : Cmd A) (k : A → Cmd B) : Cmd B := λ st,
  match c st with
  | (Value a, st) => k a st
  | (Return r, st) => (Return r, st)
  | (Panic, st) => (Panic, st)
  end.

(** [return r;] *)
Definition return_ {A} (r : Reply) : Cmd A := λ st, (Return r, st).

Notation "'let*' x ':=' c 'in' k" := (bind c (λ x, k))
  (at level 10, x pattern, c at level 100, k at level 200) : resp_scope.

(** [let Some(x) = o else { return r; }] *)
Definition or_return {A} (o : option A) (r : Reply) : Cmd A :=
  match o with Some a => ret a | None => return_ r end.

(** An expression that may panic. *)
Definition or_panic {A} (o : option A) : Cmd A :=
  match o with Some a => ret a | None => λ st, (Panic, st) end.

(** A method call on the store. *)
Definition on_store {A} (f : Store → A * Store) : Cmd A := λ st,
  let '(a, s) := f (dstore st) in (Value a, mkDispatchState s (dconn st)).

(** ** Helpers *)

(** The loop of [constant_time_eq]: [diff |= x ^ y] over [zip]. *)
Definition xor_diff (a b : bytes) : Z :=
  fold_left (λ diff xy, Z.lor diff (Z.lxor (bval xy.1) (bval xy.2))) (zip a b) 0.

Definition constant_time_eq (a b : bytes) : bool :=
  if negb (length a =? length b)%nat then false else xor_diff a b =? 0.

Definition err_wrong_args (cmd : bytes) : Reply :=
  reply_error (lit "ERR wrong number of arguments for '" ++ cmd ++ lit "' command").
Definition err_syntax : Reply := reply_error (lit "ERR syntax error").
Definition err_not_integer : Reply :=
  reply_error (lit "ERR value is not an integer or out of range").
Definition err_invalid_expire (cmd : bytes) : Reply :=
  reply_error (lit "ERR invalid expire time in '" ++ cmd ++ lit "' command").

Definition parse_i64 (s : bytes) : option Z := parse_i64_utf8 s.

Definition upper `{UnicodeCase} (s : bytes) : bytes := to_uppercase (from_utf8_lossy s).

Definition resolve_absolute_deadline (sys_now : SystemTime) (mono_now : Instant)
    (target_epoch_ms : Z) : option Instant :=
  let now_epoch_ms := if sys_now <? 0 then 0 else as_millis_i64 sys_now in
  if target_epoch_ms <=? now_epoch_ms then Some mono_now
  else instant_add mono_now (from_millis (wrap_i64 (target_epoch_ms - now_epoch_ms))).

(** The deadline of an EX, PX, EXAT or PXAT option. *)
Definition option_deadline (sys_now : SystemTime) (mono_now : Instant) (token : bytes) (n : Z)
    : option Instant :=
  if decide (token = lit "EX") then instant_add mono_now (from_secs n)
  else if decide (token = lit "PX") then instant_add mono_now (from_millis n)
  else if decide (token = lit "EXAT") then
    resolve_absolute_deadline sys_now mono_now (saturating_mul n 1000)
  else if decide (token = lit "PXAT") then resolve_absolute_deadline sys_now mono_now n
  else None.

Definition is_time_option (token : bytes) : bool :=
  bool_decide (token ∈ [lit "EX"; lit "PX"; lit "EXAT"; lit "PXAT"]).

Record SetOptions := mkSetOptions {
  opt_expiry : option Expiry;
  opt_condition : Condition;
  opt_want_get : bool;
}.

Definition default_options : SetOptions := mkSetOptions None CondNone false.

Definition with_condition (o : SetOptions) (c : Condition) : SetOptions :=
  mkSetOptions (opt_expiry o) c (opt_want_get o).
Definition with_expiry (o : SetOptions) (e : Expiry) : SetOptions :=
  mkSetOptions (Some e) (opt_condition o) (opt_want_get o).
Definition with_get (o : SetOptions) : SetOptions :=
  mkSetOptions (opt_expiry o) (opt_condition o) true.

Section dispatch.
Context `{UC : UnicodeCase} `{HE : !HashIter bytes Entry} `{HC : !HashIter Z ScanState}.

(** The loop of [parse_set_options]; [None] is a panic. *)
Fixpoint set_options_loop (sys_now : SystemTime) (mono_now : Instant) (opts : list bytes)
    (result : SetOptions) : option (Result SetOptions Reply) :=
  match opts with
  | [] => Some (Ok result)
  | o :: opts =>
      let token := upper o in
      if decide (token = lit "NX") then
        if decide (opt_condition result ≠ CondNone) then Some (Err err_syntax)
        else set_options_loop sys_now mono_now opts (with_condition result IfNotExists)
      else if decide (token = lit "XX") then
        if decide (opt_condition result ≠ CondNone) then Some (Err err_syntax)
        else set_options_loop sys_now mono_now opts (with_condition result IfExists)
      else if decide (token = lit "GET") then
        set_options_loop sys_now mono_now opts (with_get result)
      else if decide (token = lit "KEEPTTL") then
        if bool_decide (is_Some (opt_expiry result)) then Some (Err err_syntax)
        else set_options_loop sys_now mono_now opts (with_expiry result KeepTtl)
      else if is_time_option token then
        if bool_decide (is_Some (opt_expiry result)) then Some (Err err_syntax)
        else
          match opts with
          | [] => Some (Err err_syntax)
          | raw :: opts =>
              match parse_i64 raw with
              | None => Some (Err err_not_integer)
              | Some n =>
                  if n <=? 0 then Some (Err (err_invalid_expire (lit "set")))
                  else
                    deadline ← option_deadline sys_now mono_now token n;
                    set_options_loop sys_now mono_now opts (with_expiry result (At deadline))
              end
          end
      else Some (Err err_syntax)
  end.

Definition parse_set_options (sys_now : SystemTime) (mono_now : Instant) (opts : list bytes)
    : option (Result SetOptions Reply) :=
  set_options_loop sys_now mono_now opts default_options.

(** ** Commands

    Each takes the arguments after the command name.  [match rest.len()] and
    the indexing that follows are one pattern match on the list. *)

Context (sys_now : SystemTime) (mono_now : Instant).

Definition bulk_or_nil (v : option bytes) : Reply :=
  match v with Some v => reply_bulk v | None => reply_nil end.

Definition cmd_ping (rest : list bytes) : Cmd Reply :=
  match rest with
  | [] => ret (reply_simple (lit "PONG"))
  | [x] => ret (reply_bulk x)
  | _ => ret (err_wrong_args (lit "ping"))
  end.

Definition cmd_echo (rest : list bytes) : Cmd Reply :=
  match rest with
  | [x] => ret (reply_bulk x)
  | _ => ret (err_wrong_args (lit "echo"))
  end.

Definition hello_reply : Reply :=
  Array (Some [
    reply_bulk (lit "server"); reply_bulk (lit "redis");
    reply_bulk (lit "version"); reply_bulk (lit "7.0.0");
    reply_bulk (lit "proto"); Integer 2;
    reply_bulk (lit "id"); Integer 1;
    reply_bulk (lit "mode"); reply_bulk (lit "standalone");
    reply_bulk (lit "role"); reply_bulk (lit "master");
    reply_bulk (lit "modules"); Array (Some [])]).

Definition cmd_hello (rest : list bytes) : Cmd Reply :=
  let ver := match rest with [] => Some 2 | v :: _ => parse_i64 v end in
  if decide (ver = Some 2) then ret hello_reply
  else ret (reply_error (lit "ERR unknown command 'HELLO'")).

Definition cmd_get (rest : list bytes) : Cmd Reply :=
  match rest with
  | [key] => let* v := on_store (λ s, get s mono_now key) in ret (bulk_or_nil v)
  | _ => ret (err_wrong_args (lit "get"))
  end.

Definition cmd_set (rest : list bytes) : Cmd Reply :=
  match rest with
  | key :: val :: opts =>
      let* parsed := or_panic (parse_set_options sys_now mono_now opts) in
      match parsed with
      | Err e => return_ e
      | Ok opts =>
          let expiry := default ExpiryNone (opt_expiry opts) in
          let* outcome := on_store (λ s, set s mono_now key val expiry
                            (opt_condition opts) (opt_want_get opts)) in
          if opt_want_get opts then ret (bulk_or_nil (old_value outcome))
          else if applied outcome then ret reply_ok
          else ret reply_nil
      end
  | _ => return_ (err_wrong_args (lit "set"))
  end.

Definition cmd_del (rest : list bytes) : Cmd Reply :=
  match rest with
  | [] => return_ (err_wrong_args (lit "del"))
  | keys => let* n := on_store (λ s, del s mono_now keys) in ret (Integer (wrap_i64 n))
  end.

Definition cmd_exists (rest : list bytes) : Cmd Reply :=
  match rest with
  | [] => return_ (err_wrong_args (lit "exists"))
  | keys => let* n := on_store (λ s, exists_ s mono_now keys) in ret (Integer (wrap_i64 n))
  end.

Definition cmd_ttl (rest : list bytes) : Cmd Reply :=
  match rest with
  | [key] => let* n := on_store (λ s, ttl_seconds s mono_now key) in ret (Integer n)
  | _ => ret (err_wrong_args (lit "ttl"))
  end.

Definition cmd_pttl (rest : list bytes) : Cmd Reply :=
  match rest with
  | [key] => let* n := on_store (λ s, pttl_millis s mono_now key) in ret (Integer n)
  | _ => ret (err_wrong_args (lit "pttl"))
  end.

(** [b as i64] *)
Definition int_of_bool (b : bool) : Z := if b then 1 else 0.

Definition cmd_expire (rest : list bytes) : Cmd Reply :=
  match rest with
  | [key; secs] =>
      let* secs := or_return (parse_i64 secs) err_not_integer in
      let* deadline := if secs <=? 0 then ret mono_now
                       else or_panic (instant_add mono_now (from_secs secs)) in
      let* b := on_store (λ s, expire s mono_now key deadline) in
      ret (Integer (int_of_bool b))
  | _ => return_ (err_wrong_args (lit "expire"))
  end.

Definition incr_reply (key : bytes) (delta : Z) : Cmd Reply :=
  let* r := on_store (λ s, incr_by s mono_now key delta) in
  match r with
  | Ok n => ret (Integer n)
  | Err NotAnInteger => ret err_not_integer
  | Err Overflow => ret (reply_error (lit "ERR increment or decrement would overflow"))
  end.

Definition cmd_incr (rest : list bytes) : Cmd Reply :=
  match rest with
  | [key] => incr_reply key 1
  | _ => ret (err_wrong_args (lit "incr"))
  end.

Definition cmd_decr (rest : list bytes) : Cmd Reply :=
  match rest with
  | [key] => incr_reply key (-1)
  | _ => ret (err_wrong_args (lit "decr"))
  end.

Definition cmd_incrby (rest : list bytes) : Cmd Reply :=
  match rest with
  | [key; delta] =>
      let* delta := or_return (parse_i64 delta) err_not_integer in
      incr_reply key delta
  | _ => return_ (err_wrong_args (lit "incrby"))
  end.

(** [i64::checked_neg] *)
Definition checked_neg (n : Z) : option Z := if n =? i64_min then None else Some (- n).

Definition cmd_decrby (rest : list bytes) : Cmd Reply :=
  match rest with
  | [key; delta] =>
      let* delta := or_return (parse_i64 delta) err_not_integer in
      let* neg := or_return (checked_neg delta)
                    (reply_error (lit "ERR decrement would overflow")) in
      incr_reply key neg
  | _ => return_ (err_wrong_args (lit "decrby"))
  end.

Definition cmd_mget (rest : list bytes) : Cmd Reply :=
  match rest with
  | [] => return_ (err_wrong_args (lit "mget"))
  | keys =>
      let* values := on_store (λ s, mget s mono_now keys) in
      ret (Array (Some (map bulk_or_nil values)))
  end.

(** [rest.chunks_exact(2)] *)
Fixpoint chunks2 (l : list bytes) : list (bytes * bytes) :=
  match l with
  | a :: b :: l => (a, b) :: chunks2 l
  | _ => []
  end.

Definition cmd_mset (rest : list bytes) : Cmd Reply :=
  if bool_decide (rest = []) || negb (Nat.even (length rest))
  then return_ (err_wrong_args (lit "mset"))
  else
    let* _ := on_store (λ s, (tt, mset s (chunks2 rest))) in
    ret reply_ok.

Definition cmd_auth (required_password : option bytes) (rest : list bytes) : Cmd Reply :=
  match rest with
  | [password] =>
      match required_password with
      | None => ret (reply_error (lit "ERR Client sent AUTH, but no password is set. Did you mean AUTH <username> <password>?"))
      | Some expected =>
          if constant_time_eq expected password then
            λ st, (Value reply_ok, mkDispatchState (dstore st) (mkConnState true))
          else ret (reply_error (lit "WRONGPASS invalid username-password pair or user is disabled."))
      end
  | _ => return_ (err_wrong_args (lit "auth"))
  end.

Definition cmd_select (rest : list bytes) : Cmd Reply :=
  match rest with
  | [db] =>
      if decide (db = lit "0") then ret reply_ok
      else ret (reply_error (lit "ERR DB index is out of range"))
  | _ => ret (err_wrong_args (lit "select"))
  end.

Definition cmd_dbsize (rest : list bytes) : Cmd Reply :=
  match rest with
  | [] =>
      let* st := on_store (λ s, (stats s, s)) in
      ret (Integer (wrap_i64 (stat_keys st)))
  | _ => return_ (err_wrong_args (lit "dbsize"))
  end.

(** [cmd] is FLUSHDB or FLUSHALL: its lower case is the ASCII one. *)
Definition cmd_flush (cmd : bytes) (rest : list bytes) : Cmd Reply :=
  let bad := match rest with
             | [] => false
             | [mode] => negb (bool_decide (upper mode ∈ [lit "ASYNC"; lit "SYNC"]))
             | _ => true
             end in
  if bad then return_ (err_wrong_args (ascii_lower <$> cmd))
  else
    let* _ := on_store (λ s, (tt, clear s)) in
    ret reply_ok.

(** [env!("CARGO_PKG_VERSION")] *)
Definition pkg_version : bytes := lit "0.1.0-rc".

Definition info_line (name v : bytes) : bytes := name ++ lit ":" ++ v ++ CRLF.

Definition info_text (st : Stats) (invalidations_lost : Z) : bytes :=
  let max_memory := match stat_max_memory_bytes st with
                    | Some b => u_to_string b
                    | None => lit "0"
                    end in
  lit "# Server" ++ CRLF ++
  info_line (lit "redis_version") (lit "7.0.0") ++
  info_line (lit "pg_resp_version") pkg_version ++
  lit "# Memory" ++ CRLF ++
  info_line (lit "used_memory") (u_to_string (stat_used_bytes st)) ++
  info_line (lit "maxmemory") max_memory ++
  lit "# Stats" ++ CRLF ++
  info_line (lit "keyspace_hits") (u_to_string (stat_hits st)) ++
  info_line (lit "keyspace_misses") (u_to_string (stat_misses st)) ++
  info_line (lit "evicted_keys") (u_to_string (stat_evictions st)) ++
  info_line (lit "invalidations_lost") (u_to_string invalidations_lost) ++
  lit "# Keyspace" ++ CRLF ++
  lit "db0:keys=" ++ u_to_string (stat_keys st) ++ CRLF.

Definition cmd_info (invalidations_lost : Z) : Cmd Reply :=
  let* st := on_store (λ s, (stats s, s)) in
  ret (reply_bulk (info_text st invalidations_lost)).

(** The option loop of SCAN: the pattern and the count. *)
Fixpoint scan_options (opts : list bytes) (pattern : option bytes) (count : Z)
    : Result (option bytes * Z) Reply :=
  match opts with
  | [] => Ok (pattern, count)
  | o :: opts =>
      let token := upper o in
      if decide (token = lit "MATCH") then
        match opts with
        | [] => Err err_syntax
        | p :: opts => scan_options opts (Some p) count
        end
      else if decide (token = lit "COUNT") then
        match opts with
        | [] => Err err_not_integer
        | raw :: opts =>
            match parse_i64 raw with
            | None => Err err_not_integer
            | Some n => if n <=? 0 then Err err_syntax else scan_options opts pattern n
            end
        end
      else Err err_syntax
  end.

(** [pattern.is_none_or(|p| glob_match(p, k))] *)
Definition key_matches (pattern : option bytes) (k : bytes) : bool :=
  match pattern with Some p => glob_match p k | None => true end.

(** [store.scan], which may panic. *)
Definition store_scan (cursor count : Z) : Cmd (Z * list bytes) := λ st,
  match scan (dstore st) mono_now cursor count with
  | Some (next, keys, s) => (Value (next, keys), mkDispatchState s (dconn st))
  | None => (Panic, st)
  end.

Definition cmd_scan (rest : list bytes) : Cmd Reply :=
  match rest with
  | [] => return_ (err_wrong_args (lit "scan"))
  | cursor :: opts =>
      let* cursor := or_return (parse_u64_utf8 cursor) (reply_error (lit "ERR invalid cursor")) in
      match scan_options opts None 10 with
      | Err e => return_ e
      | Ok (pattern, count) =>
          let* (next_cursor, keys) := store_scan cursor count in
          let filtered := map reply_bulk (base.filter (λ k, key_matches pattern k = true) keys) in
          ret (Array (Some [reply_bulk (u_to_string next_cursor); Array (Some filtered)]))
      end
  end.

Definition cmd_client (rest : list bytes) : Cmd Reply :=
  match rest with
  | [] => return_ (err_wrong_args (lit "client"))
  | sub :: _ =>
      if bool_decide (upper sub ∈ [lit "SETINFO"; lit "SETNAME"]) then ret reply_ok
      else if decide (upper sub = lit "GETNAME") then ret (reply_bulk [])
      else ret (reply_error
        (lit "ERR Unknown CLIENT subcommand or wrong number of arguments for '" ++
         from_utf8_lossy sub ++ lit "'"))
  end.

Definition cmd_command (rest : list bytes) : Cmd Reply :=
  match rest with
  | [] => return_ (Array (Some []))
  | sub :: _ =>
      if decide (upper sub = lit "COUNT") then ret (Integer 0)
      else ret (Array (Some []))
  end.

Definition cmd_setex (rest : list bytes) : Cmd Reply :=
  match rest with
  | [key; secs; val] =>
      let* secs := or_return (parse_i64 secs) err_not_integer in
      if secs <=? 0 then return_ (err_invalid_expire (lit "setex"))
      else
        let* deadline := or_panic (instant_add mono_now (from_secs secs)) in
        let* _ := on_store (λ s, set s mono_now key val (At deadline) CondNone false) in
        ret reply_ok
  | _ => return_ (err_wrong_args (lit "setex"))
  end.

Definition cmd_setnx (rest : list bytes) : Cmd Reply :=
  match rest with
  | [key; val] =>
      let* outcome := on_store (λ s, set s mono_now key val ExpiryNone IfNotExists false) in
      ret (Integer (int_of_bool (applied outcome)))
  | _ => return_ (err_wrong_args (lit "setnx"))
  end.

Definition cmd_getdel (rest : list bytes) : Cmd Reply :=
  match rest with
  | [key] => let* v := on_store (λ s, get_del s mono_now key) in ret (bulk_or_nil v)
  | _ => ret (err_wrong_args (lit "getdel"))
  end.

(** The [let expiry = ...] of GETEX, from the arguments after the key. *)
Definition getex_expiry (opts : list bytes) : Cmd (option Expiry) :=
  match opts with
  | [] => ret None
  | o :: opts =>
      let token := upper o in
      if bool_decide (token = lit "PERSIST" ∧ opts = []) then ret (Some ExpiryNone)
      else
        match opts with
        | [raw] =>
            if is_time_option token then
              let* n := or_return (parse_i64 raw) err_not_integer in
              if n <=? 0 then return_ (err_invalid_expire (lit "getex"))
              else
                let* deadline := or_panic (option_deadline sys_now mono_now token n) in
                ret (Some (At deadline))
            else return_ err_syntax
        | _ => return_ err_syntax
        end
  end.

Definition cmd_getex (rest : list bytes) : Cmd Reply :=
  match rest with
  | [] => return_ (err_wrong_args (lit "getex"))
  | key :: opts =>
      let* expiry := getex_expiry opts in
      let* v := on_store (λ s, get_ex s mono_now key expiry) in
      ret (bulk_or_nil v)
  end.

Definition cmd_persist (rest : list bytes) : Cmd Reply :=
  match rest with
  | [key] => let* b := on_store (λ s, persist s mono_now key) in ret (Integer (int_of_bool b))
  | _ => ret (err_wrong_args (lit "persist"))
  end.

Definition cmd_type (rest : list bytes) : Cmd Reply :=
  match rest with
  | [key] =>
      let* n := on_store (λ s, exists_ s mono_now [key]) in
      if 0 <? n then ret (reply_simple (lit "string")) else ret (reply_simple (lit "none"))
  | _ => ret (err_wrong_args (lit "type"))
  end.

Definition cmd_randomkey (rest : list bytes) : Cmd Reply :=
  match rest with
  | [] => let* k := on_store (λ s, random_key s mono_now) in ret (bulk_or_nil k)
  | _ => return_ (err_wrong_args (lit "randomkey"))
  end.

Definition cmd_keys (rest : list bytes) : Cmd Reply :=
  match rest with
  | [pattern] =>
      let* keys := on_store (λ s, (all_keys s mono_now, s)) in
      ret (Array (Some (map reply_bulk (base.filter (λ k, glob_match pattern k = true) keys))))
  | _ => return_ (err_wrong_args (lit "keys"))
  end.

(** ** The dispatcher *)

(** The arms of the [match] on the command name. *)
Definition commands (required_password : option bytes) (invalidations_lost : Z)
    : list (bytes * (list bytes → Cmd Reply)) :=
  [ (lit "PING", cmd_ping); (lit "ECHO", cmd_echo); (lit "HELLO", cmd_hello);
    (lit "GET", cmd_get); (lit "SET", cmd_set); (lit "DEL", cmd_del);
    (lit "EXISTS", cmd_exists); (lit "TTL", cmd_ttl); (lit "PTTL", cmd_pttl);
    (lit "EXPIRE", cmd_expire); (lit "INCR", cmd_incr); (lit "DECR", cmd_decr);
    (lit "INCRBY", cmd_incrby); (lit "DECRBY", cmd_decrby); (lit "MGET", cmd_mget);
    (lit "MSET", cmd_mset); (lit "AUTH", cmd_auth required_password);
    (lit "SELECT", cmd_select); (lit "DBSIZE", cmd_dbsize);
    (lit "FLUSHDB", cmd_flush (lit "FLUSHDB")); (lit "FLUSHALL", cmd_flush (lit "FLUSHALL"));
    (lit "INFO", λ _, cmd_info invalidations_lost); (lit "SCAN", cmd_scan);
    (lit "CLIENT", cmd_client); (lit "COMMAND", cmd_command);
    (lit "QUIT", λ _, ret reply_ok);
    (lit "SETEX", cmd_setex); (lit "SETNX", cmd_setnx); (lit "GETDEL", cmd_getdel);
    (lit "GETEX", cmd_getex); (lit "PERSIST", cmd_persist); (lit "TYPE", cmd_type);
    (lit "RANDOMKEY", cmd_randomkey); (lit "KEYS", cmd_keys) ].

Fixpoint find_command (cmd : bytes) (table : list (bytes * (list bytes → Cmd Reply)))
    : option (list bytes → Cmd Reply) :=
  match table with
  | [] => None
  | (name, c) :: table => if decide (cmd = name) then Some c else find_command cmd table
  end.

Definition unknown_command (name : bytes) : Reply :=
  reply_error (lit "ERR unknown command '" ++ from_utf8_lossy name ++ lit "'").

(** The commands an unauthenticated client may send. *)
Definition pre_auth (cmd : bytes) : bool :=
  bool_decide (cmd ∈ [lit "AUTH"; lit "HELLO"; lit "QUIT"]).

Definition dispatch_body (required_password : option bytes) (invalidations_lost : Z)
    (args : list bytes) : Cmd Reply := λ st,
  match args with
  | [] => (Return (Array (Some [])), st)
  | name :: rest =>
      let cmd := upper name in
      if bool_decide (is_Some required_password) && negb (authenticated (dconn st))
         && negb (pre_auth cmd)
      then (Return (reply_error (lit "NOAUTH Authentication required.")), st)
      else
        match find_command cmd (commands required_password invalidations_lost) with
        | Some c => c rest st
        | None => (Value (unknown_command name), st)
        end
  end.

(** [dispatch]: the reply, [None] for a panic, and the state it leaves. *)
Definition dispatch (required_password : option bytes) (invalidations_lost : Z)
    (args : list bytes) (st : DispatchState) : option Reply * DispatchState :=
  match dispatch_body required_password invalidations_lost args st with
  | (Value r, st) | (Return r, st) => (Some r, st)
  | (Panic, st) => (None, st)
  end.
End dispatch.
