(* ===== verification/DispatchFacts.v ===== *)
(** * Properties of the dispatcher

    Every command makes at most one call on the store; a panic leaves
    everything as it was and can only come from a deadline past the end of
    [Instant]; the password gate; the options of SET; what a client reads
    back; which replies are well-framed. *)

From S2P Require Import Prelude RustStd Proto Glob HashMap Scan Store Cache StoreFacts Dispatch.

(** Looking a command name up in the table. *)
Ltac find_arm :=
  unfold commands; cbn [find_command];
  repeat (rewrite decide_False by done); by rewrite decide_True by done.

Create HintDb dispatch.

(** ** The password comparison *)

Lemma xor_diff_acc l : ∀ acc,
  fold_left (λ (diff : Z) (xy : byte * byte), Z.lor diff (Z.lxor (bval xy.1) (bval xy.2))) l acc = 0 ↔
  acc = 0 ∧ Forall (λ xy, xy.1 = xy.2) l.
Proof.
  induction l as [|[x y] l IH]; intros acc; cbn [fold_left fst snd].
  - intuition.
  - rewrite IH, Z.lor_eq_0_iff, Z.lxor_eq_0_iff, Forall_cons. cbn.
    split; [intros [[??]?]|intros (?&?&?)]; split_and!; try done; [by apply bval_inj|by f_equal].
Qed.

Lemma constant_time_eq_iff a b : constant_time_eq a b = true ↔ a = b.
Proof.
  unfold constant_time_eq, xor_diff.
  destruct (Nat.eqb_spec (length a) (length b)) as [Hl|Hl]; cbn [negb].
  - rewrite Z.eqb_eq, xor_diff_acc. revert b Hl.
    induction a as [|x a IH]; intros [|y b] Hl; try done; cbn [zip_with].
    rewrite Forall_cons. cbn [fst snd]. injection Hl as Hl. specialize (IH b Hl).
    split; [|intros [= -> ->]; split_and!; tauto].
    intros (_ & -> & ?). f_equal. tauto.
  - split; [done|]. by intros ->.
Qed.

Section facts.
Context `{UC : UnicodeCase} `{HE : !HashIter bytes Entry} `{HC : !HashIter Z ScanState}.
Context (sys_now : SystemTime) (mono_now : Instant).

(** ** One store call per command *)

(** At most one call of a method of the store, at the command's time. *)
Definition one_call (s s' : Store) : Prop :=
  s' = s ∨ (∃ op, s' = (store_step mono_now op s).2) ∨
  (∃ cursor count next page, scan s mono_now cursor count = Some (next, page, s')).

Definition quiet {A} (c : Cmd A) : Prop := ∀ st, (c st).2 = st.
Definition total {A} (c : Cmd A) : Prop := ∀ st, (c st).1 ≠ Panic.

Definition single {A} (c : Cmd A) : Prop := ∀ st,
  one_call (dstore st) (dstore (c st).2) ∧ dconn (c st).2 = dconn st ∧
  ((c st).1 = Panic → (c st).2 = st).

Lemma quiet_ret {A} (a : A) : quiet (ret a).
Proof. done. Qed.
Lemma quiet_return {A} r : quiet (@return_ A r).
Proof. done. Qed.
Lemma quiet_or_return {A} (o : option A) r : quiet (or_return o r).
Proof. by destruct o. Qed.
Lemma quiet_or_panic {A} (o : option A) : quiet (or_panic o).
Proof. by destruct o. Qed.
Lemma total_ret {A} (a : A) : total (ret a).
Proof. done. Qed.
Lemma total_return {A} r : total (@return_ A r).
Proof. done. Qed.
Lemma total_or_return {A} (o : option A) r : total (or_return o r).
Proof. by destruct o. Qed.

Lemma quiet_bind {A B} (c : Cmd A) (k : A → Cmd B) :
  quiet c → (∀ a, quiet (k a)) → quiet (bind c k).
Proof.
  intros Hc Hk st. unfold bind. specialize (Hc st). destruct (c st) as [[a|r|] st'];
    cbn in *; subst; [apply Hk|done|done].
Qed.

Lemma single_quiet {A} (c : Cmd A) : quiet c → single c.
Proof. intros Hc st. rewrite (Hc st). split; [by left|done]. Qed.

Lemma single_bind {A B} (c : Cmd A) (k : A → Cmd B) :
  quiet c → (∀ a, single (k a)) → single (bind c k).
Proof.
  intros Hc Hk st. unfold bind. specialize (Hc st). destruct (c st) as [[a|r|] st'];
    cbn in Hc; subst; [apply Hk|by split; [left|]..].
Qed.

(** After the store call nothing may panic. *)
Lemma single_store {A B} (f : Store → A * Store) (k : A → Cmd B) :
  (∀ s, one_call s (f s).2) → (∀ a, quiet (k a)) → (∀ a, total (k a)) →
  single (bind (on_store f) k).
Proof.
  intros Hf Hq Ht st. unfold bind, on_store. specialize (Hf (dstore st)).
  destruct (f (dstore st)) as [a s]. rewrite Hq. split; [done|]. split; [done|].
  intros Hp. by apply Ht in Hp.
Qed.

Lemma single_scan {B} cursor count (k : Z * list bytes → Cmd B) :
  (∀ a, quiet (k a)) → (∀ a, total (k a)) →
  single (bind (store_scan mono_now cursor count) k).
Proof.
  intros Hq Ht st. unfold bind, store_scan.
  destruct (scan _ _ _ _) as [[[next page] s]|] eqn:He; cbn; [|by split; [left|]].
  rewrite Hq. split; [right; right; by exists cursor, count, next, page|]. split; [done|].
  intros Hp. by apply Ht in Hp.
Qed.

Lemma call_op op (s : Store) s' : s' = (store_step mono_now op s).2 → one_call s s'.
Proof. intros ->. right; left. by exists op. Qed.

#[local] Hint Resolve quiet_ret quiet_return quiet_or_return quiet_or_panic
  total_ret total_return total_or_return single_quiet : dispatch.

(** The methods the commands call. *)
Ltac by_op o := intros; apply (call_op o); cbn [store_step]; first [done | by case_match].

Lemma call_get k (s : Store) : one_call s (get s mono_now k).2.
Proof. by_op (OpGet k). Qed.
Lemma call_set k v ex cond w (s : Store) : one_call s (set s mono_now k v ex cond w).2.
Proof. by_op (OpSet k v ex cond w). Qed.
Lemma call_del ks (s : Store) : one_call s (del s mono_now ks).2.
Proof. by_op (OpDel ks). Qed.
Lemma call_exists ks (s : Store) : one_call s (exists_ s mono_now ks).2.
Proof. by_op (OpExists ks). Qed.
Lemma call_ttl k (s : Store) : one_call s (ttl_seconds s mono_now k).2.
Proof. by_op (OpTtl k). Qed.
Lemma call_pttl k (s : Store) : one_call s (pttl_millis s mono_now k).2.
Proof. by_op (OpPttl k). Qed.
Lemma call_expire k d (s : Store) : one_call s (expire s mono_now k d).2.
Proof. by_op (OpExpire k d). Qed.
Lemma call_incr k d (s : Store) : one_call s (incr_by s mono_now k d).2.
Proof. by_op (OpIncrBy k d). Qed.
Lemma call_mget ks (s : Store) : one_call s (mget s mono_now ks).2.
Proof. by_op (OpMget ks). Qed.
Lemma call_mset kvs (s : Store) : one_call s (tt, mset s kvs).2.
Proof. by_op (OpMset kvs). Qed.
Lemma call_clear (s : Store) : one_call s (tt, clear s).2.
Proof. by_op OpClear. Qed.
Lemma call_get_del k (s : Store) : one_call s (get_del s mono_now k).2.
Proof. by_op (OpGetDel k). Qed.
Lemma call_get_ex k ex (s : Store) : one_call s (get_ex s mono_now k ex).2.
Proof. by_op (OpGetEx k ex). Qed.
Lemma call_persist k (s : Store) : one_call s (persist s mono_now k).2.
Proof. by_op (OpPersist k). Qed.
Lemma call_random (s : Store) : one_call s (random_key s mono_now).2.
Proof. by_op OpRandomKey. Qed.
Lemma call_read {A} (f : Store → A) (s : Store) : one_call s (f s, s).2.
Proof. by left. Qed.

Lemma call_keys (s : Store) : one_call s (all_keys s mono_now, s).2.
Proof. by_op OpKeys. Qed.

#[local] Hint Resolve call_keys call_get call_set call_del call_exists call_ttl call_pttl call_expire
  call_incr call_mget call_mset call_clear call_get_del call_get_ex call_persist call_random
  call_read : dispatch.

Ltac command :=
  repeat first
    [ progress auto with dispatch
    | apply single_store | apply single_scan
    | apply single_bind; [solve [auto with dispatch]|intros ?]
    | progress intros | case_match | case_decide ].

Lemma single_incr_reply key delta : single (incr_reply mono_now key delta).
Proof. unfold incr_reply. command. Qed.

Lemma quiet_getex_expiry opts : quiet (getex_expiry sys_now mono_now opts).
Proof.
  unfold getex_expiry. destruct opts as [|o opts]; [auto with dispatch|].
  case_bool_decide; [auto with dispatch|]. destruct opts as [|raw [|]]; auto with dispatch.
  case_match; [|auto with dispatch]. apply quiet_bind; [auto with dispatch|]. intros n.
  case_match; [auto with dispatch|]. apply quiet_bind; auto with dispatch.
Qed.

#[local] Hint Resolve single_incr_reply quiet_getex_expiry : dispatch.

(** Every arm of the dispatcher but AUTH. *)
Lemma single_commands pw lost name c rest :
  find_command name (commands sys_now mono_now pw lost) = Some c → name ≠ lit "AUTH" →
  single (c rest).
Proof.
  unfold commands. cbn [find_command].
  repeat (case_decide; [intros [= <-] ?|]); try done; clear;
    unfold cmd_ping, cmd_echo, cmd_hello, cmd_get, cmd_set, cmd_del, cmd_exists, cmd_ttl, cmd_pttl,
      cmd_expire, cmd_incr, cmd_decr, cmd_incrby, cmd_decrby, cmd_mget, cmd_mset, cmd_select,
      cmd_dbsize, cmd_flush, cmd_info, cmd_scan, cmd_client, cmd_command, cmd_setex, cmd_setnx,
      cmd_getdel, cmd_getex, cmd_persist, cmd_type, cmd_randomkey, cmd_keys;
    command.
Qed.

Lemma find_command_auth pw lost :
  find_command (lit "AUTH") (commands sys_now mono_now pw lost) = Some (cmd_auth pw).
Proof. find_arm. Qed.
Lemma find_command_set pw lost :
  find_command (lit "SET") (commands sys_now mono_now pw lost) = Some (cmd_set sys_now mono_now).
Proof. find_arm. Qed.
Lemma find_command_get pw lost :
  find_command (lit "GET") (commands sys_now mono_now pw lost) = Some (cmd_get mono_now).
Proof. find_arm. Qed.
Lemma find_command_del pw lost :
  find_command (lit "DEL") (commands sys_now mono_now pw lost) = Some (cmd_del mono_now).
Proof. find_arm. Qed.

Lemma find_command_ping pw lost :
  find_command (lit "PING") (commands sys_now mono_now pw lost) = Some cmd_ping.
Proof. find_arm. Qed.
Lemma find_command_hello pw lost :
  find_command (lit "HELLO") (commands sys_now mono_now pw lost) = Some cmd_hello.
Proof. find_arm. Qed.
Lemma find_command_quit pw lost :
  find_command (lit "QUIT") (commands sys_now mono_now pw lost) = Some (λ _, ret reply_ok).
Proof. find_arm. Qed.

(** AUTH opens the connection to a client that presents the password. *)
Lemma cmd_auth_spec pw rest st :
  (cmd_auth pw rest st).2 = st ∧ (cmd_auth pw rest st).1 ≠ Panic ∨
  ∃ password, pw = Some password ∧ rest = [password] ∧
    cmd_auth pw rest st = (Value reply_ok, mkDispatchState (dstore st) (mkConnState true)).
Proof.
  unfold cmd_auth. destruct rest as [|p [|]]; [by left| |by left].
  destruct pw as [e|]; [|by left]. destruct (constant_time_eq e p) eqn:He; [|by left].
  apply constant_time_eq_iff in He as ->. right. by exists p.
Qed.

(** The session may run every command. *)
Definition admitted (password : option bytes) (cs : ConnState) : Prop :=
  password = None ∨ authenticated cs = true.

Lemma admitted_gate password cs cmd :
  admitted password cs →
  bool_decide (is_Some password) && negb (authenticated cs) && negb (pre_auth cmd) = false.
Proof.
  intros [->| ->]; [|by rewrite andb_false_r].
  by rewrite (bool_decide_false (is_Some None)) by by intros [? ?].
Qed.

(** PING, and the AUTH that opens a session. *)
Lemma dispatch_ping pw lost st : admitted pw (dconn st) →
  dispatch sys_now mono_now pw lost [lit "PING"] st = (Some (reply_simple (lit "PONG")), st).
Proof.
  intros Ha. unfold dispatch, dispatch_body.
  replace (upper (lit "PING")) with (lit "PING") by by vm_compute.
  by rewrite (admitted_gate pw (dconn st) (lit "PING") Ha), find_command_ping.
Qed.

Lemma dispatch_auth p lost st :
  dispatch sys_now mono_now (Some p) lost [lit "AUTH"; p] st =
  (Some reply_ok, mkDispatchState (dstore st) (mkConnState true)).
Proof.
  unfold dispatch, dispatch_body.
  replace (upper (lit "AUTH")) with (lit "AUTH") by by vm_compute.
  replace (pre_auth (lit "AUTH")) with true by by vm_compute. rewrite andb_false_r.
  rewrite find_command_auth. unfold cmd_auth.
  by rewrite (proj2 (constant_time_eq_iff p p) eq_refl).
Qed.

(** What [dispatch] does with a command. *)
Lemma dispatch_cases pw lost args st :
  let '(r, st') := dispatch sys_now mono_now pw lost args st in
  one_call (dstore st) (dstore st') ∧ (r = None → st' = st) ∧
  (dconn st' = dconn st ∨
   ∃ name password, args = [name; password] ∧ upper name = lit "AUTH" ∧ pw = Some password ∧
     dconn st' = mkConnState true).
Proof.
  unfold dispatch, dispatch_body. destruct args as [|name rest].
  { split; [by left|]. split; [done|by left]. }
  destruct (_ && _); [split; [by left|]; split; [done|by left]|].
  destruct (find_command _ _) as [c|] eqn:Hc;
    [|split; [by left|]; split; [done|by left]].
  destruct (decide (upper name = lit "AUTH")) as [Ha|Ha].
  - rewrite Ha, find_command_auth in Hc. injection Hc as <-.
    destruct (cmd_auth_spec pw rest st) as [[Hst Hp]|(p & -> & -> & ->)].
    + destruct (cmd_auth pw rest st) as [[r|r|] st']; cbn in Hst, Hp; subst; try done;
        (split; [by left|]); (split; [done|by left]).
    + split; [by left|]. split; [done|]. right. by exists name, p.
  - destruct (single_commands _ _ _ _ rest Hc Ha st) as (H1 & H2 & H3).
    destruct (c rest st) as [[r|r|] st']; cbn in *; split_and!; try done; try by left.
    intros _. by apply H3.
Qed.

(** ** No panic *)

(** SCAN finds its registry well-formed. *)
Definition scannable (s : Store) : Prop :=
  registry_ok (scan_registry s) ∧ ids_left (scan_registry s) ∧ store_len s <= i64_max.

(** No relative deadline of the arguments is past the end of [Instant]. *)
Definition deadlines_fit (args : list bytes) : Prop :=
  Forall (λ a, ∀ n, parse_i64 a = Some n → mono_now + n * NS_PER_SEC < instant_end) args.

(** The clocks: a monotonic clock in range, a wall clock whose milliseconds
    are an [i64]. *)
Definition clocks_ok : Prop :=
  0 <= mono_now < instant_end ∧ sys_now / NS_PER_MS <= i64_max.

Definition safe {A} (c : Cmd A) : Prop :=
  ∀ st, scannable (dstore st) → (c st).1 ≠ Panic.

Lemma safe_total {A} (c : Cmd A) : total c → safe c.
Proof. intros Hc st _. apply Hc. Qed.

Lemma safe_bind_return {A B} (o : option A) r (k : A → Cmd B) :
  (∀ a, o = Some a → safe (k a)) → safe (bind (or_return o r) k).
Proof. intros Hk st Hs. unfold bind. destruct o as [a|]; [|done]. by apply Hk. Qed.

Lemma safe_bind_panic {A B} (o : option A) (k : A → Cmd B) :
  is_Some o → (∀ a, o = Some a → safe (k a)) → safe (bind (or_panic o) k).
Proof. intros [a ->] Hk st Hs. unfold bind. by apply Hk. Qed.

Lemma safe_bind_ret {A B} (a : A) (k : A → Cmd B) : safe (k a) → safe (bind (ret a) k).
Proof. done. Qed.

Lemma safe_store {A B} (f : Store → A * Store) (k : A → Cmd B) :
  (∀ a, total (k a)) → safe (bind (on_store f) k).
Proof.
  intros Hk st _. unfold bind, on_store. destruct (f (dstore st)). apply Hk.
Qed.

Lemma length_live_keys s : len (live_keys s mono_now) <= store_len s.
Proof.
  unfold live_keys, hash_keys, len, store_len. rewrite length_fmap.
  pose proof (length_filter (λ kv : bytes * Entry, is_live kv.2 mono_now = true)
    (hash_iter (entries s))). rewrite length_hash_iter in *. lia.
Qed.

Lemma safe_scan {B} cursor count (k : Z * list bytes → Cmd B) :
  count_ok count → (∀ a, total (k a)) → safe (bind (store_scan mono_now cursor count) k).
Proof.
  intros Hc Hk st (Hok & Hids & Hlen). unfold bind, store_scan, scan.
  pose proof (length_live_keys (dstore st)).
  destruct (registry_scan_spec (scan_registry (dstore st)) mono_now cursor count
    (λ _, live_keys (dstore st) mono_now)) as (c & page & reg & -> & _); [done..|lia|].
  cbn. apply Hk.
Qed.

Lemma instant_add_secs n :
  0 < n <= i64_max → mono_now + n * NS_PER_SEC < instant_end →
  is_Some (instant_add mono_now (from_secs n)).
Proof.
  intros Hn Hd. unfold instant_add, from_secs.
  rewrite wrap_u64_small by (unfold u64_max, i64_max in *; lia).
  rewrite (proj2 (Z.ltb_lt _ _)) by lia. by eexists.
Qed.

Lemma instant_add_millis n m :
  0 < n <= i64_max → mono_now + n * NS_PER_SEC < instant_end → 0 <= m <= n * 1000 →
  m <= i64_max → is_Some (instant_add mono_now (from_millis m)).
Proof.
  intros Hn Hd Hm Hb. unfold instant_add, from_millis.
  rewrite wrap_u64_small by (unfold u64_max, i64_max in *; lia).
  rewrite (proj2 (Z.ltb_lt _ _)); [by eexists|].
  unfold NS_PER_MS, NS_PER_SEC in *. lia.
Qed.

Lemma resolve_some n target :
  clocks_ok → 0 < n <= i64_max → mono_now + n * NS_PER_SEC < instant_end →
  0 < target <= n * 1000 → target <= i64_max →
  is_Some (resolve_absolute_deadline sys_now mono_now target).
Proof.
  intros [Hmono Hsys] Hn Hd Ht Hb. unfold resolve_absolute_deadline.
  set (now := if sys_now <? 0 then 0 else as_millis_i64 sys_now).
  assert (0 <= now <= i64_max) as Hnow.
  { unfold now. destruct (Z.ltb_spec sys_now 0); [unfold i64_max; lia|].
    unfold as_millis_i64. assert (0 <= sys_now / NS_PER_MS) by (apply Z.div_pos; unfold NS_PER_MS; lia).
    rewrite wrap_i64_small; unfold i64_min, i64_max in *; lia. }
  destruct (Z.leb_spec target now); [by eexists|].
  rewrite wrap_i64_small by (unfold i64_min, i64_max in *; lia).
  apply (instant_add_millis n); lia.
Qed.

Lemma option_deadline_some token n :
  clocks_ok → is_time_option token = true → 0 < n <= i64_max →
  mono_now + n * NS_PER_SEC < instant_end →
  is_Some (option_deadline sys_now mono_now token n).
Proof.
  intros Hc Ht Hn Hd. unfold is_time_option in Ht. apply bool_decide_eq_true in Ht.
  unfold option_deadline. repeat case_decide.
  - by apply instant_add_secs.
  - apply (instant_add_millis n); lia.
  - apply (resolve_some n); try done; unfold saturating_mul, i64_min, i64_max in *; lia.
  - apply (resolve_some n); try done; lia.
  - exfalso. rewrite !elem_of_cons, elem_of_nil in Ht. tauto.
Qed.

Lemma parse_i64_bound a n : parse_i64 a = Some n → n <= i64_max.
Proof. intros H%parse_i64_range. lia. Qed.

Lemma set_options_loop_some m : ∀ opts result, (length opts ≤ m)%nat →
  clocks_ok → deadlines_fit opts →
  is_Some (set_options_loop sys_now mono_now opts result).
Proof.
  induction m as [|m IH]; intros opts result Hm Hc Hd;
    (destruct opts as [|o opts]; [by eexists|]); cbn [length] in Hm; [lia|].
  apply Forall_cons in Hd as [_ Hd]. cbn [set_options_loop].
  repeat (case_decide; [try (case_decide; [by eexists|]); try (case_bool_decide; [by eexists|]);
    apply IH; [lia|done|done]|]).
  destruct (is_time_option (upper o)) eqn:Ht; [|by eexists].
  case_bool_decide; [by eexists|]. destruct opts as [|raw opts]; [by eexists|].
  destruct (parse_i64 raw) as [n|] eqn:Hn; [|by eexists].
  destruct (Z.leb_spec n 0); [by eexists|]. apply Forall_cons in Hd as [Hr Hd].
  pose proof (parse_i64_bound _ _ Hn).
  destruct (option_deadline_some (upper o) n Hc Ht) as [d ->]; [lia|by apply Hr|].
  cbn [mbind option_bind]. apply IH; [cbn in Hm; lia|done|done].
Qed.

Lemma safe_getex_expiry opts : clocks_ok → deadlines_fit opts →
  ∀ {B} (k : option Expiry → Cmd B), (∀ a, safe (k a)) →
  safe (bind (getex_expiry sys_now mono_now opts) k).
Proof.
  intros Hc Hd B k Hk. unfold getex_expiry. destruct opts as [|o opts]; [by apply safe_bind_ret|].
  case_bool_decide; [by apply safe_bind_ret|]. destruct opts as [|raw [|]]; try done.
  destruct (is_time_option (upper o)) eqn:Ht; [|done].
  destruct (parse_i64 raw) as [n|] eqn:Hn; [|done]. intros st Hst. unfold bind. cbn.
  destruct (Z.leb_spec n 0); [done|]. pose proof (parse_i64_bound _ _ Hn).
  apply Forall_cons in Hd as [_ [Hr _]%Forall_cons].
  destruct (option_deadline_some (upper o) n Hc Ht) as [d ->]; [lia|by apply Hr|].
  by apply Hk.
Qed.

Lemma scan_options_count opts : ∀ pattern count p c,
  count_ok count → scan_options opts pattern count = Ok (p, c) → count_ok c.
Proof.
  remember (length opts) as m eqn:Hm. revert opts Hm.
  induction (lt_wf m) as [m _ IH]. intros opts -> pattern count p c Hc.
  destruct opts as [|o opts]; cbn [scan_options]; [by intros [= <- <-]|].
  case_decide; [|case_decide; [|done]].
  - destruct opts as [|p' opts]; [done|]. intros Ho.
    eapply (IH (length opts)); [cbn; lia|done|exact Hc|exact Ho].
  - destruct opts as [|raw opts]; [done|]. destruct (parse_i64 raw) as [n|] eqn:Hn; [|done].
    destruct (Z.leb_spec n 0); [done|]. apply parse_i64_bound in Hn. intros Ho.
    eapply (IH (length opts)); [cbn; lia|done| |exact Ho]. unfold count_ok. lia.
Qed.

Ltac safely := repeat first
  [ done | apply safe_store; intros ? | apply safe_bind_return; intros ? ?
  | case_match | case_decide ].

Lemma safe_set rest : clocks_ok → deadlines_fit rest → safe (cmd_set sys_now mono_now rest).
Proof.
  intros Hc Hd. unfold cmd_set. destruct rest as [|key [|val opts]]; [done..|].
  apply Forall_cons in Hd as [_ [_ Hd]%Forall_cons].
  apply safe_bind_panic; [by apply (set_options_loop_some (length opts))|]. intros a _. safely.
Qed.

Lemma safe_expire rest : deadlines_fit rest → safe (cmd_expire mono_now rest).
Proof.
  intros Hd. unfold cmd_expire. destruct rest as [|key [|secs [|]]]; try done.
  apply Forall_cons in Hd as [_ [Hr _]%Forall_cons].
  apply safe_bind_return. intros n Hn. pose proof (parse_i64_bound _ _ Hn).
  destruct (Z.leb_spec n 0); [apply safe_bind_ret; safely|].
  apply safe_bind_panic; [apply instant_add_secs; [lia|by apply Hr]|]. intros. safely.
Qed.

Lemma safe_setex rest : deadlines_fit rest → safe (cmd_setex mono_now rest).
Proof.
  intros Hd. unfold cmd_setex. destruct rest as [|key [|secs [|val [|]]]]; try done.
  apply Forall_cons in Hd as [_ [Hr _]%Forall_cons].
  apply safe_bind_return. intros n Hn. pose proof (parse_i64_bound _ _ Hn).
  destruct (Z.leb_spec n 0); [done|].
  apply safe_bind_panic; [apply instant_add_secs; [lia|by apply Hr]|]. intros. safely.
Qed.

Lemma safe_getex rest : clocks_ok → deadlines_fit rest → safe (cmd_getex sys_now mono_now rest).
Proof.
  intros Hc Hd. unfold cmd_getex. destruct rest as [|key opts]; [done|].
  apply Forall_cons in Hd as [_ Hd]. apply safe_getex_expiry; [done..|]. intros. safely.
Qed.

Lemma safe_cmd_scan rest : safe (cmd_scan mono_now rest).
Proof.
  unfold cmd_scan. destruct rest as [|cursor opts]; [done|].
  apply safe_bind_return. intros c _. destruct (scan_options _ _ _) as [[p n]|] eqn:Ho; [|done].
  apply scan_options_count in Ho; [|unfold count_ok, i64_max; lia].
  apply safe_scan; [done|]. by intros [? ?].
Qed.

Lemma safe_commands pw lost name c rest :
  clocks_ok → deadlines_fit rest →
  find_command name (commands sys_now mono_now pw lost) = Some c → safe (c rest).
Proof.
  intros Hc Hd. unfold commands. cbn [find_command].
  repeat (case_decide; [intros [= <-]|]);
    try (by auto using safe_set, safe_expire, safe_setex, safe_getex, safe_cmd_scan); clear;
    unfold cmd_ping, cmd_echo, cmd_hello, cmd_get, cmd_del, cmd_exists, cmd_ttl, cmd_pttl,
      cmd_incr, cmd_decr, cmd_incrby, cmd_decrby, cmd_mget, cmd_mset, cmd_select,
      cmd_dbsize, cmd_flush, cmd_info, cmd_client, cmd_command, cmd_setnx,
      cmd_getdel, cmd_persist, cmd_type, cmd_randomkey, cmd_keys, cmd_auth, incr_reply; safely.
Qed.

(** ** Properties *)

(** C16: whatever the arguments, a command makes at most one call on the
    store; if it panics it has changed nothing; and a connection becomes
    authenticated only by AUTH with the configured password. *)
Theorem dispatch_one_call pw lost args st r st' :
  dispatch sys_now mono_now pw lost args st = (r, st') →
  one_call (dstore st) (dstore st') ∧ (r = None → st' = st) ∧
  (dconn st' = dconn st ∨
   ∃ name password, args = [name; password] ∧ upper name = lit "AUTH" ∧ pw = Some password ∧
     dconn st' = mkConnState true).
Proof. intros Hd. pose proof (dispatch_cases pw lost args st) as H. by rewrite Hd in H. Qed.

(** C17: a command never panics, as long as no integer argument, read as
    seconds from now, is past the end of [Instant]. *)
Theorem dispatch_total pw lost args st :
  clocks_ok → scannable (dstore st) → deadlines_fit args →
  is_Some (dispatch sys_now mono_now pw lost args st).1.
Proof.
  intros Hc Hs Hd. unfold dispatch, dispatch_body. destruct args as [|name rest]; [by eexists|].
  destruct (_ && _); [by eexists|].
  destruct (find_command _ _) as [c|] eqn:Hf; [|by eexists].
  apply Forall_cons in Hd as [_ Hd].
  pose proof (safe_commands _ _ _ _ rest Hc Hd Hf st Hs) as Hp.
  destruct (c rest st) as [[r|r|] st']; cbn in *; [by eexists..|done].
Qed.

(** [SET key value EX 9223372036854775807] panics one second or more
    after the clock's origin, with the store and the connection untouched. *)
Theorem set_ex_max_panics lost key val st :
  NS_PER_SEC <= mono_now →
  dispatch sys_now mono_now None lost
    [lit "SET"; key; val; lit "EX"; lit "9223372036854775807"] st = (None, st).
Proof.
  intros Hm. unfold dispatch, dispatch_body. cbn [bool_decide andb].
  replace (upper (lit "SET")) with (lit "SET") by by vm_compute.
  rewrite (bool_decide_false (is_Some None)) by by intros [? ?]. cbn [andb].
  rewrite find_command_set.
  unfold cmd_set, parse_set_options. cbn [set_options_loop].
  replace (upper (lit "EX")) with (lit "EX") by by vm_compute.
  rewrite !decide_False by by vm_compute.
  replace (is_time_option (lit "EX")) with true by by vm_compute.
  rewrite bool_decide_false by by intros [? ?].
  replace (parse_i64 (lit "9223372036854775807")) with (Some i64_max) by by vm_compute.
  change (i64_max <=? 0) with false. cbv iota.
  unfold option_deadline. rewrite decide_True by done.
  unfold instant_add, from_secs. rewrite wrap_u64_small by (unfold i64_max, u64_max; lia).
  rewrite (proj2 (Z.ltb_ge _ _)); [done|]. unfold instant_end, i64_max, NS_PER_SEC in *. lia.
Qed.

(** ** The options of SET *)

Inductive SetItem : Type :=
| ItemNx | ItemXx | ItemGet | ItemKeepTtl
| ItemTime (deadline : Instant).

(** The options a list of tokens spells out, one after the other. *)
Inductive spells : list bytes → list SetItem → Prop :=
| spells_nil : spells [] []
| spells_nx o opts items : upper o = lit "NX" → spells opts items → spells (o :: opts) (ItemNx :: items)
| spells_xx o opts items : upper o = lit "XX" → spells opts items → spells (o :: opts) (ItemXx :: items)
| spells_get o opts items : upper o = lit "GET" → spells opts items → spells (o :: opts) (ItemGet :: items)
| spells_keep o opts items :
    upper o = lit "KEEPTTL" → spells opts items → spells (o :: opts) (ItemKeepTtl :: items)
| spells_time o raw n d opts items :
    is_time_option (upper o) = true → parse_i64 raw = Some n → 0 < n →
    option_deadline sys_now mono_now (upper o) n = Some d →
    spells opts items → spells (o :: raw :: opts) (ItemTime d :: items).

Definition is_condition (i : SetItem) : bool :=
  match i with ItemNx | ItemXx => true | _ => false end.
Definition is_expiry (i : SetItem) : bool :=
  match i with ItemKeepTtl | ItemTime _ => true | _ => false end.
Definition occurrences (p : SetItem → bool) (items : list SetItem) : nat :=
  length (base.filter (λ i, p i = true) items).

Definition apply_item (o : SetOptions) (i : SetItem) : SetOptions :=
  match i with
  | ItemNx => with_condition o IfNotExists
  | ItemXx => with_condition o IfExists
  | ItemGet => with_get o
  | ItemKeepTtl => with_expiry o KeepTtl
  | ItemTime d => with_expiry o (At d)
  end.

(** Options that can still be given. *)
Definition open_for (result : SetOptions) (items : list SetItem) : Prop :=
  (occurrences is_condition items + (if decide (opt_condition result = CondNone) then 0 else 1) ≤ 1)%nat ∧
  (occurrences is_expiry items + (if opt_expiry result is Some _ then 1 else 0) ≤ 1)%nat.

Lemma occurrences_cons p i items :
  occurrences p (i :: items) = ((if p i then 1 else 0) + occurrences p items)%nat.
Proof. unfold occurrences. rewrite filter_cons. case_decide as H; [by rewrite H|].
  apply not_true_is_false in H. by rewrite H. Qed.

Lemma open_for_cons result i items :
  open_for result (i :: items) ↔
  (is_condition i = true → opt_condition result = CondNone) ∧
  (is_expiry i = true → opt_expiry result = None) ∧
  open_for (apply_item result i) items.
Proof.
  unfold open_for. rewrite !occurrences_cons.
  destruct i; cbn [is_condition is_expiry apply_item opt_condition opt_expiry with_condition with_expiry with_get];
    repeat case_decide; destruct (opt_expiry result); cbn; try congruence;
    intuition (try congruence; try lia).
Qed.

Lemma open_for_nil result : open_for result [].
Proof. split; cbn; [case_decide; lia|destruct (opt_expiry result); lia]. Qed.

Lemma loop_reads m : ∀ opts result o, (length opts ≤ m)%nat →
  set_options_loop sys_now mono_now opts result = Some (Ok o) →
  ∃ items, spells opts items ∧ open_for result items ∧ o = fold_left apply_item items result.
Proof.
  induction m as [|m IH]; intros opts result o Hm Ho.
  { destruct opts; [|cbn in Hm; lia]. injection Ho as <-. exists [].
    split; [constructor|]. split; [apply open_for_nil|done]. }
  destruct opts as [|t opts].
  { injection Ho as <-. exists [].
    split; [constructor|]. split; [apply open_for_nil|done]. }
  cbn [set_options_loop length] in Ho, Hm.
  assert (Hgo : ∀ i opts', (length opts' ≤ m)%nat →
    (is_condition i = true → opt_condition result = CondNone) →
    (is_expiry i = true → opt_expiry result = None) →
    (∀ items, spells opts' items → spells (t :: opts) (i :: items)) →
    set_options_loop sys_now mono_now opts' (apply_item result i) = Some (Ok o) →
    ∃ items, spells (t :: opts) items ∧ open_for result items ∧ o = fold_left apply_item items result).
  { intros i opts' Hl Hc He Hs Hloop. destruct (IH _ _ _ Hl Hloop) as (items & H1 & H2 & ->).
    exists (i :: items). split; [by apply Hs|]. by rewrite open_for_cons. }
  repeat case_decide; try done.
  - apply (Hgo ItemNx opts); try done; [lia|]. intros. by constructor.
  - apply (Hgo ItemXx opts); try done; [lia|]. intros. by constructor.
  - apply (Hgo ItemGet opts); try done; [lia|]. intros. by constructor.
  - case_bool_decide as He; [done|]. apply eq_None_not_Some in He.
    apply (Hgo ItemKeepTtl opts); try done; [lia|]. intros. by constructor.
  - destruct (is_time_option (upper t)) eqn:Ht; [|done].
    case_bool_decide as He; [done|]. apply eq_None_not_Some in He.
    destruct opts as [|raw opts]; [done|]. destruct (parse_i64 raw) as [n|] eqn:Hn; [|done].
    destruct (Z.leb_spec n 0); [done|]. destruct (option_deadline _ _ _ _) as [d|] eqn:Hd; [|done].
    apply (Hgo (ItemTime d) opts); try done; [cbn in Hm; lia|]. intros. by econstructor.
Qed.

Lemma loop_accepts opts items : spells opts items → ∀ result, open_for result items →
  set_options_loop sys_now mono_now opts result = Some (Ok (fold_left apply_item items result)).
Proof.
  induction 1 as [|o opts items Ho _ IH|o opts items Ho _ IH|o opts items Ho _ IH|o opts items Ho _ IH
    |o raw n d opts items Ht Hn Hpos Hd _ IH]; intros result Hopen; [done|..];
    apply open_for_cons in Hopen as (Hc & He & Hopen); cbn [set_options_loop fold_left].
  - rewrite Ho, decide_True, decide_False by (done || (rewrite (Hc eq_refl); tauto)).
    by apply IH.
  - rewrite Ho, decide_False, decide_True, decide_False by (done || (rewrite (Hc eq_refl); tauto)).
    by apply IH.
  - rewrite Ho, !decide_False, decide_True by done. by apply IH.
  - rewrite Ho, !decide_False, decide_True by done.
    rewrite bool_decide_false; [by apply IH|]. rewrite He by done. by intros [? ?].
  - rewrite !decide_False by (intros E; by rewrite E in Ht).
    rewrite Ht, bool_decide_false by (rewrite He by done; by intros [? ?]).
    rewrite Hn. destruct (Z.leb_spec n 0); [lia|]. rewrite Hd. by apply IH.
Qed.

(** C35: the options of SET are accepted exactly when they spell NX, XX, GET,
    KEEPTTL and positive EX/PX/EXAT/PXAT items with at most one condition and
    at most one expiry, and the result carries those. *)
Theorem parse_set_options_spec opts o :
  parse_set_options sys_now mono_now opts = Some (Ok o) ↔
  ∃ items, spells opts items ∧ (occurrences is_condition items ≤ 1)%nat ∧
    (occurrences is_expiry items ≤ 1)%nat ∧ o = fold_left apply_item items default_options.
Proof.
  unfold parse_set_options. split.
  - intros (items & Hs & [Hc He] & ->)%(loop_reads (length opts)); [|lia].
    exists items. cbn in Hc, He. split_and!; try done; lia.
  - intros (items & Hs & Hc & He & ->). apply loop_accepts; [done|].
    split; cbn [opt_condition opt_expiry default_options]; [rewrite decide_True by done|]; lia.
Qed.
End facts.

(** ** Sessions *)

Section session.
Context `{UC : UnicodeCase} `{HE : !HashIter bytes Entry} `{HC : !HashIter Z ScanState}.

(** Commands in order, each with its clock readings. *)
Fixpoint session (pw : option bytes) (lost : Z)
    (cmds : list (SystemTime * Instant * list bytes)) (st : DispatchState)
    : list (option Reply) * DispatchState :=
  match cmds with
  | [] => ([], st)
  | (sys, mono, args) :: cmds =>
      let '(r, st) := dispatch sys mono pw lost args st in
      let '(l, st) := session pw lost cmds st in
      (r :: l, st)
  end.

Definition presents (password : bytes) (args : list bytes) : Prop :=
  ∃ name, args = [name; password] ∧ upper name = lit "AUTH".

Lemma gated_command sys mono password lost args :
  ¬ presents password args →
  ∃ r, ∀ s, dispatch sys mono (Some password) lost args (mkDispatchState s (mkConnState false)) =
            (r, mkDispatchState s (mkConnState false)).
Proof.
  intros Hp. unfold dispatch, dispatch_body. destruct args as [|name rest]; [by eexists|].
  rewrite (bool_decide_true (is_Some (Some password))) by by eexists. cbn [negb andb authenticated dconn].
  destruct (pre_auth (upper name)) eqn:Hpre; cbn [negb]; [|by eexists].
  unfold pre_auth in Hpre. apply bool_decide_eq_true in Hpre.
  rewrite !elem_of_cons, elem_of_nil in Hpre. destruct Hpre as [Hn|[Hn|[Hn|[]]]].
  - rewrite Hn, find_command_auth. unfold cmd_auth.
    destruct rest as [|p [|]]; [by eexists| |by eexists].
    destruct (constant_time_eq password p) eqn:He; [|by eexists].
    apply constant_time_eq_iff in He as ->. destruct Hp. by exists name.
  - rewrite Hn, find_command_hello. unfold cmd_hello. case_decide; by eexists.
  - rewrite Hn, find_command_quit. by eexists.
Qed.

(** C18: until a client presents the password, no sequence of its commands
    changes the store or the connection, nor does any reply depend on what
    the store holds. *)
Theorem noauth_isolation password lost cmds :
  Forall (λ c, ¬ presents password c.2) cmds →
  ∃ replies, ∀ s,
    session (Some password) lost cmds (mkDispatchState s (mkConnState false)) =
    (replies, mkDispatchState s (mkConnState false)).
Proof.
  induction cmds as [|[[sys mono] args] cmds IH]; intros Hp; [by exists []|].
  apply Forall_cons in Hp as [Hp Hps]. destruct (IH Hps) as [l Hl].
  destruct (gated_command sys mono password lost args Hp) as [r Hr].
  exists (r :: l). intros s. cbn [session]. by rewrite Hr, Hl.
Qed.

(** Every command keeps the store among the reachable ones, whose byte
    accounting is exact and which are within their budget. *)
Theorem dispatch_reachable sys mono pw lost args st :
  reachable (dstore st) → fits (dstore st) →
  reachable (dstore (dispatch sys mono pw lost args st).2).
Proof.
  intros Hr Hf. pose proof (dispatch_cases sys mono pw lost args st) as H.
  destruct (dispatch sys mono pw lost args st) as [r st']. cbn [snd].
  destruct H as [[->|[[op ->]|(c & n & next & page & Hs)]] _]; [done|by constructor|].
  by eapply reach_scan.
Qed.

(** A plain SET answers OK and is read back by GET, at any later time and
    whatever the budget made the SET evict. *)
Theorem set_get sys mono sys' mono' lost key val st :
  sound (dstore st) → mono <= mono' →
  let '(r, st1) := dispatch sys mono None lost [lit "SET"; key; val] st in
  r = Some reply_ok ∧
  (dispatch sys' mono' None lost [lit "GET"; key] st1).1 = Some (reply_bulk val).
Proof.
  intros Hs Hm. pose proof (P_expired mono sound (cache_le mono) (dstore st) key Hs) as [Ha Hc].
  unfold dispatch, dispatch_body. rewrite (bool_decide_false (is_Some None)) by by intros [? ?].
  cbn [andb]. replace (upper (lit "SET")) with (lit "SET") by by vm_compute.
  replace (upper (lit "GET")) with (lit "GET") by by vm_compute.
  rewrite find_command_set, find_command_get.
  unfold cmd_set, parse_set_options, bind, or_panic, on_store, set. cbn.
  pose proof (insert_accounted_spec (expire_if_needed (dstore st) key mono) key
    (mkEntry val None false) Ha Hc) as H. cbn zeta in H.
  destruct H as (_ & _ & _ & _ & _ & _ & _ & Hk & _).
  split; [done|]. unfold bind, on_store. cbn [dstore].
  set (s1 := insert_accounted _ _ _) in *.
  destruct (get_spec s1 mono' key) as [Hv _]. destruct (get s1 mono' key) as [v s2].
  cbn in Hv |- *. rewrite Hv, lookup_cache_at_eq, Hk. cbn. by rewrite decide_True.
Qed.
End session.

(** ** Framing *)

(** No status or error line of the reply contains a CRLF. *)
Fixpoint framed (r : Reply) : bool :=
  match r with
  | Simple s | Error s => bool_decide (find_crlf s 0 = None)
  | Array (Some items) => forallb framed items
  | _ => true
  end.

Section framing.
Context `{UC : UnicodeCase} `{HE : !HashIter bytes Entry} `{HC : !HashIter Z ScanState}.
Context (sys_now : SystemTime) (mono_now : Instant).

Definition yields (c : Cmd Reply) : Prop := ∀ st,
  match (c st).1 with Value r | Return r => framed r = true | Panic => True end.
Definition returns {A} (c : Cmd A) : Prop := ∀ st,
  match (c st).1 with Return r => framed r = true | _ => True end.

Lemma yields_bind {A} (c : Cmd A) (k : A → Cmd Reply) :
  returns c → (∀ a, yields (k a)) → yields (bind c k).
Proof.
  intros Hc Hk st. unfold bind. specialize (Hc st).
  destruct (c st) as [[a|r|] st']; cbn in *; [apply Hk|done|done].
Qed.

Lemma yields_bind_panic {A} (o : option A) (k : A → Cmd Reply) :
  (∀ a, o = Some a → yields (k a)) → yields (bind (or_panic o) k).
Proof. intros Hk st. unfold bind. destruct o; [by apply Hk|done]. Qed.

Lemma returns_bind {A B} (c : Cmd A) (k : A → Cmd B) :
  returns c → (∀ a, returns (k a)) → returns (bind c k).
Proof.
  intros Hc Hk st. unfold bind. specialize (Hc st).
  destruct (c st) as [[a|r|] st']; cbn in *; [apply Hk|done|done].
Qed.

Lemma yields_ret r : framed r = true → yields (ret r).
Proof. by intros ? ?. Qed.
Lemma yields_return r : framed r = true → yields (return_ r).
Proof. by intros ? ?. Qed.
Lemma returns_ret {A} (a : A) : returns (ret a).
Proof. done. Qed.
Lemma returns_return {A} r : framed r = true → returns (@return_ A r).
Proof. by intros ? ?. Qed.
Lemma returns_or_return {A} (o : option A) r : framed r = true → returns (or_return o r).
Proof. intros ? ?. by destruct o. Qed.
Lemma returns_or_panic {A} (o : option A) : returns (or_panic o).
Proof. intros ?. by destruct o. Qed.
Lemma returns_store {A} (f : Store → A * Store) : returns (on_store f).
Proof. intros st. unfold on_store. by destruct (f _). Qed.
Lemma returns_scan cursor count : returns (store_scan mono_now cursor count).
Proof. intros st. unfold store_scan. by destruct (scan _ _ _ _) as [[[? ?] ?]|]. Qed.

Lemma framed_bulk v : framed (bulk_or_nil v) = true.
Proof. by destruct v. Qed.
Lemma framed_bulks l : framed (Array (Some (map reply_bulk l))) = true.
Proof. cbn. by induction l. Qed.
Lemma framed_nils l : framed (Array (Some (map bulk_or_nil l))) = true.
Proof. cbn. induction l as [|v l IH]; [done|]. cbn. by rewrite framed_bulk. Qed.
Lemma framed_pair n l : framed (Array (Some [reply_bulk n; Array (Some (map reply_bulk l))])) = true.
Proof. cbn. rewrite !andb_true_r. by induction l. Qed.

Lemma no_lf (s : bytes) : bool_decide (LF ∈ s) = false → LF ∉ s.
Proof. apply bool_decide_eq_false_1. Qed.

Lemma framed_error prefix name suffix :
  LF ∉ prefix → LF ∉ name → LF ∉ suffix → framed (reply_error (prefix ++ name ++ suffix)) = true.
Proof.
  intros H1 H2 H3. apply bool_decide_eq_true, find_crlf_no_lf. rewrite !elem_of_app. tauto.
Qed.

Lemma set_options_framed m : ∀ opts result e, (length opts ≤ m)%nat →
  set_options_loop sys_now mono_now opts result = Some (Err e) → framed e = true.
Proof.
  induction m as [|m IH]; intros [|o opts] result e Hm; cbn [length] in Hm; try lia; [done..|].
  cbn [set_options_loop]. repeat (case_decide; [try (case_decide; [by intros [= <-]|]);
    try (case_bool_decide; [by intros [= <-]|]); apply IH; lia|]).
  destruct (is_time_option _); [|by intros [= <-]].
  case_bool_decide; [by intros [= <-]|]. destruct opts as [|raw opts]; [by intros [= <-]|].
  destruct (parse_i64 raw); [|by intros [= <-]]. case_match; [by intros [= <-]|].
  destruct (option_deadline _ _ _ _); [|done]. apply IH. cbn in Hm. lia.
Qed.

Lemma scan_options_framed m : ∀ opts p c e, (length opts ≤ m)%nat →
  scan_options opts p c = Err e → framed e = true.
Proof.
  induction m as [|m IH]; intros [|o opts] p c e Hm; cbn [length] in Hm; try lia; [done..|].
  cbn [scan_options]. case_decide; [|case_decide; [|by intros [= <-]]].
  - destruct opts; [by intros [= <-]|]. apply IH. cbn in Hm. lia.
  - destruct opts as [|raw opts]; [by intros [= <-]|].
    destruct (parse_i64 raw); [|by intros [= <-]]. case_match; [by intros [= <-]|].
    apply IH. cbn in Hm. lia.
Qed.

Lemma returns_getex opts : returns (getex_expiry sys_now mono_now opts).
Proof.
  unfold getex_expiry. destruct opts as [|o opts]; [apply returns_ret|].
  case_bool_decide; [apply returns_ret|]. destruct opts as [|raw [|]]; try (by apply returns_return).
  destruct (is_time_option _); [|by apply returns_return].
  apply returns_bind; [by apply returns_or_return|]. intros n.
  case_match; [by apply returns_return|]. apply returns_bind; [apply returns_or_panic|].
  intros. apply returns_ret.
Qed.

Ltac framing := repeat first
  [ apply yields_bind; [first
      [ apply returns_store | apply returns_scan | apply returns_or_panic | apply returns_getex
      | apply returns_ret | by apply returns_or_return ]|intros ?]
  | apply yields_ret; first [done | apply framed_bulk | apply framed_bulks | apply framed_nils | apply framed_pair]
  | apply yields_return; done
  | case_match | case_decide ].
Lemma yields_set rest : yields (cmd_set sys_now mono_now rest).
Proof.
  unfold cmd_set. destruct rest as [|key [|val opts]]; [by apply yields_return..|].
  apply yields_bind_panic. intros [o|e] Hp; [framing|].
  apply yields_return. by eapply (set_options_framed (length opts)).
Qed.

Lemma yields_scan rest : yields (cmd_scan mono_now rest).
Proof.
  unfold cmd_scan. destruct rest as [|cursor opts]; [by apply yields_return|].
  apply yields_bind; [by apply returns_or_return|]. intros c.
  destruct (scan_options _ _ _) as [[p n]|e] eqn:Ho; [framing|].
  apply scan_options_framed with (m := length opts) in Ho; [|lia]. by apply yields_return.
Qed.

Lemma yields_client rest :
  LF ∉ from_utf8_lossy (default [] (head rest)) → yields (cmd_client rest).
Proof.
  intros Hlf. unfold cmd_client. destruct rest as [|sub rest]; [by apply yields_return|].
  case_bool_decide; [by apply yields_ret|]. case_decide; [by apply yields_ret|].
  apply yields_ret, framed_error; [by apply no_lf|done|by apply no_lf].
Qed.

Lemma yields_commands pw lost name c rest :
  LF ∉ from_utf8_lossy (default [] (head rest)) →
  find_command name (commands sys_now mono_now pw lost) = Some c → yields (c rest).
Proof.
  intros Hlf. unfold commands. cbn [find_command].
  repeat (case_decide; [intros [= <-]|]); try done;
    try (by auto using yields_set, yields_scan, yields_client); clear;
    unfold cmd_ping, cmd_echo, cmd_hello, cmd_get, cmd_del, cmd_exists, cmd_ttl, cmd_pttl,
      cmd_expire, cmd_incr, cmd_decr, cmd_incrby, cmd_decrby, cmd_mget, cmd_mset, cmd_select,
      cmd_dbsize, cmd_flush, cmd_info, cmd_command, cmd_setex, cmd_setnx,
      cmd_getdel, cmd_getex, cmd_persist, cmd_type, cmd_randomkey, cmd_keys, cmd_auth, incr_reply.
  all: framing.
Qed.

(** C36: when the command and subcommand names, as they are echoed, hold no
    line feed, no status or error line of the reply holds a CRLF, which is what
    ends a line: the reply is one frame. *)
Theorem replies_framed pw lost args st r :
  Forall (λ a, LF ∉ from_utf8_lossy a) (take 2 args) →
  (dispatch sys_now mono_now pw lost args st).1 = Some r → framed r = true.
Proof.
  intros Hlf. unfold dispatch, dispatch_body. destruct args as [|name rest]; [by intros [= <-]|].
  destruct (_ && _); [by intros [= <-]|]. cbn [take] in Hlf. apply Forall_cons in Hlf as [Hn Hr].
  destruct (find_command _ _) as [c|] eqn:Hc.
  - apply (yields_commands _ _ _ _ rest) in Hc.
    + specialize (Hc st). destruct (c rest st) as [[r'|r'|] st']; cbn in *; congruence.
    + destruct rest; [by apply no_lf|]. by apply Forall_cons in Hr as [? _].
  - intros [= <-]. apply framed_error; [by apply no_lf|done|by apply no_lf].
Qed.

(** A command name is echoed as it came.  One with a line break in it
    makes the reply two frames: an error, then what the client put after the
    break, which its connection takes for the reply to the next command. *)
Theorem crlf_name_splits_reply lost st :
  ∃ r, (dispatch sys_now mono_now None lost [lit "X" ++ CRLF ++ lit "+OK"] st).1 = Some r ∧
    parse_reply (to_bytes r) = Some (RComplete (Error (lit "ERR unknown command 'X")) 25) ∧
    drop 25 (to_bytes r) = lit "+OK'" ++ CRLF.
Proof.
  eexists. split; [|split].
  - unfold dispatch, dispatch_body. rewrite bool_decide_false by by intros [? ?]. cbn [andb].
    replace (upper _) with (lit "X" ++ CRLF ++ lit "+OK") by by vm_compute.
    unfold commands. cbn [find_command]. by rewrite !decide_False by done.
  - by vm_compute.
  - by vm_compute.
Qed.
End framing.

(** ** Instances *)

Section instances.
(** A case mapping that leaves characters outside ASCII alone. *)
#[local] Instance no_unicode_case : UnicodeCase := λ c, c.
#[local] Instance entry_order : HashIter bytes Entry := listing_order bytes Entry.
#[local] Instance cursor_order : HashIter Z ScanState := listing_order Z ScanState.

Definition fresh : DispatchState := mkDispatchState store_new (mkConnState false).

Lemma dispatch_one_call_witness :
  let d := dispatch 0 5 (Some (lit "pw")) 0 [lit "auth"; lit "pw"] fresh in
  d.1 = Some reply_ok ∧ dconn d.2 = mkConnState true ∧ one_call 5 (dstore fresh) (dstore d.2).
Proof.
  cbn zeta. split; [by vm_compute|]. split; [by vm_compute|].
  destruct (dispatch 0 5 (Some (lit "pw")) 0 [lit "auth"; lit "pw"] fresh) as [r st'] eqn:He.
  apply (dispatch_one_call 0 5 _ _ _ _ _ _ He).
Defined.

Lemma dispatch_total_witness :
  is_Some (dispatch 0 0 None 0 [lit "SET"; lit "k"; lit "v"; lit "EX"; lit "60"] fresh).1.
Proof.
  apply dispatch_total.
  - by vm_compute.
  - split; [|by vm_compute]. split; [by vm_compute|]. split; [vm_compute; lia|].
    intros id st. cbn. by rewrite lookup_empty.
  - repeat apply Forall_cons_2; try apply Forall_nil_2; intros n Hn; vm_compute in Hn;
      try discriminate Hn. injection Hn as <-. by vm_compute.
Defined.

Lemma set_ex_max_panics_witness :
  dispatch 0 NS_PER_SEC None 0
    [lit "SET"; lit "k"; lit "v"; lit "EX"; lit "9223372036854775807"] fresh = (None, fresh).
Proof. apply set_ex_max_panics. by vm_compute. Defined.

Lemma noauth_isolation_witness :
  ∃ replies, ∀ s,
    session (Some (lit "pw")) 0
      [(0, 0, [lit "GET"; lit "k"]); (0, 1, [lit "AUTH"; lit "px"]); (0, 2, [lit "FLUSHALL"])]
      (mkDispatchState s (mkConnState false)) = (replies, mkDispatchState s (mkConnState false)).
Proof.
  apply noauth_isolation. repeat apply Forall_cons_2; try apply Forall_nil_2;
    intros (name & Hn & Ha); cbn in Hn; injection Hn as <-; vm_compute in Ha; done.
Defined.

Lemma dispatch_reachable_witness :
  reachable (dstore (dispatch 0 0 None 0 [lit "SET"; lit "k"; lit "v"] fresh).2).
Proof. apply dispatch_reachable; [constructor|by vm_compute]. Defined.

Lemma set_get_witness :
  let '(r, st1) := dispatch 0 3 None 0 [lit "SET"; lit "k"; lit "v"] fresh in
  r = Some reply_ok ∧
  (dispatch 0 4 None 0 [lit "GET"; lit "k"] st1).1 = Some (reply_bulk (lit "v")).
Proof. apply set_get; [split; [by vm_compute|by vm_compute]|by vm_compute]. Defined.

Lemma replies_framed_witness :
  framed (unknown_command (lit "nope")) = true.
Proof.
  apply (replies_framed 0 0 None 0 [lit "nope"] fresh); [|by vm_compute].
  apply Forall_cons_2; [by apply no_lf|apply Forall_nil_2].
Defined.
End instances.
