(* ===== verification/Commands.v ===== *)
(** * What a command means

    The commands of the server as a table of plans: for given arguments, a
    command answers at once, or makes one call on the store and renders its
    answer.  A plan does not look at the store.  [dispatch_planned] shows that
    [dispatch] (crates/pg_resp/src/dispatch.rs) follows the table; a plan can
    then be run on the abstract map as well. *)

From S2P Require Import Prelude RustStd Proto Glob HashMap Scan Store Cache StoreFacts Dispatch DispatchFacts.

(** ** Plans *)

Inductive Plan : Type :=
| Says (r : Reply)                              (* no call *)
| Admits                                        (* the password was right *)
| Panics
| Calls (op : Op) (reply : Answer → Reply)      (* one call *)
| Lists (reply : list bytes → Reply)            (* a listing of the keys, in some order *)
| Reports.                                      (* statistics, cursors, a random key *)

(** The reply of a call. *)
Definition render (a : Answer) : Reply :=
  match a with
  | AUnit => reply_ok
  | ABool b => Integer (int_of_bool b)
  | AInt n => Integer n
  | AValue v => bulk_or_nil v
  | AValues vs => Array (Some (map bulk_or_nil vs))
  | AKeys ks => Array (Some (map reply_bulk ks))
  | ASet o => if applied o then reply_ok else reply_nil
  | AIncr (Ok n) => Integer n
  | AIncr (Err NotAnInteger) => err_not_integer
  | AIncr (Err Overflow) => reply_error (lit "ERR increment or decrement would overflow")
  end.

(** Other renderings: a count cast to [i64], the replaced value of SET GET, the
    flag of SETNX, the word of TYPE. *)
Definition render_count (a : Answer) : Reply :=
  match a with AInt n => Integer (wrap_i64 n) | _ => render a end.
Definition render_old (a : Answer) : Reply :=
  match a with ASet o => bulk_or_nil (old_value o) | _ => render a end.
Definition render_applied (a : Answer) : Reply :=
  match a with ASet o => Integer (int_of_bool (applied o)) | _ => render a end.
Definition render_type (a : Answer) : Reply :=
  match a with
  | AInt n => reply_simple (if 0 <? n then lit "string" else lit "none")
  | _ => render a
  end.

(** Numbers of arguments; anything else is refused. *)
Definition wrong (name : bytes) : Plan := Says (err_wrong_args name).
Definition none (name : bytes) (p : Plan) (rest : list bytes) : Plan :=
  match rest with [] => p | _ => wrong name end.
Definition one (name : bytes) (f : bytes → Plan) (rest : list bytes) : Plan :=
  match rest with [a] => f a | _ => wrong name end.
Definition two (name : bytes) (f : bytes → bytes → Plan) (rest : list bytes) : Plan :=
  match rest with [a; b] => f a b | _ => wrong name end.
Definition three (name : bytes) (f : bytes → bytes → bytes → Plan) (rest : list bytes) : Plan :=
  match rest with [a; b; c] => f a b c | _ => wrong name end.
Definition many (name : bytes) (f : list bytes → Plan) (rest : list bytes) : Plan :=
  match rest with [] => wrong name | _ => f rest end.

Definition integer (raw : bytes) (f : Z → Plan) : Plan :=
  match parse_i64 raw with Some n => f n | None => Says err_not_integer end.
(** A deadline; it may lie past the end of [Instant]. *)
Definition until (d : option Instant) (f : Instant → Plan) : Plan :=
  match d with Some d => f d | None => Panics end.

Section table.
Context `{UC : UnicodeCase}.
Context (sys_now : SystemTime) (mono_now : Instant).

(** The expiry a GETEX asks for. *)
Definition getex_plan (opts : list bytes) (f : option Expiry → Plan) : Plan :=
  match opts with
  | [] => f None
  | [o] => if bool_decide (upper o = lit "PERSIST") then f (Some ExpiryNone) else Says err_syntax
  | [o; raw] =>
      if is_time_option (upper o) then
        integer raw (λ n,
          if n <=? 0 then Says (err_invalid_expire (lit "getex"))
          else until (option_deadline sys_now mono_now (upper o) n) (λ d, f (Some (At d))))
      else Says err_syntax
  | _ => Says err_syntax
  end.

Definition set_plan (key val : bytes) (opts : list bytes) : Plan :=
  match parse_set_options sys_now mono_now opts with
  | None => Panics
  | Some (Err e) => Says e
  | Some (Ok o) =>
      Calls (OpSet key val (default ExpiryNone (opt_expiry o)) (opt_condition o) (opt_want_get o))
        (if opt_want_get o then render_old else render)
  end.

Definition flush_plan (name : bytes) (rest : list bytes) : Plan :=
  match rest with
  | [] => Calls OpClear render
  | [mode] => if bool_decide (upper mode ∈ [lit "ASYNC"; lit "SYNC"]) then Calls OpClear render else wrong name
  | _ => wrong name
  end.

Definition auth_plan (password : option bytes) : list bytes → Plan :=
  one (lit "auth") (λ p,
    match password with
    | None => Says (reply_error (lit "ERR Client sent AUTH, but no password is set. Did you mean AUTH <username> <password>?"))
    | Some expected =>
        if decide (p = expected) then Admits
        else Says (reply_error (lit "WRONGPASS invalid username-password pair or user is disabled."))
    end).

Definition client_plan (rest : list bytes) : Plan :=
  match rest with
  | [] => wrong (lit "client")
  | sub :: _ =>
      Says (if bool_decide (upper sub ∈ [lit "SETINFO"; lit "SETNAME"]) then reply_ok
            else if decide (upper sub = lit "GETNAME") then reply_bulk []
            else reply_error
              (lit "ERR Unknown CLIENT subcommand or wrong number of arguments for '" ++
               from_utf8_lossy sub ++ lit "'"))
  end.

(** The table. *)
Definition specification (password : option bytes) : list (bytes * (list bytes → Plan)) :=
  [ (lit "PING", λ rest, match rest with
                         | [] => Says (reply_simple (lit "PONG"))
                         | _ => one (lit "ping") (λ x, Says (reply_bulk x)) rest
                         end);
    (lit "ECHO", one (lit "echo") (λ x, Says (reply_bulk x)));
    (lit "HELLO", λ rest, Says (if decide (from_option parse_i64 (Some 2) (head rest) = Some 2) then hello_reply
                                else reply_error (lit "ERR unknown command 'HELLO'")));
    (lit "GET", one (lit "get") (λ k, Calls (OpGet k) render));
    (lit "SET", λ rest, match rest with k :: v :: opts => set_plan k v opts | _ => wrong (lit "set") end);
    (lit "DEL", many (lit "del") (λ ks, Calls (OpDel ks) render_count));
    (lit "EXISTS", many (lit "exists") (λ ks, Calls (OpExists ks) render_count));
    (lit "TTL", one (lit "ttl") (λ k, Calls (OpTtl k) render));
    (lit "PTTL", one (lit "pttl") (λ k, Calls (OpPttl k) render));
    (lit "EXPIRE", two (lit "expire") (λ k secs, integer secs (λ n,
       if n <=? 0 then Calls (OpExpire k mono_now) render
       else until (instant_add mono_now (from_secs n)) (λ d, Calls (OpExpire k d) render))));
    (lit "INCR", one (lit "incr") (λ k, Calls (OpIncrBy k 1) render));
    (lit "DECR", one (lit "decr") (λ k, Calls (OpIncrBy k (-1)) render));
    (lit "INCRBY", two (lit "incrby") (λ k d, integer d (λ n, Calls (OpIncrBy k n) render)));
    (lit "DECRBY", two (lit "decrby") (λ k d, integer d (λ n,
       if n =? i64_min then Says (reply_error (lit "ERR decrement would overflow"))
       else Calls (OpIncrBy k (- n)) render)));
    (lit "MGET", many (lit "mget") (λ ks, Calls (OpMget ks) render));
    (lit "MSET", many (lit "mset") (λ kvs,
       if Nat.even (length kvs) then Calls (OpMset (chunks2 kvs)) render else wrong (lit "mset")));
    (lit "AUTH", auth_plan password);
    (lit "SELECT", one (lit "select") (λ db,
       Says (if decide (db = lit "0") then reply_ok else reply_error (lit "ERR DB index is out of range"))));
    (lit "DBSIZE", none (lit "dbsize") Reports);
    (lit "FLUSHDB", flush_plan (lit "flushdb")); (lit "FLUSHALL", flush_plan (lit "flushall"));
    (lit "INFO", λ _, Reports);
    (lit "SCAN", λ _, Reports);
    (lit "CLIENT", client_plan);
    (lit "COMMAND", λ rest, Says (if decide (upper <$> head rest = Some (lit "COUNT")) then Integer 0
                                  else Array (Some [])));
    (lit "QUIT", λ _, Says reply_ok);
    (lit "SETEX", three (lit "setex") (λ k secs v, integer secs (λ n,
       if n <=? 0 then Says (err_invalid_expire (lit "setex"))
       else until (instant_add mono_now (from_secs n))
              (λ d, Calls (OpSet k v (At d) CondNone false) (λ _, reply_ok)))));
    (lit "SETNX", two (lit "setnx") (λ k v, Calls (OpSet k v ExpiryNone IfNotExists false) render_applied));
    (lit "GETDEL", one (lit "getdel") (λ k, Calls (OpGetDel k) render));
    (lit "GETEX", λ rest, match rest with
                          | [] => wrong (lit "getex")
                          | k :: opts => getex_plan opts (λ ex, Calls (OpGetEx k ex) render)
                          end);
    (lit "PERSIST", one (lit "persist") (λ k, Calls (OpPersist k) render));
    (lit "TYPE", one (lit "type") (λ k, Calls (OpExists [k]) render_type));
    (lit "RANDOMKEY", none (lit "randomkey") Reports);
    (lit "KEYS", one (lit "keys") (λ pattern, Lists (λ ks,
       Array (Some (map reply_bulk (base.filter (λ k, glob_match pattern k = true) ks)))))) ].

Fixpoint find_plan (cmd : bytes) (table : list (bytes * (list bytes → Plan)))
    : option (list bytes → Plan) :=
  match table with
  | [] => None
  | (name, f) :: table => if decide (cmd = name) then Some f else find_plan cmd table
  end.

(** The plan of a request on a connection. *)
Definition command_plan (password : option bytes) (args : list bytes) (cs : ConnState) : Plan :=
  match args with
  | [] => Says (Array (Some []))
  | name :: rest =>
      if bool_decide (is_Some password) && negb (authenticated cs) && negb (pre_auth (upper name))
      then Says (reply_error (lit "NOAUTH Authentication required."))
      else
        match find_plan (upper name) (specification password) with
        | Some f => f rest
        | None => Says (unknown_command name)
        end
  end.
End table.

(** ** The dispatcher follows the table *)

Section planned.
Context `{UC : UnicodeCase} `{HE : !HashIter bytes Entry} `{HC : !HashIter Z ScanState}.
Context (sys_now : SystemTime) (mono_now : Instant).

(** Nothing a client could read has changed. *)
Definition unseen (s s' : Store) : Prop :=
  cache_eq mono_now (contents s') (contents s) ∧ max_memory_bytes s' = max_memory_bytes s.

(** What running a plan in a state gives. *)
Definition follows (p : Plan) (st : DispatchState) (result : option Reply * DispatchState) : Prop :=
  match p with
  | Says r => result = (Some r, st)
  | Admits => result = (Some reply_ok, mkDispatchState (dstore st) (mkConnState true))
  | Panics => result = (None, st)
  | Calls op reply =>
      op ≠ OpRandomKey ∧ op ≠ OpKeys ∧
      let '(a, s) := store_step mono_now op (dstore st) in
      result = (Some (reply a), mkDispatchState s (dconn st))
  | Lists reply => result = (Some (reply (all_keys (dstore st) mono_now)), st)
  | Reports => unseen (dstore st) (dstore result.2) ∧ dconn result.2 = dconn st
  end.

Definition ended (e : Ending Reply * DispatchState) : option Reply * DispatchState :=
  match e with
  | (Value r, st) | (Return r, st) => (Some r, st)
  | (Panic, st) => (None, st)
  end.

Definition implements (p : list bytes → Plan) (c : list bytes → Cmd Reply) : Prop :=
  ∀ rest st, follows (p rest) st (ended (c rest st)).

Lemma unseen_refl s : unseen s s.
Proof. done. Qed.

Lemma random_key_unseen s : unseen s (random_key s mono_now).2.
Proof. split; [apply random_key_spec|]. apply shrink_config, shrinks_removals. Qed.

Lemma scan_unseen s cursor count next page s' :
  scan s mono_now cursor count = Some (next, page, s') → unseen s s'.
Proof.
  unfold scan. destruct (registry_scan _ _ _ _ _) as [[[? ?] ?]|]; [|done].
  by intros [= _ _ <-].
Qed.

Ltac arm :=
  intros rest [st cs];
  unfold none, one, two, three, many, integer, until, set_plan, flush_plan, wrong,
    cmd_ping, cmd_echo, cmd_hello, cmd_get, cmd_set, cmd_del, cmd_exists, cmd_ttl, cmd_pttl,
    cmd_expire, cmd_incr, cmd_decr, cmd_incrby, cmd_decrby, cmd_mget, cmd_mset, cmd_select,
    cmd_dbsize, cmd_flush, cmd_info, cmd_command, cmd_setex, cmd_setnx,
    cmd_getdel, cmd_persist, cmd_type, cmd_randomkey, cmd_keys, incr_reply,
    bind, or_return, or_panic, on_store, ret, return_, follows, ended, checked_neg;
  cbn [head from_option default fmap option_fmap option_map store_step dstore dconn];
  try done; repeat (case_match; simplify_eq/=; try done).

Lemma implements_auth password : implements (auth_plan password) (cmd_auth password).
Proof.
  intros rest st. unfold auth_plan, one. destruct rest as [|p [|]]; [done| |done].
  cbn [cmd_auth]. destruct password as [e|]; [|done].
  pose proof (constant_time_eq_iff e p) as He.
  destruct (decide (p = e)) as [->|Hp].
  - by rewrite (proj2 He eq_refl).
  - destruct (constant_time_eq e p); [|done]. by destruct Hp; rewrite (proj1 He eq_refl).
Qed.

Lemma implements_client : implements client_plan cmd_client.
Proof.
  intros [|sub rest] st; [done|]. cbn [client_plan cmd_client].
  by destruct (bool_decide _), (decide (upper sub = lit "GETNAME")).
Qed.

Lemma implements_command :
  implements (λ rest, Says (if decide (upper <$> head rest = Some (lit "COUNT")) then Integer 0
                            else Array (Some []))) cmd_command.
Proof.
  intros [|sub rest] st; cbn [cmd_command head fmap option_fmap option_map]; [done|].
  destruct (decide (upper sub = lit "COUNT")) as [->|Hs]; [done|].
  by rewrite decide_False by congruence.
Qed.

Lemma implements_scan : implements (λ _, Reports) (cmd_scan mono_now).
Proof.
  intros rest st. cbn [follows]. unfold cmd_scan. destruct rest as [|cursor opts]; [done|].
  unfold bind, or_return. destruct (parse_u64_utf8 cursor) as [c|]; [|done].
  cbn [ret]. destruct (scan_options opts None 10) as [[pattern count]|]; [|done].
  unfold store_scan. destruct (scan _ _ _ _) as [[[next page] s]|] eqn:Hs; [|done].
  cbn. split; [|done]. by eapply scan_unseen.
Qed.

Lemma implements_getex :
  implements (λ rest, match rest with
                      | [] => wrong (lit "getex")
                      | k :: opts => getex_plan sys_now mono_now opts (λ ex, Calls (OpGetEx k ex) render)
                      end) (cmd_getex sys_now mono_now).
Proof.
  intros [|k opts] [st cs]; [done|]. unfold cmd_getex, getex_plan, getex_expiry, bind.
  destruct opts as [|o [|raw [|]]]; cbn [ret]; unfold on_store.
  - cbn. by destruct (get_ex _ _ _ _).
  - rewrite (bool_decide_ext (upper o = lit "PERSIST" ∧ [] = []) (upper o = lit "PERSIST")) by tauto.
    case_bool_decide; [|done]. cbn. by destruct (get_ex _ _ _ _).
  - rewrite bool_decide_false by by intros [? ?]. destruct (is_time_option _); [|done].
    unfold integer, until, or_return, or_panic. destruct (parse_i64 raw) as [n|]; [|done]. cbn.
    destruct (n <=? 0); [done|]. destruct (option_deadline _ _ _ _) as [d|]; [|done]. cbn.
    by destruct (get_ex _ _ _ _).
  - by rewrite bool_decide_false by by intros [? ?].
Qed.

Lemma commands_implement password lost :
  Forall2 (λ row row', row.1 = row'.1 ∧ implements row.2 row'.2)
    (specification sys_now mono_now password) (commands sys_now mono_now password lost).
Proof.
  unfold specification, commands.
  repeat apply Forall2_cons_2; try apply Forall2_nil_2; (split; [done|]); cbn [snd];
    try by (apply implements_auth || apply implements_client || apply implements_command
            || apply implements_scan || apply implements_getex).
  all: arm.
  by split; [apply random_key_unseen|].
Qed.

Lemma find_implemented name table table' :
  Forall2 (λ row row', row.1 = row'.1 ∧ implements row.2 row'.2) table table' →
  match find_plan name table, find_command name table' with
  | Some p, Some c => implements p c
  | None, None => True
  | _, _ => False
  end.
Proof.
  induction 1 as [|[n p] [n' c] table table' [Hn Hi] _ IH]; [done|].
  cbn [find_plan find_command fst snd] in *. subst n'. by destruct (decide (name = n)).
Qed.

(** [dispatch] follows the table: what a command does is decided by its
    arguments alone. *)
Lemma dispatch_planned password lost args st :
  follows (command_plan sys_now mono_now password args (dconn st)) st
    (dispatch sys_now mono_now password lost args st).
Proof.
  unfold dispatch, dispatch_body, command_plan. destruct args as [|name rest]; [done|].
  destruct (_ && _); [done|].
  pose proof (find_implemented (upper name) _ _ (commands_implement password lost)) as H.
  by destruct (find_plan _ _) as [p|], (find_command _ _) as [c|].
Qed.
End planned.
