(* ===== verification/Server.v ===== *)
(** * The event loop (crates/pg_resp/src/lib.rs)

    One thread serves every connection.  An event on a connection reads what
    the socket has, runs the complete commands, appends the replies to the
    write buffer and pushes what the socket takes.  The socket is an
    environment: an event comes with the results its reads and writes will
    give, and after those every call would block.  [sent] records the bytes
    the kernel has accepted. *)

From S2P Require Import Prelude RustStd Proto.

(** ** Constants *)

Definition READ_CHUNK : Z := 16 * 1024.
Definition MAX_PENDING_WRITE_BYTES : Z := 64 * 1024 * 1024.
Definition WRITE_PREFIX_RECLAIM_BYTES : Z := 64 * 1024.
Definition ACTIVE_EXPIRE_SAMPLE_SIZE : nat := 20.
Definition LISTENER_TOKEN : nat := 0.

(** ** What the server needs of the program it serves

    [W] is the state all connections share, [C] the state of one of them. *)
Class Service (W C : Type) := {
  serve : SystemTime → Instant → Z → list bytes → W → C → option Reply * W * C;
  new_conn_state : C;
  sweep : W → Instant → nat → W;
}.

(** A call that panics ([None]) leaves the shared state as it was: the fence of
    the server loop keeps serving from it. *)
Class PanicSafe `(SV : Service W C) : Prop :=
  serve_panic sys mono lost args w c w' c' :
    serve sys mono lost args w c = (None, w', c') → w' = w.

(** ** Sockets *)

(** A [read] into the chunk: [ReadOk []] is [Ok(0)], the peer has closed. *)
Inductive ReadResult : Type :=
| ReadOk (data : bytes)
| ReadWouldBlock
| ReadErr.

(** A [write]: the socket has room for [n] bytes, and takes that much of the
    buffer it is given. *)
Inductive WriteRoom : Type :=
| Room (n : nat)
| WriteWouldBlock
| WriteInterrupted
| WriteErr.

Record Conn (C : Type) := mkConn {
  sent : bytes;
  read_buf : bytes;
  write_buf : bytes;
  write_pos : nat;
  want_write : bool;
  close_after_flush : bool;
  conn_state : C;
}.
Arguments mkConn {C} _ _ _ _ _ _ _.
Arguments sent {C} _.
Arguments read_buf {C} _.
Arguments write_buf {C} _.
Arguments write_pos {C} _.
Arguments want_write {C} _.
Arguments close_after_flush {C} _.
Arguments conn_state {C} _.

Inductive FlushOutcome : Type := Drained | Pending | Failed.

Section conn.
Context {C : Type}.
Implicit Types c : Conn C.

Definition set_read_buf c (b : bytes) : Conn C :=
  mkConn (sent c) b (write_buf c) (write_pos c) (want_write c) (close_after_flush c) (conn_state c).
Definition set_write c (s b : bytes) (p : nat) : Conn C :=
  mkConn s (read_buf c) b p (want_write c) (close_after_flush c) (conn_state c).
Definition set_want_write c (w : bool) : Conn C :=
  mkConn (sent c) (read_buf c) (write_buf c) (write_pos c) w (close_after_flush c) (conn_state c).
Definition set_closing c : Conn C :=
  mkConn (sent c) (read_buf c) (write_buf c) (write_pos c) (want_write c) true (conn_state c).
Definition set_conn_state c (st : C) : Conn C :=
  mkConn (sent c) (read_buf c) (write_buf c) (write_pos c) (want_write c) (close_after_flush c) st.

(** [reply.write_to(&mut conn.write_buf)] *)
Definition push_reply c (r : Reply) : Conn C :=
  set_write c (sent c) (write_to r (write_buf c)) (write_pos c).

(** The unsent rest: [write_buf[write_pos..]]. *)
Definition unsent c : bytes := drop (write_pos c) (write_buf c).

Definition reclaim c : Conn C :=
  if WRITE_PREFIX_RECLAIM_BYTES <=? Z.of_nat (write_pos c)
  then set_write c (sent c) (drop (write_pos c) (write_buf c)) 0
  else c.

(** [flush_writes], by recursion on the results of the writes; the rest of
    them is returned with the connection. *)
Fixpoint flush_writes (ws : list WriteRoom) c : FlushOutcome * Conn C :=
  if bool_decide (write_pos c < length (write_buf c))%nat then
    match ws with
    | Room n :: ws =>
        let n := Nat.min n (length (unsent c)) in
        if bool_decide (n = 0)%nat then (Failed, c)
        else flush_writes ws
               (set_write c (sent c ++ take n (unsent c)) (write_buf c) (write_pos c + n))
    | [] | WriteWouldBlock :: _ => (Pending, reclaim c)
    | WriteInterrupted :: ws => flush_writes ws c
    | WriteErr :: _ => (Failed, c)
    end
  else (Drained, set_write c (sent c) [] 0).

(** The read loop of [service_connection]: whether it reached WouldBlock
    ([true]) or returns ([false]), and the buffer. *)
Fixpoint read_loop (rs : list ReadResult) (buf : bytes) : bool * bytes :=
  match rs with
  | [] | ReadWouldBlock :: _ => (true, buf)
  | ReadOk [] :: _ => (false, buf)
  | ReadOk data :: rs => read_loop rs (buf ++ data)
  | ReadErr :: _ => (false, buf)
  end.
End conn.

Section server.
Context `{SV : Service W C}.

(** The clock readings and the counter load of the [i]-th command. *)
Context (env : nat → SystemTime * Instant * Z).

(** How the command loop ends: normally, or by a panic. *)
Inductive LoopEnd : Type := LoopDone | LoopPanic.

Record LoopState := mkLoopState {
  lconn : Conn C;
  lworld : W;
  lticks : nat;
}.

Definition protocol_error (msg : bytes) : Reply :=
  reply_error (lit "ERR Protocol error: " ++ msg).

(** One command of the loop: the reply goes to the write buffer, QUIT stops
    the loop ([Some LoopDone]). *)
Definition run_command (args : list bytes) (st : LoopState) : option LoopEnd * LoopState :=
  match args with
  | [] => (None, st)
  | name :: _ =>
      let '(sys_now, mono_now, lost) := env (lticks st) in
      let is_quit := eq_ignore_ascii_case name (lit "QUIT") in
      let '(reply, w, cs) := serve sys_now mono_now lost args (lworld st) (conn_state (lconn st)) in
      let conn := set_conn_state (lconn st) cs in
      match reply with
      | None => (Some LoopPanic, mkLoopState conn w (S (lticks st)))
      | Some reply =>
          let conn := push_reply conn reply in
          if is_quit then (Some LoopDone, mkLoopState (set_closing conn) w (S (lticks st)))
          else (None, mkLoopState conn w (S (lticks st)))
      end
  end.

(** The command loop; a turn that goes on consumes input, so one more turn
    than there are bytes is enough. *)
Fixpoint command_loop (fuel : nat) (st : LoopState) : LoopEnd * LoopState :=
  match fuel with
  | O => (LoopDone, st)
  | S fuel' =>
      match parse_command (read_buf (lconn st)) with
      | None => (LoopPanic, st)
      | Some (Complete args consumed) =>
          let st := mkLoopState (set_read_buf (lconn st) (drop consumed (read_buf (lconn st))))
                      (lworld st) (lticks st) in
          match run_command args st with
          | (Some e, st) => (e, st)
          | (None, st) => command_loop fuel' st
          end
      | Some Incomplete => (LoopDone, st)
      | Some (Invalid msg) =>
          (LoopDone, mkLoopState (set_closing (push_reply (lconn st) (protocol_error msg)))
                       (lworld st) (lticks st))
      end
  end.

(** Whether a connection is kept after a flush. *)
Definition keep_after_flush (o : FlushOutcome) (c : Conn C) : bool :=
  match o with
  | Drained => negb (close_after_flush c)
  | Pending => true
  | Failed => false
  end.

(** [service_connection]: [None] for a panic, else whether to keep the
    connection. *)
Definition service_connection (rs : list ReadResult) (ws : list WriteRoom) (st : LoopState)
    : option bool * LoopState :=
  let '(more, buf) := read_loop rs (read_buf (lconn st)) in
  let st := mkLoopState (set_read_buf (lconn st) buf) (lworld st) (lticks st) in
  if negb more then (Some false, st)
  else
    match command_loop (S (length buf)) st with
    | (LoopPanic, st) => (None, st)
    | (LoopDone, st) =>
        if MAX_PENDING_WRITE_BYTES <? len (unsent (lconn st)) then (Some false, st)
        else
          let '(o, conn) := flush_writes ws (lconn st) in
          (Some (keep_after_flush o conn), mkLoopState conn (lworld st) (lticks st))
    end.

(** [reregister] succeeds or not. *)
Definition reconcile_interest (reregister_ok : bool) (c : Conn C) : Conn C :=
  let needs_write := bool_decide (write_pos c < length (write_buf c))%nat in
  if eqb needs_write (want_write c) then c
  else if reregister_ok then set_want_write c needs_write
  else c.

(** ** The server *)

Record Server := mkServer {
  conns : gmap Z (Conn C);
  world : W;
  next_token : Z;
  ticks : nat;
}.

Definition set_conns (s : Server) (m : gmap Z (Conn C)) : Server :=
  mkServer m (world s) (next_token s) (ticks s).

Definition server_new (w : W) : Server := mkServer ∅ w 1 0.

Definition fresh_conn : Conn C := mkConn [] [] [] 0 false false new_conn_state.

(** An [accept] that yields a stream: whether [set_nodelay] and [register]
    succeed on it.  [AcceptErr] is an error other than WouldBlock. *)
Inductive AcceptResult : Type :=
| Accepted (nodelay_ok register_ok : bool)
| AcceptErr.

(** The accept loop.  A failing [set_nodelay] is reported with pgrx's [log!],
    which panics outside the main thread: [None]. *)
Fixpoint accept_loop (rs : list AcceptResult) (s : Server) : option Server :=
  match rs with
  | [] | AcceptErr :: _ => Some s
  | Accepted nodelay_ok register_ok :: rs =>
      if negb nodelay_ok then None
      else
        let token := next_token s in
        let s := mkServer (conns s) (world s) (wrap_u64 (next_token s + 1)) (ticks s) in
        accept_loop rs
          (if register_ok then set_conns s (<[token := fresh_conn]> (conns s)) else s)
  end.

Inductive Event : Type :=
| EvListener (accepts : list AcceptResult)
| EvConn (token : Z) (readable writable : bool) (rs : list ReadResult) (ws : list WriteRoom)
    (reregister_ok : bool).

(** Keep a connection and its poll interest, or remove it. *)
Definition settle (token : Z) (keep : bool) (reregister_ok : bool) (c : Conn C)
    (m : gmap Z (Conn C)) : gmap Z (Conn C) :=
  if keep then <[token := reconcile_interest reregister_ok c]> m else delete token m.

(** A wakeup for writing only: finish the pending replies. *)
Definition writable_event (token : Z) (ws : list WriteRoom) (reregister_ok : bool) (s : Server)
    : Server :=
  match conns s !! token with
  | Some c =>
      let '(o, c) := flush_writes ws c in
      set_conns s (settle token (keep_after_flush o c) reregister_ok c (conns s))
  | None => s
  end.

(** Any other wakeup, inside the fence: a panic costs the connection. *)
Definition fenced_event (token : Z) (rs : list ReadResult) (ws : list WriteRoom)
    (reregister_ok : bool) (s : Server) : Server :=
  match conns s !! token with
  | Some c =>
      let '(result, st) := service_connection rs ws (mkLoopState c (world s) (ticks s)) in
      let keep := match result with Some keep => keep | None => false end in
      mkServer (settle token keep reregister_ok (lconn st) (conns s)) (lworld st)
        (next_token s) (lticks st)
  | None => s
  end.

(** One event; [None] is a panic of the loop itself. *)
Definition step_event (e : Event) (s : Server) : option Server :=
  match e with
  | EvListener accepts => accept_loop accepts s
  | EvConn token readable writable rs ws reregister_ok =>
      if writable && negb readable
      then Some (writable_event token ws reregister_ok s)
      else Some (fenced_event token rs ws reregister_ok s)
  end.

Fixpoint step_events (es : list Event) (s : Server) : option Server :=
  match es with
  | [] => Some s
  | e :: es => s ← step_event e s; step_events es s
  end.

(** One turn of the loop: [poll] fails, or returns events at a time. *)
Inductive Turn : Type :=
| PollErr
| PollOk (now : Instant) (events : list Event).

Definition step_turn (t : Turn) (s : Server) : option Server :=
  match t with
  | PollErr => Some s
  | PollOk now events =>
      step_events events
        (mkServer (conns s) (sweep (world s) now ACTIVE_EXPIRE_SAMPLE_SIZE) (next_token s) (ticks s))
  end.

(** [server_loop], with the value of the shutdown flag before each turn. *)
Fixpoint server_loop (turns : list (bool * Turn)) (s : Server) : option Server :=
  match turns with
  | [] => Some s
  | (shutdown, t) :: turns =>
      if shutdown then Some s else s ← step_turn t s; server_loop turns s
  end.
End server.
