(* ===== verification/ServerFacts.v ===== *)
(** * Properties of the event loop

    Writing: no byte of a reply is lost, repeated or reordered, whatever the
    socket takes.  Reading: the commands of a pipeline are served in order, and
    the way the input is cut into reads does not matter.  The table of
    connections: its bounds, its independence, the fence. *)

From S2P Require Import Prelude RustStd Proto Server.

Section flush.
Context {C : Type}.
Implicit Types c : Conn C.

(** The cursor is inside the buffer. *)
Definition cursor_ok c : Prop := (write_pos c ≤ length (write_buf c))%nat.

(** Everything the connection has been answered: what the kernel took and
    what is still owed. *)
Definition answered c : bytes := sent c ++ unsent c.

(** The fields a flush leaves alone. *)
Definition same_rest c c' : Prop :=
  read_buf c' = read_buf c ∧ want_write c' = want_write c ∧
  close_after_flush c' = close_after_flush c ∧ conn_state c' = conn_state c.

Lemma answered_reclaim c : answered (reclaim c) = answered c.
Proof. unfold reclaim. case_match; [|done]. unfold answered, unsent. cbn. by rewrite drop_0. Qed.

Lemma unsent_reclaim c : unsent (reclaim c) = unsent c.
Proof. unfold reclaim. case_match; [|done]. unfold unsent. cbn. by rewrite drop_0. Qed.

Lemma flush_spec ws : ∀ c o c', cursor_ok c → flush_writes ws c = (o, c') →
  answered c' = answered c ∧ cursor_ok c' ∧ same_rest c c' ∧
  len (unsent c') <= len (unsent c) ∧
  match o with
  | Drained => write_buf c' = [] ∧ write_pos c' = 0%nat
  | Pending => unsent c' ≠ [] ∧ Z.of_nat (write_pos c') < WRITE_PREFIX_RECLAIM_BYTES
  | Failed => True
  end.
Proof.
  assert (Hpend : ∀ c, cursor_ok c → (write_pos c < length (write_buf c))%nat →
    answered (reclaim c) = answered c ∧ cursor_ok (reclaim c) ∧ same_rest c (reclaim c) ∧
    len (unsent (reclaim c)) <= len (unsent c) ∧ unsent (reclaim c) ≠ [] ∧
    Z.of_nat (write_pos (reclaim c)) < WRITE_PREFIX_RECLAIM_BYTES).
  { intros c Hc Hlt. rewrite answered_reclaim, unsent_reclaim. split; [done|].
    assert (unsent c ≠ []) as Hne.
    { unfold unsent. intros E. apply (f_equal length) in E. rewrite length_drop in E. cbn in E. lia. }
    unfold reclaim. destruct (Z.leb_spec WRITE_PREFIX_RECLAIM_BYTES (Z.of_nat (write_pos c)));
      split_and!; try done; unfold cursor_ok in *; cbn; unfold WRITE_PREFIX_RECLAIM_BYTES; lia. }
  induction ws as [|w ws IH]; intros c o c' Hc Hf; cbn [flush_writes] in Hf;
    (destruct (bool_decide_reflect (write_pos c < length (write_buf c))%nat) as [Hlt|Hge];
     [|injection Hf as <- <-; unfold answered, unsent, cursor_ok in *; cbn;
       rewrite (drop_ge (write_buf c)) by lia; split_and!; done || (unfold len; cbn; lia)]).
  - injection Hf as <- <-. destruct (Hpend c Hc Hlt) as (?&?&?&?&?&?). by split_and!.
  - destruct w as [n| | |].
    + set (k := Nat.min n (length (unsent c))) in *.
      case_bool_decide; [injection Hf as <- <-; by split_and!|].
      assert (Hk : (k ≤ length (unsent c))%nat) by lia.
      set (c1 := set_write c _ _ _) in *.
      assert (Hu : unsent c1 = drop k (unsent c)).
      { unfold c1, unsent. cbn. by rewrite drop_drop. }
      assert (Hl : length (unsent c) = (length (write_buf c) - write_pos c)%nat)
        by (unfold unsent; apply length_drop).
      destruct (IH c1 o c') as (H1 & H2 & H3 & H4 & H5); [unfold cursor_ok, c1; cbn; lia|done|].
      split_and!; try done; try apply H3.
      * rewrite H1. unfold answered. rewrite Hu. unfold c1. cbn. by rewrite <- app_assoc, take_drop.
      * rewrite Hu in H4. unfold len in *. rewrite length_drop in H4. lia.
    + injection Hf as <- <-. destruct (Hpend c Hc Hlt) as (?&?&?&?&?&?). by split_and!.
    + by apply IH.
    + injection Hf as <- <-. by split_and!.
Qed.
End flush.

Section loop.
Context `{SV : Service W C} (env : nat → SystemTime * Instant * Z).
Implicit Types (st : LoopState (W := W) (C := C)).

Abbreviation loop := (command_loop env).
Abbreviation input st := (read_buf (lconn st)).

(** More input behind what is buffered. *)
Definition feed st (more : bytes) : LoopState :=
  mkLoopState (set_read_buf (lconn st) (input st ++ more)) (lworld st) (lticks st).
Definition consume st (n : nat) : LoopState :=
  mkLoopState (set_read_buf (lconn st) (drop n (input st))) (lworld st) (lticks st).

(** A command does not look at the input buffer. *)
Lemma run_command_feed args st more :
  run_command env args (feed st more) =
  let '(e, st') := run_command env args st in (e, feed st' more).
Proof.
  unfold run_command. destruct args as [|name args]; [done|]. cbn [lticks feed].
  destruct (env (lticks st)) as [[sys mono] lost]. cbn [lworld lconn conn_state feed set_read_buf].
  destruct (serve _ _ _ _ _ _) as [[[r|] w] cs]; [|done]. by case_match.
Qed.

Lemma run_command_input args st e st' :
  run_command env args st = (e, st') → input st' = input st.
Proof.
  unfold run_command. destruct args as [|name args]; [by intros [= <- <-]|].
  destruct (env (lticks st)) as [[sys mono] lost].
  destruct (serve _ _ _ _ _ _) as [[[r|] w] cs]; [case_match|]; by intros [= <- <-].
Qed.

Lemma run_command_done args st st' :
  run_command env args st = (Some LoopDone, st') → close_after_flush (lconn st') = true.
Proof.
  unfold run_command. destruct args as [|name args]; [done|].
  destruct (env (lticks st)) as [[sys mono] lost].
  destruct (serve _ _ _ _ _ _) as [[[r|] w] cs]; [case_match|]; by intros [= <-].
Qed.

(** Fuel beyond the length of the input does not matter. *)
Lemma loop_fuel fuel : ∀ fuel' st,
  (length (input st) < fuel)%nat → (fuel ≤ fuel')%nat → loop fuel' st = loop fuel st.
Proof.
  induction fuel as [|fuel IH]; intros fuel' st Hl Hle; [lia|].
  destruct fuel' as [|fuel']; [lia|]. cbn [command_loop].
  destruct (parse_command_cases (input st)) as (o & -> & Hn).
  destruct o as [args n| |msg]; [|done..]. specialize (Hn _ _ eq_refl).
  fold (consume st n). destruct (run_command env args (consume st n)) as [[e|] st'] eqn:Hr; [done|].
  apply IH; [|lia]. apply run_command_input in Hr. rewrite Hr. cbn. rewrite length_drop. lia.
Qed.

(** The loop over all its input. *)
Definition run st : LoopEnd * LoopState := loop (S (length (input st))) st.

Lemma run_eq st :
  run st =
  match parse_command (input st) with
  | Some (Complete args consumed) =>
      match run_command env args (consume st consumed) with
      | (Some e, st) => (e, st)
      | (None, st) => run st
      end
  | Some (Invalid msg) =>
      (LoopDone, mkLoopState (set_closing (push_reply (lconn st) (protocol_error msg)))
                   (lworld st) (lticks st))
  | Some Incomplete => (LoopDone, st)
  | None => (LoopPanic, st)
  end.
Proof.
  unfold run at 1. cbn [command_loop].
  destruct (parse_command_cases (input st)) as (o & -> & Hn).
  destruct o as [args n| |msg]; [|done..]. specialize (Hn _ _ eq_refl).
  fold (consume st n). destruct (run_command env args (consume st n)) as [[e|] st'] eqn:Hr; [done|].
  apply loop_fuel; [lia|]. apply run_command_input in Hr. rewrite Hr. cbn. rewrite length_drop. lia.
Qed.

Lemma run_induction (P : LoopState → Prop) :
  (∀ st, (∀ st', (length (input st') < length (input st))%nat → P st') → P st) → ∀ st, P st.
Proof.
  intros H st. remember (length (input st)) as n eqn:Hn. revert st Hn.
  induction (lt_wf n) as [n _ IH]. intros st ->. apply H. intros st' Hlt. by eapply IH.
Qed.

(** C26: cutting the input into two reads does not matter.  If the loop stops
    for want of input, going on with more input behind what it left is the
    same as running over everything at once. *)
Theorem split_reads st st1 more :
  run st = (LoopDone, st1) → close_after_flush (lconn st1) = false →
  run (feed st more) = run (feed st1 more).
Proof.
  revert st. refine (run_induction _ _). intros st IH Hrun Hopen.
  rewrite run_eq in Hrun. destruct (parse_command_cases (input st)) as (o & Ho & Hn).
  rewrite Ho in Hrun. destruct o as [args n| |msg].
  - specialize (Hn _ _ eq_refl). rewrite (run_eq (feed st more)).
    cbn [lconn feed read_buf set_read_buf].
    rewrite (parse_command_app _ more _ Ho) by done.
    replace (consume (feed st more) n) with (feed (consume st n) more).
    2:{ unfold consume, feed. cbn. by rewrite drop_app_le by lia. }
    rewrite run_command_feed.
    destruct (run_command env args (consume st n)) as [[e|] st'] eqn:Hr.
    + injection Hrun as -> <-. apply run_command_done in Hr. congruence.
    + apply IH; [|done|done]. apply run_command_input in Hr. rewrite Hr. cbn.
      rewrite length_drop. lia.
  - by injection Hrun as <-.
  - injection Hrun as <-. done.
Qed.

(** *** Pipelines *)

(** What the service answers to commands served one after the other. *)
Fixpoint serve_all (cmds : list (list bytes)) (i : nat) (w : W) (cs : C)
    : option (list Reply * W * C) :=
  match cmds with
  | [] => Some ([], w, cs)
  | args :: cmds =>
      let '(sys, mono, lost) := env i in
      match serve sys mono lost args w cs with
      | (Some r, w, cs) => '(rs, w, cs) ← serve_all cmds (S i) w cs; Some (r :: rs, w, cs)
      | (None, _, _) => None
      end
  end.

Definition ordinary (args : list bytes) : Prop :=
  args ≠ [] ∧ args_ok args = true ∧
  eq_ignore_ascii_case (default [] (head args)) (lit "QUIT") = false.

Lemma unsent_push (c : Conn C) r : cursor_ok c → unsent (push_reply c r) = unsent c ++ to_bytes r.
Proof.
  intros Hc. unfold unsent, push_reply. cbn. rewrite write_to_app. by apply drop_app_le.
Qed.

Lemma cursor_push (c : Conn C) r : cursor_ok c → cursor_ok (push_reply c r).
Proof.
  unfold cursor_ok, push_reply. cbn. rewrite write_to_app, length_app. lia.
Qed.

(** A pipeline of commands, as a client encodes them, is served in order and
    once each: the replies are appended to what the connection is owed, one
    after the other, and no input is left. *)
Lemma pipeline_run cmds : ∀ st rest rs w cs,
  Forall ordinary cmds → cursor_ok (lconn st) →
  input st = concat (map encode_command cmds) ++ rest →
  parse_command rest = Some Incomplete →
  serve_all cmds (lticks st) (lworld st) (conn_state (lconn st)) = Some (rs, w, cs) →
  ∃ st', run st = (LoopDone, st') ∧ input st' = rest ∧ lworld st' = w ∧
    conn_state (lconn st') = cs ∧ sent (lconn st') = sent (lconn st) ∧
    unsent (lconn st') = unsent (lconn st) ++ concat (map to_bytes rs) ∧
    close_after_flush (lconn st') = close_after_flush (lconn st).
Proof.
  induction cmds as [|args cmds IH]; intros st rest rs w cs Hok Hcur Hin Hrest Hs;
    cbn [map concat app serve_all] in Hin, Hs.
  { injection Hs as <- <- <-. exists st. rewrite run_eq, Hin, Hrest. cbn. rewrite app_nil_r.
    by split_and!. }
  apply Forall_cons in Hok as [(Hne & Hargs & Hq) Hok]. rewrite <- app_assoc in Hin.
  rewrite run_eq, Hin, parse_encoded by done.
  destruct args as [|name args]; [done|]. unfold run_command. cbn [lticks consume lworld lconn].
  destruct (env (lticks st)) as [[sys mono] lost]. cbn [conn_state set_read_buf].
  destruct (serve sys mono lost (name :: args) (lworld st) (conn_state (lconn st)))
    as [[[r|] w1] cs1]; [|done].
  cbn [head from_option id] in Hq. rewrite Hq.
  destruct (serve_all cmds (S (lticks st)) w1 cs1) as [[[rs' w'] cs']|] eqn:Hall; [|done].
  cbn in Hs. injection Hs as <- <- <-.
  set (st1 := mkLoopState _ w1 _).
  assert (Hin1 : input st1 = concat (map encode_command cmds) ++ rest).
  { unfold st1. cbn. rewrite Hin. apply drop_app_length. }
  assert (Hc1 : cursor_ok (lconn st1)) by (apply (cursor_push (lconn st) r Hcur)).
  destruct (IH st1 rest rs' w' cs' Hok Hc1 Hin1 Hrest Hall) as (st' & H1 & H2 & H3 & H4 & H5 & H6 & H7).
  exists st'. split_and!; try done.
  rewrite H6. pose proof (unsent_push (lconn st) r Hcur) as Hu.
  change (unsent (lconn st1)) with (unsent (push_reply (lconn st) r)). rewrite Hu.
  by rewrite <- app_assoc.
Qed.
End loop.

(** ** The table of connections *)

Section table.
Context `{SV : Service W C} `{SP : !PanicSafe SV} (env : nat → SystemTime * Instant * Z).
Implicit Types (s : Server (W := W) (C := C)) (c : Conn C).

(** One command answered. *)
Definition answers (w w' : W) : Prop :=
  ∃ sys mono lost args cs r cs', serve sys mono lost args w cs = (Some r, w', cs').

(** What running commands does: the shared state goes through answered
    commands only, the kernel's bytes and the poll interest stay, and the
    cursor stays inside a buffer that only grows. *)
Definition progress (st st' : LoopState (W := W) (C := C)) : Prop :=
  rtc answers (lworld st) (lworld st') ∧
  sent (lconn st') = sent (lconn st) ∧ want_write (lconn st') = want_write (lconn st) ∧
  write_pos (lconn st') = write_pos (lconn st) ∧
  ∃ out, write_buf (lconn st') = write_buf (lconn st) ++ out.

Lemma progress_refl st : progress st st.
Proof. split_and!; try done. exists []. by rewrite app_nil_r. Qed.

Lemma progress_trans st1 st2 st3 : progress st1 st2 → progress st2 st3 → progress st1 st3.
Proof.
  intros (H1 & H2 & H3 & H4 & o1 & H5) (K1 & K2 & K3 & K4 & o2 & K5).
  split_and!; try congruence; [by etrans|]. exists (o1 ++ o2). by rewrite K5, H5, app_assoc.
Qed.

Lemma run_command_progress args st e st' :
  run_command env args st = (e, st') → progress st st'.
Proof.
  unfold run_command. destruct args as [|name args]; [intros [= <- <-]; apply progress_refl|].
  destruct (env (lticks st)) as [[sys mono] lost].
  destruct (serve _ _ _ _ _ _) as [[r w] cs] eqn:Hs. destruct r as [r|].
  - assert (answers (lworld st) w) as Ha by (repeat eexists; exact Hs).
    case_match; intros [= <- <-]; split_and!; try done; try (by apply rtc_once);
      cbn; rewrite write_to_app; by eexists.
  - intros [= <- <-]. apply serve_panic in Hs as ->. split_and!; try done.
    exists []. by rewrite app_nil_r.
Qed.

Lemma loop_progress fuel : ∀ st e st', command_loop env fuel st = (e, st') → progress st st'.
Proof.
  induction fuel as [|fuel IH]; intros st e st'; cbn [command_loop];
    [intros [= <- <-]; apply progress_refl|].
  destruct (parse_command _) as [[args n| |msg]|]; [|intros [= <- <-]..].
  - destruct (run_command env args _) as [[e1|] st1] eqn:Hr; apply run_command_progress in Hr.
    + intros [= <- <-]. exact Hr.
    + intros Hl. eapply progress_trans; [exact Hr|]. by eapply IH.
  - apply progress_refl.
  - split_and!; try done. exists (to_bytes (protocol_error msg)). apply write_to_app.
  - apply progress_refl.
Qed.

(** A connection that is served and kept: its flush, after the commands and
    under the cap. *)
Lemma service_cases rs ws st result st' :
  service_connection env rs ws st = (result, st') →
  rtc answers (lworld st) (lworld st') ∧
  (result = Some true → ∃ st1 o, progress st st1 ∧
    len (unsent (lconn st1)) <= MAX_PENDING_WRITE_BYTES ∧
    flush_writes ws (lconn st1) = (o, lconn st') ∧ keep_after_flush o (lconn st') = true).
Proof.
  unfold service_connection. destruct (read_loop rs _) as [more buf].
  set (st0 := mkLoopState (set_read_buf (lconn st) buf) (lworld st) (lticks st)).
  destruct more; cbn [negb]; [|by intros [= <- <-]].
  destruct (command_loop env _ st0) as [e st1] eqn:Hl. apply loop_progress in Hl.
  destruct e; [|intros [= <- <-]; split; [apply Hl|done]].
  destruct (Z.ltb_spec MAX_PENDING_WRITE_BYTES (len (unsent (lconn st1)))).
  { intros [= <- <-]. split; [apply Hl|done]. }
  destruct (flush_writes ws (lconn st1)) as [o c'] eqn:Hf. intros [= <- <-].
  split; [apply Hl|]. intros [= Hk]. exists st1, o. by split_and!.
Qed.

(** The bounds of a connection between two events: the cursor is inside the
    buffer, the sent prefix and the unsent rest are both bounded. *)
Definition bounded c : Prop :=
  cursor_ok c ∧ len (unsent c) <= MAX_PENDING_WRITE_BYTES ∧
  Z.of_nat (write_pos c) < WRITE_PREFIX_RECLAIM_BYTES.

(** Write interest is registered exactly while bytes are owed. *)
Definition tracked c : Prop :=
  want_write c = bool_decide (write_pos c < length (write_buf c))%nat.

Lemma flush_bounded ws c o c' :
  cursor_ok c → len (unsent c) <= MAX_PENDING_WRITE_BYTES → flush_writes ws c = (o, c') →
  keep_after_flush o c' = true → bounded c'.
Proof.
  intros Hc Hl Hf Hk. apply flush_spec in Hf as (_ & Hc' & _ & Hl' & Ho); [|done].
  split_and!; [done|lia|]. destruct o; cbn in Hk; [|apply Ho|done].
  destruct Ho as [_ ->]. unfold WRITE_PREFIX_RECLAIM_BYTES. lia.
Qed.

Lemma reconcile_bounded ok c : bounded c → bounded (reconcile_interest ok c).
Proof. unfold reconcile_interest. by repeat case_match. Qed.

Lemma reconcile_tracked c : tracked (reconcile_interest true c).
Proof.
  unfold tracked, reconcile_interest. case_match eqn:He; [|done].
  apply eqb_prop in He. congruence.
Qed.

Lemma progress_cursor st st' : progress st st' → cursor_ok (lconn st) → cursor_ok (lconn st').
Proof.
  intros (_ & _ & _ & Hp & out & Hb). unfold cursor_ok. rewrite Hp, Hb, length_app. lia.
Qed.

(** [P] of every connection in the table. *)
Definition all_conns (P : Conn C → Prop) s : Prop := ∀ t c, conns s !! t = Some c → P c.

Lemma settle_all (P : Conn C → Prop) token keep ok c (m : gmap Z (Conn C)) :
  (keep = true → P (reconcile_interest ok c)) → (∀ t c, m !! t = Some c → P c) →
  ∀ t c', settle token keep ok c m !! t = Some c' → P c'.
Proof.
  intros Hk Hm t c'. unfold settle. destruct keep.
  - intros [[<- <-]|[_ Hl]]%lookup_insert_Some; [by apply Hk|by eapply Hm].
  - intros [_ Hl]%lookup_delete_Some. by eapply Hm.
Qed.

(** Every connection's memory is bounded, before and after every event. *)
Lemma step_event_bounded e s s' :
  step_event env e s = Some s' → all_conns bounded s → all_conns bounded s'.
Proof.
  intros Hs Hall. destruct e as [accepts|token r w rs ws ok]; cbn [step_event] in Hs.
  - revert s Hs Hall. induction accepts as [|[nd reg|] accepts IH]; intros s;
      cbn [accept_loop]; [by intros [= <-]| |by intros [= <-]].
    destruct nd; cbn [negb]; [|done]. intros Hs Hall. apply IH in Hs; [done|].
    destruct reg; [|exact Hall]. intros t c Ht. cbn [conns set_conns] in Ht.
    apply lookup_insert_Some in Ht as [[<- <-]|[_ Hl]]; [|by eapply Hall]. unfold bounded, cursor_ok, MAX_PENDING_WRITE_BYTES, WRITE_PREFIX_RECLAIM_BYTES.
    unfold len, unsent. cbn. lia.
  - case_match; injection Hs as <-; [unfold writable_event|unfold fenced_event];
      destruct (conns s !! token) as [c|] eqn:Hc; try exact Hall;
      pose proof (Hall _ _ Hc) as (Hcur & Hlen & _).
    + destruct (flush_writes ws c) as [o c'] eqn:Hf. refine (settle_all bounded _ _ _ _ (conns s) _ Hall).
      intros Hk. by eapply reconcile_bounded, flush_bounded.
    + destruct (service_connection _ _ _ _) as [result st'] eqn:Hsv.
      apply service_cases in Hsv as [_ Hkeep]. refine (settle_all bounded _ _ _ _ (conns s) _ Hall).
      intros Hk. destruct result as [[]|]; try done.
      destruct (Hkeep eq_refl) as (st1 & o & Hp & Hl & Hf & Hkp).
      eapply reconcile_bounded, flush_bounded; [|exact Hl|exact Hf|done].
      by apply (progress_cursor _ _ Hp).
Qed.

(** [P] kept by every event is kept by the loop. *)
Lemma server_loop_inv (P : Server → Prop) turns :
  (∀ now s, P s → P (mkServer (conns s) (sweep (world s) now ACTIVE_EXPIRE_SAMPLE_SIZE)
                        (next_token s) (ticks s))) →
  (∀ e s s', step_event env e s = Some s' → P s → P s') →
  ∀ s s', server_loop env turns s = Some s' → P s → P s'.
Proof.
  intros Hw Hstep. induction turns as [|[shutdown t] turns IH]; intros s s'; cbn [server_loop];
    [by intros [= <-]|]. destruct shutdown; [by intros [= <-]|].
  destruct (step_turn env t s) as [s1|] eqn:Ht; [|done]. cbn [mbind option_bind].
  intros Hl HP. eapply IH; [exact Hl|]. destruct t as [|now events]; [by injection Ht as <-|].
  cbn [step_turn] in Ht. apply (Hw now) in HP.
  revert Ht HP. generalize (mkServer (conns s)
    (sweep (world s) now ACTIVE_EXPIRE_SAMPLE_SIZE) (next_token s) (ticks s)).
  clear - Hstep. induction events as [|e events IH]; intros s; cbn [step_events]; [by intros [= <-]|].
  destruct (step_event env e s) as [s2|] eqn:He; [|done]. cbn [mbind option_bind].
  intros Hs HP. by eapply IH, Hstep.
Qed.

(** C25: however the loop runs, every connection in the table owes at most
    [MAX_PENDING_WRITE_BYTES] and its write buffer is smaller than that plus
    [WRITE_PREFIX_RECLAIM_BYTES]. *)
Theorem write_buffers_bounded turns w s t c :
  server_loop env turns (server_new w) = Some s → conns s !! t = Some c →
  cursor_ok c ∧ len (unsent c) <= MAX_PENDING_WRITE_BYTES ∧
  len (write_buf c) < MAX_PENDING_WRITE_BYTES + WRITE_PREFIX_RECLAIM_BYTES.
Proof.
  intros Hl Hc. assert (Hall : all_conns bounded s).
  { eapply (server_loop_inv (all_conns bounded)); [done|apply step_event_bounded|exact Hl|].
    intros t' c'. cbn. by rewrite lookup_empty. }
  destruct (Hall _ _ Hc) as (Hcur & Hlen & Hpos). split_and!; [done..|].
  unfold cursor_ok, unsent, len in *. rewrite length_drop in Hlen. lia.
Qed.

(** The other connections of an event. *)
Lemma settle_other token keep ok c (m : gmap Z (Conn C)) t :
  t ≠ token → settle token keep ok c m !! t = m !! t.
Proof.
  intros Ht. unfold settle. destruct keep; [by apply lookup_insert_ne|by apply lookup_delete_ne].
Qed.

(** Whatever the event, the shared state goes through answered commands. *)
Lemma step_event_answers e s s' :
  step_event env e s = Some s' → rtc answers (world s) (world s').
Proof.
  destruct e as [accepts|token r w rs ws ok]; cbn [step_event].
  - revert s. induction accepts as [|[nd reg|] accepts IH]; intros s; cbn [accept_loop];
      [by intros [= <-]| |by intros [= <-]].
    destruct nd; cbn [negb]; [|done]. intros Hs%IH. by destruct reg.
  - case_match; intros [= <-]; [unfold writable_event|unfold fenced_event];
      (destruct (conns s !! token) as [c|]; [|done]).
    + by destruct (flush_writes ws c).
    + destruct (service_connection _ _ _ _) eqn:Hs. by apply service_cases in Hs as [? _].
Qed.

(** C24: an event on one connection leaves every other connection as it is, a
    panic included, which removes the connection; and what the shared state
    goes through is only commands that were answered. *)
Theorem connections_isolated token r w rs ws ok s s' :
  step_event env (EvConn token r w rs ws ok) s = Some s' →
  (∀ t, t ≠ token → conns s' !! t = conns s !! t) ∧
  rtc answers (world s) (world s') ∧
  (∀ c st', conns s !! token = Some c → negb (w && negb r) = true →
    service_connection env rs ws (mkLoopState c (world s) (ticks s)) = (None, st') →
    conns s' = delete token (conns s)).
Proof.
  cbn [step_event]. destruct (w && negb r); intros [= <-].
  - unfold writable_event. destruct (conns s !! token) as [c|]; [|done].
    destruct (flush_writes ws c) as [o c']. split; [intros; by apply settle_other|done].
  - unfold fenced_event. destruct (conns s !! token) as [c|] eqn:Hc; [|done].
    destruct (service_connection _ _ _ _) as [result st'] eqn:Hs. cbn [conns world].
    split; [intros; by apply settle_other|]. split; [by apply service_cases in Hs as [? _]|].
    intros c' st1 [= <-] _ Hp. rewrite Hs in Hp. by injection Hp as -> <-.
Qed.

(** While the registrations with the poll succeed, a connection waits for
    the socket to be writable exactly when it owes bytes. *)
Theorem interest_tracks_pending events :
  Forall (λ e, match e with EvConn _ _ _ _ _ ok => ok = true | _ => True end) events →
  ∀ s s', all_conns tracked s → step_events env events s = Some s' → all_conns tracked s'.
Proof.
  induction events as [|e events IH]; intros Hok s s' Hall; cbn [step_events]; [by intros [= <-]|].
  apply Forall_cons in Hok as [He Hok].
  destruct (step_event env e s) as [s1|] eqn:Hs; [|done]. cbn [mbind option_bind].
  apply IH; [done|]. clear s' IH Hok events.
  destruct e as [accepts|token r w rs ws ok]; cbn [step_event] in Hs.
  - revert s Hs Hall. induction accepts as [|[nd reg|] accepts IH]; intros s;
      cbn [accept_loop]; [by intros [= <-]| |by intros [= <-]].
    destruct nd; cbn [negb]; [|done]. intros Hs Hall. apply IH in Hs; [done|].
    destruct reg; [|exact Hall]. intros t c Ht. cbn [conns set_conns] in Ht.
    apply lookup_insert_Some in Ht as [[<- <-]|[_ Hl]]; [done|by eapply Hall].
  - subst ok. case_match; injection Hs as <-; [unfold writable_event|unfold fenced_event];
      (destruct (conns s !! token) as [c|]; [|exact Hall]).
    + destruct (flush_writes ws c). refine (settle_all tracked _ _ _ _ (conns s) _ Hall). intros _.
      apply reconcile_tracked.
    + destruct (service_connection _ _ _ _). refine (settle_all tracked _ _ _ _ (conns s) _ Hall). intros _.
      apply reconcile_tracked.
Qed.

(** *** Input that is not served *)

(** When a read finds the end of the stream, nothing buffered is run:
    commands that arrived together with it are dropped, unanswered. *)
Theorem eof_discards_input data rest ws st :
  data ≠ [] →
  let '(result, st') := service_connection env (ReadOk data :: ReadOk [] :: rest) ws st in
  result = Some false ∧ lworld st' = lworld st ∧ lticks st' = lticks st.
Proof. intros Hd. unfold service_connection. cbn [read_loop]. by destruct data. Qed.
End table.

(** ** Flushing *)

(** A flush neither loses, repeats nor reorders a byte: what the kernel
    has taken followed by what is still buffered is the same before and after.
    [Drained] means the buffer is empty, [Pending] that bytes are left. *)
Theorem flush_keeps_bytes {C} ws (c : Conn C) o c' :
  cursor_ok c → flush_writes ws c = (o, c') →
  sent c' ++ unsent c' = sent c ++ unsent c ∧ cursor_ok c' ∧
  match o with
  | Drained => unsent c' = []
  | Pending => unsent c' ≠ []
  | Failed => True
  end.
Proof.
  intros Hc Hf. apply flush_spec in Hf as (Ha & Hc' & _ & _ & Ho); [|done].
  split_and!; [done..|]. destruct o; [|apply Ho|done].
  unfold unsent. by destruct Ho as [-> ->].
Qed.

(** A write that takes something. *)
Definition takes_some (w : WriteRoom) : bool := match w with Room (S _) => true | _ => false end.

(** A socket that keeps taking bytes, at least one a write, drains the buffer;
    interrupted writes are retried. *)
Lemma flush_drains {C} ws : ∀ c : Conn C,
  cursor_ok c → Forall (λ w, takes_some w = true ∨ w = WriteInterrupted) ws →
  (length (unsent c) ≤ length (base.filter (λ w, takes_some w = true) ws))%nat →
  (flush_writes ws c).1 = Drained.
Proof.
  induction ws as [|w ws IH]; intros c Hc Hws Hl; cbn [flush_writes];
    (case_bool_decide as Hlt; [|done]);
    assert (Hu : length (unsent c) = (length (write_buf c) - write_pos c)%nat)
      by (unfold unsent; apply length_drop).
  - cbn in Hl. lia.
  - apply Forall_cons in Hws as [[Hw|Hw] Hws].
    + rewrite filter_cons_True in Hl by done. cbn in Hl. destruct w as [[|n]| | |]; try done.
      set (k := Nat.min (S n) (length (unsent c))).
      assert (1 ≤ k ≤ length (unsent c))%nat by (unfold k; lia). clearbody k.
      rewrite bool_decide_false by lia. apply IH; [|done|].
      * unfold cursor_ok in *. cbn. lia.
      * unfold unsent in *. cbn. rewrite length_drop in *. lia.
    + subst w. rewrite filter_cons_False in Hl by done. by apply IH.
Qed.

(** ** From client to client *)

(** The client's side of a pipeline: as many replies as commands. *)
Fixpoint parse_replies (n : nat) (buf : bytes) : option (list Reply) :=
  match n with
  | O => Some []
  | S n =>
      match parse_reply buf with
      | Some (RComplete r k) => rs ← parse_replies n (drop k buf); Some (r :: rs)
      | _ => None
      end
  end.

Definition readable (r : Reply) : Prop :=
  wire_ok r = true ∧ (reply_depth r ≤ MAX_REPLY_DEPTH)%nat.

Lemma parse_replies_written rs :
  Forall readable rs → parse_replies (length rs) (concat (map to_bytes rs)) = Some rs.
Proof.
  induction 1 as [|r rs [Hw Hd] _ IH]; [done|]. cbn [length map concat parse_replies].
  rewrite parse_written by done. rewrite drop_app_length, IH. done.
Qed.

Lemma read_loop_chunks chunks : ∀ buf, Forall (λ c, c ≠ []) chunks →
  read_loop (map ReadOk chunks) buf = (true, buf ++ concat chunks).
Proof.
  induction chunks as [|c chunks IH]; intros buf Hc; cbn [map read_loop concat];
    [by rewrite app_nil_r|].
  apply Forall_cons in Hc as [Hc Hcs]. destruct c as [|b c]; [done|].
  rewrite IH by done. by rewrite <- app_assoc.
Qed.

Section whole_pipeline.
Context `{SV : Service W C} `{SP : !PanicSafe SV} (env : nat → SystemTime * Instant * Z).

(** C8: a client encodes a pipeline of commands; the bytes reach the server
    cut in any way; the commands are served in order, once each; the replies
    leave through a socket that takes them in any pieces; and the client
    decodes from what the kernel took exactly the service's answers. *)
Theorem end_to_end chunks ws cmds rs i w cs w' cs' :
  Forall ordinary cmds → Forall (λ c, c ≠ []) chunks →
  concat chunks = concat (map encode_command cmds) →
  serve_all env cmds i w cs = Some (rs, w', cs') → Forall readable rs →
  len (concat (map to_bytes rs)) <= MAX_PENDING_WRITE_BYTES →
  Forall (λ r, takes_some r = true ∨ r = WriteInterrupted) ws →
  (length (concat (map to_bytes rs)) ≤ length (base.filter (λ r, takes_some r = true) ws))%nat →
  ∃ st', service_connection env (map ReadOk chunks) ws
           (mkLoopState (set_conn_state fresh_conn cs) w i) = (Some true, st') ∧
    lworld st' = w' ∧ conn_state (lconn st') = cs' ∧
    parse_replies (length rs) (sent (lconn st')) = Some rs.
Proof.
  intros Hord Hne Hcat Hs Hr Hcap Hws Hroom. unfold service_connection.
  cbn [lconn set_conn_state fresh_conn read_buf lworld lticks]. rewrite read_loop_chunks by done.
  cbn [negb app]. rewrite Hcat.
  set (st0 := mkLoopState _ w i).
  destruct (pipeline_run env cmds st0 [] rs w' cs' Hord) as
    (st1 & Hrun & _ & H3 & H4 & H5 & H6 & H7); [unfold cursor_ok; cbn; lia|cbn; by rewrite app_nil_r|done|exact Hs|].
  unfold run in Hrun. unfold st0 in Hrun at 1. cbn [lconn set_read_buf read_buf] in Hrun. rewrite Hrun.
  change (unsent (lconn st0)) with (@nil byte) in H6. cbn [app] in H6. rewrite H6.
  destruct (Z.ltb_spec MAX_PENDING_WRITE_BYTES (len (concat (map to_bytes rs)))); [lia|].
  assert (Hcur : cursor_ok (lconn st1)).
  { pose proof (loop_progress env _ _ _ _ Hrun) as Hp. apply (progress_cursor _ _ Hp).
    unfold cursor_ok. cbn. lia. }
  pose proof (flush_drains ws (lconn st1) Hcur Hws ltac:(by rewrite H6)) as Hd.
  destruct (flush_writes ws (lconn st1)) as [o c'] eqn:Hf. cbn in Hd. subst o.
  apply flush_spec in Hf as (Ha & _ & (_ & _ & Hcl & Hcs) & _ & Hb & Hpos); [|done].
  cbn [keep_after_flush]. rewrite Hcl, H7. eexists. split; [done|]. cbn [lworld lconn].
  split_and!; [done|by rewrite Hcs|].
  unfold answered in Ha. rewrite H5, H6 in Ha. unfold unsent in Ha. rewrite Hb, Hpos in Ha.
  cbn in Ha. rewrite app_nil_r in Ha. rewrite Ha. by apply parse_replies_written.
Qed.
End whole_pipeline.
