(* ===== verification/Simulation.v ===== *)
(** * One event loop, two services

    The event loop is written against the class [Service].  When each call of
    one service is matched by a call of another, more abstract one, so is each
    run of the loop, down to the last byte that every connection receives.

    The abstract service may leave things open: besides its state it has a
    list of choices, which it consumes as it needs them.  A run of the loop on
    the first service determines the choices for the second. *)

From S2P Require Import Prelude RustStd Proto Server ServerFacts.

(** [rel i w a]: the state [w] before the [i]-th command stands for [a]; [good]:
    the choices that are needed. *)
Class Abstracts {W A O C : Type} (SV : Service W C) (SA : Service (A * list O) C)
    (env : nat → SystemTime * Instant * Z) (rel : nat → W → A → Prop) (good : O → Prop) : Prop := {
  abs_serve i args w a cs r w' cs' :
    rel i w a →
    (let '(sys, mono, lost) := env i in serve (Service := SV) sys mono lost args w cs) = (r, w', cs') →
    ∃ os a', rel (S i) w' a' ∧ Forall good os ∧ ∀ rest,
      (let '(sys, mono, lost) := env i in serve (Service := SA) sys mono lost args (a, os ++ rest) cs) =
      (r, (a', rest), cs');
  abs_conn : new_conn_state (Service := SV) = new_conn_state (Service := SA);
  abs_sweep i w a now n :
    rel i w a → now <= (env i).1.2 →
    rel i (sweep (Service := SV) w now n) a ∧
    ∀ os, sweep (Service := SA) (a, os) now n = (a, os);
}.

(** Every sweep comes before the next command. *)
Fixpoint timely `{SV : Service W C} (env : nat → SystemTime * Instant * Z)
    (turns : list (bool * Turn)) (s : Server (W := W) (C := C)) : Prop :=
  match turns with
  | [] => True
  | (_, t) :: turns =>
      match t with PollOk now _ => now <= (env (ticks s)).1.2 | PollErr => True end ∧
      match step_turn env t s with Some s' => timely env turns s' | None => True end
  end.

Section simulation.
Context {W A O C : Type} (SV : Service W C) (SA : Service (A * list O) C).
Context (env : nat → SystemTime * Instant * Z) (rel : nat → W → A → Prop) (good : O → Prop).
Context `{HA : !Abstracts SV SA env rel good}.

(** The same state with another world. *)
Definition loop_on {V} (w : V) (st : LoopState (W := W) (C := C)) : LoopState (W := V) (C := C) :=
  mkLoopState (lconn st) w (lticks st).
Definition server_on {V} (w : V) (s : Server (W := W) (C := C)) : Server (W := V) (C := C) :=
  mkServer (conns s) w (next_token s) (ticks s).

(** The abstract computation [g] does what [f] does, given the right choices. *)
Definition loop_sim {X} (f : LoopState (W := W) (C := C) → X * LoopState (W := W) (C := C))
    (g : LoopState (W := A * list O) (C := C) → X * LoopState (W := A * list O) (C := C)) : Prop :=
  ∀ st a x st', f st = (x, st') → rel (lticks st) (lworld st) a →
  ∃ os a', rel (lticks st') (lworld st') a' ∧ Forall good os ∧
    ∀ rest, g (loop_on (a, os ++ rest) st) = (x, loop_on (a', rest) st').

Lemma sim_run_command args :
  loop_sim (run_command (SV := SV) env args) (run_command (SV := SA) env args).
Proof.
  intros st a x st' Hx Hr. revert Hx. unfold run_command. destruct args as [|name args].
  { intros [= <- <-]. by exists [], a. }
  destruct (env (lticks st)) as [[sys mono] lost] eqn:He.
  destruct (serve sys mono lost (name :: args) (lworld st) (conn_state (lconn st))) as [[r w] cs] eqn:Hs.
  destruct (abs_serve (lticks st) (name :: args) (lworld st) a (conn_state (lconn st)) r w cs Hr)
    as (os & a' & Hr' & Hg & Ha); [by rewrite He|]. rewrite He in Ha.
  intros Hx. exists os, a'. split; [|split; [exact Hg|]].
  - destruct r as [r|]; [destruct (eq_ignore_ascii_case _ _)|]; by injection Hx as <- <-.
  - intros rest. unfold loop_on; cbn [lconn lworld lticks]. rewrite He, Ha.
    destruct r as [r|]; [destruct (eq_ignore_ascii_case _ _)|]; by injection Hx as <- <-.
Qed.

Lemma sim_command_loop fuel :
  loop_sim (command_loop (SV := SV) env fuel) (command_loop (SV := SA) env fuel).
Proof.
  induction fuel as [|fuel IH]; intros st a x st' Hx Hr; revert Hx; cbn [command_loop].
  { intros [= <- <-]. by exists [], a. }
  unfold loop_on; cbn [lconn lworld lticks].
  destruct (parse_command (read_buf (lconn st))) as [[args n| |msg]|] eqn:Hp;
    try by (intros [= <- <-]; exists [], a).
  destruct (run_command env args _) as [e st1] eqn:Hc.
  destruct (sim_run_command args _ a _ _ Hc Hr) as (os1 & a1 & Hr1 & Hg1 & H1).
  destruct e as [e|].
  - intros [= <- <-]. exists os1, a1. split; [done|]. split; [done|]. intros rest. specialize (H1 rest).
    unfold loop_on in H1; cbn [lconn lworld lticks] in H1. by rewrite H1.
  - intros Hl. destruct (IH st1 a1 x st' Hl Hr1) as (os2 & a2 & Hr2 & Hg2 & H2).
    exists (os1 ++ os2), a2. split; [done|]. split; [by apply Forall_app|]. intros rest. specialize (H1 (os2 ++ rest)).
    unfold loop_on in H1; cbn [lconn lworld lticks] in H1. rewrite <- app_assoc, H1. apply H2.
Qed.

Lemma sim_service rs ws :
  loop_sim (service_connection (SV := SV) env rs ws) (service_connection (SV := SA) env rs ws).
Proof.
  intros st a x st' Hx Hr. revert Hx. unfold service_connection. unfold loop_on; cbn [lconn lworld lticks].
  destruct (read_loop rs (read_buf (lconn st))) as [[] buf]; cbn [negb].
  2:{ intros [= <- <-]. by exists [], a. }
  destruct (command_loop env _ _) as [e st1] eqn:Hc.
  destruct (sim_command_loop _ _ a _ _ Hc Hr) as (os & a' & Hr' & Hg & H1).
  intros Hx. exists os, a'. split; [|split; [exact Hg|]].
  - destruct e; [|by injection Hx as <- <-].
    destruct (_ <? _); [by injection Hx as <- <-|].
    destruct (flush_writes ws (lconn st1)). by injection Hx as <- <-.
  - intros rest. specialize (H1 rest). unfold loop_on in H1; cbn [lconn lworld lticks] in H1.
    rewrite H1. destruct e; [|by injection Hx as <- <-]. unfold loop_on; cbn [lconn lworld lticks].
    destruct (_ <? _); [by injection Hx as <- <-|].
    destruct (flush_writes ws (lconn st1)). by injection Hx as <- <-.
Qed.

(** The same for computations on the server, which may panic. *)
Definition server_sim (f : Server (W := W) (C := C) → option (Server (W := W) (C := C)))
    (g : Server (W := A * list O) (C := C) → option (Server (W := A * list O) (C := C))) : Prop :=
  ∀ s a, rel (ticks s) (world s) a →
  match f s with
  | Some s' =>
      ∃ os a', rel (ticks s') (world s') a' ∧ Forall good os ∧
        ∀ rest, g (server_on (a, os ++ rest) s) = Some (server_on (a', rest) s')
  | None => ∃ os, Forall good os ∧ ∀ rest, g (server_on (a, os ++ rest) s) = None
  end.

Lemma server_sim_bind f f' g g' :
  server_sim f g → server_sim f' g' → server_sim (λ s, s ← f s; f' s) (λ s, s ← g s; g' s).
Proof.
  intros Hf Hf' s a Hr. specialize (Hf s a Hr).
  destruct (f s) as [s1|]; cbn [mbind option_bind].
  2:{ destruct Hf as (os & Ho & Hg). exists os. split; [done|]. intros rest. by rewrite Hg. }
  destruct Hf as (os1 & a1 & Hr1 & Hg1 & H1). specialize (Hf' s1 a1 Hr1).
  destruct (f' s1) as [s2|].
  - destruct Hf' as (os2 & a2 & Hr2 & Hg2 & H2). exists (os1 ++ os2), a2. split; [done|].
    split; [by apply Forall_app|]. intros rest. rewrite <- app_assoc, H1. apply H2.
  - destruct Hf' as (os2 & Hg2 & H2). exists (os1 ++ os2). split; [by apply Forall_app|]. intros rest. rewrite <- app_assoc, H1. apply H2.
Qed.

Lemma fresh_same : fresh_conn (SV := SV) = fresh_conn (SV := SA).
Proof. unfold fresh_conn. by rewrite (abs_conn (Abstracts := HA)). Qed.

Lemma sim_accept rs : server_sim (accept_loop (SV := SV) rs) (accept_loop (SV := SA) rs).
Proof.
  intros s a Hr. revert s Hr. induction rs as [|[nodelay register|] rs IH]; intros s Hr; cbn [accept_loop];
    [by exists [], a| |by exists [], a].
  destruct nodelay; cbn [negb]; [|by exists []].
  set (s1 := if register then _ else _ : Server (W := W) (C := C)).
  specialize (IH s1). replace (ticks s1) with (ticks s) in IH by by destruct register.
  replace (world s1) with (world s) in IH by by destruct register. specialize (IH Hr).
  assert (Hg : ∀ rest : list O, (if register
      then set_conns (mkServer (conns s) (a, rest) (wrap_u64 (next_token s + 1)) (ticks s))
             (<[next_token s := fresh_conn (SV := SA)]> (conns s))
      else mkServer (conns s) (a, rest) (wrap_u64 (next_token s + 1)) (ticks s)) =
      server_on (a, rest) s1).
  { intros rest. unfold s1. rewrite fresh_same. by destruct register. }
  destruct (accept_loop rs s1) as [s2|].
  - destruct IH as (os & a' & Hr' & Ho & H). exists os, a'. split; [done|]. split; [done|]. intros rest.
    specialize (H rest). rewrite <- Hg in H. exact H.
  - destruct IH as (os & Ho & H). exists os. split; [done|]. intros rest. specialize (H rest). rewrite <- Hg in H. exact H.
Qed.

Lemma sim_event e : server_sim (step_event (SV := SV) env e) (step_event (SV := SA) env e).
Proof.
  destruct e as [accepts|token readable writable rs ws ok]; [apply sim_accept|].
  intros s a Hr. cbn [step_event]. destruct (writable && negb readable).
  - exists [], a. unfold writable_event, server_on. cbn [conns].
    destruct (conns s !! token) as [c|]; [|done]. by destruct (flush_writes ws c).
  - unfold fenced_event, server_on. cbn [conns world ticks next_token].
    destruct (conns s !! token) as [c|]; [|by exists [], a].
    destruct (service_connection env rs ws (mkLoopState c (world s) (ticks s))) as [x st] eqn:Hs.
    destruct (sim_service rs ws _ a _ _ Hs Hr) as (os & a' & Hr' & Ho & H).
    exists os, a'. split; [done|]. split; [done|]. intros rest. specialize (H rest).
    unfold loop_on in H. cbn [lconn lticks] in H. by rewrite H.
Qed.

Lemma sim_events es : server_sim (step_events (SV := SV) env es) (step_events (SV := SA) env es).
Proof.
  induction es as [|e es IH]; [by intros s a Hr; exists [], a|].
  exact (server_sim_bind _ _ _ _ (sim_event e) IH).
Qed.

Lemma sim_turn t s a :
  rel (ticks s) (world s) a →
  match t with PollOk now _ => now <= (env (ticks s)).1.2 | PollErr => True end →
  match step_turn (SV := SV) env t s with
  | Some s' =>
      ∃ os a', rel (ticks s') (world s') a' ∧ Forall good os ∧
        ∀ rest, step_turn (SV := SA) env t (server_on (a, os ++ rest) s) = Some (server_on (a', rest) s')
  | None => ∃ os, Forall good os ∧ ∀ rest, step_turn (SV := SA) env t (server_on (a, os ++ rest) s) = None
  end.
Proof.
  intros Hr Ht. destruct t as [|now es]; cbn [step_turn]; [by exists [], a|].
  destruct (abs_sweep (ticks s) (world s) a now ACTIVE_EXPIRE_SAMPLE_SIZE Hr Ht) as [Hr1 Ha].
  pose proof (sim_events es (mkServer (conns s) (sweep (world s) now ACTIVE_EXPIRE_SAMPLE_SIZE)
    (next_token s) (ticks s)) a Hr1) as H.
  unfold server_on in *. cbn [conns world next_token ticks] in *.
  destruct (step_events env es _) as [s'|].
  - destruct H as (os & a' & Hr' & Ho & H). exists os, a'. split; [done|]. split; [done|].
    intros rest. by rewrite Ha, H.
  - destruct H as (os & Ho & H). exists os. split; [done|]. intros rest. by rewrite Ha, H.
Qed.

(** Every run of the loop is a run on the abstract service. *)
Lemma sim_server_loop turns : ∀ s a,
  rel (ticks s) (world s) a → timely (SV := SV) env turns s →
  match server_loop (SV := SV) env turns s with
  | Some s' =>
      ∃ os a', rel (ticks s') (world s') a' ∧ Forall good os ∧
        ∀ rest, server_loop (SV := SA) env turns (server_on (a, os ++ rest) s) = Some (server_on (a', rest) s')
  | None => ∃ os, Forall good os ∧ ∀ rest, server_loop (SV := SA) env turns (server_on (a, os ++ rest) s) = None
  end.
Proof.
  induction turns as [|[[] t] turns IH]; intros s a Hr Ht; cbn [server_loop timely] in *;
    [by exists [], a..|].
  destruct Ht as [Hn Ht]. pose proof (sim_turn t s a Hr Hn) as H.
  destruct (step_turn env t s) as [s1|]; cbn [mbind option_bind].
  2:{ destruct H as (os & Ho & H). exists os. split; [done|]. intros rest. by rewrite H. }
  destruct H as (os1 & a1 & Hr1 & Hg1 & H1). specialize (IH s1 a1 Hr1 Ht).
  destruct (server_loop env turns s1) as [s2|].
  - destruct IH as (os2 & a2 & Hr2 & Hg2 & H2). exists (os1 ++ os2), a2. split; [done|].
    split; [by apply Forall_app|]. intros rest. rewrite <- app_assoc, H1. apply H2.
  - destruct IH as (os2 & Hg2 & H2). exists (os1 ++ os2). split; [by apply Forall_app|]. intros rest. rewrite <- app_assoc, H1. apply H2.
Qed.
End simulation.
