(* ===== verification/Bgworker.v ===== *)
(** * The worker: the store behind the event loop

    [dispatch] as the [Service] of the event loop, the state the server starts
    from, and the properties of the whole: bytes in, bytes out. *)

From S2P Require Import Prelude RustStd Proto Glob HashMap Scan Store Cache Dispatch DispatchFacts.
From S2P Require Import Server ServerFacts.

Section worker.
Context `{UC : UnicodeCase} `{HE : !HashIter bytes Entry} `{HC : !HashIter Z ScanState}.

(** The service of a server with this password: its shared state is the
    store. *)
#[export] Instance dispatch_service (password : option bytes) : Service Store ConnState := {|
  serve sys_now mono_now lost args store conn :=
    let '(r, st) := dispatch sys_now mono_now password lost args (mkDispatchState store conn) in
    (r, dstore st, dconn st);
  new_conn_state := mkConnState false;
  sweep store now n := (active_expire_sweep store now n).2;
|}.

(** A panicking command leaves the store unchanged. *)
#[export] Instance dispatch_panic_safe password : PanicSafe (dispatch_service password).
Proof.
  intros sys mono lost args w c w' c'. cbn.
  pose proof (dispatch_cases sys mono password lost args (mkDispatchState w c)) as H.
  destruct (dispatch _ _ _ _ _ _) as [r st]. destruct H as (_ & Hp & _).
  intros [= -> <- _]. by rewrite Hp.
Qed.

(** The store a server starts with. *)
Definition initial_store (max_memory_bytes : option Z) : Store :=
  match max_memory_bytes with
  | Some b => with_max_memory b
  | None => store_new
  end.

(** ** The store of a running server *)

Lemma one_call_sound now s s' : one_call now s s' → sound s → sound s'.
Proof.
  intros [->|[[op ->]|(c & n & next & page & Hs)]] H; [done| |].
  - by apply (P_step now sound (cache_le now)).
  - unfold scan in Hs. destruct (registry_scan _ _ _ _ _) as [[[? ?] reg]|]; [|done].
    cbn in Hs. injection Hs as _ _ <-. by apply (shrink_sound s); [constructor|].
Qed.

Lemma answers_sound password w w' :
  rtc (answers (SV := dispatch_service password)) w w' → sound w → sound w'.
Proof.
  induction 1 as [|w1 w2 w3 Ha _ IH]; [done|]. intros Hs. apply IH.
  destruct Ha as (sys & mono & lost & args & cs & r & cs' & Hd). cbn in Hd.
  pose proof (dispatch_cases sys mono password lost args (mkDispatchState w1 cs)) as H.
  destruct (dispatch _ _ _ _ _ _) as [r' st]. destruct H as (Hc & _).
  injection Hd as _ <- _. by eapply one_call_sound.
Qed.

(** C27: in every state a running server gets to, whatever its clients send
    and however the sockets behave, the store's byte counter agrees with its
    entries. *)
Theorem server_accounting password env max_memory turns s :
  server_loop (SV := dispatch_service password) env turns
    (server_new (initial_store max_memory)) = Some s →
  used_bytes (world s) = wrap_u64 (total_bytes (contents (world s))).
Proof.
  intros Hl. assert (Hs : sound (world s)); [|apply Hs].
  eapply (server_loop_inv (SV := dispatch_service password) env (λ s, sound (world s)));
    [| |exact Hl|].
  - intros now s0 H0. apply (P_step now sound (cache_le now)
      (OpSweep ACTIVE_EXPIRE_SAMPLE_SIZE)), H0.
  - intros e s1 s2 He H1. apply step_event_answers in He. by eapply answers_sound.
  - unfold server_new, initial_store. cbn. by destruct max_memory.
Qed.

End worker.

(** ** Instances *)

Section instances.
#[local] Instance no_unicode_case : UnicodeCase := λ c, c.
#[local] Instance entry_order : HashIter bytes Entry := listing_order bytes Entry.
#[local] Instance cursor_order : HashIter Z ScanState := listing_order Z ScanState.
#[local] Instance open_service : Service Store ConnState := dispatch_service None.

(** A clock that ticks once per command. *)
Definition ticking (i : nat) : SystemTime * Instant * Z := (0, Z.of_nat i, 0).

Definition set_k : list bytes := [lit "SET"; lit "k"; lit "v"].
Definition get_k : list bytes := [lit "GET"; lit "k"].
Definition quit : list bytes := [lit "QUIT"].

Definition request : bytes := concat (map encode_command [set_k; get_k]).

Lemma end_to_end_witness :
  ∃ st', service_connection ticking (map ReadOk [take 7 request; drop 7 request])
           (replicate 12 (Room 2)) (mkLoopState (set_conn_state fresh_conn (mkConnState false)) store_new 0)
         = (Some true, st') ∧
    parse_replies 2 (sent (lconn st')) = Some [reply_ok; reply_bulk (lit "v")].
Proof.
  destruct (serve_all ticking [set_k; get_k] 0 store_new (mkConnState false))
    as [[[rs w'] cs']|] eqn:Hs; [|exfalso; by vm_compute in Hs].
  assert (Hrs : rs = [reply_ok; reply_bulk (lit "v")])
    by (apply (f_equal (option_map (λ x, x.1.1))) in Hs; vm_compute in Hs; injection Hs as <-; by vm_compute).
  destruct (end_to_end ticking [take 7 request; drop 7 request] (replicate 12 (Room 2))
    [set_k; get_k] rs 0 store_new (mkConnState false) w' cs') as (st' & H1 & _ & _ & H4).
  - by repeat apply Forall_cons_2.
  - by repeat apply Forall_cons_2.
  - by vm_compute.
  - exact Hs.
  - subst rs. repeat apply Forall_cons_2; try apply Forall_nil_2; split; vm_compute; (done || lia).
  - subst rs. by vm_compute.
  - apply Forall_replicate. by left.
  - subst rs. vm_compute. lia.
  - exists st'. split; [exact H1|]. subst rs. exact H4.
Defined.

Definition start (input : bytes) : LoopState :=
  mkLoopState (set_read_buf fresh_conn input) store_new 0.

Lemma split_reads_witness :
  let st := start (take 7 request) in
  let st1 := (run ticking st).2 in
  run ticking (feed st (drop 7 request)) = run ticking (feed st1 (drop 7 request)).
Proof.
  cbn zeta. destruct (run ticking (start (take 7 request))) as [e st1] eqn:Hr.
  apply split_reads.
  - rewrite Hr. apply (f_equal fst) in Hr. vm_compute in Hr. by subst e.
  - apply (f_equal (λ x, close_after_flush (lconn x.2))) in Hr. by vm_compute in Hr.
Defined.

Definition accept_one : Event := EvListener [Accepted true true].

(** A client that reads nothing: its socket takes no byte. *)
Definition readable_event (data : bytes) : Event := EvConn 1 true false [ReadOk data] [] true.
Definition spurious_event : Event := EvConn 1 true false [] [] true.

(** QUIT stops the command loop, but only for that event: when its reply
    could not be flushed the connection stays, and the next readable event,
    even one that brings no input, runs the commands pipelined behind it. *)
Theorem quit_does_not_stop_pipeline :
  ∃ s1 s2,
    step_events ticking [accept_one; readable_event (encode_command quit ++ encode_command set_k)]
      (server_new store_new) = Some s1 ∧
    contents (world s1) !! lit "k" = None ∧
    step_event ticking spurious_event s1 = Some s2 ∧
    contents (world s2) !! lit "k" = Some (lit "v", None).
Proof.
  eexists _, _. split; [reflexivity|]. split; [by vm_compute|]. split; [reflexivity|].
  by vm_compute.
Qed.

Lemma write_buffers_bounded_witness :
  ∃ s c, server_loop ticking [(false, PollOk 0 [accept_one; readable_event (encode_command get_k)])]
           (server_new store_new) = Some s ∧ conns s !! 1 = Some c ∧
    len (write_buf c) < MAX_PENDING_WRITE_BYTES + WRITE_PREFIX_RECLAIM_BYTES.
Proof.
  destruct (server_loop ticking [(false, PollOk 0 [accept_one; readable_event (encode_command get_k)])]
    (server_new store_new)) as [s|] eqn:Hs; [|exfalso; by vm_compute in Hs].
  destruct (conns s !! 1) as [c|] eqn:Hc.
  - exists s, c. split; [done|]. split; [done|].
    apply (write_buffers_bounded ticking _ _ s 1 c Hs Hc).
  - exfalso. apply (f_equal (λ o, s ← o; conns s !! 1)) in Hs. cbn [mbind option_bind] in Hs.
    rewrite Hc in Hs. by vm_compute in Hs.
Defined.

Definition two_conns : Server :=
  default (server_new store_new)
    (step_events ticking [EvListener [Accepted true true; Accepted true true]] (server_new store_new)).

Lemma connections_isolated_witness :
  ∃ s', step_event ticking (readable_event (encode_command set_k)) two_conns = Some s' ∧
    conns s' !! 2 = conns two_conns !! 2 ∧ is_Some (conns two_conns !! 2).
Proof.
  destruct (step_event ticking (readable_event (encode_command set_k)) two_conns) as [s'|] eqn:Hs;
    [|exfalso; by vm_compute in Hs].
  destruct (connections_isolated ticking _ _ _ _ _ _ _ _ Hs) as [Ho _].
  exists s'. split; [done|]. split; [by apply Ho|]. vm_compute. by eexists.
Defined.

Lemma interest_tracks_pending_witness :
  ∃ s', step_events ticking [readable_event (encode_command set_k)] two_conns = Some s' ∧
    all_conns tracked s'.
Proof.
  destruct (step_events ticking [readable_event (encode_command set_k)] two_conns) as [s'|] eqn:Hs;
    [|exfalso; by vm_compute in Hs].
  exists s'. split; [done|].
  apply (interest_tracks_pending ticking [readable_event (encode_command set_k)]) with (s := two_conns);
    [by repeat constructor| |exact Hs].
  intros t c Hc%elem_of_map_to_list. revert Hc.
  replace (map_to_list (conns two_conns)) with [(2, fresh_conn); (1, @fresh_conn Store ConnState _)]
    by by vm_compute.
  by intros [[= -> ->]|[= -> ->]%list_elem_of_singleton]%elem_of_cons.
Defined.

(** SET, then the end of the stream: it is not run. *)
Lemma eof_discards_input_witness :
  let '(result, st') :=
    service_connection ticking [ReadOk (encode_command set_k); ReadOk []] [Room 100] (start []) in
  result = Some false ∧ lworld st' = store_new ∧ lticks st' = 0%nat.
Proof. by apply (eof_discards_input ticking (encode_command set_k) [] [Room 100] (start [])). Defined.

(** A reply of 9 bytes into a socket that takes 4. *)
Lemma flush_keeps_bytes_witness :
  let c := push_reply (start []).(lconn) (reply_simple (lit "PONG!!")) in
  let '(o, c') := flush_writes [Room 4] c in
  o = Pending ∧ sent c' = lit "+PON" ∧ sent c' ++ unsent c' = sent c ++ unsent c.
Proof.
  cbn zeta. destruct (flush_writes _ _) as [o c'] eqn:Hf. split_and!.
  - apply (f_equal fst) in Hf. by vm_compute in Hf.
  - apply (f_equal (λ x, sent x.2)) in Hf. by vm_compute in Hf.
  - eapply flush_keeps_bytes; [|exact Hf]. unfold cursor_ok. vm_compute. lia.
Defined.

Lemma server_accounting_witness :
  ∃ s, server_loop ticking [(false, PollOk 0 [accept_one; readable_event (encode_command set_k)])]
         (server_new (initial_store (Some 1000))) = Some s ∧
    used_bytes (world s) = 98 ∧
    used_bytes (world s) = wrap_u64 (total_bytes (contents (world s))).
Proof.
  destruct (server_loop ticking [(false, PollOk 0 [accept_one; readable_event (encode_command set_k)])]
    (server_new (initial_store (Some 1000)))) as [s|] eqn:Hs; [|exfalso; by vm_compute in Hs].
  assert (Hu : option_map (λ s, used_bytes (world s)) (server_loop ticking
    [(false, PollOk 0 [accept_one; readable_event (encode_command set_k)])]
    (server_new (initial_store (Some 1000)))) = Some 98) by by vm_compute.
  exists s. split; [done|]. split.
  - rewrite Hs in Hu. by injection Hu.
  - apply (server_accounting None ticking (Some 1000) _ s Hs).
Defined.
End instances.
