(* ===== verification/MapServer.v ===== *)
(** * The server, as its clients see it

    The event loop over an expiring map: [map_service] answers each command by
    its plan, run on the abstract map of [Cache].  It has no lazy expiry, no
    sweep, no byte counter, no clock bits and no hash table.  What these decide
    is left open and taken from a list of choices: the order of a listing, the
    answers of the commands that report on them (DBSIZE, INFO, SCAN, RANDOMKEY),
    and the keys a store with a budget forgets.

    The theorem: what the server does, the map server does. *)

From S2P Require Import Prelude RustStd Proto Glob HashMap Scan Store Cache StoreFacts Dispatch DispatchFacts.
From S2P Require Import Commands Server ServerFacts Simulation Bgworker.

Inductive Choice : Type :=
| ReportAs (r : option Reply)
| ListAs (ks : list bytes)
| Forget (ks : gset bytes).

Section map.
Context `{UC : UnicodeCase}.

(** A call on the map.  It may forget keys, but not one it writes. *)
Definition map_call (now : Instant) (op : Op) (ks : gset bytes) (c : Cache) : Answer * Cache :=
  let '(a, c) := cache_step now op c in
  (a, filter (λ kd : bytes * (bytes * option Instant), kd.1 ∉ ks ∨ written op = Some kd.1) c).

(** A plan on the map. *)
Definition map_exec (now : Instant) (p : Plan) (w : Cache * list Choice) (cs : ConnState)
    : option Reply * (Cache * list Choice) * ConnState :=
  match p with
  | Says r => (Some r, w, cs)
  | Admits => (Some reply_ok, w, mkConnState true)
  | Panics => (None, w, cs)
  | Calls op reply =>
      let '(ks, choices) := match w.2 with Forget ks :: choices => (ks, choices) | l => (∅, l) end in
      let '(a, c) := map_call now op ks w.1 in
      (Some (reply a), (c, choices), cs)
  | Lists reply =>
      let ks := map fst (map_to_list (cache_at now w.1)) in
      match w.2 with
      | ListAs ks' :: choices =>
          (Some (reply (if decide (ks' ≡ₚ ks) then ks' else ks)), (w.1, choices), cs)
      | _ => (Some (reply ks), w, cs)
      end
  | Reports =>
      match w.2 with
      | ReportAs r :: choices => (r, (w.1, choices), cs)
      | _ => (None, w, cs)
      end
  end.

#[export] Instance map_service (password : option bytes) : Service (Cache * list Choice) ConnState := {|
  serve sys_now mono_now _ args w cs := map_exec mono_now (command_plan sys_now mono_now password args cs) w cs;
  new_conn_state := mkConnState false;
  sweep w _ _ := w;
|}.
End map.

Section refinement.
Context `{UC : UnicodeCase} `{HE : !HashIter bytes Entry} `{HC : !HashIter Z ScanState}.
Context (password : option bytes) (max_memory : option Z) (env : nat → SystemTime * Instant * Z).
Context (Hclock : ∀ i, (env i).1.2 <= (env (S i)).1.2).

(** The store before the [i]-th command stands for the map. *)
Definition stands_for (i : nat) (w : Store) (c : Cache) : Prop :=
  sound w ∧ (max_memory = None → unbounded w) ∧ cache_eq (env i).1.2 (contents w) c.

(** Without a budget nothing is forgotten. *)
Definition permitted (o : Choice) : Prop :=
  match o with Forget ks => max_memory = None → ks = ∅ | _ => True end.

Lemma same_answer_eq now op c a b c' :
  op ≠ OpRandomKey → op ≠ OpKeys → live_step now op c = (b, c') → same_answer op a b → a = b.
Proof.
  intros Hr Hk Hl. destruct op; try done; destruct a, b; try done; cbn in Hl;
    by repeat match type of Hl with context [match ?x with _ => _ end] => destruct x end.
Qed.

(** A call on the store is a call on the map that forgets what was evicted. *)
Lemma call_on_map now op w c :
  sound w → cache_eq now (contents w) c → op ≠ OpRandomKey → op ≠ OpKeys →
  let '(a, w') := store_step now op w in
  ∃ ks c', map_call now op ks c = (a, c') ∧ cache_eq now (contents w') c' ∧ (unbounded w → ks = ∅).
Proof.
  intros Hs Hc Hr Hk. unfold map_call, cache_step. unfold cache_eq in Hc. rewrite <- Hc. clear Hc c.
  pose proof (step_R now sound (cache_le now) op w Hs) as Hle.
  pose proof (λ Hu, step_R now unbounded (cache_eq now) op w Hu) as Heq.
  pose proof (λ k, written_kept now op w k Hs) as Hw.
  destruct (store_step now op w) as [a w'], (live_step now op (cache_at now (contents w))) as [b c] eqn:Hl.
  destruct Hle as [Ha Hle]. cbn [snd] in Hw.
  apply (same_answer_eq now op _ _ _ _ Hr Hk Hl) in Ha as ->.
  exists (dom (cache_at now c) ∖ dom (cache_at now (contents w'))). eexists. split; [done|]. split.
  - unfold cache_eq. apply map_eq. intros k. apply option_eq. intros d.
    rewrite (lookup_cache_at now (filter _ c)), map_lookup_filter_Some. cbn [fst].
    unfold cache_le in Hle. split.
    + intros Hkd. pose proof (lookup_weaken _ _ _ _ Hkd Hle) as [? ?]%lookup_cache_at.
      split; [split; [done|]|done]. left. rewrite elem_of_difference. intros [_ []].
      by apply elem_of_dom_2 in Hkd.
    + intros [[Hkd Hf] Hlive]. assert (Hcd : cache_at now c !! k = Some d) by by apply lookup_cache_at.
      destruct Hf as [Hf|Hf]; [|by rewrite Hw].
      destruct (cache_at now (contents w') !! k) as [d'|] eqn:Hd'.
      * pose proof (lookup_weaken _ _ _ _ Hd' Hle). congruence.
      * destruct Hf. apply elem_of_difference. split; [by apply elem_of_dom_2 in Hcd|].
        by apply not_elem_of_dom.
  - intros Hu. destruct (Heq Hu) as [_ He]. unfold cache_eq in He. rewrite He. by rewrite difference_diag_L.
Qed.

(** A plan that is followed on the store is followed on the map. *)
Lemma map_follows i w c cs p r st :
  stands_for i w c → follows (env i).1.2 p (mkDispatchState w cs) (r, st) → sound (dstore st) →
  ∃ os c', stands_for i (dstore st) c' ∧ Forall permitted os ∧
    ∀ rest, map_exec (env i).1.2 p (c, os ++ rest) cs = (r, (c', rest), dconn st).
Proof.
  intros (Hs & Hu & Hc) Hf Hs'. pose proof (conj Hs (conj Hu Hc) : stands_for i w c) as Hsc.
  destruct p as [r1| | |op reply|reply|]; cbn [follows dstore dconn map_exec fst snd] in *;
    try by (injection Hf as -> ->; exists [], c).
  - destruct Hf as (Hd & Hk & Hf).
    pose proof (call_on_map _ op w c Hs Hc Hd Hk) as H.
    pose proof (λ Hu, P_step (env i).1.2 unbounded (cache_eq (env i).1.2) op w Hu) as Hu'.
    destruct (store_step (env i).1.2 op w) as [a s]. destruct H as (ks & c' & Hm & Hc' & Hn).
    injection Hf as -> ->. exists [Forget ks], c'. split; [|split].
    + split; [done|]. split; [|done]. intros Hmax. by apply Hu', Hu.
    + constructor; [|done]. intros Hmax. by apply Hn, Hu.
    + intros rest. cbn [app]. by rewrite Hm.
  - injection Hf as -> ->. exists [ListAs (all_keys w (env i).1.2)], c. split; [done|]. split; [by constructor|].
    intros rest. cbn [app]. rewrite decide_True; [done|].
    unfold cache_eq in Hc. rewrite <- Hc. apply all_keys_spec.
  - destruct Hf as [[He Hm] ->]. exists [ReportAs r], c. split; [|split; [by constructor|done]].
    split; [done|]. split; [|by rewrite He]. intros Hmax. specialize (Hu Hmax).
    unfold unbounded in *. cbn in *. congruence.
Qed.

#[export] Instance store_abstracts_map :
  Abstracts (dispatch_service password) (map_service password) env stands_for permitted.
Proof.
  split.
  - intros i args w c cs r w' cs' Hs. pose proof (map_follows i w c cs) as Hm.
    destruct (env i) as [[sys mono] lost] eqn:He. cbn [serve dispatch_service map_service fst snd] in *.
    pose proof (dispatch_planned sys mono password lost args (mkDispatchState w cs)) as Hp.
    pose proof (dispatch_cases sys mono password lost args (mkDispatchState w cs)) as Hone.
    destruct (dispatch _ _ _ _ _ _) as [r1 st]. cbn [dconn] in Hp. intros [= -> <- <-].
    destruct Hone as [Hone _]. apply one_call_sound in Hone; [|apply Hs].
    destruct (Hm _ _ _ Hs Hp Hone) as (os & c' & (H1 & H2 & H3) & Ho & H).
    exists os, c'. split; [|done]. split; [done|]. split; [done|].
    rewrite He in H3. eapply cache_eq_later; [|exact H3].
    specialize (Hclock i). by rewrite He in Hclock.
  - done.
  - intros i w c now n (Hs & Hu & Hc) Hn. split; [|done]. split; [|split].
    + apply (P_step now sound (cache_le now) (OpSweep n) w Hs).
    + intros Hm. apply (P_step now unbounded (cache_eq now) (OpSweep n) w (Hu Hm)).
    + rewrite <- Hc. eapply cache_eq_later; [exact Hn|]. apply sweep_spec.
Qed.

(** C1: whatever its clients send and however the sockets behave, the server
    does what the map server does: for some choices, the same connections, each
    with the same bytes received, replied and sent, and a map with the live
    contents of the store.  Without a budget no choice forgets a key. *)
Theorem server_refines_map turns s :
  timely (SV := dispatch_service password) env turns (server_new (initial_store max_memory)) →
  server_loop (SV := dispatch_service password) env turns (server_new (initial_store max_memory)) = Some s →
  ∃ choices c,
    server_loop (SV := map_service password) env turns (server_new (∅, choices)) =
      Some (mkServer (conns s) (c, []) (next_token s) (ticks s)) ∧
    cache_eq (env (ticks s)).1.2 (contents (world s)) c ∧
    (max_memory = None → Forall (λ o, ∀ ks, o = Forget ks → ks = ∅) choices).
Proof.
  intros Ht Hs.
  assert (H0 : stands_for 0 (initial_store max_memory) ∅).
  { unfold initial_store. split; [by destruct max_memory|]. split; [by intros ->|by destruct max_memory]. }
  pose proof (sim_server_loop (dispatch_service password) (map_service password) env stands_for permitted turns
    (server_new (initial_store max_memory)) ∅ H0 Ht) as H.
  rewrite Hs in H. destruct H as (os & c & (_ & _ & Hc) & Ho & H).
  exists os, c. split; [|split; [done|]].
  - specialize (H []). rewrite app_nil_r in H. exact H.
  - intros Hm. eapply Forall_impl; [exact Ho|]. intros o Hp ks ->. by apply Hp.
Qed.
End refinement.

(** ** An instance *)

Section instance.
#[local] Instance no_unicode_case : UnicodeCase := λ c, c.
#[local] Instance entry_order : HashIter bytes Entry := listing_order bytes Entry.
#[local] Instance cursor_order : HashIter Z ScanState := listing_order Z ScanState.

(** A client sets a key for a second, reads it, counts something, asks for the
    size, and lists the keys when the first is gone. *)
Definition session : list (list bytes) :=
  [[lit "SETEX"; lit "k"; lit "1"; lit "v"]; [lit "GET"; lit "k"]; [lit "INCR"; lit "n"];
   [lit "DBSIZE"]; [lit "GET"; lit "k"]; [lit "KEYS"; lit "*"]].
Definition at_second (i : nat) : SystemTime * Instant * Z :=
  (0, (if bool_decide (i < 5)%nat then 0 else 2) * NS_PER_SEC, 0).
Definition session_turns : list (bool * Turn) :=
  [(false, PollOk 0
     [EvListener [Accepted true true];
      EvConn 1 true false [ReadOk (concat (map encode_command session))] [Room 100] true])].

(** With a budget for one entry, INCR evicts the first key. *)
Definition session_replies (size : Z) (k : option bytes) : list Reply :=
  [reply_ok; reply_bulk (lit "v"); Integer 1; Integer size; bulk_or_nil k; Array (Some [reply_bulk (lit "n")])].

Lemma server_refines_map_witness :
  ∃ choices a, server_loop (SV := map_service None) at_second session_turns (server_new (∅, choices)) = Some a ∧
    (sent <$> conns a !! 1) = Some (concat (map to_bytes (session_replies 1 None))).
Proof.
  destruct (server_loop (SV := dispatch_service None) at_second session_turns (server_new (initial_store (Some 150))))
    as [s|] eqn:Hs; [|exfalso; by vm_compute in Hs].
  destruct (server_refines_map None (Some 150) at_second) with (turns := session_turns) (s := s)
    as (choices & c & H & _).
  - intros i. unfold at_second. cbn [fst snd]. repeat case_bool_decide; unfold NS_PER_SEC; lia.
  - split; [by vm_compute|]. by case_match.
  - exact Hs.
  - exists choices. eexists. split; [exact H|]. cbn [conns].
    apply (f_equal (λ o, s ← o; sent <$> conns s !! 1)) in Hs. cbn [mbind option_bind] in Hs.
    rewrite <- Hs. vm_compute. reflexivity.
Defined.
End instance.
