(* ===== verification/Client.v ===== *)
(** * The loopback client (crates/resp-client/src/lib.rs)

    A lazily connected client that holds at most one socket and reconnects
    once when a connection it reuses turns out to be dead.  The network is an
    environment: each dial has a scripted outcome, and a connected socket the
    results its reads and writes will give.  [delivered] records the requests
    a socket has accepted. *)

From S2P Require Import Prelude RustStd Proto.

(** ** Data *)

(** [std::io::Error]: its kind, as far as the client looks at it, and its
    message. *)
Inductive ErrorKind : Type := WouldBlock | TimedOut | OtherKind.

Record IoError := mkIoError { kind : ErrorKind; message : bytes }.

Inductive ClientError : Type :=
| Connect (e : IoError)
| Io (e : IoError)
| Timeout
| Closed
| Protocol (msg : bytes)
| ServerError (msg : bytes)
| Auth (msg : bytes).

(** [Display] *)
Definition error_text (e : ClientError) : bytes :=
  match e with
  | Connect e => lit "could not connect: " ++ message e
  | Io e => lit "socket error: " ++ message e
  | Timeout => lit "timed out waiting for a reply"
  | Closed => lit "server closed the connection"
  | Protocol m => lit "protocol error: " ++ m
  | ServerError m => m
  | Auth m => lit "authentication failed: " ++ m
  end.

Definition is_fatal_to_connection (e : ClientError) : bool :=
  match e with ServerError _ => false | _ => true end.

(** *** Sockets *)

Inductive ReadEvent : Type :=
| Data (b : byte) (bs : bytes)
| Eof
| ReadError (e : IoError).

(** [writes]: the outcome of sending each request ([write_all], then [flush]);
    once the script is over every write succeeds and every read times out. *)
Record Socket := mkSocket {
  incoming : list ReadEvent;
  writes : list (option IoError);
}.

Record Conn := mkConn {
  stream : Socket;
  read_buf : bytes;
}.

(** What connecting to one address gives: a stream, and how setting its options
    goes, or an error. *)
Inductive AddrOutcome : Type :=
| Connected (s : Socket) (set_options : option IoError)
| Refused (e : IoError).

(** One dial: the resolution of the address, then an outcome per address. *)
Abbreviation Dial := (Result (list AddrOutcome) IoError).

(** [Client]: the address and the timeout are passed to the network; [network]
    is what dialing that address will give. *)
Record Client := mkClient {
  addr : bytes;
  password : option bytes;
  timeout : Duration;
  conn : option Conn;
  network : list Dial;
  delivered : list (list bytes);
}.

Definition DEFAULT_TIMEOUT : Duration := from_secs 1.

(** [Client::new]: no connection is made. *)
Definition client_new (address : bytes) (pw : option bytes) (net : list Dial) : Client :=
  mkClient address (match pw with Some [] => None | pw => pw end) DEFAULT_TIMEOUT None net [].

Definition with_timeout (c : Client) (t : Duration) : Client :=
  mkClient (addr c) (password c) t (conn c) (network c) (delivered c).

Definition is_connected (c : Client) : bool := bool_decide (is_Some (conn c)).

Definition set_conn (c : Client) (k : option Conn) : Client :=
  mkClient (addr c) (password c) (timeout c) k (network c) (delivered c).
Definition disconnect (c : Client) : Client := set_conn c None.
Definition deliver (c : Client) (args : list bytes) : Client :=
  mkClient (addr c) (password c) (timeout c) (conn c) (network c) (delivered c ++ [args]).

(** ** Operations *)

Definition map_io (partial_reply_seen : bool) (e : IoError) : ClientError :=
  match kind e with
  | WouldBlock | TimedOut => Timeout
  | OtherKind =>
      if partial_reply_seen
      then Protocol (lit "connection failed after a partial reply had arrived: " ++ message e)
      else Io e
  end.

Definition no_addresses : IoError := mkIoError OtherKind (lit "no addresses resolved").

(** The loop of [dial] over the resolved addresses. *)
Fixpoint dial_loop (addrs : list AddrOutcome) (last_err : option IoError)
    : Result Socket ClientError :=
  match addrs with
  | [] => Err (Connect (default no_addresses last_err))
  | Connected s None :: _ => Ok s
  | Connected _ (Some e) :: _ => Err (Connect e)
  | Refused e :: addrs => dial_loop addrs (Some e)
  end.

Definition dial (d : Dial) : Result Socket ClientError :=
  match d with
  | Err e => Err (Connect e)
  | Ok addrs => dial_loop addrs None
  end.

Definition next_dial (c : Client) : Dial * Client :=
  match network c with
  | [] => (Ok [], c)
  | d :: net => (d, mkClient (addr c) (password c) (timeout c) (conn c) net (delivered c))
  end.

Definition next_write (s : Socket) : option IoError * Socket :=
  match writes s with
  | [] => (None, s)
  | w :: ws => (w, mkSocket (incoming s) ws)
  end.

Definition timed_out : IoError := mkIoError TimedOut (lit "timed out").

(** The loop of [round_trip]: parse, else read; [None] is a panic. *)
Fixpoint read_reply (evs : list ReadEvent) (buf : bytes)
    : option (Result Reply ClientError * list ReadEvent * bytes) :=
  outcome ← parse_reply buf;
  match outcome with
  | RComplete reply consumed =>
      let buf := drop consumed buf in
      match reply with
      | Error msg => Some (Err (ServerError (from_utf8_lossy msg)), evs, buf)
      | reply => Some (Ok reply, evs, buf)
      end
  | RInvalid msg => Some (Err (Protocol msg), evs, buf)
  | RIncomplete =>
      match evs with
      | [] => Some (Err (map_io (negb (bool_decide (buf = []))) timed_out), [], buf)
      | Eof :: evs =>
          Some (Err (if bool_decide (buf = []) then Closed
                     else Protocol (lit "server closed the connection mid-reply")), evs, buf)
      | Data b bs :: evs => read_reply evs (buf ++ b :: bs)
      | ReadError e :: evs => Some (Err (map_io (negb (bool_decide (buf = []))) e), evs, buf)
      end
  end.

Definition leftover_error : ClientError :=
  Protocol (lit "unexpected leftover bytes from a previous reply (stream desynchronized)").

Definition round_trip (args : list bytes) (c : Client)
    : option (Result Reply ClientError * Client) :=
  match conn c with
  | None => Some (Err (Protocol (lit "not connected")), c)
  | Some k =>
      if negb (bool_decide (read_buf k = [])) then Some (Err leftover_error, c)
      else
        let '(w, s) := next_write (stream k) in
        match w with
        | Some e => Some (Err (map_io false e), set_conn c (Some (mkConn s (read_buf k))))
        | None =>
            let c := deliver c args in
            '(r, evs, buf) ← read_reply (incoming s) (read_buf k);
            Some (r, set_conn c (Some (mkConn (mkSocket evs (writes s)) buf)))
        end
  end.

(** [{:?}] of a reply: the output of [derive(Debug)]. *)
Class ReplyDebug := reply_debug : Reply → bytes.

Section client.
Context `{RD : ReplyDebug}.

Definition ensure_connected (c : Client) : option (Result unit ClientError * Client) :=
  match conn c with
  | Some _ => Some (Ok tt, c)
  | None =>
      let '(d, c) := next_dial c in
      match dial d with
      | Err e => Some (Err e, c)
      | Ok s =>
          let c := set_conn c (Some (mkConn s [])) in
          match password c with
          | None => Some (Ok tt, c)
          | Some pw =>
              '(r, c) ← round_trip [lit "AUTH"; pw] c;
              match r with
              | Ok (Simple _) => Some (Ok tt, c)
              | Ok other =>
                  Some (Err (Auth (lit "unexpected AUTH reply: " ++ reply_debug other)), disconnect c)
              | Err (ServerError msg) => Some (Err (Auth msg), disconnect c)
              | Err e => Some (Err e, disconnect c)
              end
          end
      end
  end.

Definition attempt (args : list bytes) (c : Client)
    : option (Result Reply ClientError * Client) :=
  '(r, c) ← ensure_connected c;
  match r with
  | Err e => Some (Err e, c)
  | Ok _ => round_trip args c
  end.

(** The errors after which a reused connection is tried afresh. *)
Definition retry_error (e : ClientError) : bool :=
  match e with Io _ | Closed | Connect _ => true | _ => false end.

Definition command (args : list bytes) (c : Client)
    : option (Result Reply ClientError * Client) :=
  let was_reused := bool_decide (is_Some (conn c)) in
  '(r, c) ← attempt args c;
  match r with
  | Ok reply => Some (Ok reply, c)
  | Err err =>
      let c := if is_fatal_to_connection err then disconnect c else c in
      if negb (was_reused && retry_error err) then Some (Err err, c)
      else attempt args c
  end.

Definition command_no_retry (args : list bytes) (c : Client)
    : option (Result Reply ClientError * Client) :=
  '(r, c) ← attempt args c;
  match r with
  | Ok reply => Some (Ok reply, c)
  | Err err => Some (Err err, if is_fatal_to_connection err then disconnect c else c)
  end.

Definition probe (c : Client) : option (Result unit ClientError * Client) :=
  '(r, c) ← command [lit "PING"] c;
  match r with
  | Ok _ | Err (ServerError _) => Some (Ok tt, c)
  | Err e => Some (Err e, c)
  end.
End client.
