(* ===== verification/ClientFacts.v ===== *)
(** * Properties of the client

    When a command may have been delivered twice, what a reply cut into reads
    gives, how a lost framing is noticed, and a case where it is not. *)

From S2P Require Import Prelude RustStd Proto Partial Client.

(** ** Reading a reply *)

Definition is_data (e : ReadEvent) : bool := match e with Data _ _ => true | _ => false end.

(** The errors that say no reply byte has been seen. *)
Definition nothing_seen (r : Result Reply ClientError) : Prop :=
  match r with Err (Io _) | Err Closed | Err (Connect _) => True | _ => False end.

(** Reading ends, and an error that allows a retry means that the first thing
    the socket gave was not data. *)
Lemma read_reply_spec evs : ∀ buf,
  ∃ r evs' buf', read_reply evs buf = Some (r, evs', buf') ∧
    (nothing_seen r → buf = [] ∧ buf' = [] ∧ ∃ e, head evs = Some e ∧ is_data e = false).
Proof.
  induction evs as [|ev evs IH]; intros buf; cbn [read_reply];
    destruct (parse_reply_cases buf) as (o & -> & _); cbn [mbind option_bind];
    (destruct o as [r n| |msg];
      [destruct r; (eexists _, _, _; split; [done|by intros []])| |eexists _, _, _; split; [done|by intros []]]).
  - eexists _, _, _. split; [done|]. unfold map_io. cbn. by intros [].
  - destruct ev as [b bs| |e].
    + destruct (IH (buf ++ b :: bs)) as (r & evs' & buf' & -> & Hn).
      eexists _, _, _. split; [done|]. intros H%Hn. destruct H as [H _]. by destruct buf.
    + eexists _, _, _. split; [done|]. case_bool_decide; [|done]. intros _.
      split_and!; [done..|]. by exists Eof.
    + eexists _, _, _. split; [done|]. unfold map_io. case_bool_decide; destruct (kind e); cbn; try done.
      intros _. split_and!; [done..|]. by exists (ReadError e).
Qed.

(** ** Deliveries *)

Section deliveries.
Context `{RD : ReplyDebug}.

(** The requests one attempt may have sent: AUTH, the command, both in this
    order, or none. *)
Definition attempt_log (pw : option bytes) (args : list bytes) (l : list (list bytes)) : Prop :=
  l = [] ∨ l = [args] ∨
  ∃ p, pw = Some p ∧ (l = [[lit "AUTH"; p]] ∨ l = [[lit "AUTH"; p]; args]).

Lemma round_trip_spec args c :
  ∃ r c', round_trip args c = Some (r, c') ∧ password c' = password c ∧
    (delivered c' = delivered c ∨ delivered c' = delivered c ++ [args]) ∧
    (nothing_seen r → ∀ k, conn c = Some k → delivered c' ≠ delivered c →
      ∃ e, head (incoming (stream k)) = Some e ∧ is_data e = false).
Proof.
  unfold round_trip. destruct (conn c) as [k|] eqn:Hk.
  2:{ eexists _, _. split; [done|]. split; [done|]. split; [by left|done]. }
  case_bool_decide as Hb; cbn [negb].
  2:{ eexists _, _. split; [done|]. split; [done|]. split; [by left|done]. }
  destruct (next_write (stream k)) as [[e|] s'] eqn:Hw.
  { eexists _, _. split; [done|]. split; [done|]. split; [by left|]. by intros _ ? _ []. }
  destruct (read_reply_spec (incoming s') (read_buf k)) as (r & evs & buf & -> & Hn).
  cbn [mbind option_bind]. eexists _, _. split; [done|]. split; [done|].
  split; [by right|]. intros H%Hn k' [= <-] _. destruct H as (_ & _ & He).
  unfold next_write in Hw. destruct (writes (stream k)); injection Hw; intros; by subst s'.
Qed.

Lemma ensure_connected_spec c :
  ∃ r c', ensure_connected c = Some (r, c') ∧ password c' = password c ∧
    (is_Some (conn c) → r = Ok tt ∧ c' = c) ∧
    (delivered c' = delivered c ∨
     ∃ p, password c = Some p ∧ delivered c' = delivered c ++ [[lit "AUTH"; p]]).
Proof.
  unfold ensure_connected. destruct (conn c) as [k|] eqn:Hk.
  { eexists _, _. split; [done|]. split; [done|]. split; [done|by left]. }
  assert (Hnc : is_Some (@None Conn) → Ok tt = @Ok unit ClientError tt ∧ c = c) by done.
  unfold next_dial. set (p := match network c with [] => _ | _ :: _ => _ end).
  assert (Hp : password p.2 = password c ∧ delivered p.2 = delivered c)
    by (unfold p; by destruct (network c)).
  destruct p as [d c1]. cbn in Hp. destruct Hp as [Hpw Hdl].
  destruct (dial d) as [s|e].
  2:{ eexists _, _. split; [done|]. split; [done|]. split; [by intros [? ?]|by left]. }
  cbn [password set_conn]. rewrite Hpw. destruct (password c) as [pw|] eqn:Hpass.
  2:{ eexists _, _. split; [done|]. cbn. split; [done|]. split; [by intros [? ?]|by left]. }
  destruct (round_trip_spec [lit "AUTH"; pw] (set_conn c1 (Some (mkConn s [])))) as
    (r & c2 & -> & Hp2 & Hd2 & _). cbn [mbind option_bind]. cbn in Hp2, Hd2.
  rewrite Hdl in Hd2. rewrite Hpw in Hp2.
  assert (Hd : delivered c2 = delivered c ∨
    ∃ p, Some pw = Some p ∧ delivered c2 = delivered c ++ [[lit "AUTH"; p]]).
  { destruct Hd2 as [->| ->]; [by left|right; by exists pw]. }
  destruct r as [[]|[]]; (eexists _, _; split; [done|]; split; [exact Hp2|];
    split; [by intros [? ?]|exact Hd]).
Qed.

Lemma attempt_spec args c :
  ∃ r c' l, attempt args c = Some (r, c') ∧ password c' = password c ∧
    delivered c' = delivered c ++ l ∧ attempt_log (password c) args l ∧
    (nothing_seen r → ∀ k, conn c = Some k → l ≠ [] →
      ∃ e, head (incoming (stream k)) = Some e ∧ is_data e = false).
Proof.
  unfold attempt. destruct (ensure_connected_spec c) as (r & c1 & -> & Hp & Hk & Hd).
  cbn [mbind option_bind]. destruct r as [u|e].
  - destruct (round_trip_spec args c1) as (r & c2 & -> & Hp2 & Hd2 & Hn).
    destruct Hd as [Hd|(p & Hpw & Hd)]; destruct Hd2 as [Hd2|Hd2].
    + exists r, c2, []. rewrite app_nil_r. split_and!; try congruence. by left.
    + exists r, c2, [args]. split_and!; try congruence; [by right; left|].
      intros H k Hc _. destruct (Hk ltac:(by rewrite Hc)) as [_ ->].
      apply (Hn H k Hc). rewrite Hd2. intros E. apply (f_equal length) in E.
      rewrite length_app in E. cbn in E. lia.
    + exists r, c2, [[lit "AUTH"; p]]. split_and!; try congruence; [by right; right; exists p; auto|].
      intros _ k Hc _. destruct (Hk ltac:(by rewrite Hc)) as [_ ->].
      apply (f_equal length) in Hd. rewrite length_app in Hd. cbn in Hd. lia.
    + exists r, c2, [[lit "AUTH"; p]; args]. rewrite Hd2, Hd.
      split_and!; try congruence; [by rewrite <- app_assoc|by right; right; exists p; auto|].
      intros _ k Hc _. destruct (Hk ltac:(by rewrite Hc)) as [_ ->].
      apply (f_equal length) in Hd. rewrite length_app in Hd. cbn in Hd. lia.
  - destruct Hd as [Hd|(p & Hpw & Hd)].
    + exists (Err e), c1, []. rewrite app_nil_r. split_and!; try congruence. by left.
    + exists (Err e), c1, [[lit "AUTH"; p]].
      split_and!; try congruence; [by right; right; exists p; auto|].
      intros _ k Hc _. destruct (Hk ltac:(by rewrite Hc)) as [? _]. done.
Qed.

(** A command never panics. *)
Lemma command_total args c : ∃ r c', command args c = Some (r, c').
Proof.
  unfold command. destruct (attempt_spec args c) as (r & c1 & l & -> & _).
  cbn [mbind option_bind]. destruct r as [reply|err]; [by eexists _, _|].
  destruct (negb _); [by eexists _, _|].
  destruct (attempt_spec args (if is_fatal_to_connection err then disconnect c1 else c1))
    as (r & c2 & l2 & -> & _). by eexists _, _.
Qed.

(** C12: a command is sent at most twice (each time after at most one AUTH),
    and the second time only if the client held a connection before the call
    and, when the first sending had succeeded, the first thing that connection
    gave back was its end or an error: not one byte of a reply. *)
Theorem command_deliveries args c :
  ∃ r c' first second, command args c = Some (r, c') ∧
    delivered c' = delivered c ++ first ++ second ∧
    attempt_log (password c) args first ∧ attempt_log (password c) args second ∧
    (second ≠ [] → ∃ k, conn c = Some k ∧
      (first ≠ [] → ∃ e, head (incoming (stream k)) = Some e ∧ is_data e = false)).
Proof.
  unfold command. destruct (attempt_spec args c) as (r & c1 & l & -> & Hp & Hd & Hl & Hn).
  cbn [mbind option_bind]. destruct r as [reply|err].
  { exists (Ok reply), c1, l, []. rewrite app_nil_r. split_and!; try done. by left. }
  set (c2 := if is_fatal_to_connection err then disconnect c1 else c1).
  assert (Hc2 : password c2 = password c1 ∧ delivered c2 = delivered c1)
    by (unfold c2; by destruct (is_fatal_to_connection err)).
  destruct Hc2 as [Hp2 Hd2].
  destruct (bool_decide _ && retry_error err) eqn:Hretry; cbn [negb].
  - bools. destruct (attempt_spec args c2) as (r & c3 & l2 & -> & Hp3 & Hd3 & Hl2 & _).
    exists r, c3, l, l2. rewrite Hp2, Hp in Hl2.
    split_and!; [done| |done..|]; [by rewrite Hd3, Hd2, Hd, app_assoc|].
    destruct H as [k Hk]. intros _. exists k. split; [done|]. intros Hne.
    apply Hn; [by destruct err|done|done].
  - exists (Err err), c2, l, []. rewrite app_nil_r. split_and!; try done; [congruence|by left].
Qed.
End deliveries.

(** ** Replies *)

Definition data_events (chunks : list (byte * bytes)) : list ReadEvent :=
  map (λ c, Data c.1 c.2) chunks.
Definition chunk_bytes (chunks : list (byte * bytes)) : bytes :=
  concat (map (λ c, c.1 :: c.2) chunks).

(** What a call returns for a reply. *)
Definition call_result (r : Reply) : Result Reply ClientError :=
  match r with
  | Error msg => Err (ServerError (from_utf8_lossy msg))
  | r => Ok r
  end.

Lemma deliverable_written r : deliverable r = true →
  parse_reply (to_bytes r) = Some (RComplete r (length (to_bytes r))).
Proof.
  unfold deliverable. intros Hd. bools.
  pose proof (parse_written r [] ltac:(done) ltac:(done)) as H'. by rewrite app_nil_r in H'.
Qed.

Lemma read_reply_chunks r rest : deliverable r = true →
  ∀ chunks buf, buf ++ chunk_bytes chunks = to_bytes r →
  read_reply (data_events chunks ++ rest) buf = Some (call_result r, rest, []).
Proof.
  intros Hd. pose proof (deliverable_written r Hd) as Hall.
  induction chunks as [|[b bs] chunks IH]; intros buf Hb.
  - unfold chunk_bytes in Hb. cbn in Hb. rewrite app_nil_r in Hb. subst buf.
    cbn [data_events map app]. assert (Hgo : ∀ evs, read_reply evs (to_bytes r) = Some (call_result r, evs, [])).
    { intros evs. destruct evs; cbn [read_reply]; rewrite Hall; cbn [mbind option_bind];
        rewrite drop_all; by destruct r. }
    apply Hgo.
  - assert (Hlen : (length buf < length (to_bytes r))%nat)
      by (rewrite <- Hb, length_app; cbn; lia).
    pose proof (partial_reply r (length buf) Hd Hlen) as Hinc.
    rewrite <- Hb, take_app_length in Hinc.
    cbn [data_events map app fst snd read_reply]. rewrite Hinc. cbn [mbind option_bind].
    apply IH. rewrite <- Hb, <- app_assoc. by cbn.
Qed.

Lemma round_trip_chunks args c s k r chunks rest :
  conn c = Some k → read_buf k = [] → next_write (stream k) = (None, s) →
  incoming s = data_events chunks ++ rest → chunk_bytes chunks = to_bytes r →
  deliverable r = true →
  round_trip args c =
  Some (call_result r, set_conn (deliver c args) (Some (mkConn (mkSocket rest (writes s)) []))).
Proof.
  intros Hk Hb Hw Hi Hc Hd. unfold round_trip. rewrite Hk, Hb.
  rewrite bool_decide_true by done. cbn [negb]. rewrite Hw, Hi.
  by rewrite (read_reply_chunks r).
Qed.

(** The same of a command on a connection already held. *)
Lemma command_chunks `{RD : ReplyDebug} args c s k r chunks rest :
  conn c = Some k → read_buf k = [] → next_write (stream k) = (None, s) →
  incoming s = data_events chunks ++ rest → chunk_bytes chunks = to_bytes r →
  deliverable r = true →
  command args c =
  Some (call_result r, set_conn (deliver c args) (Some (mkConn (mkSocket rest (writes s)) []))).
Proof.
  intros Hk Hb Hw Hi Hc Hd. unfold command, attempt, ensure_connected. rewrite Hk.
  cbn [mbind option_bind]. rewrite (round_trip_chunks args c s k r chunks rest) by done.
  cbn [mbind option_bind]. by destruct r.
Qed.

(** What a dial is to find: a server that listens and, when the client has a
    password, accepts it. *)
Definition welcomes (c : Client) (s : Socket) (rest : list ReadEvent) : Prop :=
  writes s = [] ∧ ∃ greeting, incoming s = data_events greeting ++ rest ∧
    match password c with
    | None => greeting = []
    | Some _ => ∃ ok, chunk_bytes greeting = to_bytes (Simple ok) ∧ deliverable (Simple ok) = true
    end.

Definition greeted (c : Client) : list (list bytes) :=
  match password c with None => [] | Some pw => [[lit "AUTH"; pw]] end.

Lemma connects `{RD : ReplyDebug} c s net rest :
  conn c = None → network c = Ok [Connected s None] :: net → welcomes c s rest →
  ensure_connected c = Some (Ok tt,
    mkClient (addr c) (password c) (timeout c) (Some (mkConn (mkSocket rest []) [])) net
      (delivered c ++ greeted c)).
Proof.
  intros Hk Hnet (Hw & greeting & Hi & Hg). unfold ensure_connected, next_dial, greeted.
  rewrite Hk, Hnet. cbn [dial dial_loop password set_conn].
  destruct s as [evs ws]. cbn [writes incoming] in *. subst ws evs.
  destruct (password c) as [pw|] eqn:Hpw.
  - destruct Hg as (ok & Hgb & Hgd).
    rewrite (round_trip_chunks [lit "AUTH"; pw] _ (mkSocket (data_events greeting ++ rest) [])
      (mkConn (mkSocket (data_events greeting ++ rest) []) []) (Simple ok) greeting rest) by done.
    done.
  - subst greeting. cbn. by rewrite app_nil_r.
Qed.

(** The first command of a client: the connection is made, the password sent
    when there is one, and the command is the next request. *)
Lemma command_opens `{RD : ReplyDebug} args c s k r chunks rest net greeting ok :
  conn c = None → network c = Ok [Connected s None] :: net → writes s = [] →
  match password c with
  | None => greeting = []
  | Some _ => chunk_bytes greeting = to_bytes (Simple ok) ∧ deliverable (Simple ok) = true
  end →
  incoming s = data_events greeting ++ data_events chunks ++ rest →
  chunk_bytes chunks = to_bytes r → deliverable r = true →
  k = mkConn (mkSocket rest []) [] →
  ∃ c', command args c = Some (call_result r, c') ∧ conn c' = Some k ∧ password c' = password c ∧
    delivered c' = delivered c ++
      match password c with None => [args] | Some pw => [[lit "AUTH"; pw]; args] end.
Proof.
  intros Hk Hnet Hw Hg Hi Hc Hd ->.
  assert (Hs : welcomes c s (data_events chunks ++ rest)).
  { split; [done|]. exists greeting. split; [done|]. destruct (password c); [by exists ok|done]. }
  unfold command, attempt. rewrite (connects c s net _ Hk Hnet Hs). cbn [mbind option_bind].
  rewrite (round_trip_chunks args _ (mkSocket (data_events chunks ++ rest) [])
    (mkConn (mkSocket (data_events chunks ++ rest) []) []) r chunks rest) by done.
  cbn [mbind option_bind]. rewrite Hk. rewrite (bool_decide_false (is_Some None)) by by intros [? ?].
  eexists. split; [by destruct r|]. cbn. unfold greeted.
  split_and!; [done..|]. rewrite <- app_assoc. by destruct (password c).
Qed.

(** A call whose connection is in step returns the server's reply, however
    its bytes are cut into reads, and leaves the connection in step. *)
Theorem round_trip_reply args c k s r chunks rest :
  conn c = Some k → read_buf k = [] → next_write (stream k) = (None, s) →
  incoming s = data_events chunks ++ rest → chunk_bytes chunks = to_bytes r →
  deliverable r = true →
  ∃ c', round_trip args c = Some (call_result r, c') ∧
    delivered c' = delivered c ++ [args] ∧
    ∃ k', conn c' = Some k' ∧ read_buf k' = [] ∧ incoming (stream k') = rest.
Proof.
  intros. eexists. split; [by eapply round_trip_chunks|]. split; [done|]. by eexists.
Qed.

(** Bytes left over from a reply are never taken for the next one: the next
    call is refused before it sends anything, and the connection dropped. *)
Theorem leftover_refused `{RD : ReplyDebug} args c k :
  conn c = Some k → read_buf k ≠ [] →
  command args c = Some (Err leftover_error, disconnect c).
Proof.
  intros Hk Hb. unfold command, attempt, ensure_connected, round_trip. rewrite Hk.
  cbn [mbind option_bind]. rewrite Hk. rewrite (bool_decide_false (read_buf k = [])) by done.
  by rewrite bool_decide_true by by eexists.
Qed.

(** *** A retry that times out *)

Definition is_timeout (e : IoError) : bool :=
  match kind e with WouldBlock | TimedOut => true | OtherKind => false end.

Lemma round_trip_timeout args c e rest :
  is_timeout e = true → conn c = Some (mkConn (mkSocket (ReadError e :: rest) []) []) →
  round_trip args c =
    Some (Err Timeout, set_conn (deliver c args) (Some (mkConn (mkSocket rest []) []))).
Proof.
  intros He Hk. unfold round_trip. rewrite Hk. cbn. unfold map_io, is_timeout in *. by destruct (kind e).
Qed.

Lemma attempt_held `{RD : ReplyDebug} args c k :
  conn c = Some k → attempt args c = round_trip args c.
Proof. intros Hk. unfold attempt, ensure_connected. by rewrite Hk. Qed.

Lemma round_trip_keeps args c r c' :
  round_trip args c = Some (r, c') →
  addr c' = addr c ∧ password c' = password c ∧ timeout c' = timeout c ∧ network c' = network c.
Proof.
  unfold round_trip. destruct (conn c) as [k|]; [|by intros [= _ <-]].
  destruct (negb _); [by intros [= _ <-]|]. destruct (next_write (stream k)) as [[e|] s];
    [by intros [= _ <-]|].
  destruct (read_reply _ _) as [[[r1 evs] buf]|]; [|done]. by intros [= _ <-].
Qed.

(** C40: the connection of a retry that times out is kept.  For every client
    whose held connection fails a call so that the call is tried again, and whose
    new connection answers only after the time limit: the call returns a timeout and keeps the connection, on which the late reply
    is returned as the result of the next command, whatever that is.  The same
    timeout on a client that held no connection leaves it without one. *)
Theorem retry_timeout_desynchronizes `{RD : ReplyDebug} args c k err c0 s net e r pieces rest :
  conn c = Some k → round_trip args c = Some (Err err, c0) → retry_error err = true →
  network c = Ok [Connected s None] :: net → is_timeout e = true →
  welcomes c s (ReadError e :: data_events pieces ++ rest) →
  deliverable r = true → chunk_bytes pieces = to_bytes r →
  (∃ c1, command args c = Some (Err Timeout, c1) ∧ is_connected c1 = true ∧
    delivered c1 = delivered c0 ++ greeted c ++ [args] ∧
    ∀ args2, command args2 c1 = Some (call_result r,
      set_conn (deliver c1 args2) (Some (mkConn (mkSocket rest []) [])))) ∧
  ∃ c1, command args (disconnect c) = Some (Err Timeout, c1) ∧ is_connected c1 = false.
Proof.
  intros Hk Hr Herr Hnet He Hs Hd Hp.
  assert (Hretry : ∀ c, conn c = None → network c = Ok [Connected s None] :: net →
    welcomes c s (ReadError e :: data_events pieces ++ rest) →
    attempt args c = Some (Err Timeout,
      mkClient (addr c) (password c) (timeout c) (Some (mkConn (mkSocket (data_events pieces ++ rest) []) []))
        net ((delivered c ++ greeted c) ++ [args]))).
  { clear -He. intros c Hk Hnet Hs. unfold attempt. rewrite (connects c s net _ Hk Hnet Hs).
    cbn [mbind option_bind]. by rewrite (round_trip_timeout args _ e (data_events pieces ++ rest)). }
  destruct (round_trip_keeps args c _ _ Hr) as (Ha & Hpw & Ht & Hn). split.
  - unfold command at 1. rewrite (attempt_held args c k Hk), Hr, Hk. cbn [mbind option_bind]. rewrite bool_decide_true by by eexists. rewrite Herr. cbn [andb negb].
    assert (is_fatal_to_connection err = true) as -> by by destruct err.
    rewrite Hretry; [|done|by rewrite <- Hnet, <- Hn|unfold welcomes in *; cbn; by rewrite Hpw].
    eexists. split; [done|]. split; [done|]. split.
    { cbn. unfold greeted. cbn. by rewrite Hpw, <- app_assoc. }
    intros args2. by rewrite (command_chunks args2 _ (mkSocket (data_events pieces ++ rest) [])
      (mkConn (mkSocket (data_events pieces ++ rest) []) []) r pieces rest).
  - unfold command. rewrite Hretry by done. cbn. by eexists.
Qed.

(** A reply that arrives in one read. *)
Definition one_read (r : Reply) : list (byte * bytes) :=
  match to_bytes r with [] => [] | c :: cs => [(c, cs)] end.

(** ** Instances *)

(** A client without a password that holds a connection. *)
Definition holding (k : Conn) : Client := set_conn (client_new [] None []) (Some k).

Section instances.
#[local] Instance no_debug : ReplyDebug := λ _, [].

Definition events_of (s : bytes) : list ReadEvent := map (λ b, Data b []) s.

(** A client holding a connection that the server has closed; the next dial
    reaches a server that answers late. *)
Definition stale_client : Client :=
  mkClient [] None DEFAULT_TIMEOUT (Some (mkConn (mkSocket [Eof] []) []))
    [Ok [Connected (mkSocket (ReadError timed_out :: events_of (to_bytes (reply_bulk (lit "A")))) [])
           None]] [].

Lemma retry_timeout_desynchronizes_witness :
  ∃ c1 c2,
    command [lit "GET"; lit "a"] stale_client = Some (Err Timeout, c1) ∧ is_connected c1 = true ∧
    command [lit "GET"; lit "b"] c1 = Some (Ok (reply_bulk (lit "A")), c2).
Proof.
  set (late := map (λ b, (b, [])) (to_bytes (reply_bulk (lit "A"))) : list (byte * bytes)).
  destruct (retry_timeout_desynchronizes [lit "GET"; lit "a"] stale_client (mkConn (mkSocket [Eof] []) [])
    Closed (set_conn (deliver stale_client [lit "GET"; lit "a"]) (Some (mkConn (mkSocket [] []) [])))
    (mkSocket (ReadError timed_out :: data_events late ++ []) []) [] timed_out (reply_bulk (lit "A")) late [])
    as [(c1 & H1 & H2 & _ & H3) _].
  - reflexivity.
  - vm_compute. reflexivity.
  - reflexivity.
  - vm_compute. reflexivity.
  - reflexivity.
  - split; [reflexivity|]. exists []. split; vm_compute; reflexivity.
  - vm_compute. reflexivity.
  - vm_compute. reflexivity.
  - exists c1. eexists. split; [exact H1|]. split; [exact H2|]. apply (H3 [lit "GET"; lit "b"]).
Defined.

(** [$1\r\nv\r\n] in three reads. *)
Definition three_reads : list (byte * bytes) :=
  [("$"%byte, lit "1"); (CR, [LF; "v"%byte]); (CR, [LF])].
Definition in_step : Conn := mkConn (mkSocket (data_events three_reads) []) [].

Lemma round_trip_reply_witness :
  ∃ c', round_trip [lit "GET"; lit "k"] (holding in_step) =
        Some (Ok (reply_bulk (lit "v")), c').
Proof.
  destruct (round_trip_reply [lit "GET"; lit "k"] (holding in_step) in_step
    (stream in_step) (reply_bulk (lit "v")) three_reads []) as (c' & Hr & _);
    [reflexivity..|].
  by exists c'.
Defined.

Lemma leftover_refused_witness :
  command [lit "GET"; lit "k"] (holding (mkConn (mkSocket [] []) (lit "+OK"))) =
  Some (Err leftover_error, client_new [] None []).
Proof.
  by apply (leftover_refused [lit "GET"; lit "k"]
    (holding (mkConn (mkSocket [] []) (lit "+OK"))) (mkConn (mkSocket [] []) (lit "+OK"))).
Defined.
End instances.
