(* ===== verification/Sql.v ===== *)
(** * The SQL surface (crates/pg_resp/src/sql.rs)

    The SQL functions run in a Postgres backend and reach the store through the
    loopback client.  Reads are immediate; writes are queued and applied after
    commit, the queue following the subtransactions of the backend through the
    transaction callbacks.  A raised Postgres error is a value; [None] is a
    panic of the code itself. *)

From S2P Require Import Prelude RustStd Proto Settings Client.

(** ** Errors *)

(** A double quote. *)
Definition dq : bytes := [Byte.x22].

Definition bug_hint : bytes := lit "this is a pg_resp bug; please report it".

Definition read_error (err : ClientError) : SqlError :=
  match err with
  | ServerError msg =>
      raise ERRCODE_INTERNAL_ERROR (lit "pg_resp cache rejected the request: " ++ msg) bug_hint
  | Auth msg =>
      raise ERRCODE_INSUFFICIENT_PRIVILEGE (lit "pg_resp authentication failed: " ++ msg)
        (lit "pg_resp.password must match between the server and this backend; both read the same GUC, so a mismatch means it changed without a restart")
  | other =>
      raise ERRCODE_CONNECTION_FAILURE (lit "could not reach the pg_resp cache: " ++ error_text other)
        (lit "check that pg_resp is in shared_preload_libraries and that its background worker is running; see the server log")
  end.

(** ** The backend *)

Inductive QueuedOp : Type :=
| QSet (key value : bytes) (ttl_seconds : option Z)
| QDel (key : bytes).

Record QueuedItem := mkItem { subxid : Z; op : QueuedOp }.

(** The thread-locals of a backend: the client, once it is made (before, the
    settings it is made from and the network), the queue and whether the
    callbacks are armed. *)
Record Backend := mkBackend {
  client : option Client;
  settings : Settings;
  net : list Dial;
  queue : list QueuedItem;
  hooks_registered : bool;
}.

Definition set_client (b : Backend) (c : Client) : Backend :=
  mkBackend (Some c) (settings b) (net b) (queue b) (hooks_registered b).
Definition set_queue (b : Backend) (q : list QueuedItem) (h : bool) : Backend :=
  mkBackend (client b) (settings b) (net b) q h.

(** [with_client]: the client the closure runs on. *)
Definition the_client (b : Backend) : Client :=
  match client b with
  | Some c => c
  | None => let '(addr, password) := loopback_target (settings b) in client_new addr password (net b)
  end.

(** *** The queue *)

(** [enqueue], in the current subtransaction; it arms the callbacks. *)
Definition enqueue (current_subxid : Z) (o : QueuedOp) (b : Backend) : Backend :=
  set_queue b (queue b ++ [mkItem current_subxid o]) true.

(** The callbacks, which fire while they are armed.  The commit callback takes
    the queue, for [apply_queue]. *)
Definition on_commit (b : Backend) : list QueuedItem * Backend :=
  if hooks_registered b then (queue b, set_queue b [] false) else ([], b).

Definition on_abort (b : Backend) : Backend :=
  if hooks_registered b then set_queue b [] false else b.

Definition on_abort_sub (my_subid : Z) (b : Backend) : Backend :=
  if hooks_registered b
  then set_queue b (base.filter (λ i, subxid i < my_subid) (queue b)) true
  else b.

Definition reparent (my_subid parent : Z) (i : QueuedItem) : QueuedItem :=
  if subxid i =? my_subid then mkItem parent (op i) else i.

Definition on_commit_sub (my_subid parent : Z) (b : Backend) : Backend :=
  if hooks_registered b then set_queue b (map (reparent my_subid parent) (queue b)) true else b.

(** *** Applying the queue *)

Definition op_args (o : QueuedOp) : list bytes :=
  match o with
  | QSet key value ttl =>
      [lit "SET"; key; value] ++
      match ttl with Some t => [lit "EX"; i_to_string t] | None => [] end
  | QDel key => [lit "DEL"; key]
  end.

(** *** Reading INFO *)

(** [str::lines]: the lines without their LF and the CR before it; no empty
    line after a final LF. *)
Fixpoint lines_loop (s : bytes) (line : bytes) : list bytes :=
  match s with
  | [] => match line with [] => [] | _ => [line] end
  | b :: s =>
      if decide (b = LF)
      then (match last line with Some CR => removelast line | _ => line end) :: lines_loop s []
      else lines_loop s (line ++ [b])
  end.
Definition lines (s : bytes) : list bytes := lines_loop s [].

(** [trim_start_matches], [trim_end_matches] of a set of ASCII characters. *)
Fixpoint trim_start_matches (p : byte → bool) (s : bytes) : bytes :=
  match s with b :: s' => if p b then trim_start_matches p s' else s | [] => [] end.
Definition trim_end_matches (p : byte → bool) (s : bytes) : bytes :=
  reverse (trim_start_matches p (reverse s)).

(** [char::is_whitespace] of a character: Unicode's White_Space, in UTF-8. *)
Definition is_whitespace (c : bytes) : bool :=
  match c with
  | [b] => in_range 9 13 b || (bval b =? 32)
  | [Byte.xc2; b] => (bval b =? 133) || (bval b =? 160)
  | [Byte.xe1; Byte.x9a; Byte.x80] => true
  | [Byte.xe2; Byte.x80; b] => in_range 128 138 b || in_range 168 169 b || (bval b =? 175)
  | [Byte.xe2; Byte.x81; Byte.x9f] => true
  | [Byte.xe3; Byte.x80; Byte.x80] => true
  | _ => false
  end.

Fixpoint drop_whitespace (cs : list bytes) : list bytes :=
  match cs with c :: cs' => if is_whitespace c then drop_whitespace cs' else cs | [] => [] end.

(** [str::trim] *)
Definition trim (s : bytes) : bytes :=
  concat (reverse (drop_whitespace (reverse (drop_whitespace (map snd (utf8_chunks s)))))).

(** [str::strip_prefix] *)
Fixpoint strip_prefix (prefix s : bytes) : option bytes :=
  match prefix, s with
  | [], _ => Some s
  | p :: prefix, b :: s => if decide (p = b) then strip_prefix prefix s else None
  | _ :: _, [] => None
  end.

Definition is_colon_or_equals (b : byte) : bool := bool_decide (b = ":"%byte ∨ b = "="%byte).

(** The value a line gives to a field, if it does. *)
Definition line_field (field line : bytes) : option Z :=
  let line := trim_end_matches (λ b, bool_decide (b = CR)) line in
  rest ← strip_prefix field line;
  parse_int i64_min i64_max (trim (trim_start_matches is_colon_or_equals rest)).

Fixpoint first_field (field : bytes) (ls : list bytes) : option Z :=
  match ls with
  | [] => None
  | l :: ls => match line_field field l with Some v => Some v | None => first_field field ls end
  end.

Definition parse_info_field (info field : bytes) : option Z := first_field field (lines info).

Section sql.
Context `{RD : ReplyDebug}.

(** The loop of [apply_queue]: the failures and the first error; [None] when
    a command panics. *)
Fixpoint apply_loop (ops : list QueuedItem) (failed : Z) (first_error : option bytes) (c : Client)
    : option (Z * option bytes * Client) :=
  match ops with
  | [] => Some (failed, first_error, c)
  | item :: ops =>
      '(result, c) ← command (op_args (op item)) c;
      match result with
      | Ok _ => apply_loop ops failed first_error c
      | Err e =>
          apply_loop ops (failed + 1)
            (match first_error with None => Some (error_text e) | f => f end) c
      end
  end.

(** The warning: how many of how many, and why. *)
Record Warning := mkWarning { lost_count : Z; total_count : Z; reason : bytes }.

(** [apply_queue]: the backend, the counter of lost invalidations (when it is
    initialized) and the warning.  A panic is caught and loses everything. *)
Definition apply_queue (ops : list QueuedItem) (invalidations_lost : option Z) (b : Backend)
    : Backend * option Z * option Warning :=
  match ops with
  | [] => (b, invalidations_lost, None)
  | _ =>
      let total := len ops in
      let '(failed, first_error, b) :=
        match apply_loop ops 0 None (the_client b) with
        | Some (failed, first_error, c) => (failed, first_error, set_client b c)
        | None => (total, Some (lit "internal panic while applying queued cache writes"), b)
        end in
      if 0 <? failed
      then (b, (λ n, wrap_u64 (n + failed)) <$> invalidations_lost,
            Some (mkWarning failed total (default (lit "unknown error") first_error)))
      else (b, invalidations_lost, None)
  end.

(** ** Reads *)

Definition SqlResult (A : Type) : Type := option (Result A SqlError * Backend).

Definition call (args : list bytes) (b : Backend) : option (Result Reply ClientError * Backend) :=
  '(r, c) ← command args (the_client b); Some (r, set_client b c).

Definition unexpected_reply (what : bytes) (r : Reply) : SqlError :=
  raise ERRCODE_INTERNAL_ERROR
    (lit "unexpected " ++ what ++ lit " reply from the pg_resp cache: " ++ reply_debug r) bug_hint.

Definition not_text (key : bytes) : SqlError :=
  raise ERRCODE_CHARACTER_NOT_IN_REPERTOIRE
    (lit "cached value for key " ++ dq ++ key ++ dq ++ lit " is not valid UTF-8 text")
    (lit "the RESP wire protocol is binary-safe but SQL text is not; read this key over the RESP port instead").

Definition bulk_to_text (r : Reply) (key : bytes) : Result (option bytes) SqlError :=
  match r with
  | Bulk None => Ok None
  | Bulk (Some data) =>
      match from_utf8 data with
      | Some s => if negb (bool_decide (Byte.x00 ∈ s)) then Ok (Some s) else Err (not_text key)
      | None => Err (not_text key)
      end
  | other => Err (unexpected_reply (lit "GET") other)
  end.

Definition sql_get (key : bytes) (b : Backend) : SqlResult (option bytes) :=
  '(r, b) ← call [lit "GET"; key] b;
  match r with
  | Err e => Some (Err (read_error e), b)
  | Ok reply => Some (bulk_to_text reply key, b)
  end.

Definition sql_exists (key : bytes) (b : Backend) : SqlResult bool :=
  '(r, b) ← call [lit "EXISTS"; key] b;
  match r with
  | Err e => Some (Err (read_error e), b)
  | Ok (Integer n) => Some (Ok (0 <? n), b)
  | Ok other => Some (Err (unexpected_reply (lit "EXISTS") other), b)
  end.

Definition sql_ttl (key : bytes) (b : Backend) : SqlResult Z :=
  '(r, b) ← call [lit "TTL"; key] b;
  match r with
  | Err e => Some (Err (read_error e), b)
  | Ok (Integer n) => Some (Ok n, b)
  | Ok other => Some (Err (unexpected_reply (lit "TTL") other), b)
  end.

(** The text of a key in a KEYS reply. *)
Definition key_text (item : Reply) : bytes :=
  match item with Bulk (Some data) => from_utf8_lossy data | _ => [] end.

Definition sql_keys (pattern : bytes) (b : Backend) : SqlResult (list bytes) :=
  '(r, b) ← call [lit "KEYS"; pattern] b;
  match r with
  | Err e => Some (Err (read_error e), b)
  | Ok (Array items) => Some (Ok (map key_text (default [] items)), b)
  | Ok other => Some (Err (unexpected_reply (lit "KEYS") other), b)
  end.

(** ** Writes: queued *)

Definition sql_set (current_subxid : Z) (key value : bytes) (ttl_seconds : option Z) (b : Backend)
    : Result unit SqlError * Backend :=
  let invalid := match ttl_seconds with Some ttl => ttl <=? 0 | None => false end in
  if invalid then
    (Err (raise ERRCODE_INVALID_PARAMETER_VALUE
       (lit "invalid expire time in resp.set(): " ++ i_to_string (default 0 ttl_seconds))
       (lit "ttl_seconds must be positive, or NULL for no expiry")), b)
  else (Ok tt, enqueue current_subxid (QSet key value ttl_seconds) b).

Definition sql_del (current_subxid : Z) (key : bytes) (b : Backend) : Backend :=
  enqueue current_subxid (QDel key) b.

(** ** Statistics *)

Definition sql_stats (b : Backend) : SqlResult (list Z) :=
  '(r, b) ← call [lit "INFO"] b;
  match r with
  | Err e => Some (Err (read_error e), b)
  | Ok (Bulk (Some data)) =>
      let text := from_utf8_lossy data in
      let field name := default 0 (parse_info_field text name) in
      Some (Ok [field (lit "db0:keys"); field (lit "used_memory"); field (lit "maxmemory");
                field (lit "keyspace_hits"); field (lit "keyspace_misses");
                field (lit "evicted_keys"); field (lit "invalidations_lost")], b)
  | Ok other => Some (Err (unexpected_reply (lit "INFO") other), b)
  end.
End sql.

(** ** The trigger *)

(** An attribute of a row: its value as pgrx reads it at the column's type
    ([None] for NULL), or a type the trigger does not support. *)
Inductive Attribute : Type :=
| AttText (v : option bytes)
| AttInt (v : option Z)
| AttUuid (v : option bytes)
| AttOther (type_oid : Z).

(** A row: its columns by name. *)
Abbreviation Tuple := (list (bytes * Attribute)).

Fixpoint get_attribute_by_name (t : Tuple) (column : bytes) : option Attribute :=
  match t with
  | [] => None
  | (name, a) :: t => if decide (name = column) then Some a else get_attribute_by_name t column
  end.

Definition render_column_as_text (t : Tuple) (column : bytes) : Result (option bytes) SqlError :=
  match get_attribute_by_name t column with
  | None =>
      Err (raise ERRCODE_UNDEFINED_COLUMN
        (lit "resp.evict() was given column " ++ dq ++ column ++ dq ++
         lit ", which this table does not have")
        (lit "the second trigger argument must name a column of the table the trigger is on"))
  | Some (AttText v) => Ok v
  | Some (AttInt v) => Ok (i_to_string <$> v)
  | Some (AttUuid v) => Ok v
  | Some (AttOther oid) =>
      Err (raise ERRCODE_DATATYPE_MISMATCH
        (lit "resp.evict() cannot build a cache key from column " ++ dq ++ column ++ dq ++
         lit " (type OID " ++ u_to_string oid ++ lit ")")
        (lit "supported key column types are text, varchar, char, name, smallint, integer, bigint and uuid; for anything else add a generated column holding the key text and point resp.evict() at that"))
  end.

(** The keys of the rows, in order, each once. *)
Fixpoint evict_keys (prefix column : bytes) (rows : list Tuple) (keys : list bytes)
    : Result (list bytes) SqlError :=
  match rows with
  | [] => Ok keys
  | t :: rows =>
      match render_column_as_text t column with
      | Err e => Err e
      | Ok None => evict_keys prefix column rows keys
      | Ok (Some v) =>
          let key := prefix ++ v in
          evict_keys prefix column rows (if decide (key ∈ keys) then keys else keys ++ [key])
      end
  end.

Inductive TriggerLevel : Type := Row | Statement.

Definition option_list {A} (o : option A) : list A := match o with Some a => [a] | None => [] end.

(** [resp.evict]: the row it returns, and the backend with the deletes queued. *)
Definition evict (current_subxid : Z) (args : option (list bytes)) (level : TriggerLevel)
    (old new : option Tuple) (b : Backend) : Result (option Tuple) SqlError * Backend :=
  match args with
  | None =>
      (Err (raise ERRCODE_INVALID_PARAMETER_VALUE
         (lit "resp.evict() could not read its trigger arguments")
         (lit "resp.evict() takes exactly two arguments, a key prefix and a column name, e.g. EXECUTE FUNCTION resp.evict('product:', 'id')")), b)
  | Some [prefix; column] =>
      match level with
      | Statement =>
          (Err (raise ERRCODE_E_R_I_E_TRIGGER_PROTOCOL_VIOLATED
             (lit "resp.evict() must be used in a FOR EACH ROW trigger")
             (lit "a statement-level trigger (including TRUNCATE) has no row to derive a cache key from; use resp.del() for whole-table invalidation")), b)
      | Row =>
          match evict_keys prefix column (option_list old ++ option_list new) [] with
          | Err e => (Err e, b)
          | Ok keys =>
              (Ok (match new with Some t => Some t | None => old end),
               fold_left (λ b key, enqueue current_subxid (QDel key) b) keys b)
          end
      end
  | Some args =>
      (Err (raise ERRCODE_INVALID_PARAMETER_VALUE
         (lit "resp.evict() requires exactly 2 trigger arguments, got " ++ len_to_string args)
         (lit "pass a key prefix and a column name, e.g. EXECUTE FUNCTION resp.evict('product:', 'id')")), b)
  end.
