(* ===== verification/SqlFacts.v ===== *)
(** * Properties of the SQL surface

    The queue of a backend against a stack of nested transactions, the order
    and the accounting of what is applied after commit, the statistics read
    back from INFO, and the keys the trigger evicts. *)

From S2P Require Import Prelude RustStd Proto Partial Glob HashMap Scan Store Cache Dispatch.
From S2P Require Import Settings Client ClientFacts Sql.

(** ** Nested transactions

    The specification: a stack of levels, innermost first, each with its
    subtransaction id and the writes queued in it.  Rolling back a level drops
    its writes, releasing it hands them to the enclosing level. *)

Abbreviation Levels := (list (Z * list QueuedOp)).

Inductive TxEvent : Type :=
| TxEnqueue (o : QueuedOp)
| TxBeginSub (id : Z)
| TxAbortSub
| TxCommitSub.

(** An event on the stack; [None] when it cannot happen there.  Postgres
    numbers subtransactions upwards. *)
Definition tx_step (e : TxEvent) (ls : Levels) : option Levels :=
  match e, ls with
  | TxEnqueue o, (id, ops) :: ls => Some ((id, ops ++ [o]) :: ls)
  | TxBeginSub id, (top, ops) :: ls => if top <? id then Some ((id, []) :: (top, ops) :: ls) else None
  | TxAbortSub, _ :: (p, pops) :: ls => Some ((p, pops) :: ls)
  | TxCommitSub, (_, ops) :: (p, pops) :: ls => Some ((p, pops ++ ops) :: ls)
  | _, _ => None
  end.

(** The same event in the backend: the callbacks get the ids of the level that
    ends and of the one around it. *)
Definition backend_step (e : TxEvent) (ls : Levels) (b : Backend) : Backend :=
  match e, ls with
  | TxEnqueue o, (id, _) :: _ => enqueue id o b
  | TxAbortSub, (id, _) :: _ => on_abort_sub id b
  | TxCommitSub, (id, _) :: (p, _) :: _ => on_commit_sub id p b
  | _, _ => b
  end.

Fixpoint tx_run (es : list TxEvent) (ls : Levels) (b : Backend) : option (Levels * Backend) :=
  match es with
  | [] => Some (ls, b)
  | e :: es => ls' ← tx_step e ls; tx_run es ls' (backend_step e ls b)
  end.

(** The writes of all levels, outermost first: the order they were queued in. *)
Fixpoint stack_items (ls : Levels) : list QueuedItem :=
  match ls with
  | [] => []
  | (id, ops) :: ls => stack_items ls ++ map (mkItem id) ops
  end.

Definition stack_ops (ls : Levels) : list QueuedOp := map op (stack_items ls).

(** Ids grow inwards. *)
Fixpoint nested (ls : Levels) : Prop :=
  match ls with
  | [] => True
  | (id, _) :: ls => Forall (λ l, l.1 < id) ls ∧ nested ls
  end.

(** The flat queue holds the stack; before the first write the callbacks are
    not armed. *)
Definition holds (ls : Levels) (b : Backend) : Prop :=
  nested ls ∧ queue b = stack_items ls ∧ (hooks_registered b = false → queue b = []).

Lemma stack_items_below id ls :
  Forall (λ l, l.1 < id) ls → Forall (λ i, subxid i < id) (stack_items ls).
Proof.
  induction ls as [|[id' ops] ls IH]; intros Hl; cbn [stack_items]; [done|].
  apply Forall_cons in Hl as [Hid Hl]. apply Forall_app. split; [by apply IH|].
  apply Forall_map. cbn in *. by apply Forall_true.
Qed.

Lemma filter_below id l :
  Forall (λ i, subxid i < id) l → base.filter (λ i, subxid i < id) l = l.
Proof. induction 1 as [|i l Hi _ IH]; [done|]. by rewrite filter_cons_True, IH. Qed.

Lemma filter_own id ops : base.filter (λ i, subxid i < id) (map (mkItem id) ops) = [].
Proof. induction ops as [|o ops IH]; [done|]. cbn [map]. rewrite filter_cons_False; [done|cbn; lia]. Qed.

Lemma reparent_below id p l :
  Forall (λ i, subxid i < id) l → map (reparent id p) l = l.
Proof.
  induction 1 as [|i l Hi _ IH]; [done|]. cbn. rewrite IH. unfold reparent.
  destruct (Z.eqb_spec (subxid i) id); [lia|done].
Qed.

Lemma reparent_own id p ops : map (reparent id p) (map (mkItem id) ops) = map (mkItem p) ops.
Proof.
  induction ops as [|o ops IH]; [done|]. cbn. rewrite IH. unfold reparent. cbn.
  by rewrite Z.eqb_refl.
Qed.

Lemma step_holds e ls ls' b :
  holds ls b → tx_step e ls = Some ls' → holds ls' (backend_step e ls b).
Proof.
  intros (Hn & Hq & Hh) Hs. unfold holds. destruct e as [o|id| |]; destruct ls as [|[top ops] ls];
    try discriminate Hs; cbn [tx_step backend_step] in *.
  - injection Hs as <-. cbn [nested stack_items enqueue queue set_queue hooks_registered] in *.
    split; [done|]. split; [|done]. rewrite Hq, map_app, app_assoc. done.
  - destruct (Z.ltb_spec top id); [|done]. injection Hs as <-. cbn [nested stack_items] in *.
    cbn [map]. rewrite app_nil_r. split; [|done]. split; [|done].
    destruct Hn as [Hl _]. apply Forall_cons. split; [done|]. eapply Forall_impl; [exact Hl|].
    intros l Hlt. cbn in *. lia.
  - destruct ls as [|[p pops] ls]; [done|]. injection Hs as <-. destruct Hn as [Hl Hn].
    split; [done|]. unfold on_abort_sub. cbn [stack_items] in Hq.
    pose proof (stack_items_below top ((p, pops) :: ls) Hl) as Hb. cbn [stack_items] in Hb.
    destruct (hooks_registered b); cbn [queue set_queue hooks_registered].
    + split; [|done]. rewrite Hq, filter_app, filter_below, filter_own by done.
      by rewrite app_nil_r.
    + rewrite Hh in Hq |- * by done. symmetry in Hq. apply app_eq_nil in Hq as [Hq _].
      cbn [stack_items]. by rewrite Hq.
  - destruct ls as [|[p pops] ls]; [done|]. injection Hs as <-. destruct Hn as [Hl Hn].
    split; [done|]. unfold on_commit_sub. cbn [stack_items] in Hq.
    pose proof (stack_items_below top ((p, pops) :: ls) Hl) as Hb. cbn [stack_items] in Hb.
    destruct (hooks_registered b); cbn [queue set_queue hooks_registered].
    + split; [|done]. rewrite Hq, !map_app. cbn [stack_items].
      rewrite <- map_app, reparent_below, reparent_own, map_app, app_assoc by done. done.
    + rewrite Hh in Hq |- * by done. symmetry in Hq. apply app_eq_nil in Hq as [Hq Hops].
      cbn [stack_items]. apply map_eq_nil in Hops as ->. by rewrite app_nil_r, Hq.
Qed.

Lemma run_holds es : ∀ ls b ls' b',
  holds ls b → tx_run es ls b = Some (ls', b') → holds ls' b'.
Proof.
  induction es as [|e es IH]; intros ls b ls' b' Hh; cbn [tx_run]; [by intros [= <- <-]|].
  destruct (tx_step e ls) as [ls1|] eqn:He; [|done]. cbn [mbind option_bind].
  apply IH. by eapply step_holds.
Qed.

(** A transaction starts with an empty queue and unarmed callbacks. *)
Lemma tx_holds top es ls b b' :
  hooks_registered b = false → queue b = [] → tx_run es [(top, [])] b = Some (ls, b') → holds ls b'.
Proof. intros Hh Hq. apply run_holds. split_and!; try done; by cbn. Qed.

(** What commit takes from the queue. *)
Lemma commit_takes ls b : holds ls b → map op (on_commit b).1 = stack_ops ls.
Proof.
  intros (_ & Hq & Hun). unfold on_commit, stack_ops. rewrite <- Hq.
  destruct (hooks_registered b) eqn:Hr; [done|]. by rewrite Hun.
Qed.

(** C9: over any run of a transaction with savepoints, commit applies exactly
    the writes of the levels that were not rolled back, in the order they were
    made and once each, and abort applies none; either way the next transaction
    starts with an empty queue and unarmed callbacks. *)
Theorem queue_follows_savepoints top es ls b b' :
  hooks_registered b = false → queue b = [] →
  tx_run es [(top, [])] b = Some (ls, b') →
  map op (on_commit b').1 = stack_ops ls ∧
  queue (on_commit b').2 = [] ∧ hooks_registered (on_commit b').2 = false ∧
  queue (on_abort b') = [] ∧ hooks_registered (on_abort b') = false.
Proof.
  intros Hh Hq Hrun. pose proof (tx_holds top es ls b b' Hh Hq Hrun) as Hb.
  split; [by apply commit_takes|]. destruct Hb as (_ & _ & Hun). unfold on_commit, on_abort.
  destruct (hooks_registered b') eqn:Hr; cbn; [done|]. by rewrite Hun.
Qed.

(** ** Applying the queue *)

Section apply.
Context `{RD : ReplyDebug}.

(** A server's answer to one command, and the pieces it arrives in. *)
Definition answer_ok (a : Reply * list (byte * bytes)) : Prop :=
  deliverable a.1 = true ∧ chunk_bytes a.2 = to_bytes a.1.

Definition answers_of (answers : list (Reply * list (byte * bytes))) : list ReadEvent :=
  concat (map (λ a, data_events a.2) answers).

Definition is_error (r : Reply) : bool := match r with Error _ => true | _ => false end.

(** The first error reply, as the warning prints it. *)
Definition first_error (answers : list (Reply * list (byte * bytes))) : option bytes :=
  head (omap (λ a, match a.1 with Error msg => Some (from_utf8_lossy msg) | _ => None end) answers).

Definition errors (answers : list (Reply * list (byte * bytes))) : Z :=
  len (base.filter (λ a, is_error a.1 = true) answers).

Lemma apply_loop_in_step ops : ∀ answers failed err c rest,
  length ops = length answers → Forall answer_ok answers →
  conn c = Some (mkConn (mkSocket (answers_of answers ++ rest) []) []) →
  ∃ c', apply_loop ops failed err c =
      Some (failed + errors answers, match err with None => first_error answers | e => e end, c') ∧
    delivered c' = delivered c ++ map (λ i, op_args (op i)) ops ∧
    conn c' = Some (mkConn (mkSocket rest []) []).
Proof.
  induction ops as [|item ops IH]; intros [|[r chunks] answers] failed err c rest Hl Hok Hc;
    cbn [length] in Hl; try lia.
  { exists c. cbn. rewrite app_nil_r. unfold errors, len. cbn. rewrite Z.add_0_r. by destruct err. }
  apply Forall_cons in Hok as [[Hd Hb] Hok]. cbn [fst snd] in *.
  cbn [answers_of map concat snd] in Hc. rewrite <- app_assoc in Hc. cbn [apply_loop].
  rewrite (command_chunks (op_args (op item)) c (mkSocket (data_events chunks ++ answers_of answers ++ rest) [])
    (mkConn (mkSocket (data_events chunks ++ answers_of answers ++ rest) []) []) r chunks
    (answers_of answers ++ rest)) by done.
  cbn [mbind option_bind]. set (c1 := set_conn _ _).
  assert (Hc1 : conn c1 = Some (mkConn (mkSocket (answers_of answers ++ rest) []) [])) by done.
  assert (Hd1 : delivered c1 = delivered c ++ [op_args (op item)]) by done.
  destruct r as [s|msg|n|d|its]; cbn [call_result].
  2:{ destruct (IH answers (failed + 1)
        (match err with None => Some (error_text (ServerError (from_utf8_lossy msg))) | e => e end)
        c1 rest ltac:(lia) Hok Hc1) as (c' & -> & H2 & H3).
      exists c'. split; [|split; [|done]].
      - unfold errors, first_error. rewrite filter_cons_True by done. unfold len. cbn.
        f_equal. f_equal. f_equal; [lia|]. by destruct err.
      - rewrite H2, Hd1, <- app_assoc. done. }
  all: destruct (IH answers failed err c1 rest ltac:(lia) Hok Hc1) as (c' & -> & H2 & H3);
    exists c'; (split; [|split; [|done]]);
    [unfold errors, first_error; by rewrite filter_cons_False|by rewrite H2, Hd1, <- app_assoc].
Qed.

(** C23: with the server reachable, the queue is applied in order, one command
    per write; the writes the server refuses are the ones counted as lost, on
    the shared counter when there is one and in the warning. *)
Theorem apply_queue_in_order ops answers lost b c rest :
  ops ≠ [] → client b = Some c → length ops = length answers → Forall answer_ok answers →
  conn c = Some (mkConn (mkSocket (answers_of answers ++ rest) []) []) →
  ∃ b' c', (apply_queue ops lost b).1.1 = b' ∧ client b' = Some c' ∧
    delivered c' = delivered c ++ map (λ i, op_args (op i)) ops ∧
    (apply_queue ops lost b).1.2 =
      (if 0 <? errors answers then (λ n, wrap_u64 (n + errors answers)) <$> lost else lost) ∧
    (apply_queue ops lost b).2 =
      (if 0 <? errors answers
       then Some (mkWarning (errors answers) (len ops)
                    (default (lit "unknown error") (first_error answers)))
       else None).
Proof.
  intros Hne Hb Hl Hok Hc. destruct ops as [|item ops]; [done|].
  destruct (apply_loop_in_step (item :: ops) answers 0 None c rest Hl Hok Hc) as (c' & Ha & Hd & _).
  exists (set_client b c'), c'. unfold apply_queue, the_client. rewrite Hb, Ha, Z.add_0_l.
  by destruct (0 <? errors answers).
Qed.
End apply.

(** ** Statistics *)

Lemma lines_loop_line l rest acc :
  LF ∉ l → last (acc ++ l) ≠ Some CR →
  lines_loop (l ++ CRLF ++ rest) acc = (acc ++ l) :: lines_loop rest [].
Proof.
  revert acc. induction l as [|b l IH]; intros acc Hl Hlast; cbn [app lines_loop].
  - rewrite decide_False by done. rewrite decide_True by done.
    rewrite app_nil_r in *. rewrite last_snoc. by rewrite removelast_last.
  - apply not_elem_of_cons in Hl as [Hb Hl]. rewrite decide_False by done.
    rewrite IH; [by rewrite <- app_assoc|done|]. by rewrite <- app_assoc.
Qed.

Lemma lines_line l rest :
  LF ∉ l → last l ≠ Some CR → lines (l ++ CRLF ++ rest) = l :: lines rest.
Proof. apply (lines_loop_line l rest []). Qed.

Lemma trim_end_id p s : (∀ b, last s = Some b → p b = false) → trim_end_matches p s = s.
Proof.
  intros Hl. unfold trim_end_matches. destruct s as [|b s _] using rev_ind; [done|].
  rewrite reverse_snoc. cbn [trim_start_matches]. rewrite (Hl b) by apply last_snoc.
  by rewrite reverse_cons, reverse_involutive.
Qed.

Lemma strip_prefix_app p s : strip_prefix p (p ++ s) = Some s.
Proof. induction p as [|b p IH]; cbn; [by destruct s|]. by rewrite decide_True. Qed.

Lemma digit_not_space b : is_digit b → is_whitespace [b] = false.
Proof.
  intros [H1 H2].
  replace (is_whitespace [b]) with (in_range 9 13 b || (bval b =? 32)) by by destruct b.
  unfold in_range.
  apply orb_false_iff. split; [apply andb_false_iff; right; apply Z.leb_gt; lia|apply Z.eqb_neq; lia].
Qed.

Lemma trim_digits s : s ≠ [] → Forall is_digit s → trim s = s.
Proof.
  intros Hne Hs. unfold trim. rewrite utf8_chunks_ascii by (eapply Forall_impl; [exact Hs|apply digit_ascii]).
  rewrite map_map. cbn [snd].
  assert (Hdw : ∀ l, Forall is_digit l → drop_whitespace (map (λ b, [b]) l) = map (λ b, [b]) l).
  { intros l Hl. destruct Hl as [|b l Hb _]; [done|]. cbn [map drop_whitespace].
    by rewrite digit_not_space. }
  rewrite Hdw by done. change (reverse (map (λ b, [b]) s)) with (reverse ((λ b, [b]) <$> s)).
  rewrite <- fmap_reverse. change ((λ b, [b]) <$> reverse s) with (map (λ b, [b]) (reverse s)).
  rewrite Hdw by (by apply Forall_reverse). change (map (λ b, [b]) (reverse s)) with ((λ b, [b]) <$> reverse s).
  rewrite <- fmap_reverse, reverse_involutive. clear.
  induction s as [|b s IH]; [done|]. rewrite fmap_cons. cbn [concat app]. by rewrite IH.
Qed.

(** The last byte of a printed number is a digit. *)
Lemma last_printed (pre : bytes) n b : 0 <= n → last (pre ++ u_to_string n) = Some b → is_digit b.
Proof.
  intros Hn Hl. pose proof (u_to_string_digits n Hn) as Hd. pose proof (u_to_string_ne_nil n) as Hne.
  destruct (u_to_string n) as [|x l _] using rev_ind; [done|].
  rewrite app_assoc, last_snoc in Hl. injection Hl as <-. apply Forall_app in Hd as [_ Hd].
  by apply Forall_inv in Hd.
Qed.

Lemma digit_not_cr b : is_digit b → b ≠ CR.
Proof. intros [H _] ->. vm_compute in H. by apply H. Qed.

(** A line of INFO that names the field gives its value, any other none. *)
Lemma line_field_value (field sep : bytes) n :
  sep = lit ":" ∨ sep = lit "=" → 0 <= n <= i64_max →
  line_field field (field ++ sep ++ u_to_string n) = Some n.
Proof.
  intros Hsep Hn. unfold line_field. rewrite trim_end_id.
  2:{ intros b Hb. rewrite app_assoc in Hb. apply last_printed in Hb; [|lia].
      apply bool_decide_eq_false. by apply digit_not_cr. }
  rewrite strip_prefix_app. cbn [mbind option_bind].
  pose proof (u_to_string_digits n ltac:(lia)) as Hd. pose proof (u_to_string_ne_nil n) as Hne.
  assert (Hts : trim_start_matches is_colon_or_equals (sep ++ u_to_string n) = u_to_string n).
  { assert (Hnot : trim_start_matches is_colon_or_equals (u_to_string n) = u_to_string n).
    { destruct Hd as [|b l Hb _]; [done|]. cbn [trim_start_matches]. unfold is_colon_or_equals.
      rewrite bool_decide_false; [done|]. destruct Hb as [Hb1 Hb2].
      intros [->| ->]; vm_compute in Hb2; by apply Hb2. }
    destruct Hsep as [->| ->]; cbn [app trim_start_matches lit String.list_byte_of_string];
      exact Hnot. }
  rewrite Hts, trim_digits by done. apply parse_int_u_to_string; unfold i64_min; lia.
Qed.

Lemma line_field_other field line :
  last line ≠ Some CR → strip_prefix field line = None → line_field field line = None.
Proof.
  intros Hl Hs. unfold line_field. rewrite trim_end_id; [by rewrite Hs|].
  intros b Hb. apply bool_decide_eq_false. by intros ->.
Qed.

(** The lines of INFO: the sections, and the name, separator and value of each
    line that carries a number. *)
Lemma lines_number name sep n rest :
  LF ∉ name ++ sep → 0 <= n →
  lines ((name ++ sep ++ u_to_string n) ++ CRLF ++ rest) =
  (name ++ sep ++ u_to_string n) :: lines rest.
Proof.
  intros Hlf Hn. apply lines_line.
  - rewrite app_assoc, elem_of_app. intros [H|H]; [done|].
    by apply digits_no_lf in H; [|apply u_to_string_digits].
  - rewrite app_assoc. intros Hl. apply last_printed in Hl; [|done]. by apply digit_not_cr in Hl.
Qed.

Lemma first_field_skip field line ls :
  last line ≠ Some CR → strip_prefix field line = None →
  first_field field (line :: ls) = first_field field ls.
Proof. intros Hl Hs. cbn [first_field]. by rewrite line_field_other. Qed.

Lemma first_field_number field name sep n ls :
  0 <= n → strip_prefix field (name ++ sep ++ u_to_string n) = None →
  first_field field ((name ++ sep ++ u_to_string n) :: ls) = first_field field ls.
Proof.
  intros Hn Hs. apply first_field_skip; [|done]. rewrite app_assoc. intros Hl.
  apply last_printed in Hl; [|done]. by apply digit_not_cr in Hl.
Qed.

Lemma first_field_hit field sep n ls :
  sep = lit ":" ∨ sep = lit "=" → 0 <= n <= i64_max →
  first_field field ((field ++ sep ++ u_to_string n) :: ls) = Some n.
Proof. intros Hsep Hn. cbn [first_field]. by rewrite line_field_value. Qed.

(** INFO as lines. *)
Definition info_lines (st : Stats) (lost : Z) : list bytes :=
  [ lit "# Server"; lit "redis_version" ++ lit ":" ++ lit "7.0.0";
    lit "pg_resp_version" ++ lit ":" ++ pkg_version; lit "# Memory";
    lit "used_memory" ++ lit ":" ++ u_to_string (stat_used_bytes st);
    lit "maxmemory" ++ lit ":" ++ u_to_string (default 0 (stat_max_memory_bytes st));
    lit "# Stats";
    lit "keyspace_hits" ++ lit ":" ++ u_to_string (stat_hits st);
    lit "keyspace_misses" ++ lit ":" ++ u_to_string (stat_misses st);
    lit "evicted_keys" ++ lit ":" ++ u_to_string (stat_evictions st);
    lit "invalidations_lost" ++ lit ":" ++ u_to_string lost;
    lit "# Keyspace";
    lit "db0:keys" ++ lit "=" ++ u_to_string (stat_keys st) ].

Definition stats_ok (st : Stats) (lost : Z) : Prop :=
  Forall (λ n, 0 <= n <= i64_max)
    [stat_keys st; stat_used_bytes st; default 0 (stat_max_memory_bytes st); stat_hits st;
     stat_misses st; stat_evictions st; lost].

(** INFO is those lines, each ended by CRLF. *)
Lemma info_text_lines st lost :
  info_text st lost = concat (map (λ l, l ++ CRLF) (info_lines st lost)).
Proof.
  unfold info_text, info_line, info_lines.
  replace (match stat_max_memory_bytes st with Some b => u_to_string b | None => lit "0" end)
    with (u_to_string (default 0 (stat_max_memory_bytes st))) by by destruct (stat_max_memory_bytes st).
  replace (lit "db0:keys=") with ((lit "db0:keys" ++ lit "=") : bytes) by done.
  generalize (u_to_string (stat_used_bytes st)), (u_to_string (default 0 (stat_max_memory_bytes st))),
    (u_to_string (stat_hits st)), (u_to_string (stat_misses st)), (u_to_string (stat_evictions st)),
    (u_to_string lost), (u_to_string (stat_keys st)).
  intros. cbn [map concat]. by rewrite <- !app_assoc, app_nil_r.
Qed.

Lemma lines_concat ls :
  Forall (λ l, (LF ∉ l) ∧ last l ≠ Some CR) ls → lines (concat (map (λ l, l ++ CRLF) ls)) = ls.
Proof.
  induction 1 as [|l ls [Hlf Hcr] _ IH]; [done|]. cbn [map concat].
  rewrite <- app_assoc, lines_line by done. by rewrite IH.
Qed.

Lemma lines_info st lost : stats_ok st lost → lines (info_text st lost) = info_lines st lost.
Proof.
  intros Hok. rewrite info_text_lines. apply lines_concat.
  assert (Hlit : ∀ s : bytes, bool_decide ((LF ∉ s) ∧ last s ≠ Some CR) = true → (LF ∉ s) ∧ last s ≠ Some CR)
    by (intros s; apply bool_decide_eq_true_1).
  assert (Hnum : ∀ (name sep : bytes) n, 0 <= n <= i64_max → bool_decide (LF ∉ name ++ sep) = true →
    (LF ∉ name ++ sep ++ u_to_string n) ∧ last (name ++ sep ++ u_to_string n) ≠ Some CR).
  { intros name sep n [Hn _] Hlf. apply bool_decide_eq_true_1 in Hlf. rewrite app_assoc. split.
    - rewrite elem_of_app. intros [H|H]; [done|].
      by apply digits_no_lf in H; [|apply u_to_string_digits].
    - intros Hl. apply last_printed in Hl; [|done]. by apply digit_not_cr in Hl. }
  unfold stats_ok in Hok. rewrite !Forall_cons in Hok.
  destruct Hok as (? & ? & ? & ? & ? & ? & ? & _).
  unfold info_lines. repeat (apply Forall_cons; split; [first [by apply Hnum|by apply Hlit]|]). done.
Qed.

Lemma info_ascii st lost : stats_ok st lost → Forall is_ascii (info_text st lost).
Proof.
  intros Hok. rewrite info_text_lines.
  assert (Hlit : ∀ s : bytes, forallb (λ b, bval b <? 128) s = true → Forall is_ascii s).
  { induction s as [|b s IH]; cbn; intros; bools; constructor; [done|by apply IH]. }
  assert (Hnum : ∀ (name sep : bytes) n, 0 <= n <= i64_max → forallb (λ b, bval b <? 128) (name ++ sep) = true →
    Forall is_ascii (name ++ sep ++ u_to_string n)).
  { intros name sep n [Hn _] Hl. rewrite app_assoc. apply Forall_app. split; [by apply Hlit|].
    eapply Forall_impl; [by apply u_to_string_digits|apply digit_ascii]. }
  unfold stats_ok in Hok. rewrite !Forall_cons in Hok.
  destruct Hok as (? & ? & ? & ? & ? & ? & ? & _).
  apply Forall_concat, Forall_map.
  unfold info_lines; repeat (apply Forall_cons; split;
    [apply Forall_app; split; [first [by apply Hnum|by apply Hlit]|by apply Hlit]|]). done.
Qed.

Ltac info_field :=
  repeat first
    [ rewrite first_field_hit by (solve [tauto | assumption])
    | rewrite first_field_number by (solve [lia | reflexivity])
    | rewrite first_field_skip by (solve [discriminate | reflexivity]) ].

Lemma parse_info st lost : stats_ok st lost →
  let field := parse_info_field (info_text st lost) in
  [field (lit "db0:keys"); field (lit "used_memory"); field (lit "maxmemory");
   field (lit "keyspace_hits"); field (lit "keyspace_misses"); field (lit "evicted_keys");
   field (lit "invalidations_lost")] =
  Some <$> [stat_keys st; stat_used_bytes st; default 0 (stat_max_memory_bytes st); stat_hits st;
    stat_misses st; stat_evictions st; lost].
Proof.
  intros Hok. cbv zeta. unfold parse_info_field. rewrite lines_info by done. unfold info_lines.
  unfold stats_ok in Hok. rewrite !Forall_cons in Hok.
  destruct Hok as (? & ? & ? & ? & ? & ? & ? & _). cbn [fmap list_fmap].
  repeat f_equal; info_field; done.
Qed.

(** C39: [resp.stats()] returns the server's own numbers: the seven columns are
    the statistics of the store and the lost invalidations, as the INFO reply
    printed them, in whatever pieces that reply arrived. *)
Theorem stats_match_info `{RD : ReplyDebug} st lost chunks rest b c :
  stats_ok st lost → answer_ok (reply_bulk (info_text st lost), chunks) →
  client b = Some c → conn c = Some (mkConn (mkSocket (data_events chunks ++ rest) []) []) →
  ∃ b', sql_stats b =
    Some (Ok [stat_keys st; stat_used_bytes st; default 0 (stat_max_memory_bytes st); stat_hits st;
              stat_misses st; stat_evictions st; lost], b').
Proof.
  intros Hok [Hd Hb] Hc Hk. cbn [fst snd] in *.
  unfold sql_stats, call, the_client. rewrite Hc.
  rewrite (command_chunks [lit "INFO"] c (mkSocket (data_events chunks ++ rest) [])
    (mkConn (mkSocket (data_events chunks ++ rest) []) []) (reply_bulk (info_text st lost)) chunks rest)
    by done.
  cbn [mbind option_bind call_result reply_bulk].
  rewrite from_utf8_lossy_valid by (apply from_utf8_ascii; by apply info_ascii).
  pose proof (parse_info st lost Hok) as Hp. cbv zeta in Hp. cbn [fmap list_fmap] in Hp.
  injection Hp as H1 H2 H3 H4 H5 H6 H7.
  rewrite H1, H2, H3, H4, H5, H6, H7. by eexists.
Qed.

(** ** The trigger *)

Lemma evict_keys_spec prefix column rows : ∀ keys keys',
  evict_keys prefix column rows keys = Ok keys' → NoDup keys →
  NoDup keys' ∧ ∀ k, k ∈ keys' ↔ k ∈ keys ∨
    ∃ t v, t ∈ rows ∧ render_column_as_text t column = Ok (Some v) ∧ k = prefix ++ v.
Proof.
  induction rows as [|t rows IH]; intros keys keys'; cbn [evict_keys].
  { intros [= ->] Hn. split; [done|]. intros k. split; [by left|]. intros [?|(?&?&H&_)]; [done|].
    by apply not_elem_of_nil in H. }
  destruct (render_column_as_text t column) as [[v|]|e] eqn:Hr; [| |done]; intros He Hn.
  - apply IH in He as [Hn' Hk].
    2:{ case_decide; [done|]. apply NoDup_app. split; [done|]. split; [|apply NoDup_singleton].
        intros k Hk ->%list_elem_of_singleton. done. }
    split; [done|]. intros k. rewrite Hk. split.
    + intros [H|(t' & v' & Ht & H)].
      * case_decide; [by left|]. apply elem_of_app in H as [H|H]; [by left|].
        apply list_elem_of_singleton in H as ->. right. exists t, v. split; [left|done].
      * right. exists t', v'. split; [by right|done].
    + intros [H|(t' & v' & Ht & Hr' & ->)].
      * left. case_decide; [done|]. apply elem_of_app. by left.
      * apply elem_of_cons in Ht as [->|Ht]; [|right; by exists t', v'].
        rewrite Hr in Hr'. injection Hr' as <-. left. case_decide; [done|].
        apply elem_of_app. right. by apply list_elem_of_singleton.
  - apply IH in He as [Hn' Hk]; [|done]. split; [done|]. intros k. rewrite Hk.
    apply or_iff_compat_l. split.
    + intros (t' & v & Ht & H). exists t', v. split; [by right|done].
    + intros (t' & v & Ht & Hr' & ->). apply elem_of_cons in Ht as [->|Ht]; [congruence|].
      by exists t', v.
Qed.

Lemma enqueue_keys id keys : ∀ b,
  queue (fold_left (λ b key, enqueue id (QDel key) b) keys b) =
  queue b ++ map (λ k, mkItem id (QDel k)) keys.
Proof.
  induction keys as [|k keys IH]; intros b; cbn [fold_left map]; [by rewrite app_nil_r|].
  rewrite IH. cbn [enqueue set_queue queue]. by rewrite <- app_assoc.
Qed.

(** C38: a row trigger that succeeds queues, under the current subtransaction,
    one delete for each key that the old or the new row gives, and no other;
    it returns the new row, or the old one of a DELETE. *)
Theorem evict_deletes_row_keys id prefix column old new b row b' :
  evict id (Some [prefix; column]) Row old new b = (Ok row, b') →
  row = (match new with Some t => Some t | None => old end) ∧
  ∃ keys, queue b' = queue b ++ map (λ k, mkItem id (QDel k)) keys ∧ NoDup keys ∧
    ∀ k, k ∈ keys ↔ ∃ t v, (old = Some t ∨ new = Some t) ∧
      render_column_as_text t column = Ok (Some v) ∧ k = prefix ++ v.
Proof.
  unfold evict. destruct (evict_keys prefix column _ []) as [keys|e] eqn:He; [|done].
  intros [= <- <-]. split; [done|]. exists keys. split; [apply enqueue_keys|].
  apply evict_keys_spec in He as [Hn Hk]; [|apply NoDup_nil_2]. split; [done|].
  intros k. rewrite Hk. split.
  - intros [H|(t & v & Ht & H)]; [by apply not_elem_of_nil in H|]. exists t, v. split; [|done].
    apply elem_of_app in Ht as [Ht|Ht]; [left; destruct old|right; destruct new];
      cbn [option_list] in Ht; try (by apply not_elem_of_nil in Ht);
      by apply list_elem_of_singleton in Ht as ->.
  - intros (t & v & Ht & H). right. exists t, v. split; [|done]. apply elem_of_app.
    destruct Ht as [-> | ->]; [left|right]; by apply list_elem_of_singleton.
Qed.

(** ** Instances *)

Section instances.
#[local] Instance quiet : ReplyDebug := λ _, [].

Definition idle : Backend := mkBackend None default_settings [] [] false.

(** A write, then one in a savepoint that is rolled back, then one in a
    savepoint that is released. *)
Definition savepoints : list TxEvent :=
  [TxEnqueue (QDel (lit "a")); TxBeginSub 2; TxEnqueue (QDel (lit "b")); TxAbortSub;
   TxBeginSub 3; TxEnqueue (QSet (lit "c") (lit "v") None); TxCommitSub].

Lemma queue_follows_savepoints_witness :
  ∃ ls b, tx_run savepoints [(1, [])] idle = Some (ls, b) ∧
    map op (on_commit b).1 = [QDel (lit "a"); QSet (lit "c") (lit "v") None].
Proof.
  destruct (tx_run savepoints [(1, [])] idle) as [[ls b]|] eqn:Hr; [|vm_compute in Hr; discriminate Hr].
  exists ls, b. split; [reflexivity|].
  destruct (queue_follows_savepoints 1 savepoints ls idle b eq_refl eq_refl Hr) as [-> _].
  vm_compute in Hr. injection Hr as <- _. reflexivity.
Defined.

(** A backend whose connection will receive these replies, one per read. *)
Definition waiting (rs : list Reply) : Backend :=
  set_client idle (holding (mkConn (mkSocket (answers_of (map (λ r, (r, one_read r)) rs)) []) [])).

(** Two writes; the server refuses the second. *)
Definition two_writes : list QueuedItem :=
  [mkItem 1 (QSet (lit "k") (lit "v") (Some 5)); mkItem 1 (QDel (lit "x"))].
Definition refused : list Reply := [Simple (lit "OK"); Error (lit "NOAUTH")].

Lemma apply_queue_in_order_witness :
  (apply_queue two_writes (Some 3) (waiting refused)).1.2 = Some 4 ∧
  (apply_queue two_writes (Some 3) (waiting refused)).2 = Some (mkWarning 1 2 (lit "NOAUTH")).
Proof.
  destruct (apply_queue_in_order two_writes (map (λ r, (r, one_read r)) refused) (Some 3)
    (waiting refused) (the_client (waiting refused)) []) as (b' & c' & _ & _ & _ & Hl & Hw).
  - discriminate.
  - reflexivity.
  - reflexivity.
  - apply Forall_map, Forall_forall. intros r Hr.
    apply elem_of_cons in Hr as [->|Hr]; [|apply list_elem_of_singleton in Hr as ->];
      by split.
  - by rewrite app_nil_r.
  - rewrite Hl, Hw. split; reflexivity.
Defined.

Definition some_stats : Stats := mkStats 2 250 (Some 4096) 7 3 1.

Lemma stats_match_info_witness :
  ∃ b', sql_stats (waiting [reply_bulk (info_text some_stats 5)]) =
    Some (Ok [2; 250; 4096; 7; 3; 1; 5], b').
Proof.
  apply (stats_match_info some_stats 5 (one_read (reply_bulk (info_text some_stats 5))) []
    (waiting [reply_bulk (info_text some_stats 5)])
    (the_client (waiting [reply_bulk (info_text some_stats 5)]))).
  - repeat (apply Forall_cons; split; [vm_compute; split; discriminate|]). apply Forall_nil_2.
  - split; vm_compute; reflexivity.
  - reflexivity.
  - reflexivity.
Defined.

Definition product (id : Z) : Tuple := [(lit "id", AttInt (Some id))].

(** An UPDATE that changes the key column. *)
Lemma evict_deletes_row_keys_witness :
  ∃ b' keys, evict 1 (Some [lit "product:"; lit "id"]) Row (Some (product 1)) (Some (product 2)) idle =
    (Ok (Some (product 2)), b') ∧
    queue b' = queue idle ++ map (λ k, mkItem 1 (QDel k)) keys ∧
    lit "product:1" ∈ keys ∧ lit "product:2" ∈ keys.
Proof.
  destruct (evict 1 (Some [lit "product:"; lit "id"]) Row (Some (product 1)) (Some (product 2)) idle)
    as [[row|e] b'] eqn:He; [|vm_compute in He; discriminate He].
  destruct (evict_deletes_row_keys 1 (lit "product:") (lit "id") (Some (product 1)) (Some (product 2))
    idle row b' He) as (-> & keys & Hq & _ & Hk).
  exists b', keys. split; [reflexivity|]. split; [exact Hq|]. split; apply Hk.
  - exists (product 1), (lit "1"). split; [by left|]. split; vm_compute; reflexivity.
  - exists (product 2), (lit "2"). split; [by right|]. split; vm_compute; reflexivity.
Defined.
End instances.
