(* ===== verification/Commit.v ===== *)
(** * From COMMIT to the store

    The SQL surface, the client, the dispatcher and the store together: what a
    committed transaction's writes do to the cache the server holds. *)

From S2P Require Import Prelude RustStd Proto Partial Glob HashMap Scan Store Cache Dispatch DispatchFacts.
From S2P Require Import Server ServerFacts Bgworker Settings Client ClientFacts Sql SqlFacts.

Section commit.
Context `{UC : UnicodeCase} `{HE : !HashIter bytes Entry} `{HC : !HashIter Z ScanState}.
Context `{RD : ReplyDebug}.

(** What a queued write does to the abstract cache when it is executed. *)
Definition apply_write (now : Instant) (o : QueuedOp) (c : Cache) : Cache :=
  match o with
  | QSet k v ttl => <[k := (v, (λ t, now + t * NS_PER_SEC) <$> ttl)]> c
  | QDel k => delete k c
  end.

(** A lifetime the server can represent. *)
Definition ttl_fits (now : Instant) (o : QueuedOp) : Prop :=
  match o with
  | QSet _ _ (Some t) => 0 < t <= i64_max ∧ now + t * NS_PER_SEC < instant_end
  | _ => True
  end.

(** The replies to writes. *)
Definition write_reply (r : Reply) : Prop := r = reply_ok ∨ r = Integer 0 ∨ r = Integer 1.

(** The options [resp.set] sends. *)
Lemma parse_ttl sys now ttl v key :
  ttl_fits now (QSet key v ttl) →
  ∃ o, parse_set_options sys now (match ttl with Some t => [lit "EX"; i_to_string t] | None => [] end) =
      Some (Ok o) ∧
    opt_condition o = CondNone ∧ opt_want_get o = false ∧
    default ExpiryNone (opt_expiry o) ≠ KeepTtl ∧
    new_deadline (default ExpiryNone (opt_expiry o)) None = (λ t, now + t * NS_PER_SEC) <$> ttl.
Proof.
  destruct ttl as [t|]; cbn [ttl_fits fmap option_fmap option_map].
  2:{ intros _. by exists default_options. }
  intros [Ht Hend].
  assert (Hd : option_deadline sys now (lit "EX") t = Some (now + t * NS_PER_SEC)).
  { unfold option_deadline. rewrite decide_True by done. unfold instant_add, from_secs.
    rewrite wrap_u64_small by (unfold u64_max, i64_max in *; lia).
    by rewrite (proj2 (Z.ltb_lt _ _) Hend). }
  exists (with_expiry default_options (At (now + t * NS_PER_SEC))).
  split; [|done]. unfold parse_set_options. cbn [set_options_loop].
  replace (upper (lit "EX")) with (lit "EX") by by vm_compute.
  do 4 (rewrite decide_False by done).
  replace (is_time_option (lit "EX")) with true by by vm_compute.
  rewrite bool_decide_false by by intros [? ?].
  unfold parse_i64. rewrite parse_i64_i_to_string by (unfold i64_min; lia).
  rewrite (proj2 (Z.leb_gt _ _)) by lia. by rewrite Hd.
Qed.

(** *** Stores

    The effect on the cache is stated for the two kinds of store: exactly,
    without a budget, and up to what has been evicted, with one. *)
Section writes.
Context (P : Store → Prop) (R : Instant → relation Cache) `{HI : !∀ t, Inserting t P (R t)}.
Context (Hlater : ∀ t t' c c', t <= t' → R t c c' → R t' c c').

(** One queued write, executed by the server. *)
Lemma dispatch_write sys now password lost o st :
  P (dstore st) → admitted password (dconn st) → ttl_fits now o →
  ∃ r s', dispatch sys now password lost (op_args o) st = (Some r, mkDispatchState s' (dconn st)) ∧
    write_reply r ∧ P s' ∧ R now (contents s') (apply_write now o (contents (dstore st))).
Proof.
  intros Hu Ha Hf. unfold dispatch, dispatch_body. destruct o as [k v ttl|k]; cbn [op_args app].
  - replace (upper (lit "SET")) with (lit "SET") by by vm_compute.
    rewrite (admitted_gate password (dconn st) (lit "SET") Ha), find_command_set.
    destruct (parse_ttl sys now ttl v k Hf) as (o & Hp & Hcond & Hget & Hk & Hdl).
    unfold cmd_set. rewrite Hp. unfold bind, or_panic, on_store, ret. cbn [dstore].
    rewrite Hcond, Hget.
    pose proof (write_set now P (R now) k v (default ExpiryNone (opt_expiry o)) (dstore st) Hu) as H.
    destruct (set _ _ _ _ _ _ _) as [out s']. destruct H as (Happ & _ & Hu' & Hc).
    rewrite Happ. exists reply_ok, s'. split; [done|]. split; [by left|]. split; [done|].
    specialize (Hc Hk). by rewrite Hdl in Hc.
  - replace (upper (lit "DEL")) with (lit "DEL") by by vm_compute.
    rewrite (admitted_gate password (dconn st) (lit "DEL") Ha), find_command_del.
    unfold cmd_del, bind, on_store, ret. cbn [dstore].
    pose proof (write_del now P (R now) k (dstore st) Hu) as H.
    destruct (del (dstore st) now [k]) as [n s']. destruct H as (Hn & Hu' & Hc).
    exists (Integer (wrap_i64 n)), s'. split; [done|]. split; [|done].
    right. destruct Hn as [-> | ->]; [left|right]; reflexivity.
Qed.

(** *** A whole transaction *)

Context (password : option bytes) (env : nat → SystemTime * Instant * Z).

Definition clock (i : nat) : Instant := (env i).1.2.

(** The writes in order, the [j]-th when command [i + j] is served. *)
Fixpoint apply_writes (i : nat) (ops : list QueuedOp) (c : Cache) : Cache :=
  match ops with
  | [] => c
  | o :: ops => apply_writes (S i) ops (apply_write (clock i) o c)
  end.

Fixpoint ttls_fit (i : nat) (ops : list QueuedOp) : Prop :=
  match ops with
  | [] => True
  | o :: ops => ttl_fits (clock i) o ∧ ttls_fit (S i) ops
  end.

Lemma apply_write_proper t now o : Proper (R t ==> R t) (apply_write now o).
Proof. intros c c' Hc. destruct o; cbn [apply_write]; by rewrite Hc. Qed.

Lemma apply_writes_proper t ops : ∀ i c c',
  R t c c' → R t (apply_writes i ops c) (apply_writes i ops c').
Proof.
  induction ops as [|o ops IH]; intros i c c' Hc; cbn [apply_writes]; [done|].
  by apply IH, apply_write_proper.
Qed.

Context (Hclock : ∀ i, clock i <= clock (S i)).

Lemma clock_mono i n : clock i <= clock (i + n).
Proof.
  induction n as [|n IH]; [by rewrite Nat.add_0_r|]. rewrite Nat.add_succ_r.
  etrans; [exact IH|apply Hclock].
Qed.

Lemma writes_served ops : ∀ i w cs,
  P w → admitted password cs → ttls_fit i ops →
  ∃ rs w', serve_all (SV := dispatch_service password) env (map op_args ops) i w cs =
      Some (rs, w', cs) ∧
    length rs = length ops ∧ Forall write_reply rs ∧ P w' ∧
    R (clock (i + length ops)) (contents w') (apply_writes i ops (contents w)).
Proof.
  induction ops as [|o ops IH]; intros i w cs Hu Ha Hf; cbn [map serve_all length apply_writes].
  { exists [], w. by rewrite Nat.add_0_r. }
  destruct Hf as [Hf Hfs]. unfold clock in Hf at 1. unfold clock at 2.
  destruct (env i) as [[sys now] lost] eqn:He. cbn [fst snd] in *.
  destruct (dispatch_write sys now password lost o (mkDispatchState w cs) Hu Ha Hf)
    as (r & s' & Hd & Hr & Hu' & Hc). cbn [dconn dstore] in *.
  cbn [serve dispatch_service]. rewrite Hd. cbn [dstore dconn].
  destruct (IH (S i) s' cs Hu' Ha Hfs) as (rs & w' & Hs & Hl & Hrs & Hu'' & Hc').
  rewrite Hs. cbn [mbind option_bind]. exists (r :: rs), w'. split; [done|].
  split; [cbn; by rewrite Hl|]. split; [by constructor|]. split; [done|].
  rewrite Nat.add_succ_r, <- Nat.add_succ_l. etrans; [exact Hc'|]. apply apply_writes_proper.
  eapply Hlater; [|exact Hc].
  replace now with (clock i) by (unfold clock; by rewrite He).
  rewrite Nat.add_succ_l, <- Nat.add_succ_r. apply clock_mono.
Qed.
End writes.

(** *** What the backend sees *)

Lemma write_reply_answer r p : write_reply r → chunk_bytes p = to_bytes r → answer_ok (r, p).
Proof.
  intros Hr Hp. split; [|exact Hp]. by destruct Hr as [->|[->| ->]].
Qed.

Lemma write_replies_ok rs ps :
  Forall write_reply rs → Forall2 (λ r p, chunk_bytes p = to_bytes r) rs ps →
  Forall answer_ok (zip rs ps) ∧ errors (zip rs ps) = 0 ∧
  answers_of (zip rs ps) = concat (map data_events ps) ∧ length (zip rs ps) = length rs.
Proof.
  intros Hr Hp. induction Hp as [|r p rs ps Hrp _ IH]; [done|].
  apply Forall_cons in Hr as [Hr Hrs]. destruct (IH Hrs) as (H1 & H2 & H3 & H4).
  cbn [zip zip_with]. split; [constructor; [by apply write_reply_answer|done]|].
  unfold errors in *. rewrite filter_cons_False by (destruct Hr as [->|[->| ->]]; discriminate).
  split; [exact H2|]. unfold answers_of in *. cbn [map concat length snd].
  by rewrite H3, H4.
Qed.

(** C5: COMMIT with the server reachable.  The queued writes are served in
    order and leave the server's cache as if each had been made on it when its
    command ran: the last write of a key wins, with its lifetime counted from
    then.  With a budget the cache may hold less, never anything else.  However
    the replies arrive, no write is counted as lost, no warning is raised, and
    each command is sent once. *)
Theorem committed_writes_reach_store password env i w cs b c rest :
  (∀ i, clock env i <= clock env (S i)) →
  sound w → admitted password cs → ttls_fit env i (map op (queue b)) →
  hooks_registered b = true → client b = Some c →
  ∃ rs w', serve_all (SV := dispatch_service password) env
      (map op_args (map op (queue b))) i w cs = Some (rs, w', cs) ∧
    cache_le (clock env (i + length (queue b))) (contents w')
      (apply_writes env i (map op (queue b)) (contents w)) ∧
    (unbounded w → cache_eq (clock env (i + length (queue b))) (contents w')
      (apply_writes env i (map op (queue b)) (contents w))) ∧
    ∀ pieces lost, Forall2 (λ r p, chunk_bytes p = to_bytes r) rs pieces →
      conn c = Some (mkConn (mkSocket (concat (map data_events pieces) ++ rest) []) []) →
      ∃ b' c', apply_queue (on_commit b).1 lost (on_commit b).2 = (b', lost, None) ∧
        client b' = Some c' ∧ queue b' = [] ∧
        delivered c' = delivered c ++ map op_args (map op (queue b)).
Proof.
  intros Hclock Hw Ha Hf Hh Hc.
  destruct (writes_served sound cache_le cache_le_later password env Hclock (map op (queue b)) i w cs
    Hw Ha Hf) as (rs & w' & Hs & Hl & Hrs & _ & Hcache).
  rewrite length_map in Hl, Hcache. exists rs, w'. split; [done|]. split; [done|]. split.
  { intros Hu. destruct (writes_served unbounded cache_eq cache_eq_later password env Hclock
      (map op (queue b)) i w cs Hu Ha Hf) as (rs' & w1 & Hs' & _ & _ & _ & Hcache').
    rewrite length_map in Hcache'. rewrite Hs in Hs'. by injection Hs' as _ <-. }
  intros pieces lost Hp Hk. unfold on_commit. rewrite Hh. cbn [fst snd].
  destruct (write_replies_ok rs pieces Hrs Hp) as (Hok & Herr & Hans & Hz).
  destruct (queue b) as [|item q] eqn:Hq.
  { exists (set_queue b [] false), c. cbn. by rewrite app_nil_r. }
  destruct (apply_loop_in_step (item :: q) (zip rs pieces) 0 None c rest) as (c' & Hal & Hd & _).
  { by rewrite Hz, Hl. }
  { done. }
  { by rewrite Hans. }
  exists (set_client (set_queue b [] false) c'), c'. unfold apply_queue, the_client.
  cbn [client set_queue]. rewrite Hc, Hal, Herr. rewrite map_map. done.
Qed.
End commit.

(** ** An instance *)

Section instances.
#[local] Instance no_unicode_case : UnicodeCase := λ c, c.
#[local] Instance entry_order : HashIter bytes Entry := listing_order bytes Entry.
#[local] Instance cursor_order : HashIter Z ScanState := listing_order Z ScanState.
#[local] Instance no_debug : ReplyDebug := λ _, [].

(** Two writes, a minute's lifetime on the first, and the server's answers. *)
Definition two_ops : list QueuedItem :=
  [mkItem 1 (QSet (lit "k") (lit "v") (Some 60)); mkItem 1 (QDel (lit "x"))].
Definition two_answers : list Reply := [reply_ok; Integer 0].
Definition committing : Backend :=
  mkBackend
    (Some (holding (mkConn (mkSocket
      (concat (map data_events (map one_read two_answers)) ++ []) []) [])))
    default_settings [] two_ops true.
Definition noon (i : nat) : SystemTime * Instant * Z := (0, NS_PER_SEC, 0).

Lemma committed_writes_reach_store_witness :
  ∃ w', serve_all (SV := dispatch_service None) noon (map op_args (map op two_ops)) 0 store_new
      (mkConnState false) = Some (two_answers, w', mkConnState false) ∧
    contents w' !! lit "k" = Some (lit "v", Some (61 * NS_PER_SEC)) ∧
    (apply_queue (on_commit committing).1 (Some 0) (on_commit committing).2).2 = None.
Proof.
  destruct (committed_writes_reach_store None noon 0 store_new (mkConnState false) committing
    (the_client committing) []) as (rs & w' & Hs & _ & Hc & Hb).
  - intros i. reflexivity.
  - split; [reflexivity|]. vm_compute. repeat split; discriminate.
  - by left.
  - split; [vm_compute; split; [split; [reflexivity|discriminate]|reflexivity]|split; exact I].
  - reflexivity.
  - reflexivity.
  - assert (Hrs : rs = two_answers ∧ contents w' !! lit "k" = Some (lit "v", Some (61 * NS_PER_SEC))).
    { vm_compute in Hs. injection Hs as <- <-. split; vm_compute; reflexivity. }
    destruct Hrs as [-> Hk]. exists w'. split; [exact Hs|]. split; [exact Hk|].
    destruct (Hb (map one_read two_answers) (Some 0)) as (b' & c' & Ha & _).
    + repeat constructor.
    + reflexivity.
    + by rewrite Ha.
Defined.
End instances.
