(* ===== verification/Reads.v ===== *)
(** * SQL reads, from the store to the row

    [resp.get], [resp.exists], [resp.ttl] and [resp.keys] against the abstract
    map: the server answers the function's command from its store, the reply
    arrives over the backend's connection in any pieces, and the function
    returns what the map holds.  With [Commit]: what one session commits,
    another reads. *)

From S2P Require Import Prelude RustStd Proto Partial Glob HashMap Scan Store Cache Dispatch DispatchFacts Commands.
From S2P Require Import Server ServerFacts Bgworker Settings Client ClientFacts Sql SqlFacts Commit.

Section reads.
Context `{UC : UnicodeCase} `{HE : !HashIter bytes Entry} `{HC : !HashIter Z ScanState}.
Context `{RD : ReplyDebug}.
Context (password : option bytes).
Implicit Types (w : Store) (cs : ConnState) (b : Backend).

(** The reply [r] is on its way to the backend, whose connection is in step. *)
Definition arriving (r : Reply) b : Prop :=
  deliverable r = true ∧ ∃ c chunks rest, client b = Some c ∧ chunk_bytes chunks = to_bytes r ∧
    conn c = Some (mkConn (mkSocket (data_events chunks ++ rest) []) []).

Lemma call_arriving args r b : arriving r b → ∃ b', call args b = Some (call_result r, b').
Proof.
  intros (Hd & c & chunks & rest & Hc & Hb & Hk). unfold call, the_client. rewrite Hc.
  rewrite (command_chunks args c (mkSocket (data_events chunks ++ rest) []) _ r chunks rest Hk) by done.
  by eexists.
Qed.

(** The server's answer to a command, for a session that may run it. *)
Definition answer sys now lost args w cs (r : Reply) : Prop :=
  admitted password cs ∧
  (serve (Service := dispatch_service password) sys now lost args w cs).1.1 = Some r.

Lemma answer_follows sys now lost name rest w cs r f :
  answer sys now lost (name :: rest) w cs r →
  find_plan (upper name) (specification sys now password) = Some f →
  ∃ st, follows now (f rest) (mkDispatchState w cs) (Some r, st).
Proof.
  intros [Ha Hr] Hf. cbn [serve dispatch_service] in Hr.
  pose proof (dispatch_planned sys now password lost (name :: rest) (mkDispatchState w cs)) as H.
  cbn [dconn command_plan] in H. rewrite (admitted_gate password cs _ Ha), Hf in H.
  destruct (dispatch _ _ _ _ _ _) as [r' st]. cbn in Hr. subst r'. by exists st.
Qed.

Ltac planned :=
  match goal with |- find_plan (upper ?name) _ = _ => replace (upper name) with name by by vm_compute end;
  unfold specification; cbn [find_plan];
  repeat (rewrite decide_False by done); rewrite decide_True by done; reflexivity.

Lemma answer_get sys now lost key w cs r :
  answer sys now lost [lit "GET"; key] w cs r →
  r = bulk_or_nil (fst <$> cache_at now (contents w) !! key).
Proof.
  intros H. destruct (answer_follows _ _ _ _ _ _ _ _ _ H ltac:(planned)) as (st & _ & _ & Hf).
  cbn [store_step dstore dconn] in Hf. destruct (get_spec w now key) as [Hv _].
  destruct (get w now key) as [v s]. cbn [fst] in Hv. subst v. by injection Hf as ->.
Qed.

Lemma answer_exists sys now lost key w cs r :
  answer sys now lost [lit "EXISTS"; key] w cs r →
  r = Integer (int_of_bool (bool_decide (is_Some (cache_at now (contents w) !! key)))).
Proof.
  intros H. destruct (answer_follows _ _ _ _ _ _ _ _ _ H ltac:(planned)) as (st & _ & _ & Hf).
  cbn [store_step dstore dconn] in Hf. destruct (exists_spec now [key] w) as [Hn _].
  destruct (exists_ w now [key]) as [n s]. cbn [fst] in Hn. subst n. injection Hf as -> _.
  unfold count_present. rewrite filter_cons.
  destruct (cache_at now (contents w) !! key); [rewrite decide_True by by eexists|rewrite decide_False by by intros [? ?]];
    reflexivity.
Qed.

Lemma answer_ttl sys now lost key w cs r :
  answer sys now lost [lit "TTL"; key] w cs r →
  r = Integer (from_option (remaining_seconds now) (-2) (cache_at now (contents w) !! key)).
Proof.
  intros H. destruct (answer_follows _ _ _ _ _ _ _ _ _ H ltac:(planned)) as (st & _ & _ & Hf).
  pose proof (key_op_refines w now (OpTtl key) I) as Hn. cbn [live_step] in Hn. cbn [dstore dconn] in Hf.
  destruct (store_step now (OpTtl key) w) as [a s]. destruct Hn as [-> _]. by injection Hf as ->.
Qed.

Lemma answer_keys sys now lost pattern w cs r :
  answer sys now lost [lit "KEYS"; pattern] w cs r →
  ∃ ks, r = Array (Some (map reply_bulk ks)) ∧
    ks ≡ₚ base.filter (λ k, glob_match pattern k = true) (map fst (map_to_list (cache_at now (contents w)))).
Proof.
  intros H. destruct (answer_follows _ _ _ _ _ _ _ _ _ H ltac:(planned)) as (st & Hf).
  injection Hf as -> _. eexists. split; [reflexivity|]. by rewrite all_keys_spec.
Qed.

(** The SQL text of a value. *)
Definition value_text (key : bytes) (v : option bytes) : Result (option bytes) SqlError :=
  match v with
  | None => Ok None
  | Some v => match from_utf8 v with
              | Some s => if decide (Byte.x00 ∈ s) then Err (not_text key) else Ok (Some s)
              | None => Err (not_text key)
              end
  end.

Lemma sql_get_arriving key v b :
  arriving (bulk_or_nil v) b → ∃ b', sql_get key b = Some (value_text key v, b').
Proof.
  intros Hb. destruct (call_arriving [lit "GET"; key] _ _ Hb) as [b' Hc].
  unfold sql_get. rewrite Hc. exists b'. destruct v as [v|]; [|done]. cbn.
  destruct (from_utf8 v); [|done]. by case_bool_decide; case_decide.
Qed.

(** What [resp.ttl] is to return for a key: -2 without a value, -1 without a
    deadline, and else the seconds that are left, to the nearest. *)
Definition ttl_of (now : Instant) (d : option (bytes * option Instant)) (n : Z) : Prop :=
  match d with
  | None => n = -2
  | Some (_, None) => n = -1
  | Some (_, Some deadline) =>
      0 <= n ∧ millis_left now deadline - 500 < 1000 * n <= millis_left now deadline + 500
  end.

(** The key has no deadline, or one that is less than 2^63 - 500 ms away. *)
Definition near_deadline (now : Instant) (d : option (bytes * option Instant)) : Prop :=
  match d with
  | Some (_, Some deadline) => millis_left now deadline <= i64_max - 500
  | _ => True
  end.

Lemma ttl_of_remaining now d :
  near_deadline now d → ttl_of now d (from_option (remaining_seconds now) (-2) d).
Proof.
  destruct d as [[v [deadline|]]|]; [|done..]. intros Hn.
  apply (remaining_exact now v deadline Hn).
Qed.

(** C37: each read function of the SQL surface returns what the server's map
    holds when the server answers: the live value, as text; whether there is
    one; -2 without a value, -1 without a deadline and else the seconds that are
    left, to the nearest, for a deadline less than 2^63 - 500 ms (292 million
    years) away; the live keys that match, each once. *)
Theorem sql_reads_match_map sys now lost w cs r b :
  let c := cache_at now (contents w) in
  arriving r b →
  (∀ key, answer sys now lost [lit "GET"; key] w cs r →
    ∃ b', sql_get key b = Some (value_text key (fst <$> c !! key), b')) ∧
  (∀ key, answer sys now lost [lit "EXISTS"; key] w cs r →
    ∃ b', sql_exists key b = Some (Ok (bool_decide (is_Some (c !! key))), b')) ∧
  (∀ key, answer sys now lost [lit "TTL"; key] w cs r → near_deadline now (c !! key) →
    ∃ b' n, sql_ttl key b = Some (Ok n, b') ∧ ttl_of now (c !! key) n) ∧
  (∀ pattern, answer sys now lost [lit "KEYS"; pattern] w cs r →
    ∃ b' ks, sql_keys pattern b = Some (Ok (map from_utf8_lossy ks), b') ∧
      ks ≡ₚ base.filter (λ k, glob_match pattern k = true) (map fst (map_to_list c))).
Proof.
  intros c Hb. split_and!; intros key Ha; [| |intros Hn|].
  - apply answer_get in Ha as ->. by apply sql_get_arriving.
  - apply answer_exists in Ha as ->. destruct (call_arriving [lit "EXISTS"; key] _ _ Hb) as [b' Hc].
    unfold sql_exists. rewrite Hc. exists b'. fold c. by destruct (c !! key).
  - apply answer_ttl in Ha as ->. destruct (call_arriving [lit "TTL"; key] _ _ Hb) as [b' Hc].
    unfold sql_ttl. rewrite Hc. exists b'. eexists. split; [reflexivity|by apply ttl_of_remaining].
  - apply answer_keys in Ha as (ks & -> & Hk). destruct (call_arriving [lit "KEYS"; key] _ _ Hb) as [b' Hc].
    unfold sql_keys. rewrite Hc. exists b', ks. split; [|done]. cbn. by rewrite map_map.
Qed.

(** C6: what a transaction commits, a later [resp.get] of any session reads.
    Once the writes that COMMIT sends have been served, the read returns the
    value of the last write of the key that was not rolled back to a savepoint,
    as long as it lives; or, when there was none, what the server held before.
    With a budget the key may have been evicted, and then there is no value;
    there is never another one. *)
Theorem committed_value_read env top es ls b0 b1 i w rs w' cs cs2 now sys lost key r b :
  (∀ i, clock env i <= clock env (S i)) →
  hooks_registered b0 = false → queue b0 = [] → tx_run es [(top, [])] b0 = Some (ls, b1) →
  sound w → admitted password cs → ttls_fit env i (stack_ops ls) →
  serve_all (SV := dispatch_service password) env (map op_args (map op (on_commit b1).1)) i w cs =
    Some (rs, w', cs) →
  clock env (i + length (on_commit b1).1) <= now →
  answer sys now lost [lit "GET"; key] w' cs2 r → arriving r b →
  ∃ v b', sql_get key b = Some (value_text key v, b') ∧
    let latest := fst <$> cache_at now (apply_writes env i (stack_ops ls) (contents w)) !! key in
    (v = latest ∨ v = None) ∧ (unbounded w → v = latest).
Proof.
  intros Hclock Hh Hq Hrun Hw Ha Hf Hs Hnow Hr Hb. apply answer_get in Hr as ->.
  destruct (sql_get_arriving key _ b Hb) as [b' Hc].
  pose proof (commit_takes ls b1 (tx_holds top es ls b0 b1 Hh Hq Hrun)) as Hops.
  rewrite <- (length_map op) in Hnow. rewrite Hops in Hs, Hnow. clear Hrun Hops. set (ops := stack_ops ls) in *.
  exists (fst <$> cache_at now (contents w') !! key), b'. split; [done|]. split.
  - destruct (writes_served sound cache_le cache_le_later password env Hclock ops i w cs Hw Ha Hf)
      as (rs1 & w1 & Hs1 & _ & _ & _ & Hle). rewrite Hs in Hs1. injection Hs1 as _ <-.
    apply (cache_le_later _ now) in Hle; [|done]. unfold cache_le in Hle.
    destruct (cache_at now (contents w') !! key) as [d|] eqn:Hd; [left|by right].
    by rewrite (lookup_weaken _ _ _ _ Hd Hle).
  - intros Hu. destruct (writes_served unbounded cache_eq cache_eq_later password env Hclock ops i w cs Hu Ha Hf)
      as (rs1 & w1 & Hs1 & _ & _ & _ & Heq). rewrite Hs in Hs1. injection Hs1 as _ <-.
    apply (cache_eq_later _ now) in Heq; [|done]. unfold cache_eq in Heq. by rewrite Heq.
Qed.
End reads.

(** ** Instances *)

Section instances.
#[local] Instance no_unicode_case : UnicodeCase := λ c, c.
#[local] Instance entry_order : HashIter bytes Entry := listing_order bytes Entry.
#[local] Instance cursor_order : HashIter Z ScanState := listing_order Z ScanState.
#[local] Instance no_debug : ReplyDebug := λ _, [].

(** A backend to which a reply is on its way, in one read. *)
Definition reading (r : Reply) : Backend :=
  mkBackend (Some (holding (mkConn (mkSocket (data_events (one_read r) ++ []) []) []))) default_settings [] [] false.

Lemma reading_arriving r : deliverable r = true → chunk_bytes (one_read r) = to_bytes r →
  arriving r (reading r).
Proof. intros Hd Hb. split; [done|]. by exists (holding (mkConn (mkSocket (data_events (one_read r) ++ []) []) [])), (one_read r), []. Qed.

(** A key that lives for two and a half seconds. *)
Definition one_key : Store :=
  (set store_new 0 (lit "k") (lit "v") (At (2500 * NS_PER_MS)) CondNone false).2.

Lemma sql_reads_match_map_witness :
  (∃ b', sql_get (lit "k") (reading (reply_bulk (lit "v"))) = Some (Ok (Some (lit "v")), b')) ∧
  (∃ b', sql_exists (lit "x") (reading (Integer 0)) = Some (Ok false, b')) ∧
  (∃ b' n, sql_ttl (lit "k") (reading (Integer 3)) = Some (Ok n, b') ∧ 2000 < 1000 * n <= 3000) ∧
  (∃ b' ks, sql_keys (lit "?") (reading (Array (Some [reply_bulk (lit "k")]))) =
     Some (Ok (map from_utf8_lossy ks), b') ∧ ks ≡ₚ [lit "k"]).
Proof.
  split_and!.
  - apply (proj1 (sql_reads_match_map None 0 0 0 one_key (mkConnState false) _ _
      (reading_arriving (reply_bulk (lit "v")) eq_refl eq_refl)) (lit "k")).
    split; [by left|reflexivity].
  - apply (proj1 (proj2 (sql_reads_match_map None 0 0 0 one_key (mkConnState false) _ _
      (reading_arriving (Integer 0) eq_refl eq_refl))) (lit "x")).
    split; [by left|reflexivity].
  - destruct (proj1 (proj2 (proj2 (sql_reads_match_map None 0 0 0 one_key (mkConnState false) _ _
      (reading_arriving (Integer 3) eq_refl eq_refl)))) (lit "k")) as (b' & n & Hc & Hn);
      [split; [by left|reflexivity]|vm_compute; discriminate|].
    exists b', n. split; [exact Hc|].
    assert (cache_at 0 (contents one_key) !! lit "k" = Some (lit "v", Some (2500 * NS_PER_MS))) as Hk
      by (vm_compute; reflexivity).
    assert (millis_left 0 (2500 * NS_PER_MS) = 2500) as Hm by (vm_compute; reflexivity).
    rewrite Hk in Hn. cbn [ttl_of] in Hn. rewrite Hm in Hn. destruct Hn. lia.
  - apply (proj2 (proj2 (proj2 (sql_reads_match_map None 0 0 0 one_key (mkConnState false) _ _
      (reading_arriving (Array (Some [reply_bulk (lit "k")])) eq_refl eq_refl)))) (lit "?")).
    split; [by left|reflexivity].
Defined.

(** A transaction that sets k for a minute, deletes it after a savepoint and
    rolls that back; another session reads k a second later. *)
Definition rolled_back : list TxEvent :=
  [TxEnqueue (QSet (lit "k") (lit "v") (Some 60)); TxBeginSub 2; TxEnqueue (QDel (lit "k")); TxAbortSub].
Definition idle_backend : Backend := mkBackend None default_settings [] [] false.

Lemma committed_value_read_witness :
  ∃ b', sql_get (lit "k") (reading (reply_bulk (lit "v"))) = Some (Ok (Some (lit "v")), b').
Proof.
  set (ops := [QSet (lit "k") (lit "v") (Some 60)]).
  destruct (serve_all (SV := dispatch_service None) noon (map op_args ops) 0 store_new
    (mkConnState false)) as [[[rs w'] cs']|] eqn:Hs; [|exfalso; by vm_compute in Hs].
  assert (Hw : w' = (λ x, x.1.2) (default ([], store_new, mkConnState false)
    (serve_all (SV := dispatch_service None) noon (map op_args ops) 0 store_new (mkConnState false))))
    by by rewrite Hs.
  assert (Hcs : cs' = mkConnState false).
  { apply (f_equal (option_map snd)) in Hs. vm_compute in Hs. by injection Hs. }
  subst cs'.
  destruct (committed_value_read None noon 1 rolled_back [(1, ops)] idle_backend
    (set_queue idle_backend (map (mkItem 1) ops) true) 0 store_new rs w' (mkConnState false)
    (mkConnState false) (2 * NS_PER_SEC) 0 0 (lit "k") (reply_bulk (lit "v")) (reading (reply_bulk (lit "v"))))
    as (v & b' & Hg & _ & Hv).
  - intros i. reflexivity.
  - reflexivity.
  - reflexivity.
  - reflexivity.
  - split; [reflexivity|]. vm_compute. repeat split; discriminate.
  - by left.
  - vm_compute; split; [split; [split; [reflexivity|discriminate]|reflexivity]|exact I].
  - exact Hs.
  - vm_compute. discriminate.
  - split; [by left|]. rewrite Hw. vm_compute. reflexivity.
  - by apply reading_arriving.
  - exists b'. rewrite Hg, Hv by done. vm_compute. reflexivity.
Defined.
End instances.
