(* ===== verification/Worker.v ===== *)
(** * The background worker (crates/pg_resp/src/lib.rs)

    [background_worker_main]: it binds the listener, starts the server thread,
    and then watches the service with the loopback client until it is asked to
    stop.  The two threads share two flags; an execution is a sequence of
    their steps.  The network of the probe, the outcome of the system calls
    and the order of the steps are the environment. *)

From S2P Require Import Prelude RustStd Settings Proto HashMap Scan Store Dispatch Server Bgworker Client.

Definition WATCHDOG_INTERVAL : Duration := from_secs 3.
Definition WATCHDOG_STRIKES : Z := 3.

(** [fatal_restart]: the report that ends the process. *)
Definition fatal_restart (reason : bytes) : SqlError :=
  raise ERRCODE_INTERNAL_ERROR (reason ++ lit "; restarting the pg_resp background worker") [].

(** How [background_worker_main] ends: it returns, reports at the FATAL level,
    or panics. *)
Inductive Exit : Type :=
| Returned
| Fatal (e : SqlError)
| Panicked.

(** Where the main thread is: in its loop, waiting for the server thread, or
    gone, and the process with it. *)
Inductive Phase : Type := Watching | Joining | Exited (e : Exit).

Section worker.
Context `{UC : UnicodeCase} `{HE : !HashIter bytes Entry} `{HC : !HashIter Z ScanState}.
Context `{RD : ReplyDebug}.

(** The server thread: in its loop, or ended. *)
Inductive Thread : Type :=
| Serving (s : Server (W := Store) (C := ConnState))
| Ended.

Record WorkerState := mkWorker {
  phase : Phase;
  thread : Thread;
  shutdown : bool;
  server_died : bool;
  probe_client : Client;
  strikes : Z;
  log : list bytes;
}.

(** What the system answers when the worker starts. *)
Record Startup := mkStartup {
  bind_error : option IoError;
  set_nonblocking_error : option IoError;
  poll_new_error : option IoError;
  register_error : option IoError;
}.

(** ** The server thread *)

(** Its closure fences [server_loop]; however that ends, the flag is set. *)
Definition end_thread (w : WorkerState) : WorkerState :=
  mkWorker (phase w) Ended (shutdown w) true (probe_client w) (strikes w) (log w).

Definition set_thread (w : WorkerState) (s : Server) : WorkerState :=
  mkWorker (phase w) (Serving s) (shutdown w) (server_died w) (probe_client w) (strikes w) (log w).

(** [server_loop] up to its [while]: the store, the poll, the listener. *)
Definition server_start (settings : Settings) (u : Startup) (w : WorkerState) : WorkerState :=
  match poll_new_error u with
  | Some _ => end_thread w
  | None =>
      match register_error u with
      | Some _ => end_thread w
      | None => set_thread w (server_new (initial_store (max_memory_setting settings)))
      end
  end.

(** A turn of its [while]. *)
Definition server_turn (settings : Settings) (env : nat → SystemTime * Instant * Z) (t : Turn)
    (w : WorkerState) : WorkerState :=
  match thread w with
  | Ended => w
  | Serving s =>
      if shutdown w then end_thread w
      else
        match step_turn (SV := dispatch_service (password_setting settings)) env t s with
        | Some s => set_thread w s
        | None => end_thread w
        end
  end.

(** ** The main thread *)

Definition exit_with (w : WorkerState) (e : Exit) : WorkerState :=
  mkWorker (Exited e) (thread w) (shutdown w) (server_died w) (probe_client w) (strikes w) (log w).
Definition log_line (w : WorkerState) (line : bytes) : WorkerState :=
  mkWorker (phase w) (thread w) (shutdown w) (server_died w) (probe_client w) (strikes w)
    (log w ++ [lit "pg_resp: " ++ line]).
Definition set_probe (w : WorkerState) (c : Client) (n : Z) : WorkerState :=
  mkWorker (phase w) (thread w) (shutdown w) (server_died w) c n (log w).

(** [background_worker_main] up to its loop; [net] is what dialing the probed
    address will give. *)
Definition background_worker_main (settings : Settings) (u : Startup) (net : list Dial)
    : WorkerState :=
  let address := bind_addr settings in
  let '(probe_addr, probe_password) := loopback_target settings in
  let probe := with_timeout (client_new probe_addr probe_password net) WATCHDOG_INTERVAL in
  let w := log_line (mkWorker Watching Ended false false probe 0 []) (lit "starting, binding " ++ address) in
  match bind_error u with
  | Some e =>
      exit_with (log_line w (lit "bind failed on " ++ address ++ lit ": " ++ message e ++ lit ", exiting"))
        Returned
  | None =>
      match set_nonblocking_error u with
      | Some _ => exit_with w Panicked
      | None => server_start settings u w
      end
  end.

(** [wait_latch] returns [true]: a turn of the loop. *)
Definition watch_turn (settings : Settings) (sighup : bool) (w : WorkerState) : WorkerState :=
  let w := if sighup
           then log_line w (lit "SIGHUP received (config reload not yet implemented; GUCs here require a restart)")
           else w in
  if server_died w then
    exit_with (log_line w (lit "server thread is gone; exiting so the postmaster restarts this worker"))
      (Fatal (fatal_restart (lit "pg_resp server thread exited unexpectedly")))
  else
    match probe (probe_client w) with
    | None => exit_with w Panicked
    | Some (Ok _, c) => set_probe w c 0
    | Some (Err e, c) =>
        let n := strikes w + 1 in
        let w := log_line w
          (lit "watchdog probe of " ++ (loopback_target settings).1 ++ lit " failed (" ++ error_text e ++ lit "); strike " ++
           u_to_string n ++ lit " of " ++ u_to_string WATCHDOG_STRIKES) in
        let w := set_probe w (disconnect c) n in
        if WATCHDOG_STRIKES <=? n
        then exit_with w (Fatal (fatal_restart (lit "pg_resp RESP service stopped answering")))
        else w
    end.

(** [wait_latch] returns [false]: the loop ends. *)
Definition sigterm (w : WorkerState) : WorkerState :=
  let w := log_line w (lit "SIGTERM/shutdown latch fired, signaling server thread") in
  mkWorker Joining (thread w) true (server_died w) (probe_client w) (strikes w) (log w).

(** What [join] gives: the closure catches the panics of the loop. *)
Definition join_result : Result unit unit := Ok tt.

Definition join (w : WorkerState) : WorkerState :=
  match thread w with
  | Serving _ => w
  | Ended =>
      let w := match join_result with
               | Err _ => log_line w (lit "server thread had already exited abnormally; shutdown continues anyway")
               | Ok _ => w
               end in
      exit_with (log_line w (lit "exiting cleanly")) Returned
  end.

(** ** Executions *)

Inductive WorkerEvent : Type :=
| ServerTurn (t : Turn)
| LatchTimeout (sighup : bool)
| Sigterm
| Joined.

(** A step is the server thread's, or the main thread's where that is. *)
Definition worker_step (settings : Settings) (env : nat → SystemTime * Instant * Z) (e : WorkerEvent)
    (w : WorkerState) : WorkerState :=
  match phase w, e with
  | Watching, ServerTurn t | Joining, ServerTurn t => server_turn settings env t w
  | Watching, LatchTimeout sighup => watch_turn settings sighup w
  | Watching, Sigterm => sigterm w
  | Joining, Joined => join w
  | _, _ => w
  end.

Definition worker_run (settings : Settings) (env : nat → SystemTime * Instant * Z)
    (es : list WorkerEvent) (w : WorkerState) : WorkerState :=
  fold_left (λ w e, worker_step settings env e w) es w.

End worker.
