(* ===== verification/WorkerFacts.v ===== *)
(** * Properties of the worker

    The life of the process: what makes it end, what the watchdog reacts to,
    and that a service that answers is left alone. *)

From S2P Require Import Prelude RustStd Settings Proto Partial Glob HashMap Scan Store Cache.
From S2P Require Import Dispatch DispatchFacts Server ServerFacts Bgworker Client ClientFacts Worker.

Section worker.
Context `{UC : UnicodeCase} `{HE : !HashIter bytes Entry} `{HC : !HashIter Z ScanState}.
Context `{RD : ReplyDebug}.

(** ** What the watchdog sees *)

Definition probe_ok (c : Client) : bool :=
  match probe c with Some (Ok _, _) => true | _ => false end.

(** At each turn of the loop: whether the server thread has died, and whether
    a probe would succeed. *)
Fixpoint observe (settings : Settings) (env : nat → SystemTime * Instant * Z) (es : list WorkerEvent)
    (w : WorkerState) : list (bool * bool) :=
  match es with
  | [] => []
  | e :: es =>
      let rest := observe settings env es (worker_step settings env e w) in
      match phase w, e with
      | Watching, LatchTimeout _ => (server_died w, probe_ok (probe_client w)) :: rest
      | _, _ => rest
      end
  end.

Section facts.
Context (settings : Settings) (env : nat → SystemTime * Instant * Z).
Abbreviation step := (worker_step settings env).
Abbreviation run := (worker_run settings env).
Abbreviation seen := (observe settings env).

Lemma probe_total c : ∃ r c', probe c = Some (r, c').
Proof.
  unfold probe. destruct (command_total [lit "PING"] c) as (r & c' & ->).
  cbn [mbind option_bind]. destruct r as [r|[]]; by eexists _, _.
Qed.

Lemma run_cons e es w : run (e :: es) w = run es (step e w).
Proof. done. Qed.

Lemma run_app es es' w : run (es ++ es') w = run es' (run es w).
Proof. apply fold_left_app. Qed.

Lemma exited_final e es w : phase w = Exited e → run es w = w ∧ seen es w = [].
Proof.
  intros Hp. induction es as [|ev es IH]; [done|]. rewrite run_cons. cbn [observe].
  assert (step ev w = w) as -> by (unfold worker_step; by rewrite Hp). by rewrite Hp.
Qed.

Lemma server_turn_phase t w : phase (server_turn settings env t w) = phase w.
Proof.
  unfold server_turn. destruct (thread w); [|done]. destruct (shutdown w); [done|].
  by destruct (step_turn _ _ _).
Qed.

Lemma server_turn_main t w :
  strikes (server_turn settings env t w) = strikes w ∧
  probe_client (server_turn settings env t w) = probe_client w.
Proof.
  unfold server_turn. destruct (thread w); [|done]. destruct (shutdown w); [done|].
  by destruct (step_turn _ _ _).
Qed.

Lemma joining_stays es w : phase w = Joining →
  (phase (run es w) = Joining ∨ phase (run es w) = Exited Returned) ∧ seen es w = [].
Proof.
  revert w. induction es as [|ev es IH]; intros w Hp; [by split; [left|]|].
  rewrite run_cons. cbn [observe]. rewrite Hp.
  assert (Hs : phase (step ev w) = Joining ∨ phase (step ev w) = Exited Returned).
  { unfold worker_step. rewrite Hp. destruct ev; try by left.
    - left. by rewrite server_turn_phase.
    - unfold join. destruct (thread w); [by left|by right]. }
  destruct Hs as [Hs|Hs]; [by apply IH|]. destruct (exited_final _ es _ Hs) as [-> ->].
  split; [by right|done].
Qed.

(** A turn of the watching main thread. *)
Lemma watch_turn_cases sighup w :
  phase w = Watching →
  let w' := watch_turn settings sighup w in
  thread w' = thread w ∧ shutdown w' = shutdown w ∧ server_died w' = server_died w ∧
  if server_died w then
    phase w' = Exited (Fatal (fatal_restart (lit "pg_resp server thread exited unexpectedly")))
  else if probe_ok (probe_client w) then phase w' = Watching ∧ strikes w' = 0
  else
    strikes w' = strikes w + 1 ∧ conn (probe_client w') = None ∧
    if WATCHDOG_STRIKES <=? strikes w + 1
    then phase w' = Exited (Fatal (fatal_restart (lit "pg_resp RESP service stopped answering")))
    else phase w' = Watching.
Proof.
  intros Hp. cbv zeta. unfold watch_turn, probe_ok.
  destruct (probe_total (probe_client w)) as (r & c & Hr).
  destruct sighup; cbn [log_line server_died probe_client strikes]; rewrite Hr;
    destruct (server_died w) eqn:Hd; try done; destruct r as [u|e]; try done;
    by destruct (WATCHDOG_STRIKES <=? strikes w + 1).
Qed.

(** *** Three strikes *)

Definition strikes_out (n : nat) (turns : list (bool * bool)) : Prop :=
  ∃ post, turns = replicate n (false, false) ++ post.

(** What calls for a restart: a dead server thread, or three failures in a row. *)
Definition restart_due (turns : list (bool * bool)) : Prop :=
  Exists (λ t, t.1 = true) turns ∨ ∃ pre post, turns = pre ++ replicate 3 (false, false) ++ post.

Lemma strikes_out_cons n turns :
  strikes_out (S n) ((false, false) :: turns) ↔ strikes_out n turns.
Proof. split; intros [post H]; exists post; [by injection H as ->|by rewrite H]. Qed.

Lemma strikes_out_le n turns : strikes_out (S n) turns → strikes_out n turns.
Proof.
  intros [post ->]. exists ((false, false) :: post).
  by rewrite replicate_S_end, <- app_assoc.
Qed.

Lemma restart_due_alive o turns :
  restart_due ((false, o) :: turns) ↔ restart_due turns ∨ (o = false ∧ strikes_out 2 turns).
Proof.
  unfold restart_due. rewrite Exists_cons. cbn [fst]. split.
  - intros [[?|?]|(pre & post & H)]; [done|by left; left|].
    destruct pre as [|p pre]; [|injection H as _ ->; left; right; by eexists _, _].
    cbn in H. injection H as -> ->. right. split; [done|]. by exists post.
  - intros [[?|(pre & post & ->)]|[-> [post ->]]]; [by left; right| |].
    + right. by exists ((false, o) :: pre), post.
    + right. by exists [], post.
Qed.

Lemma restart_due_nil : ¬ restart_due [].
Proof.
  intros [H|(pre & post & H)]; [by apply Exists_nil in H|].
  symmetry in H. apply app_eq_nil in H as [_ H]. done.
Qed.

Lemma strikes_out_due turns : strikes_out 3 turns → restart_due turns.
Proof. intros [post ->]. right. by exists [], post. Qed.

Lemma watch_run es : ∀ w k, phase w = Watching → strikes w = Z.of_nat k → (k ≤ 2)%nat →
  (∃ e, phase (run es w) = Exited (Fatal e)) ↔ restart_due (seen es w) ∨ strikes_out (3 - k) (seen es w).
Proof.
  induction es as [|ev es IH]; intros w k Hp Hk Hle.
  { cbn. rewrite Hp. split; [by intros [? ?]|]. intros [?%restart_due_nil|[post H]]; [done|].
    destruct k as [|[|[|]]]; cbn in H; [done..|lia]. }
  rewrite run_cons. cbn [observe]. rewrite Hp. destruct ev as [t|sighup| |].
  - assert (step (ServerTurn t) w = server_turn settings env t w) as ->
      by (unfold worker_step; by rewrite Hp).
    apply IH; [by rewrite server_turn_phase| |done]. by rewrite (proj1 (server_turn_main t w)).
  - assert (step (LatchTimeout sighup) w = watch_turn settings sighup w) as ->
      by (unfold worker_step; by rewrite Hp).
    pose proof (watch_turn_cases sighup w Hp) as (_ & _ & _ & H). cbv zeta in H.
    destruct (server_died w).
    { destruct (exited_final _ es _ H) as [-> ->]. rewrite H. split; [|by eexists].
      intros _. left; left. by constructor. }
    rewrite restart_due_alive. destruct (probe_ok (probe_client w)).
    { destruct H as [Hw Hs]. rewrite (IH _ 0%nat Hw Hs) by lia. cbn [Nat.sub].
      pose proof (strikes_out_due (seen es (watch_turn settings sighup w))).
      assert (¬ strikes_out (3 - k) ((false, true) :: seen es (watch_turn settings sighup w))).
      { intros [post Hx]. destruct k as [|[|[|]]]; cbn in Hx; [done..|lia]. }
      intuition congruence. }
    destruct H as (Hs & _ & H). rewrite Hk in Hs, H.
    destruct k as [|[|[|]]]; [| | |lia]; cbn [Nat.sub]; rewrite strikes_out_cons.
    + rewrite (IH _ 1%nat H Hs) by lia. cbn [Nat.sub]. intuition congruence.
    + rewrite (IH _ 2%nat H Hs) by lia. cbn [Nat.sub].
      pose proof (strikes_out_le 1 (seen es (watch_turn settings sighup w))). intuition congruence.
    + change (WATCHDOG_STRIKES <=? Z.of_nat 2 + 1) with true in H. cbv iota in H.
      destruct (exited_final _ es _ H) as [-> ->]. rewrite H. split; [|by eexists].
      intros _. right. by exists [].
  - assert (step Sigterm w = sigterm w) as -> by (unfold worker_step; by rewrite Hp).
    destruct (joining_stays es (sigterm w) eq_refl) as [Hj ->]. split.
    + intros [e He]. destruct Hj as [Hj|Hj]; congruence.
    + intros [?%restart_due_nil|[post H]]; [done|]. destruct k as [|[|[|]]]; cbn in H; [done..|lia].
  - assert (step Joined w = w) as -> by (unfold worker_step; by rewrite Hp). by apply IH.
Qed.

(** The worker once it runs. *)
Lemma started_watching u net :
  bind_error u = None → set_nonblocking_error u = None →
  let w := background_worker_main settings u net in
  phase w = Watching ∧ strikes w = 0 ∧ shutdown w = false ∧ (thread w = Ended ↔ server_died w = true) ∧
  (∀ s, thread w = Serving s → s = server_new (initial_store (max_memory_setting settings))) ∧
  probe_client w = with_timeout (client_new (loopback_target settings).1 (password_setting settings) net)
    WATCHDOG_INTERVAL.
Proof.
  intros Hb Hn. cbv zeta. unfold background_worker_main. rewrite Hb, Hn.
  unfold server_start, loopback_target. cbn [fst].
  destruct (poll_new_error u); [done|]. destruct (register_error u); [done|].
  split_and!; try done. by intros s [= <-].
Qed.
(** *** The invariant *)

(** The states of the server that its own loop reaches. *)
Definition served (s : Server) : Prop :=
  ∃ turns, server_loop (SV := dispatch_service (password_setting settings)) env (map (pair false) turns)
    (server_new (initial_store (max_memory_setting settings))) = Some s.

Lemma server_loop_snoc (SV : Service Store ConnState) turns t (s s1 : Server) :
  server_loop env (map (pair false) turns) s = Some s1 →
  server_loop env (map (pair false) (turns ++ [t])) s = step_turn env t s1.
Proof.
  revert s. induction turns as [|t' turns IH]; intros s; cbn [map app server_loop].
  { intros [= ->]. by destruct (step_turn env t s1). }
  destruct (step_turn env t' s) as [s2|]; [|done]. cbn [mbind option_bind]. apply IH.
Qed.

(** Why the process ends: it returns only when asked to stop and once the
    server thread is over, and reports one of the two failures otherwise. *)
Definition exit_justified (w : WorkerState) (e : Exit) : Prop :=
  match e with
  | Returned => shutdown w = true ∧ thread w = Ended
  | Fatal e =>
      shutdown w = false ∧
      (e = fatal_restart (lit "pg_resp server thread exited unexpectedly") ∧ server_died w = true ∨
       e = fatal_restart (lit "pg_resp RESP service stopped answering") ∧ strikes w = WATCHDOG_STRIKES)
  | Panicked => False
  end.

Definition worker_ok (w : WorkerState) : Prop :=
  (thread w = Ended ↔ server_died w = true) ∧ (∀ s, thread w = Serving s → served s) ∧
  match phase w with
  | Watching => shutdown w = false ∧ 0 <= strikes w < WATCHDOG_STRIKES
  | Joining => shutdown w = true
  | Exited e => exit_justified w e
  end.

Lemma server_turn_ok t w : phase w = Watching ∨ phase w = Joining →
  worker_ok w → worker_ok (server_turn settings env t w).
Proof.
  intros Hp (Hd & Hs & Hph). unfold worker_ok. rewrite server_turn_phase.
  rewrite (proj1 (server_turn_main t w)). unfold server_turn.
  destruct (thread w) as [s|] eqn:Ht; [|by rewrite Ht].
  assert (He : worker_ok (end_thread w)).
  { unfold worker_ok. cbn. split; [done|]. split; [done|]. by destruct Hp as [Hp|Hp]; rewrite Hp in Hph |- *. }
  destruct (shutdown w) eqn:Hsh; [exact He|].
  destruct (step_turn _ _ _) as [s'|] eqn:Hst; [|exact He]. cbn. split; [|split].
  - split; [done|]. intros H. by apply Hd in H.
  - intros s1 [= <-]. destruct (Hs s eq_refl) as [turns Hl]. exists (turns ++ [t]).
    by rewrite (server_loop_snoc _ _ _ _ _ Hl).
  - destruct Hp as [Hp|Hp]; rewrite Hp in Hph |- *; [|congruence]. split; [done|apply Hph].
Qed.

Lemma watch_turn_ok sighup w : phase w = Watching →
  worker_ok w → worker_ok (watch_turn settings sighup w).
Proof.
  intros Hp (Hd & Hs & Hph). rewrite Hp in Hph.
  pose proof (watch_turn_cases sighup w Hp) as (Ht & Hsh & Hdd & H). cbv zeta in *.
  unfold worker_ok. rewrite Ht, Hdd. split; [done|]. split; [done|].
  destruct (server_died w) eqn:Hdw.
  { rewrite H. cbn. rewrite Hsh, Hdd. split; [apply Hph|by left]. }
  destruct (probe_ok _).
  { destruct H as [-> ->]. rewrite Hsh. unfold WATCHDOG_STRIKES. split; [apply Hph|lia]. }
  destruct H as (Hst & _ & H). destruct (Z.leb_spec WATCHDOG_STRIKES (strikes w + 1)); rewrite H; cbn.
  - rewrite Hsh, Hst. split; [apply Hph|]. right. split; [done|lia].
  - rewrite Hsh, Hst. split; [apply Hph|lia].
Qed.

Lemma step_ok ev w : worker_ok w → worker_ok (step ev w).
Proof.
  intros Hok. unfold worker_step. destruct (phase w) eqn:Hp; [| |done].
  - destruct ev; [|by apply watch_turn_ok| |done].
    + apply server_turn_ok; [by left|done].
    + destruct Hok as (Hd & Hs & Hph). by split_and!.
  - destruct ev; [|done..|].
    + apply server_turn_ok; [by right|done].
    + unfold join. destruct (thread w) eqn:Ht; [done|]. destruct Hok as (Hd & Hs & Hph).
      rewrite Hp in Hph. unfold worker_ok. cbn. by rewrite Ht in *.
Qed.

Lemma run_ok es w : worker_ok w → worker_ok (run es w).
Proof.
  revert w. induction es as [|ev es IH]; intros w Hok; [done|]. rewrite run_cons. by apply IH, step_ok.
Qed.

Lemma started_ok u net :
  bind_error u = None → set_nonblocking_error u = None →
  worker_ok (background_worker_main settings u net).
Proof.
  intros Hb Hn. destruct (started_watching u net Hb Hn) as (Hp & Hk & Hsh & Ht & Hs & _).
  unfold worker_ok. rewrite Hp, Hk, Hsh. split; [done|]. split; [|done].
  intros s ->%Hs. by exists [].
Qed.

(** *** A dead server thread *)

Lemma ended_stays es w : thread w = Ended → thread (run es w) = Ended.
Proof.
  revert w. induction es as [|ev es IH]; intros w Ht; [done|]. rewrite run_cons. apply IH.
  unfold worker_step. destruct (phase w) eqn:Hp; [|destruct ev; try done|done].
  - destruct ev; try done.
    + unfold server_turn. by rewrite Ht.
    + by rewrite (proj1 (watch_turn_cases _ w Hp)).
  - unfold server_turn. by rewrite Ht.
  - unfold join. by rewrite Ht.
Qed.

Definition is_sigterm (e : WorkerEvent) : bool := match e with Sigterm => true | _ => false end.
Definition is_latch (e : WorkerEvent) : bool := match e with LatchTimeout _ => true | _ => false end.

Lemma dead_thread_restarts es : ∀ w, phase w = Watching → thread w = Ended → worker_ok w →
  existsb is_sigterm es = false → existsb is_latch es = true →
  phase (run es w) = Exited (Fatal (fatal_restart (lit "pg_resp server thread exited unexpectedly"))).
Proof.
  induction es as [|ev es IH]; intros w Hp Ht Hok Hsig Hl; [done|]. rewrite run_cons.
  cbn [existsb] in *. apply orb_false_iff in Hsig as [Hsig1 Hsig].
  pose proof (step_ok ev w Hok) as Hok'. unfold worker_step in *. rewrite Hp in *.
  destruct ev; try done; cbn [is_latch orb] in Hl.
  - apply IH; try done; [by rewrite server_turn_phase|]. unfold server_turn. by rewrite Ht.
  - pose proof (watch_turn_cases sighup w Hp) as (_ & _ & _ & H). cbv zeta in H.
    destruct Hok as (Hd & _). rewrite (proj1 Hd Ht) in H.
    by destruct (exited_final _ es _ H) as [-> _].
  - by apply IH.
Qed.

(** *** A server that answers *)

(** A command served at some time, on the store the other clients have left,
    with this counter load. *)
Abbreviation Moment := (SystemTime * Instant * Z * Store)%type.

(** The replies of one connection to requests served each at its moment. *)
Fixpoint answered (reqs : list (Moment * list bytes)) (cs : ConnState) : option (list Reply) :=
  match reqs with
  | [] => Some []
  | ((sys_now, mono_now, lost, store), args) :: reqs =>
      let '(r, st) := dispatch sys_now mono_now (password_setting settings) lost args
                        (mkDispatchState store cs) in
      r ← r; rs ← answered reqs (dconn st); Some (r :: rs)
  end.

(** What the probe sends on one connection. *)
Definition probe_session (m : Moment) (ms : list Moment) : list (Moment * list bytes) :=
  match password_setting settings with Some p => [(m, [lit "AUTH"; p])] | None => [] end ++
  map (λ m, (m, [lit "PING"])) ms.

Definition pong : Reply := reply_simple (lit "PONG").

Lemma answered_pings ms cs : admitted (password_setting settings) cs →
  answered (map (λ m, (m, [lit "PING"])) ms) cs = Some (replicate (length ms) pong).
Proof.
  intros Ha. induction ms as [|[[[sys mono] lost] store] ms IH]; [done|]. cbn [map answered].
  rewrite dispatch_ping by done. cbn [dconn mbind option_bind]. by rewrite IH.
Qed.

Lemma answered_session m ms : answered (probe_session m ms) (mkConnState false) =
  Some (match password_setting settings with Some _ => [reply_ok] | None => [] end ++
        replicate (length ms) pong).
Proof.
  unfold probe_session. destruct (password_setting settings) as [p|] eqn:Hp; cbn [app].
  - destruct m as [[[sys mono] lost] store]. cbn [answered]. rewrite Hp, dispatch_auth.
    cbn [dconn mbind option_bind]. rewrite answered_pings by by right. done.
  - apply answered_pings. by left.
Qed.

(** A probe client that will receive these answers to its next pings, on the
    connection it holds or on the one it will make. *)
Definition in_touch (pieces : list (list (byte * bytes))) (rest : list ReadEvent) (c : Client) : Prop :=
  conn c = Some (mkConn (mkSocket (concat (map data_events pieces) ++ rest) []) []) ∨
  conn c = None ∧ password c = password_setting settings ∧ ∃ greeting net,
    network c = Ok [Connected (mkSocket (data_events greeting ++ concat (map data_events pieces) ++ rest) [])
                      None] :: net ∧
    match password_setting settings with
    | None => greeting = []
    | Some _ => chunk_bytes greeting = to_bytes reply_ok
    end.

Lemma probe_in_touch p pieces rest c :
  chunk_bytes p = to_bytes pong → in_touch (p :: pieces) rest c →
  probe_ok c = true ∧ ∀ r c', probe c = Some (r, c') → in_touch pieces rest c'.
Proof.
  intros Hp Hc. set (k := mkConn (mkSocket (concat (map data_events pieces) ++ rest) []) []).
  assert (Hcmd : ∃ c', command [lit "PING"] c = Some (call_result pong, c') ∧ conn c' = Some k).
  { unfold in_touch in Hc. cbn [map concat] in Hc. rewrite <- app_assoc in Hc. destruct Hc as [Hk|(Hk & Hpw & g & net & Hnet & Hg)].
    - eexists. split.
      { rewrite (command_chunks [lit "PING"] c
        (mkSocket (data_events p ++ concat (map data_events pieces) ++ rest) [])
        (mkConn (mkSocket (data_events p ++ concat (map data_events pieces) ++ rest) []) [])
        pong p (concat (map data_events pieces) ++ rest)) by done. reflexivity. }
      done.
    - destruct (command_opens [lit "PING"] c _ k pong p (concat (map data_events pieces) ++ rest)
        net g (lit "OK") Hk Hnet) as (c' & Hr & Hk' & _); try done; [|by exists c'].
      rewrite Hpw. destruct (password_setting settings); [by split|done]. }
  destruct Hcmd as (c' & Hr & Hk'). unfold probe_ok, probe. rewrite Hr. cbn [mbind option_bind call_result].
  split; [done|]. intros r c'' [= _ <-]. by left.
Qed.

Lemma watched_probe sighup w : phase w = Watching → server_died w = false →
  ∃ r, probe (probe_client w) = Some (r, probe_client (watch_turn settings sighup w)) ∨
    probe_ok (probe_client w) = false.
Proof.
  intros Hp Hd. unfold watch_turn, probe_ok. destruct (probe_total (probe_client w)) as (r & c & Hr).
  exists r. rewrite Hr. destruct r as [u|e]; [left|by right].
  destruct sighup; cbn [log_line server_died probe_client strikes]; by rewrite Hd, Hr.
Qed.

Lemma answering_run es rest : ∀ w pieces, phase w = Watching → strikes w = 0 → worker_ok w →
  in_touch pieces rest (probe_client w) → Forall (λ p, chunk_bytes p = to_bytes pong) pieces →
  existsb is_sigterm es = false → (length (base.filter is_latch es) ≤ length pieces)%nat →
  thread (run es w) ≠ Ended →
  phase (run es w) = Watching ∧ strikes (run es w) = 0.
Proof.
  induction es as [|ev es IH]; intros w pieces Hp Hk Hok Ht Hall Hsig Hl Hth; [done|].
  rewrite run_cons in *. cbn [existsb] in Hsig. apply orb_false_iff in Hsig as [Hsig1 Hsig].
  pose proof (step_ok ev w Hok) as Hok'. unfold worker_step in *. rewrite Hp in *.
  destruct ev as [t|sighup| |]; try done.
  - destruct (server_turn_main t w) as [Hs Hc]. eapply (IH _ pieces); try done.
    + by rewrite server_turn_phase.
    + by rewrite Hs.
    + by rewrite Hc.
  - rewrite filter_cons_True in Hl by done. cbn [length] in Hl.
    destruct pieces as [|p pieces]; [cbn in Hl; lia|]. apply Forall_cons in Hall as [Hpp Hall].
    destruct (probe_in_touch p pieces rest _ Hpp Ht) as [Hpo Hnext].
    pose proof (watch_turn_cases sighup w Hp) as (Hth' & _ & _ & H). cbv zeta in H.
    destruct (server_died w) eqn:Hd.
    { exfalso. apply Hth, ended_stays. rewrite Hth'. by apply (proj1 Hok). }
    rewrite Hpo in H. destruct H as [Hp' Hk'].
    destruct (watched_probe sighup w Hp Hd) as [r [Hr|Hr]]; [|congruence].
    eapply (IH _ pieces); try done; [by eapply Hnext|cbn [length] in Hl; lia].
  - by eapply (IH w pieces).
Qed.

(** ** Properties *)

(** C22: in every state of a worker that has bound its socket, the died flag
    says exactly whether the server thread is over, the server's state is one
    its own loop reaches, the strikes stay below three while it watches, and
    the process ends for a reason: it returns (and is not restarted) only when
    it was asked to stop and the server thread has ended; otherwise it reports
    FATAL, for a dead thread or a third strike. *)
Theorem worker_invariant u net es :
  bind_error u = None → set_nonblocking_error u = None →
  worker_ok (run es (background_worker_main settings u net)).
Proof. intros. by apply run_ok, started_ok. Qed.

(** C19: the watchdog restarts the worker exactly when, at one of its turns, the
    server thread had died, or when three probes in a row have failed. *)
Theorem worker_restarts_iff u net es :
  bind_error u = None → set_nonblocking_error u = None →
  let w := background_worker_main settings u net in
  (∃ e, phase (run es w) = Exited (Fatal e)) ↔ restart_due (seen es w).
Proof.
  intros Hb Hn. cbv zeta. destruct (started_watching u net Hb Hn) as (Hp & Hk & _).
  rewrite (watch_run es _ 0 Hp Hk) by lia. cbn [Nat.sub].
  pose proof (strikes_out_due (seen es (background_worker_main settings u net))). tauto.
Qed.

(** C21: a server thread that ends while the worker runs, be it by a panic that
    escapes the connection fence, is never left dead: unless a stop is asked
    for first, the next turn of the watchdog ends the process with an internal
    error, for the postmaster to restart it. *)
Theorem dead_server_restarts u net before t after s :
  bind_error u = None → set_nonblocking_error u = None →
  let w := run before (background_worker_main settings u net) in
  phase w = Watching → thread w = Serving s →
  step_turn (SV := dispatch_service (password_setting settings)) env t s = None →
  existsb is_sigterm after = false → existsb is_latch after = true →
  phase (run (ServerTurn t :: after) w) =
  Exited (Fatal (raise ERRCODE_INTERNAL_ERROR
    (lit "pg_resp server thread exited unexpectedly; restarting the pg_resp background worker") [])).
Proof.
  intros Hb Hn w Hp Ht Hst Hsig Hl. rewrite run_cons.
  assert (Hok : worker_ok w) by by apply run_ok, started_ok.
  pose proof (step_ok (ServerTurn t) w Hok) as Hok'.
  assert (Hw : step (ServerTurn t) w = end_thread w).
  { unfold worker_step. rewrite Hp. unfold server_turn. rewrite Ht.
    destruct Hok as (_ & _ & Hph). rewrite Hp in Hph. destruct Hph as [-> _]. by rewrite Hst. }
  rewrite Hw in *. rewrite (dead_thread_restarts after (end_thread w)) by done. done.
Qed.

(** C20: a service that answers is never restarted, with a password or without:
    as long as the server thread runs and its replies to the probe's requests
    (AUTH with the configured password, then one PING per turn, each served at
    any time and on any store) arrive, in whatever pieces, the worker keeps
    watching and no strike is left. *)
Theorem answering_server_kept u net m ms rs greeting pieces rest more es :
  bind_error u = None → set_nonblocking_error u = None →
  answered (probe_session m ms) (mkConnState false) = Some rs →
  Forall2 (λ r p, chunk_bytes p = to_bytes r) rs (greeting ++ pieces) →
  length greeting = (if decide (is_Some (password_setting settings)) then 1 else 0)%nat →
  net = Ok [Connected (mkSocket (concat (map data_events (greeting ++ pieces)) ++ rest) []) None] :: more →
  let w := run es (background_worker_main settings u net) in
  thread w ≠ Ended → existsb is_sigterm es = false →
  (length (base.filter is_latch es) ≤ length ms)%nat →
  phase w = Watching ∧ strikes w = 0.
Proof.
  intros Hb Hn Hans Hpieces Hg Hnet w Hth Hsig Hl. unfold w in *.
  rewrite answered_session in Hans. injection Hans as <-.
  destruct (started_watching u net Hb Hn) as (Hp & Hk & _ & _ & _ & Hc).
  assert (Hsplit : Forall2 (λ r p, chunk_bytes p = to_bytes r)
      (match password_setting settings with Some _ => [reply_ok] | None => [] end) greeting ∧
    Forall2 (λ r p, chunk_bytes p = to_bytes r) (replicate (length ms) pong) pieces).
  { apply Forall2_app_inv in Hpieces; [done|]. destruct (password_setting settings).
    - rewrite decide_True in Hg by by eexists. done.
    - rewrite decide_False in Hg by by intros [? ?]. done. }
  destruct Hsplit as [Hgs Hps]. pose proof (Forall2_length _ _ _ Hps) as Hlen.
  rewrite length_replicate in Hlen.
  eapply (answering_run es rest _ pieces Hp Hk); try done.
  - by apply started_ok.
  - right. rewrite Hc. cbn [with_timeout conn password network client_new]. split; [done|].
    split; [unfold password_setting; by destruct (PASSWORD settings) as [[]|]|].
    exists (concat greeting), more. rewrite Hnet, map_app, concat_app, <- app_assoc.
    destruct (password_setting settings).
    + apply Forall2_cons_inv_l in Hgs as (g & gs & Hg1 & ->%Forall2_nil_inv_l & ->).
      cbn [map concat]. rewrite !app_nil_r. by split.
    + apply Forall2_nil_inv_l in Hgs as ->. by split.
  - eapply Forall2_Forall_r; [exact Hps|]. by apply Forall_replicate.
  - lia.
Qed.
End facts.
End worker.

(** ** Instances *)

Section instances.
#[local] Instance no_unicode_case : UnicodeCase := λ c, c.
#[local] Instance entry_order : HashIter bytes Entry := listing_order bytes Entry.
#[local] Instance cursor_order : HashIter Z ScanState := listing_order Z ScanState.
#[local] Instance no_debug : ReplyDebug := λ _, [].

Definition all_well : Startup := mkStartup None None None None.
Definition still (i : nat) : SystemTime * Instant * Z := (0, 0, 0).

(** A socket address in use. *)
Definition in_use : Startup := mkStartup (Some (mkIoError OtherKind (lit "Address already in use"))) None None None.

(** A worker that cannot bind returns like one that was asked to stop: the
    process ends without an error report, and no server ever ran. *)
Theorem bind_failure_returns `{RD : ReplyDebug} settings u net e :
  bind_error u = Some e →
  let w := background_worker_main settings u net in
  phase w = Exited Returned ∧ thread w = Ended ∧ shutdown w = false.
Proof. intros He. cbv zeta. unfold background_worker_main. rewrite He. by destruct (loopback_target settings). Qed.

Lemma bind_failure_returns_witness :
  phase (background_worker_main default_settings in_use []) = Exited Returned.
Proof. by apply (bind_failure_returns default_settings in_use [] (mkIoError OtherKind (lit "Address already in use"))). Defined.

Lemma worker_invariant_witness :
  worker_ok default_settings still
    (worker_run default_settings still [LatchTimeout true; Sigterm; ServerTurn PollErr; Joined]
      (background_worker_main default_settings all_well [])) ∧
  phase (worker_run default_settings still [LatchTimeout true; Sigterm; ServerTurn PollErr; Joined]
    (background_worker_main default_settings all_well [])) = Exited Returned.
Proof. split; [by apply worker_invariant|]. vm_compute. reflexivity. Defined.

(** Nothing listens: three probes fail. *)
Lemma worker_restarts_iff_witness :
  ∃ e, phase (worker_run default_settings still [LatchTimeout false; LatchTimeout false; LatchTimeout false]
    (background_worker_main default_settings all_well [])) = Exited (Fatal e).
Proof.
  apply worker_restarts_iff; [reflexivity..|]. right. exists [], []. vm_compute. reflexivity.
Defined.

(** An accepted connection on which [set_nodelay] fails. *)
Definition bad_accept : Turn := PollOk 0 [EvListener [Accepted false true]].

Lemma dead_server_restarts_witness :
  ∃ e, phase (worker_run default_settings still [ServerTurn bad_accept; LatchTimeout false]
    (background_worker_main default_settings all_well [])) = Exited (Fatal e) ∧
    error_message e = lit "pg_resp server thread exited unexpectedly; restarting the pg_resp background worker".
Proof.
  eexists. split; [|shelve].
  apply (dead_server_restarts default_settings still all_well [] [] bad_accept [LatchTimeout false]
    (server_new (initial_store (max_memory_setting default_settings)))); reflexivity.
  Unshelve. reflexivity.
Defined.

Definition guarded : Settings :=
  mkSettings (Some (lit "0.0.0.0")) 6379 256 (Some (lit "clock_lru")) (Some (lit "secret")).
Definition some_moment : SystemTime * Instant * Z * Store := (0, 0, 0, store_new).

Lemma answering_server_kept_witness :
  let net := [Ok [Connected (mkSocket (concat (map data_events
    ([one_read reply_ok] ++ [one_read pong; one_read pong])) ++ []) []) None]] in
  phase (worker_run guarded still [LatchTimeout false; ServerTurn PollErr; LatchTimeout false]
    (background_worker_main guarded all_well net)) = Watching.
Proof.
  apply (answering_server_kept guarded still all_well _ some_moment [some_moment; some_moment]
    [reply_ok; pong; pong] [one_read reply_ok] [one_read pong; one_read pong] [] []
    [LatchTimeout false; ServerTurn PollErr; LatchTimeout false]); try reflexivity.
  - repeat constructor.
  - vm_compute. discriminate.
Defined.
End instances.
