(* ===== verification/Rpc.v ===== *)
(** * A remote call

    One command of a client, through the whole of the event loop: its bytes
    arrive over any number of events, the replies leave over any number of
    events, and the server does anything else in between. *)

From S2P Require Import Prelude RustStd Proto Partial HashMap Scan Store Dispatch Client ClientFacts.
From S2P Require Import Server ServerFacts Bgworker.

(** ** The events of a call *)

(** The sockets work: reads give data, writes take some or would block. *)
Definition good_read (r : ReadResult) : bool := match r with ReadOk (_ :: _) => true | _ => false end.
Definition good_write (w : WriteRoom) : bool :=
  match w with Room (S _) | WriteWouldBlock | WriteInterrupted => true | _ => false end.

Definition good_event (t : Z) (e : Event) : bool :=
  match e with
  | EvConn token _ _ rs ws _ => negb (token =? t) || forallb good_read rs && forallb good_write ws
  | EvListener _ => true
  end.

Definition read_data (r : ReadResult) : bytes := match r with ReadOk d => d | _ => [] end.

(** What connection [t] receives: an event for writing only is not read. *)
Definition event_input (t : Z) (e : Event) : bytes :=
  match e with
  | EvConn token readable writable rs _ _ =>
      if (token =? t) && negb (writable && negb readable) then concat (map read_data rs) else []
  | EvListener _ => []
  end.

Definition call_input (t : Z) (es : list Event) : bytes := concat (map (event_input t) es).

(** Connections accepted meanwhile. *)
Definition event_accepts (e : Event) : nat :=
  match e with EvListener l => length l | EvConn _ _ _ _ _ _ => 0%nat end.
Definition call_accepts (es : list Event) : nat := sum_list (map event_accepts es).

Section conn.
Context {C : Type}.
Implicit Types c : Conn C.

(** The connection has received [got] of a request, and owes nothing ... *)
Definition waiting (c0 : Conn C) (got : bytes) c : Prop :=
  read_buf c = got ∧ sent c = sent c0 ∧ unsent c = [] ∧ conn_state c = conn_state c0 ∧
  close_after_flush c = false ∧ cursor_ok c.

(** ... or it has been answered: the reply is partly sent, partly owed. *)
Definition replied (c0 : Conn C) (r : Reply) (cs : C) c : Prop :=
  read_buf c = [] ∧ sent c ++ unsent c = sent c0 ++ to_bytes r ∧ conn_state c = cs ∧
  close_after_flush c = false ∧ cursor_ok c ∧ len (unsent c) <= MAX_PENDING_WRITE_BYTES.

Lemma waiting_reconcile ok c0 got c : waiting c0 got c → waiting c0 got (reconcile_interest ok c).
Proof. unfold reconcile_interest. by repeat case_match. Qed.

Lemma replied_reconcile ok c0 r cs c : replied c0 r cs c → replied c0 r cs (reconcile_interest ok c).
Proof. unfold reconcile_interest. by repeat case_match. Qed.

Lemma flush_not_failed ws : ∀ c, forallb good_write ws = true → (flush_writes ws c).1 ≠ Failed.
Proof.
  induction ws as [|w ws IH]; intros c Hw; cbn [flush_writes]; (case_bool_decide as Hlt; [|done]); [done|].
  cbn [forallb] in Hw. apply andb_true_iff in Hw as [Hw Hws]. destruct w as [[|n]| | |]; try done.
  - assert (Hu : length (unsent c) = (length (write_buf c) - write_pos c)%nat)
      by (unfold unsent; apply length_drop).
    rewrite bool_decide_false by lia. by apply IH.
  - by apply IH.
Qed.

Lemma waiting_flush ws c0 got c o c' :
  waiting c0 got c → flush_writes ws c = (o, c') → o = Drained ∧ waiting c0 got c'.
Proof.
  intros (H1 & H2 & H3 & H4 & H5 & H6) Hf.
  assert (Hlt : ¬ (write_pos c < length (write_buf c))%nat).
  { intros Hlt. unfold unsent in H3. apply (f_equal length) in H3. rewrite length_drop in H3.
    cbn in H3. lia. }
  assert (Hd : flush_writes ws c = (Drained, set_write c (sent c) [] 0)).
  { destruct ws; cbn [flush_writes]; by rewrite bool_decide_false. }
  rewrite Hd in Hf. injection Hf as <- <-. split; [done|].
  split_and!; try done. unfold cursor_ok. cbn. lia.
Qed.

Lemma replied_flush ws c0 r cs c o c' :
  forallb good_write ws = true → replied c0 r cs c → flush_writes ws c = (o, c') →
  keep_after_flush o c' = true ∧ replied c0 r cs c'.
Proof.
  intros Hw (H1 & H2 & H3 & H4 & H5 & H6) Hf.
  pose proof (flush_not_failed ws c Hw) as Hnf. rewrite Hf in Hnf. cbn in Hnf.
  apply flush_spec in Hf as (Ha & Hc & (Hr & _ & Hcl & Hcs) & Hl & _); [|done].
  split; [destruct o; cbn; [by rewrite Hcl, H4|done|done]|].
  unfold answered in Ha. split_and!; [congruence..|done|lia].
Qed.
End conn.

Section call.
Context `{SV : Service W C} `{SP : !PanicSafe SV} (env : nat → SystemTime * Instant * Z).
Implicit Types (s : Server (W := W) (C := C)) (c : Conn C).

Lemma good_read_loop rs : ∀ buf, forallb good_read rs = true →
  read_loop rs buf = (true, buf ++ concat (map read_data rs)).
Proof.
  induction rs as [|r rs IH]; intros buf Hr; cbn [read_loop map concat]; [by rewrite app_nil_r|].
  cbn [forallb] in Hr. apply andb_true_iff in Hr as [Hr Hrs].
  destruct r as [[|b d]| |]; try done. rewrite IH by done. cbn [read_data]. by rewrite <- app_assoc.
Qed.

(** The [i]-th command: what the service answers. *)
Definition serve_at (i : nat) (args : list bytes) (w : W) (cs : C) : option Reply * W * C :=
  let '(sys, mono, lost) := env i in serve sys mono lost args w cs.

(** The events on connection [t] run no command: they leave the shared state
    and the count of commands as they are. *)
Definition quiet_step (t : Z) (e : Event) s s' : Prop :=
  match e with
  | EvConn token _ _ _ _ _ => token = t → world s' = world s ∧ ticks s' = ticks s
  | EvListener _ => True
  end.

Fixpoint quiet_on (t : Z) (es : list Event) s : Prop :=
  match es with
  | [] => True
  | e :: es =>
      match step_event env e s with
      | Some s' => quiet_step t e s s' ∧ quiet_on t es s'
      | None => False
      end
  end.

(** What becomes of the connection: the reply is on its way, or the connection
    is gone, because the command panicked or its reply exceeds the cap. *)
Definition settled (t : Z) (c0 : Conn C) (r : option Reply) (cs : C) s : Prop :=
  match r with
  | Some r =>
      if decide (len (to_bytes r) <= MAX_PENDING_WRITE_BYTES)
      then ∃ c, conns s !! t = Some c ∧ replied c0 r cs c
      else conns s !! t = None
  | None => conns s !! t = None
  end.

(** The request [args] on connection [t] is run by exactly one of the events,
    the one that brings its last byte: that event is one command, on the state
    the server then has, and changes that state by nothing else. *)
Definition executed (t : Z) (args : list bytes) s0 (c0 : Conn C) (es : list Event) s'
    (r : option Reply) (cs : C) : Prop :=
  ∃ before e after s1 s2,
    es = before ++ e :: after ∧
    call_input t before ≠ encode_command args ∧ call_input t (before ++ [e]) = encode_command args ∧
    step_events env before s0 = Some s1 ∧ step_event env e s1 = Some s2 ∧
    step_events env after s2 = Some s' ∧
    quiet_on t before s0 ∧ quiet_on t after s2 ∧
    serve_at (ticks s1) args (world s1) (conn_state c0) = (r, world s2, cs) ∧
    ticks s2 = S (ticks s1) ∧ settled t c0 r cs s'.

(** The whole request in the buffer. *)
Lemma run_request args st :
  ordinary args → read_buf (lconn st) = encode_command args →
  run env st =
  let '(r, w, cs) := serve_at (lticks st) args (lworld st) (conn_state (lconn st)) in
  let conn := set_conn_state (set_read_buf (lconn st) []) cs in
  match r with
  | None => (LoopPanic, mkLoopState conn w (S (lticks st)))
  | Some r => (LoopDone, mkLoopState (push_reply conn r) w (S (lticks st)))
  end.
Proof.
  intros (Hne & Hargs & Hq) Hin. rewrite run_eq, Hin.
  pose proof (parse_encoded args [] Hargs) as Hp. rewrite app_nil_r in Hp. rewrite Hp.
  destruct args as [|name args]; [done|]. unfold run_command, consume, serve_at. cbn [lticks lworld lconn].
  rewrite Hin, drop_all.
  destruct (env (lticks st)) as [[sys mono] lost]. cbn [conn_state set_read_buf].
  destruct (serve sys mono lost (name :: args) (lworld st) (conn_state (lconn st))) as [[[r|] w] cs];
    [|done]. cbn [head from_option id] in Hq. rewrite Hq. by rewrite run_eq.
Qed.

(** A readable event on the connection, before the request is complete ... *)
Lemma serve_waiting args rs ws c0 got c w i :
  args_ok args = true → waiting c0 got c → forallb good_read rs = true →
  (∃ rest, encode_command args = (got ++ concat (map read_data rs)) ++ rest ∧ rest ≠ []) →
  ∃ c', service_connection env rs ws (mkLoopState c w i) = (Some true, mkLoopState c' w i) ∧
    waiting c0 (got ++ concat (map read_data rs)) c'.
Proof.
  intros Hargs (H1 & H2 & H3 & H4 & H5 & H6) Hrs (rest & Hreq & Hne).
  unfold service_connection. cbn [lconn lworld lticks]. rewrite good_read_loop, H1 by done. cbn [negb].
  set (got' := got ++ concat (map read_data rs)) in *.
  set (st := mkLoopState (set_read_buf c got') w i).
  assert (Hrun : run env st = (LoopDone, st)).
  { rewrite run_eq. unfold st at 1. cbn [lconn read_buf set_read_buf].
    pose proof (partial_command args (length got') Hargs) as Hp. rewrite Hreq, take_app_length in Hp.
    rewrite Hp; [done|]. rewrite length_app. destruct rest; [done|]. cbn. lia. }
  unfold run in Hrun. unfold st at 1 in Hrun. cbn [lconn read_buf set_read_buf] in Hrun. rewrite Hrun.
  assert (Hw : waiting c0 got' (lconn st)) by (unfold st; by split_and!).
  assert (Hu : unsent (lconn st) = []) by apply Hw. rewrite Hu.
  change (MAX_PENDING_WRITE_BYTES <? len []) with false. cbv iota.
  destruct (flush_writes ws (lconn st)) as [o c'] eqn:Hf.
  destruct (waiting_flush ws c0 got' _ _ _ Hw Hf) as [-> Hw']. exists c'.
  split; [|done]. destruct Hw' as (_ & _ & _ & _ & Hcl & _). cbn [keep_after_flush].
  by rewrite Hcl.
Qed.

(** ... when it completes it ... *)
Lemma serve_complete args rs ws c0 got c w i :
  ordinary args → waiting c0 got c → forallb good_read rs = true → forallb good_write ws = true →
  encode_command args = got ++ concat (map read_data rs) →
  ∃ r w' cs st', serve_at i args w (conn_state c0) = (r, w', cs) ∧
    lworld st' = w' ∧ lticks st' = S i ∧
    match r with
    | Some r =>
        if MAX_PENDING_WRITE_BYTES <? len (to_bytes r)
        then service_connection env rs ws (mkLoopState c w i) = (Some false, st')
        else service_connection env rs ws (mkLoopState c w i) = (Some true, st') ∧
             replied c0 r cs (lconn st')
    | None => service_connection env rs ws (mkLoopState c w i) = (None, st')
    end.
Proof.
  intros Hord (H1 & H2 & H3 & H4 & H5 & H6) Hrs Hws Hreq.
  unfold service_connection. cbn [lconn lworld lticks]. rewrite good_read_loop, H1 by done. cbn [negb].
  set (st := mkLoopState (set_read_buf c (got ++ concat (map read_data rs))) w i).
  pose proof (run_request args st Hord ltac:(unfold st; cbn; by rewrite Hreq)) as Hrun.
  unfold run in Hrun. unfold st at 1 in Hrun. cbn [lconn read_buf set_read_buf] in Hrun. rewrite Hrun.
  unfold st. cbn [lticks lworld lconn conn_state set_read_buf]. rewrite H4.
  destruct (serve_at i args w (conn_state c0)) as [[r w'] cs] eqn:Hs.
  destruct r as [r|]; [|by exists None, w', cs, (mkLoopState (set_conn_state (set_read_buf c []) cs) w' (S i))].
  set (c1 := push_reply _ r).
  assert (Hc1 : cursor_ok c1 ∧ unsent c1 = to_bytes r).
  { unfold c1. split; [by apply cursor_push|]. rewrite unsent_push by done.
    unfold unsent in *. cbn. by rewrite H3. }
  destruct Hc1 as [Hcur Hu]. cbn [lconn lworld lticks]. rewrite Hu.
  exists (Some r), w', cs. destruct (Z.ltb_spec MAX_PENDING_WRITE_BYTES (len (to_bytes r)));
    [by exists (mkLoopState c1 w' (S i))|].
  assert (Hrep : replied c0 r cs c1).
  { split_and!; try done; [by rewrite Hu; unfold c1; cbn; rewrite H2|by rewrite Hu]. }
  destruct (flush_writes ws c1) as [o c'] eqn:Hf.
  destruct (replied_flush ws c0 r cs c1 o c' Hws Hrep Hf) as [Hk Hrep'].
  exists (mkLoopState c' w' (S i)). rewrite Hk. by split_and!.
Qed.

(** ... and after the reply. *)
Lemma serve_replied ws c0 r cs c w i :
  forallb good_write ws = true → replied c0 r cs c →
  ∃ c', service_connection env [] ws (mkLoopState c w i) = (Some true, mkLoopState c' w i) ∧
    replied c0 r cs c'.
Proof.
  intros Hws Hrep. unfold service_connection. cbn [lconn lworld lticks read_loop negb].
  assert (Hbuf : read_buf c = []) by apply Hrep. rewrite Hbuf.
  assert (Hc : replied c0 r cs (set_read_buf c [])) by (unfold replied in *; cbn; tauto).
  cbn [length command_loop lconn set_read_buf read_buf parse_command].
  destruct Hc as (? & ? & ? & ? & ? & Hl). rewrite (proj2 (Z.ltb_ge _ _)) by exact Hl.
  destruct (flush_writes ws (set_read_buf c [])) as [o c'] eqn:Hf.
  destruct (replied_flush ws c0 r cs (set_read_buf c []) o c') as [Hk Hrep']; [done|by split_and!|done|].
  exists c'. by rewrite Hk.
Qed.

(** *** Events *)

Lemma accept_other accepts t : ∀ s s',
  accept_loop accepts s = Some s' → 0 <= t < next_token s →
  next_token s + Z.of_nat (length accepts) <= u64_max →
  conns s' !! t = conns s !! t ∧ world s' = world s ∧
  next_token s <= next_token s' <= next_token s + Z.of_nat (length accepts).
Proof.
  assert (Hsame : ∀ s n, conns s !! t = conns s !! t ∧ world s = world s ∧
    next_token s <= next_token s <= next_token s + Z.of_nat n) by (intros; split; [done|]; split; [done|lia]).
  induction accepts as [|[nd reg|] accepts IH]; intros s s'; cbn [accept_loop];
    [intros [= <-]; by intros| |intros [= <-]; by intros].
  destruct nd; cbn [negb length]; [|done]. intros Hs Ht Hb.
  rewrite wrap_u64_small in Hs by lia. rewrite Nat2Z.inj_succ in *.
  apply IH in Hs as (Hc & Hw & Hn); [|destruct reg; cbn [next_token set_conns]; lia..].
  rewrite Hc, Hw. destruct reg; cbn [conns set_conns world next_token] in *.
  - rewrite lookup_insert_ne by lia. split; [done|]. split; [done|lia].
  - split; [done|]. split; [done|lia].
Qed.

Lemma settle_self token keep ok c (m : gmap Z (Conn C)) :
  settle token keep ok c m !! token = if keep then Some (reconcile_interest ok c) else None.
Proof. unfold settle. destruct keep; [apply lookup_insert_eq|apply lookup_delete_eq]. Qed.

Lemma conn_event_next token r w rs ws ok s s' :
  step_event env (EvConn token r w rs ws ok) s = Some s' → next_token s' = next_token s.
Proof.
  cbn [step_event]. destruct (w && negb r); intros [= <-]; [unfold writable_event|unfold fenced_event];
    (destruct (conns s !! token) as [c|]; [|done]).
  - by destruct (flush_writes ws c).
  - by destruct (service_connection _ _ _ _).
Qed.

(** Any event: the connection stays unless the event is on it. *)
Lemma step_elsewhere t e s s' :
  step_event env e s = Some s' → 0 <= t < next_token s →
  next_token s + Z.of_nat (event_accepts e) <= u64_max →
  next_token s <= next_token s' <= next_token s + Z.of_nat (event_accepts e) ∧
  (match e with EvConn token _ _ _ _ _ => token ≠ t | EvListener _ => True end →
   conns s' !! t = conns s !! t).
Proof.
  intros Hst Ht Hb. destruct e as [accepts|token r w rs ws ok]; cbn [event_accepts] in *.
  - destruct (accept_other accepts t s s' Hst Ht Hb) as (Hc & _ & Hn). by split.
  - rewrite (conn_event_next _ _ _ _ _ _ _ _ Hst). split; [lia|]. intros Hne.
    revert Hst. cbn [step_event]. destruct (w && negb r); intros [= <-];
      [unfold writable_event|unfold fenced_event]; (destruct (conns s !! token) as [c|]; [|done]).
    + destruct (flush_writes ws c). by apply settle_other.
    + destruct (service_connection _ _ _ _). by apply settle_other.
Qed.

Lemma quiet_elsewhere t e s s' :
  match e with EvConn token _ _ _ _ _ => token ≠ t | EvListener _ => True end → quiet_step t e s s'.
Proof. by destruct e. Qed.

Lemma input_elsewhere t e :
  match e with EvConn token _ _ _ _ _ => token ≠ t | EvListener _ => True end → event_input t e = [].
Proof.
  destruct e as [|token r w rs ws ok]; [done|]. intros Hne. cbn [event_input].
  by rewrite (proj2 (Z.eqb_neq token t)) by done.
Qed.

(** Whether an event is on the connection. *)
Lemma event_on t e :
  (match e with EvConn token _ _ _ _ _ => token ≠ t | EvListener _ => True end) ∨
  ∃ r w rs ws ok, e = EvConn t r w rs ws ok.
Proof.
  destruct e as [|token r w rs ws ok]; [by left|].
  destruct (decide (token = t)) as [->|]; [right; by exists r, w, rs, ws, ok|by left].
Qed.

Definition waiting_at (t : Z) (c0 : Conn C) (got : bytes) s : Prop :=
  ∃ c, conns s !! t = Some c ∧ waiting c0 got c.

(** An event for writing only, on a connection that owes nothing ... *)
Lemma waiting_writable t c0 got s ws ok :
  waiting_at t c0 got s → waiting_at t c0 got (writable_event t ws ok s).
Proof.
  intros (c & Hk & Hw). unfold writable_event. rewrite Hk.
  destruct (flush_writes ws c) as [o c'] eqn:Hf.
  destruct (waiting_flush ws c0 got c o c' Hw Hf) as [-> Hw'].
  exists (reconcile_interest ok c'). split; [|by apply waiting_reconcile].
  cbn [conns set_conns keep_after_flush]. rewrite settle_self.
  by assert (close_after_flush c' = false) as -> by apply Hw'.
Qed.

(** ... and on one that has been answered. *)
Lemma settled_writable t c0 r cs s ws ok :
  settled t c0 r cs s → forallb good_write ws = true → settled t c0 r cs (writable_event t ws ok s).
Proof.
  intros Hs Hws. unfold writable_event. destruct (conns s !! t) as [c|] eqn:Hk; [|exact Hs].
  destruct r as [r|]; [|cbn in Hs; congruence]. unfold settled in *.
  case_decide; [|congruence]. destruct Hs as (c1 & Hk1 & Hrep). rewrite Hk in Hk1. injection Hk1 as <-.
  destruct (flush_writes ws c) as [o c'] eqn:Hf.
  destruct (replied_flush ws c0 r cs c o c' Hws Hrep Hf) as [Hkeep Hrep'].
  exists (reconcile_interest ok c'). split; [|by apply replied_reconcile].
  cbn [conns set_conns]. by rewrite settle_self, Hkeep.
Qed.

Lemma writable_quiet t ws ok s : world (writable_event t ws ok s) = world s ∧
  ticks (writable_event t ws ok s) = ticks s.
Proof. unfold writable_event. destruct (conns s !! t) as [c|]; [|done]. by destruct (flush_writes ws c). Qed.

(** An event before the last byte. *)
Lemma wait_step t args c0 got e s s' more :
  args_ok args = true → waiting_at t c0 got s → good_event t e = true →
  0 <= t < next_token s → next_token s + Z.of_nat (event_accepts e) <= u64_max →
  encode_command args = (got ++ event_input t e) ++ more → more ≠ [] → step_event env e s = Some s' →
  waiting_at t c0 (got ++ event_input t e) s' ∧ quiet_step t e s s'.
Proof.
  intros Hargs Hw Hg Ht Hb Hreq Hne Hst.
  destruct (event_on t e) as [He|(r & w & rs & ws & ok & ->)].
  - rewrite (input_elsewhere _ _ He), app_nil_r. split; [|by apply quiet_elsewhere].
    unfold waiting_at. by rewrite (proj2 (step_elsewhere t e s s' Hst Ht Hb) He).
  - cbn [good_event event_input step_event quiet_step] in *. rewrite Z.eqb_refl in *. cbn [negb orb andb] in *.
    apply andb_true_iff in Hg as [Hrs Hws]. destruct (w && negb r); cbn [negb] in *; injection Hst as <-.
    + rewrite app_nil_r. split; [by apply waiting_writable|]. intros _. apply writable_quiet.
    + destruct Hw as (c & Hk & Hw). unfold fenced_event. rewrite Hk.
      destruct (serve_waiting args rs ws c0 got c (world s) (ticks s) Hargs Hw Hrs) as (c' & Hout & Hw');
        [by exists more|]. rewrite Hout. split; [|done].
      exists (reconcile_interest ok c'). cbn [conns lconn]. rewrite settle_self.
      split; [done|by apply waiting_reconcile].
Qed.

(** The event that brings it. *)
Lemma complete_step t args c0 got e s s' :
  ordinary args → waiting_at t c0 got s → good_event t e = true →
  encode_command args = got ++ event_input t e → got ≠ encode_command args → step_event env e s = Some s' →
  ∃ r cs, serve_at (ticks s) args (world s) (conn_state c0) = (r, world s', cs) ∧
    ticks s' = S (ticks s) ∧ settled t c0 r cs s'.
Proof.
  intros Hord (c & Hk & Hw) Hg Hreq Hne Hst.
  destruct (event_on t e) as [He|(rd & wr & rs & ws & ok & ->)].
  { rewrite (input_elsewhere _ _ He), app_nil_r in Hreq. congruence. }
  cbn [good_event event_input step_event] in *. rewrite Z.eqb_refl in *. cbn [negb orb andb] in *.
  apply andb_true_iff in Hg as [Hrs Hws].
  destruct (wr && negb rd); cbn [negb] in *; [rewrite app_nil_r in Hreq; congruence|].
  injection Hst as <-. unfold fenced_event. rewrite Hk.
  destruct (serve_complete args rs ws c0 got c (world s) (ticks s) Hord Hw Hrs Hws Hreq)
    as (r & w' & cs & st & Hs & Hw' & Hticks & Hout).
  exists r, cs. rewrite Hs. subst w'. destruct r as [r|]; [|rewrite Hout; cbn [settled conns world ticks]].
  - unfold settled. case_decide as Hl.
    + rewrite (proj2 (Z.ltb_ge _ _) Hl) in Hout. destruct Hout as [-> Hrep]. split; [done|]. split; [done|].
      exists (reconcile_interest ok (lconn st)). cbn [conns]. rewrite settle_self.
      split; [done|by apply replied_reconcile].
    + rewrite (proj2 (Z.ltb_lt _ _)) in Hout by lia. rewrite Hout. split; [done|]. split; [done|].
      cbn [conns]. by rewrite settle_self.
  - split; [done|]. split; [done|]. by rewrite settle_self.
Qed.

(** An event after it. *)
Lemma after_step t c0 r cs e s s' :
  settled t c0 r cs s → good_event t e = true →
  0 <= t < next_token s → next_token s + Z.of_nat (event_accepts e) <= u64_max →
  event_input t e = [] → step_event env e s = Some s' →
  settled t c0 r cs s' ∧ quiet_step t e s s'.
Proof.
  intros Hs Hg Ht Hb Hin Hst. destruct (event_on t e) as [He|(rd & wr & rs & ws & ok & ->)].
  { split; [|by apply quiet_elsewhere]. unfold settled in *.
    by rewrite (proj2 (step_elsewhere t e s s' Hst Ht Hb) He). }
  cbn [good_event event_input step_event quiet_step] in *. rewrite Z.eqb_refl in *. cbn [negb orb andb] in *.
  apply andb_true_iff in Hg as [Hrs Hws].
  destruct (wr && negb rd); cbn [negb] in *; injection Hst as <-.
  { split; [by apply settled_writable|]. intros _. apply writable_quiet. }
  assert (rs = []) as -> by by destruct rs as [|[[|b d]| |] rs].
  unfold fenced_event. destruct (conns s !! t) as [c|] eqn:Hk; [|by split].
  destruct r as [r|]; [|cbn in Hs; congruence]. unfold settled in *. case_decide; [|congruence].
  destruct Hs as (c1 & Hk1 & Hrep). rewrite Hk in Hk1. injection Hk1 as <-.
  destruct (serve_replied ws c0 r cs c (world s) (ticks s) Hws Hrep) as (c' & Hout & Hrep').
  rewrite Hout. split; [|done]. exists (reconcile_interest ok c'). cbn [conns lconn]. rewrite settle_self.
  split; [done|by apply replied_reconcile].
Qed.

(** *** Sequences of events *)

Lemma call_input_cons t e es : call_input t (e :: es) = event_input t e ++ call_input t es.
Proof. done. Qed.

Lemma after_steps t c0 r cs es : ∀ s s',
  settled t c0 r cs s → forallb (good_event t) es = true →
  0 <= t < next_token s → next_token s + Z.of_nat (call_accepts es) <= u64_max →
  call_input t es = [] → step_events env es s = Some s' → settled t c0 r cs s' ∧ quiet_on t es s.
Proof.
  induction es as [|e es IH]; intros s s' Hs Hg Ht Hb Hin Hrun; cbn [step_events quiet_on] in *;
    [by injection Hrun as <-|].
  destruct (step_event env e s) as [s1|] eqn:Hst; [|done]. cbn [mbind option_bind] in Hrun.
  cbn [forallb] in Hg. apply andb_true_iff in Hg as [Hg Hgs].
  rewrite call_input_cons in Hin. apply app_eq_nil in Hin as [Hin Hins].
  change (call_accepts (e :: es)) with (event_accepts e + call_accepts es)%nat in Hb.
  destruct (step_elsewhere t e s s1 Hst Ht ltac:(lia)) as [Hn _].
  destruct (after_step t c0 r cs e s s1) as [Hs1 Hq]; try done; [lia|].
  destruct (IH s1 s' Hs1 Hgs) as [Hs' Hqs]; try done; lia.
Qed.

(** Before the last byte the request waits; with it, it is run. *)
Lemma call_steps t args c0 es : ∀ s s' got more,
  ordinary args → waiting_at t c0 got s → got ≠ encode_command args →
  forallb (good_event t) es = true →
  0 <= t < next_token s → next_token s + Z.of_nat (call_accepts es) <= u64_max →
  encode_command args = (got ++ call_input t es) ++ more → step_events env es s = Some s' →
  if decide (more = []) then
    ∃ before e after s1 s2 r cs,
      es = before ++ e :: after ∧
      got ++ call_input t before ≠ encode_command args ∧
      got ++ call_input t (before ++ [e]) = encode_command args ∧
      step_events env before s = Some s1 ∧ step_event env e s1 = Some s2 ∧
      step_events env after s2 = Some s' ∧ quiet_on t before s ∧ quiet_on t after s2 ∧
      serve_at (ticks s1) args (world s1) (conn_state c0) = (r, world s2, cs) ∧
      ticks s2 = S (ticks s1) ∧ settled t c0 r cs s'
  else waiting_at t c0 (got ++ call_input t es) s' ∧ quiet_on t es s.
Proof.
  induction es as [|e es IH]; intros s s' got more Hord Hw Hne Hg Ht Hb Hreq Hrun;
    cbn [step_events quiet_on] in *.
  { injection Hrun as <-. unfold call_input in *. cbn in *. rewrite app_nil_r in *.
    case_decide as Hm; [|done]. rewrite Hm, app_nil_r in Hreq. congruence. }
  destruct (step_event env e s) as [s1|] eqn:Hst; [|done]. cbn [mbind option_bind] in Hrun.
  cbn [forallb] in Hg. apply andb_true_iff in Hg as [Hg Hgs].
  rewrite call_input_cons in *. rewrite app_assoc in Hreq |- *.
  change (call_accepts (e :: es)) with (event_accepts e + call_accepts es)%nat in Hb.
  destruct (step_elsewhere t e s s1 Hst Ht ltac:(lia)) as [Hn _].
  destruct (decide (got ++ event_input t e = encode_command args)) as [Hlast|Hlast].
  - rewrite Hlast, <- app_assoc in Hreq. rewrite <- (app_nil_r (encode_command args)) in Hreq at 1.
    apply app_inv_head in Hreq. symmetry in Hreq. apply app_eq_nil in Hreq as [Hin ->].
    rewrite decide_True by done.
    destruct (complete_step t args c0 got e s s1 Hord Hw Hg (eq_sym Hlast) Hne Hst)
      as (r & cs & Hs & Htk & Hset).
    destruct (after_steps t c0 r cs es s1 s' Hset Hgs) as [Hset' Hq]; try done; [lia|lia|].
    exists [], e, es, s, s1, r, cs. unfold call_input. cbn. rewrite !app_nil_r. by split_and!.
  - assert (Hsplit : encode_command args = (got ++ event_input t e) ++ (call_input t es ++ more))
      by (rewrite Hreq, app_assoc; done).
    destruct (wait_step t args c0 got e s s1 (call_input t es ++ more)) as [Hw1 Hq]; try done;
      [apply Hord|lia|intros Hnil; rewrite Hnil, app_nil_r in Hsplit; congruence|].
    specialize (IH s1 s' _ more Hord Hw1 Hlast Hgs ltac:(lia) ltac:(lia) Hreq Hrun).
    case_decide; [|by destruct IH].
    destruct IH as (before & e' & after & s2 & s3 & r & cs & -> & H1 & H2 & H3 & H4 & H5 & H6 & H7 & H8).
    exists (e :: before), e', after, s2, s3, r, cs. rewrite !call_input_cons, !app_assoc. split_and!; try done.
    + cbn [app]. rewrite call_input_cons, app_assoc. exact H2.
    + cbn [step_events]. by rewrite Hst.
    + cbn [quiet_on]. by rewrite Hst.
    + apply H8.
    + apply H8.
    + apply H8.
Qed.

(** A connection that owes nothing and has read nothing. *)
Definition idle c : Prop :=
  read_buf c = [] ∧ unsent c = [] ∧ close_after_flush c = false ∧ cursor_ok c.

Lemma fresh_idle : idle fresh_conn.
Proof. split_and!; try done. unfold cursor_ok. cbn. lia. Qed.

Lemma idle_waits t s c : conns s !! t = Some c → idle c → waiting_at t c [] s.
Proof. intros Hc (H1 & H2 & H3 & H4). exists c. by split_and!. Qed.

Lemma request_nonempty args : [] ≠ encode_command args.
Proof. rewrite encode_command_eq. discriminate. Qed.

(** C7: a command (not QUIT, and within the protocol's limits) sent on an idle
    connection is executed exactly once when it has arrived, and not before.
    Over any sequence of events, whatever the other connections do and however
    the request and the reply are cut, as long as the connection's reads give
    data, its writes take some or would block or are interrupted
    ([good_event]), and the counter of tokens does not wrap around:
    while the request is incomplete the connection waits, and none of its
    events runs a command.  Once it is complete, the event that brought the last
    byte has run it, as one command on the state the server then had; no other
    event on the connection has run anything; and the bytes sent and owed since
    are those of its reply, or the connection is gone, because the command
    panicked or its reply exceeds the cap. *)
Theorem remote_call t args s c es s' more :
  conns s !! t = Some c → idle c → ordinary args →
  0 <= t < next_token s → next_token s + Z.of_nat (call_accepts es) <= u64_max →
  forallb (good_event t) es = true → encode_command args = call_input t es ++ more →
  step_events env es s = Some s' →
  if decide (more = []) then ∃ r cs, executed t args s c es s' r cs
  else waiting_at t c (call_input t es) s' ∧ quiet_on t es s.
Proof.
  intros Hc Hi Hord Ht Hb Hg Hreq Hrun.
  pose proof (call_steps t args c es s s' [] more Hord (idle_waits t s c Hc Hi)
    (request_nonempty args) Hg Ht Hb Hreq Hrun) as H.
  case_decide; [|exact H].
  destruct H as (before & e & after & s1 & s2 & r & cs & H). exists r, cs, before, e, after, s1, s2. exact H.
Qed.

(** C4: the call as the client sees it, while the sockets of the call work
    ([good_event]).  When the whole
    request has arrived and the connection owes nothing any more, the request
    was executed, once, and the client that reads what was sent, in any pieces,
    is given the reply of that execution, an error reply as an error; and both
    ends are ready for the next call. *)
Theorem remote_call_result `{RD : ReplyDebug} t args s c es s' c' :
  conns s !! t = Some c → idle c → ordinary args →
  0 <= t < next_token s → next_token s + Z.of_nat (call_accepts es) <= u64_max →
  forallb (good_event t) es = true → call_input t es = encode_command args →
  step_events env es s = Some s' → conns s' !! t = Some c' → unsent c' = [] →
  idle c' ∧ ∃ r, executed t args s c es s' (Some r) (conn_state c') ∧
    sent c' = sent c ++ to_bytes r ∧
    ∀ cl pieces rest, deliverable r = true → chunk_bytes pieces = to_bytes r →
      conn cl = Some (Client.mkConn (mkSocket (data_events pieces ++ rest) []) []) →
      command args cl = Some (call_result r,
        set_conn (deliver cl args) (Some (Client.mkConn (mkSocket rest []) []))).
Proof.
  intros Hc Hi Hord Ht Hb Hg Hin Hrun Hc' Hu.
  pose proof (call_steps t args c es s s' [] [] Hord (idle_waits t s c Hc Hi)
    (request_nonempty args) Hg Ht Hb) as H.
  rewrite decide_True in H by done. rewrite Hin, app_nil_r in H.
  destruct (H eq_refl Hrun) as (before & e & after & s1 & s2 & r & cs & H1 & H2 & H3 & H4 & H5 & H6 & H7
    & H8 & H9 & H10 & Hs). clear H.
  destruct r as [r|]; [|cbn in Hs; congruence]. pose proof Hs as Hset. unfold settled in Hs.
  case_decide; [|congruence]. destruct Hs as (c1 & Hk & Hrb & Hsent & <- & Hcl & Hcur & _).
  rewrite Hc' in Hk. injection Hk as <-. rewrite Hu, app_nil_r in Hsent.
  split; [by split_and!|]. exists r. split; [by exists before, e, after, s1, s2; split_and!|]. split; [done|].
  intros cl pieces rest Hd Hpieces Hk.
  by rewrite (command_chunks args cl (mkSocket (data_events pieces ++ rest) [])
    (Client.mkConn (mkSocket (data_events pieces ++ rest) []) []) r pieces rest).
Qed.
End call.

(** ** Instances *)

Section instances.
#[local] Instance no_unicode_case : UnicodeCase := λ c, c.
#[local] Instance entry_order : HashIter bytes Entry := listing_order bytes Entry.
#[local] Instance cursor_order : HashIter Z ScanState := listing_order Z ScanState.
#[local] Instance open_service : Service Store ConnState := dispatch_service None.
#[local] Instance no_debug : ReplyDebug := λ _, [].

(** The request in two reads, the reply in two flushes, and another client
    accepted and served in between. *)
Definition call_args : list bytes := [lit "SET"; lit "k"; lit "v"].
Definition call_events : list Event :=
  [EvConn 1 true false [ReadOk (take 7 (encode_command call_args))] [] true;
   EvListener [Accepted true true];
   EvConn 2 true false [ReadOk (encode_command [lit "GET"; lit "k"])] [WriteErr] true;
   EvConn 1 true false [ReadOk (drop 7 (encode_command call_args))] [Room 2] true;
   EvConn 1 false true [] [WriteInterrupted; Room 100] true].

Definition one_conn : Server :=
  default (server_new store_new) (step_event ticking accept_one (server_new store_new)).

Lemma call_well_formed :
  ordinary call_args ∧ 0 <= 1 < next_token one_conn ∧
  forallb (good_event 1) call_events = true ∧ call_input 1 call_events = encode_command call_args.
Proof. split_and!; by vm_compute. Qed.

Lemma remote_call_witness :
  (∃ s', step_events ticking (take 3 call_events) one_conn = Some s' ∧
    waiting_at 1 fresh_conn (take 7 (encode_command call_args)) s' ∧
    quiet_on ticking 1 (take 3 call_events) one_conn) ∧
  (∃ s' r cs, step_events ticking call_events one_conn = Some s' ∧
    executed ticking 1 call_args one_conn fresh_conn call_events s' r cs).
Proof.
  destruct call_well_formed as (Hord & Ht & Hg & Hin). split.
  - destruct (step_events ticking (take 3 call_events) one_conn) as [s'|] eqn:Hs;
      [|exfalso; by vm_compute in Hs].
    pose proof (remote_call ticking 1 call_args one_conn fresh_conn (take 3 call_events) s'
      (drop 7 (encode_command call_args))) as H.
    rewrite decide_False in H by by vm_compute.
    destruct H as [Hw Hq]; [vm_compute; reflexivity|apply fresh_idle|exact Hord|exact Ht
      |vm_compute; discriminate|vm_compute; reflexivity|vm_compute; reflexivity|exact Hs|].
    exists s'. split; [done|]. split; [|exact Hq].
    assert (call_input 1 (take 3 call_events) = take 7 (encode_command call_args)) as <-
      by (vm_compute; reflexivity). exact Hw.
  - destruct (step_events ticking call_events one_conn) as [s'|] eqn:Hs; [|exfalso; by vm_compute in Hs].
    pose proof (remote_call ticking 1 call_args one_conn fresh_conn call_events s' []) as H.
    rewrite decide_True in H by done.
    destruct H as (r & cs & H); [vm_compute; reflexivity|apply fresh_idle|exact Hord|exact Ht
      |vm_compute; discriminate|exact Hg|by rewrite Hin, app_nil_r|exact Hs|].
    exists s', r, cs. split; [done|exact H].
Defined.

Lemma remote_call_result_witness :
  ∃ cl', command call_args (holding (Client.mkConn (mkSocket (data_events (one_read reply_ok) ++ []) []) [])) =
    Some (Ok reply_ok, cl').
Proof.
  destruct call_well_formed as (Hord & Ht & Hg & Hin).
  destruct (step_events ticking call_events one_conn) as [s'|] eqn:Hs; [|exfalso; by vm_compute in Hs].
  destruct (conns s' !! 1) as [c'|] eqn:Hc'.
  2:{ exfalso. apply (f_equal (λ o, s ← o; conns s !! 1)) in Hs. cbn [mbind option_bind] in Hs.
      rewrite Hc' in Hs. by vm_compute in Hs. }
  assert (Hc : (s ← step_events ticking call_events one_conn; c ← conns s !! 1; Some (sent c, unsent c)) =
    Some (to_bytes reply_ok, [])) by by vm_compute.
  rewrite Hs in Hc. cbn [mbind option_bind] in Hc. rewrite Hc' in Hc. cbn [mbind option_bind] in Hc.
  injection Hc as Hsent Hunsent.
  destruct (remote_call_result ticking 1 call_args one_conn fresh_conn call_events s' c')
    as (_ & r & _ & Hr & Hcl);
    [vm_compute; reflexivity|apply fresh_idle|exact Hord|exact Ht|vm_compute; discriminate|exact Hg|exact Hin
    |exact Hs|exact Hc'|exact Hunsent|].
  assert (r = reply_ok) as ->.
    { rewrite Hsent in Hr. cbn [sent fresh_conn app] in Hr. destruct r as [m|m|n|[d|]|[items|]];
        try (vm_compute in Hr; discriminate Hr).
      - injection Hr as Hr. apply (app_inv_tail CRLF (lit "OK") m) in Hr. by subst m.
      - rewrite to_bytes_array in Hr. vm_compute in Hr. discriminate Hr. }
  eexists. by apply (Hcl _ (one_read reply_ok) []).
Defined.
End instances.
